(** * SCRAM fault-tree analysis core: Boolean graph, MOCUS driver, XML adaptors

    A shallow embedding of [boolean_graph.h], [mocus.cc] and the string and
    node adaptors of [xml.h], with the properties of the specification, and
    further properties of the code, stated and proved over it.

    Conventions.  A C++ [int] is a [Z]; none of the embedded functions of
    the graph does arithmetic on node indices or visit times beyond
    comparison, negation and [index - 1], so no wrap-around arises inside
    the asserted ranges.  Shared and weak pointers are addresses into one
    store ([gmap ptr Obj]); an object is in the store from its construction
    until the last shared pointer to it is destroyed.  An [assert] that
    fails, or the dereference of an end iterator, makes the embedded function
    return [None]. *)

From stdpp Require Import base option list gmap fin_sets fin_maps strings.
From Stdlib Require Import ZArith Lia Ascii.

#[local] Open Scope Z_scope.

(** ** Enumerations of [boolean_graph.h] *)

Inductive Operator :=
  | kAndGate | kOrGate | kAtleastGate | kXorGate
  | kNotGate | kNandGate | kNorGate | kNullGate.

Inductive State := kNormalState | kNullState | kUnityState.

#[global] Instance Operator_eq_dec : EqDecision Operator.
Proof. solve_decision. Defined.

#[global] Instance State_eq_dec : EqDecision State.
Proof. solve_decision. Defined.

(** ** [class Node]

    The nodes of the graph are managed by [boost::shared_ptr]: a gate owns
    its children through the shared pointers in its three maps, and a node
    knows its parents through weak pointers.  The number of shared pointers
    that own an object is kept by boost in a control block beside the
    object; here it is the field [use_count_] of the node.  A weak pointer
    is not counted. *)

Abbreviation ptr := positive.

Record Node := mkNode {
  index_ : Z;                (* int index_ *)
  visits_ : list Z;          (* int visits_[3] *)
  parents_ : gmap Z ptr;     (* unordered_map<int, weak_ptr<IGate>> *)
  opti_value_ : Z;
  use_count_ : nat           (* shared_ptr<...>::use_count() *)
}.

Definition set_visits (v : list Z) (n : Node) : Node :=
  mkNode (index_ n) v (parents_ n) (opti_value_ n) (use_count_ n).

Definition set_parents (p : gmap Z ptr) (n : Node) : Node :=
  mkNode (index_ n) (visits_ n) p (opti_value_ n) (use_count_ n).

Definition set_opti_value (val : Z) (n : Node) : Node :=
  mkNode (index_ n) (visits_ n) (parents_ n) val (use_count_ n).

Definition set_use_count (c : nat) (n : Node) : Node :=
  mkNode (index_ n) (visits_ n) (parents_ n) (opti_value_ n) c.

Module NodeOps.

(** [bool Node::Visit(int time)]: an [int] in a condition is true when it is
    not zero. *)
Definition Visit (time : Z) (n : Node) : option (bool * Node) :=
  if decide (time > 0) then
    if decide (visits_ n !!! 0%nat = 0) then
      Some (false, set_visits (<[0%nat:=time]> (visits_ n)) n)
    else if decide (visits_ n !!! 1%nat = 0) then
      Some (false, set_visits (<[1%nat:=time]> (visits_ n)) n)
    else
      Some (true, set_visits (<[2%nat:=time]> (visits_ n)) n)
  else None.

Definition EnterTime (n : Node) : Z := visits_ n !!! 0%nat.
Definition ExitTime (n : Node) : Z := visits_ n !!! 1%nat.

Definition LastVisit (n : Node) : Z :=
  if decide (visits_ n !!! 2%nat = 0) then visits_ n !!! 1%nat
  else visits_ n !!! 2%nat.

Definition Revisited (n : Node) : bool :=
  if decide (visits_ n !!! 2%nat = 0) then false else true.

Definition Visited (n : Node) : bool :=
  if decide (visits_ n !!! 0%nat = 0) then false else true.

(** [std::fill(visits_, visits_ + 3, 0)] *)
Definition ClearVisits (n : Node) : Node := set_visits [0; 0; 0] n.

(** [void Node::opti_value(int val)] *)
Definition opti_value (val : Z) (n : Node) : Node := set_opti_value val n.

(** A sequence of calls of [Visit] on one node, with the value each call
    returns. *)
Fixpoint visit_all (times : list Z) (n : Node) : option (list bool * Node) :=
  match times with
  | [] => Some ([], n)
  | t :: rest =>
      match Visit t n with
      | Some (r, n') =>
          match visit_all rest n' with
          | Some (rs, n'') => Some (r :: rs, n'')
          | None => None
          end
      | None => None
      end
  end.

End NodeOps.

(** ** [class IGate], and the store of graph nodes *)

Record IGate := mkIGate {
  type_ : Operator;
  state_ : State;
  vote_number_ : Z;
  mark_ : bool;
  min_time_ : Z;
  max_time_ : Z;
  module_ : bool;
  children_ : gset Z;                  (* std::set<int> children_ *)
  gate_children_ : gmap Z ptr;         (* unordered_map<int, IGatePtr> *)
  variable_children_ : gmap Z ptr;     (* unordered_map<int, VariablePtr> *)
  constant_children_ : gmap Z ptr;     (* unordered_map<int, ConstantPtr> *)
  num_failed_children_ : Z
}.

Definition set_type (t : Operator) (g : IGate) : IGate :=
  mkIGate t (state_ g) (vote_number_ g) (mark_ g) (min_time_ g) (max_time_ g)
    (module_ g) (children_ g) (gate_children_ g) (variable_children_ g)
    (constant_children_ g) (num_failed_children_ g).

Definition set_state (s : State) (g : IGate) : IGate :=
  mkIGate (type_ g) s (vote_number_ g) (mark_ g) (min_time_ g) (max_time_ g)
    (module_ g) (children_ g) (gate_children_ g) (variable_children_ g)
    (constant_children_ g) (num_failed_children_ g).

Definition set_vote_number (number : Z) (g : IGate) : IGate :=
  mkIGate (type_ g) (state_ g) number (mark_ g) (min_time_ g) (max_time_ g)
    (module_ g) (children_ g) (gate_children_ g) (variable_children_ g)
    (constant_children_ g) (num_failed_children_ g).

Definition set_mark (flag : bool) (g : IGate) : IGate :=
  mkIGate (type_ g) (state_ g) (vote_number_ g) flag (min_time_ g) (max_time_ g)
    (module_ g) (children_ g) (gate_children_ g) (variable_children_ g)
    (constant_children_ g) (num_failed_children_ g).

Definition set_min_time (time : Z) (g : IGate) : IGate :=
  mkIGate (type_ g) (state_ g) (vote_number_ g) (mark_ g) time (max_time_ g)
    (module_ g) (children_ g) (gate_children_ g) (variable_children_ g)
    (constant_children_ g) (num_failed_children_ g).

Definition set_max_time (time : Z) (g : IGate) : IGate :=
  mkIGate (type_ g) (state_ g) (vote_number_ g) (mark_ g) (min_time_ g) time
    (module_ g) (children_ g) (gate_children_ g) (variable_children_ g)
    (constant_children_ g) (num_failed_children_ g).

Definition set_module (b : bool) (g : IGate) : IGate :=
  mkIGate (type_ g) (state_ g) (vote_number_ g) (mark_ g) (min_time_ g) (max_time_ g)
    b (children_ g) (gate_children_ g) (variable_children_ g)
    (constant_children_ g) (num_failed_children_ g).

Definition set_children (ch : gset Z) (gc vc cc : gmap Z ptr) (g : IGate) : IGate :=
  mkIGate (type_ g) (state_ g) (vote_number_ g) (mark_ g) (min_time_ g)
    (max_time_ g) (module_ g) ch gc vc cc (num_failed_children_ g).

(** The three classes derived from [Node]. *)
Inductive Kind :=
  | IsConst (state : bool)
  | IsVariable
  | IsGate (g : IGate).

Record Obj := mkObj { node : Node; kind : Kind }.

Abbreviation Store := (gmap ptr Obj).

Definition as_gate (o : Obj) : option IGate :=
  match kind o with IsGate g => Some g | _ => None end.

(** A member function of [Node] called through the pointer [p], and a
    member function of [IGate] called on the gate at [self]. *)
Definition on_node (f : Node → option Node) (p : ptr) (σ : Store) : option Store :=
  match σ !! p with
  | Some (mkObj n k) =>
      match f n with
      | Some n' => Some (<[p := mkObj n' k]> σ)
      | None => None
      end
  | None => None
  end.

Definition on_gate (f : IGate → option IGate) (self : ptr) (σ : Store)
  : option Store :=
  match σ !! self with
  | Some (mkObj n (IsGate g)) =>
      match f g with
      | Some g' => Some (<[self := mkObj n (IsGate g')]> σ)
      | None => None
      end
  | _ => None
  end.

(** The largest element of a [std::set<int>], the one [rbegin()] points to. *)
Definition set_rbegin (X : gset Z) : option Z :=
  match elements X with
  | [] => None
  | x :: l => Some (foldr Z.max x l)
  end.

Module IGateOps.

(** The setters of [IGate], with their assertions. *)
Definition type (t : Operator) (g : IGate) : option IGate :=
  if decide (t = kAndGate ∨ t = kOrGate ∨ t = kNotGate ∨ t = kNullGate)
  then Some (set_type t g) else None.

Definition vote_number (number : Z) (g : IGate) : option IGate :=
  Some (set_vote_number number g).

Definition mark (flag : bool) (g : IGate) : option IGate := Some (set_mark flag g).

Definition min_time (time : Z) (g : IGate) : option IGate :=
  if decide (time > 0) then Some (set_min_time time g) else None.

Definition max_time (time : Z) (g : IGate) : option IGate :=
  if decide (time > 0) then Some (set_max_time time g) else None.

(** The body of [void IGate::EraseChild(int child)] up to its closing
    brace.  The three maps are searched with the signed [child] itself, in
    the order gate, constant, variable; the parent's own record is written
    before the child's [parents_].  The local [NodePtr node] takes the place
    of the pointer erased from the map, so the use count of the child is as
    before; the address [node] points to is returned with the store. *)
Definition unlink (self : ptr) (child : Z) (σ : Store) : option (ptr * Store) :=
  match σ !! self with
  | Some (mkObj n (IsGate g)) =>
      if decide (child ≠ 0 ∧ child ∈ children_ g) then
        let ch := children_ g ∖ {[child]} in
        let found :=
          match gate_children_ g !! child with
          | Some p =>
              Some (p, set_children ch (delete child (gate_children_ g))
                         (variable_children_ g) (constant_children_ g) g)
          | None =>
              match constant_children_ g !! child with
              | Some p =>
                  Some (p, set_children ch (gate_children_ g)
                             (variable_children_ g)
                             (delete child (constant_children_ g)) g)
              | None =>
                  match variable_children_ g !! child with
                  | Some p =>
                      Some (p, set_children ch (gate_children_ g)
                                 (delete child (variable_children_ g))
                                 (constant_children_ g) g)
                  | None => None
                  end
              end
          end in
        match found with
        | Some (p, g') =>
            let σ1 := <[self := mkObj n (IsGate g')]> σ in
            match σ1 !! p with
            | Some c =>
                if decide (index_ n ∈ dom (parents_ (node c))) then
                  Some (p, <[p := mkObj (set_parents
                                           (delete (index_ n) (parents_ (node c)))
                                           (node c))
                                        (kind c)]> σ1)
                else None
            | None => None
            end
        | None => None
        end
      else None
  | _ => None
  end.

Section release.
Context (release : ptr → Store → option Store).
(* what the destruction of a shared pointer does *)

(** [void IGate::EraseChild(int child)]: the body, and at the closing brace
    the destruction of the local [node]. *)
Definition EraseChild_with (self : ptr) (child : Z) (σ : Store) : option Store :=
  match unlink self child σ with
  | Some (node, σ') => release node σ'
  | None => None
  end.

(** The loop of [EraseAllChildren]: while [children_] is not empty, erase
    its last (largest) element.  The number of iterations is bounded by
    [fuel]; [None] also when the bound is reached with children left. *)
Fixpoint erase_loop (fuel : nat) (self : ptr) (σ : Store) : option Store :=
  match σ !! self with
  | Some (mkObj n (IsGate g)) =>
      match set_rbegin (children_ g) with
      | None => Some σ
      | Some child =>
          match fuel with
          | O => None
          | S fuel' =>
              match EraseChild_with self child σ with
              | Some σ' => erase_loop fuel' self σ'
              | None => None
              end
          end
      end
  | _ => None
  end.

(** The destructor of the object at [p]: for a gate [IGate::~IGate()], the
    assertion that no parent is left, then [EraseAllChildren], every
    iteration of which removes one element of [children_]; nothing for a
    variable or a constant. *)
Definition destructor_with (p : ptr) (σ : Store) : option Store :=
  match σ !! p with
  | Some (mkObj n (IsGate g)) =>
      if decide (parents_ n = ∅) then erase_loop (size (children_ g)) p σ else None
  | Some _ => Some σ
  | None => None
  end.

End release.

(** The destruction of a shared pointer to the object at [p]: the use count
    goes down by one; the last owner destroys the object, which runs its
    destructor and releases its storage.  Destructors nest, a gate that is
    destroyed erasing its children, which destroys those it alone owned;
    [depth] bounds the nesting.  A pointer to an object whose use count is 0
    cannot exist. *)
Fixpoint release (depth : nat) (p : ptr) (σ : Store) : option Store :=
  match σ !! p with
  | Some (mkObj n k) =>
      match use_count_ n with
      | O => None
      | S O =>
          match depth with
          | O => None
          | S depth' =>
              match destructor_with (release depth') p
                      (<[p := mkObj (set_use_count 0 n) k]> σ) with
              | Some σ' => Some (delete p σ')
              | None => None
              end
          end
      | S c => Some (<[p := mkObj (set_use_count c n) k]> σ)
      end
  | None => None
  end.

(** A destructor runs on an object of the store that no destructor is
    running on yet, so the number of objects bounds the nesting. *)
Definition reset (p : ptr) (σ : Store) : option Store := release (size σ) p σ.

(** The copy of a shared pointer to the object at [p], as a caller makes
    it to keep the object in being. *)
Definition copy (p : ptr) (σ : Store) : option Store :=
  on_node (λ n, Some (set_use_count (S (use_count_ n)) n)) p σ.

(** [void IGate::EraseChild(int child)] *)
Definition EraseChild (self : ptr) (child : Z) (σ : Store) : option Store :=
  EraseChild_with (release (size σ)) self child σ.

(** [void IGate::EraseAllChildren()]: every iteration removes one element
    of [children_], so its size bounds the number of iterations. *)
Definition EraseAllChildren (self : ptr) (σ : Store) : option Store :=
  match σ !! self with
  | Some (mkObj n (IsGate g)) =>
      erase_loop (release (size σ)) (size (children_ g)) self σ
  | _ => None
  end.

Definition write_state (s : State) (self : ptr) (σ : Store) : option Store :=
  match σ !! self with
  | Some (mkObj n (IsGate g)) =>
      if decide (state_ g = kNormalState)
      then Some (<[self := mkObj n (IsGate (set_state s g))]> σ)
      else None
  | _ => None
  end.

(** [void IGate::Nullify()] *)
Definition Nullify (self : ptr) (σ : Store) : option Store :=
  match write_state kNullState self σ with
  | Some σ' => EraseAllChildren self σ'
  | None => None
  end.

(** [void IGate::MakeUnity()] *)
Definition MakeUnity (self : ptr) (σ : Store) : option Store :=
  match write_state kUnityState self σ with
  | Some σ' => EraseAllChildren self σ'
  | None => None
  end.

(** [void IGate::TurnModule()] *)
Definition TurnModule (self : ptr) (σ : Store) : option Store :=
  match σ !! self with
  | Some (mkObj n (IsGate g)) =>
      if module_ g then None
      else Some (<[self := mkObj n (IsGate (set_module true g))]> σ)
  | _ => None
  end.

End IGateOps.

(** ** The child-adding operations of [IGate]

    [boolean_graph.h] declares [AddChild] (three overloads), [TransferChild],
    [ShareChild], [InvertChild], [InvertChildren], [JoinGate], [JoinNullGate]
    and the private [ProcessDuplicateChild] and [ProcessComplementChild];
    their bodies and the constructors are in [boolean_graph.cc], which is not
    part of the sources at hand. *)

(** What a modelled operation yields: a result, or a failed assertion. *)
Inductive Outcome (A : Type) :=
  | Done (a : A)
  | AssertFails.
Arguments Done {A} a.
Arguments AssertFails {A}.

(** The overload of [AddChild] is chosen by the static type of the pointer. *)
Inductive Overload := ofGate | ofVariable | ofConstant.

Definition overload_of (k : Kind) : Overload :=
  match k with
  | IsGate _ => ofGate
  | IsVariable => ofVariable
  | IsConst _ => ofConstant
  end.

#[global] Instance Overload_eq_dec : EqDecision Overload.
Proof. solve_decision. Defined.

(** The specification names, for a child that is added a second time or
    whose complement is there, a rewriting of an ATLEAST gate ("decrements
    effective k (replace with subgate)", "rewriting into OR of residual
    ATLEAST combinations") without giving the graph it yields, and it names
    nothing for a NOT or a NULL gate.  What [boolean_graph.cc] does to the
    graph in these cases is taken as a parameter: the gate, the signed index
    and the graph before, to the graph after. *)
Class Rewriting := {
  rewrite_duplicate : ptr → Z → Store → option Store;
  rewrite_complement : ptr → Z → Store → option Store
}.

Module Modelled.
Import IGateOps.

(** Modelled from the spec: the constructors [Variable()], [Constant(bool)]
    and [IGate(type)] ("reserve fresh index"); the node starts with no
    parents, cleared visits, and a gate in the normal state without
    children.  As the class documents, "one shared pointer exists for this
    gate": the one of the caller, who also chooses the address and the
    index. *)
Definition new_gate_record (type : Operator) : IGate :=
  mkIGate type kNormalState 0 false 0 0 false ∅ ∅ ∅ ∅ 0.

Definition new_node (p : ptr) (index : Z) (k : Kind) (σ : Store) : Store :=
  <[p := mkObj (mkNode index [0; 0; 0] ∅ 0 1) k]> σ.

Definition new_variable (p : ptr) (index : Z) := new_node p index IsVariable.
Definition new_constant (p : ptr) (index : Z) (b : bool) :=
  new_node p index (IsConst b).
Definition new_gate (p : ptr) (index : Z) (type : Operator) :=
  new_node p index (IsGate (new_gate_record type)).

(** Modelled from the spec: the state a gate collapses to when the
    complement of one of its children is added (x AND not x is the null
    set, x OR not x is unity, NAND and NOR the opposite, XOR constant 1);
    [None] for the gates that are rewritten instead. *)
Definition complement_state (t : Operator) : option State :=
  match t with
  | kAndGate | kNorGate => Some kNullState
  | kOrGate | kNandGate | kXorGate => Some kUnityState
  | kAtleastGate | kNotGate | kNullGate => None
  end.

(** Modelled from the spec: a constant child that alone decides the gate
    (false under AND, true under OR, and the same for NAND and NOR with the
    outcome inverted).  A negative [child] stands for the complement of the
    constant. *)
Definition absorbing_state (t : Operator) (k : Kind) (child : Z) : option State :=
  match k with
  | IsConst b =>
      let v := if decide (0 < child) then b else negb b in
      match t, v with
      | kAndGate, false => Some kNullState
      | kOrGate, true => Some kUnityState
      | kNandGate, false => Some kUnityState
      | kNorGate, true => Some kNullState
      | _, _ => None
      end
  | _ => None
  end.

Definition collapse (s : State) (self : ptr) (σ : Store) : option Store :=
  match s with
  | kNullState => Nullify self σ
  | kUnityState => MakeUnity self σ
  | kNormalState => Some σ
  end.

(** The insertion of a child that is neither there nor has its complement
    there: into [children_], into the map of its kind under the signed
    index, which copies the shared pointer, and the gate into the child's
    [parents_]. *)
Definition insert_child (self : ptr) (child : Z) (cp : ptr) (σ : Store)
  : option Store :=
  match σ !! self, σ !! cp with
  | Some (mkObj n (IsGate g)), Some c0 =>
      let ch := {[child]} ∪ children_ g in
      let g' :=
        match overload_of (kind c0) with
        | ofGate =>
            set_children ch (<[child := cp]> (gate_children_ g))
              (variable_children_ g) (constant_children_ g) g
        | ofVariable =>
            set_children ch (gate_children_ g)
              (<[child := cp]> (variable_children_ g)) (constant_children_ g) g
        | ofConstant =>
            set_children ch (gate_children_ g) (variable_children_ g)
              (<[child := cp]> (constant_children_ g)) g
        end in
      let σ1 := <[self := mkObj n (IsGate g')]> σ in
      match σ1 !! cp with
      | Some c =>
          Some (<[cp := mkObj (set_use_count (S (use_count_ (node c)))
                                 (set_parents (<[index_ n := self]> (parents_ (node c)))
                                    (node c)))
                              (kind c)]> σ1)
      | None => None
      end
  | _, _ => None
  end.

Section operations.
Context `{!Rewriting}.

(** Modelled from the spec: [ProcessDuplicateChild], the addition of a
    child that is already there with the same sign: nothing to do for AND,
    OR, NAND and NOR, constant 0 for XOR, the rewriting for the others.  As
    its declaration documents, it returns [false] when the gate ends null or
    unity and [true] when it stays normal. *)
Definition ProcessDuplicateChild (self : ptr) (index : Z) (σ : Store)
  : Outcome (bool * Store) :=
  match σ !! self with
  | Some (mkObj n (IsGate g)) =>
      match type_ g with
      | kAndGate | kOrGate | kNandGate | kNorGate => Done (true, σ)
      | kXorGate =>
          match Nullify self σ with
          | Some σ' => Done (false, σ')
          | None => AssertFails
          end
      | kAtleastGate | kNotGate | kNullGate =>
          match rewrite_duplicate self index σ with
          | Some σ' => Done (true, σ')
          | None => AssertFails
          end
      end
  | _ => AssertFails
  end.

(** Modelled from the spec: [ProcessComplementChild], the addition of the
    complement of an existing child; same convention for the returned
    value as [ProcessDuplicateChild]. *)
Definition ProcessComplementChild (self : ptr) (index : Z) (σ : Store)
  : Outcome (bool * Store) :=
  match σ !! self with
  | Some (mkObj n (IsGate g)) =>
      match complement_state (type_ g) with
      | Some s =>
          match collapse s self σ with
          | Some σ' => Done (false, σ')
          | None => AssertFails
          end
      | None =>
          match rewrite_complement self index σ with
          | Some σ' => Done (true, σ')
          | None => AssertFails
          end
      end
  | _ => AssertFails
  end.

(** Modelled from the spec: [AddChild(child, pointer)], one definition for
    the three overloads, [ov] being the overload called.  The asserted
    structural preconditions are that [child] is the index of the node
    pointed to, with a sign, and that the pointer has the overload's type.
    The state of the gate is not looked at: "This function does not indicate
    error for future additions in case the state is nulled or becomes
    unity."  The returned value is "the gate became constant". *)
Definition AddChild (ov : Overload) (self : ptr) (child : Z) (cp : ptr)
    (σ : Store) : Outcome (bool * Store) :=
  match σ !! self, σ !! cp with
  | Some (mkObj n (IsGate g)), Some c =>
      if decide (child ≠ 0 ∧ Z.abs child = index_ (node c)
                 ∧ overload_of (kind c) = ov) then
        if decide (child ∈ children_ g) then
          match ProcessDuplicateChild self child σ with
          | Done (r, σ') => Done (negb r, σ')
          | AssertFails => AssertFails
          end
        else if decide (- child ∈ children_ g) then
          match ProcessComplementChild self child σ with
          | Done (r, σ') => Done (negb r, σ')
          | AssertFails => AssertFails
          end
        else
          match absorbing_state (type_ g) (kind c) child with
          | Some s =>
              match collapse s self σ with
              | Some σ' => Done (true, σ')
              | None => AssertFails
              end
          | None =>
              match insert_child self child cp σ with
              | Some σ' => Done (false, σ')
              | None => AssertFails
              end
          end
      else AssertFails
  | _, _ => AssertFails
  end.

Definition AddChild_gate := AddChild ofGate.
Definition AddChild_variable := AddChild ofVariable.
Definition AddChild_constant := AddChild ofConstant.

(** The pointer a gate holds for a child, looked up like [EraseChild]
    does. *)
Definition child_pointer (g : IGate) (child : Z) : option ptr :=
  match gate_children_ g !! child with
  | Some p => Some p
  | None =>
      match constant_children_ g !! child with
      | Some p => Some p
      | None => variable_children_ g !! child
      end
  end.

(** Modelled from the spec: [ShareChild], "alias a child to another gate,
    updating parent back-refs". *)
Definition ShareChild (self : ptr) (child : Z) (recipient : ptr) (σ : Store)
  : Outcome (bool * Store) :=
  match σ !! self with
  | Some (mkObj n (IsGate g)) =>
      match child_pointer g child with
      | Some cp =>
          match σ !! cp with
          | Some c => AddChild (overload_of (kind c)) recipient child cp σ
          | None => AssertFails
          end
      | None => AssertFails
      end
  | _ => AssertFails
  end.

(** Modelled from the spec: [TransferChild], "move a child to another
    gate, updating parent back-refs": the child is added to the recipient
    and leaves this gate; it is added first, so that it has an owner
    throughout. *)
Definition TransferChild (self : ptr) (child : Z) (recipient : ptr) (σ : Store)
  : Outcome (bool * Store) :=
  match ShareChild self child recipient σ with
  | Done (r, σ1) =>
      match EraseChild self child σ1 with
      | Some σ2 => Done (r, σ2)
      | None => AssertFails
      end
  | AssertFails => AssertFails
  end.

(** The children of the coalesced gate are added one by one, with their
    signs, until the gate becomes constant. *)
Fixpoint join_loop (self : ptr) (todo : list (Z * ptr)) (σ : Store)
  : Outcome (bool * Store) :=
  match todo with
  | [] => Done (true, σ)
  | (child, cp) :: rest =>
      match σ !! cp with
      | Some c =>
          match AddChild (overload_of (kind c)) self child cp σ with
          | Done (true, σ') => Done (false, σ')
          | Done (false, σ') => join_loop self rest σ'
          | AssertFails => AssertFails
          end
      | None => AssertFails
      end
  end.

(** Modelled from the spec: [JoinGate], "coalesce a same-type child into
    parent; preserves child signs; does not validate type compatibility".
    The child gate, a positive child, leaves the children of this gate and
    its own children are added; the caller's pointer [child_gate] keeps the
    child gate in being meanwhile.  As its declaration documents, it returns
    [true] when the gate ends in the normal state. *)
Definition JoinGate (self : ptr) (child_gate : ptr) (σ : Store)
  : Outcome (bool * Store) :=
  match σ !! self, σ !! child_gate with
  | Some (mkObj n (IsGate g)), Some (mkObj cn (IsGate cg)) =>
      let todo :=
        map_to_list (gate_children_ cg) ++ map_to_list (variable_children_ cg)
          ++ map_to_list (constant_children_ cg) in
      match EraseChild self (index_ cn) σ with
      | Some σ1 => join_loop self todo σ1
      | None => AssertFails
      end
  | _, _ => AssertFails
  end.

(** [void IGate::CopyChildren(const IGatePtr& gate)], whose body is in the
    header: the assertion that this gate has no children, [AddChild] of the
    gate itself ("a hack to keep the parent information updated") and
    [JoinGate]; the values they return are dropped. *)
Definition CopyChildren (self : ptr) (gate : ptr) (σ : Store) : Outcome Store :=
  match σ !! self, σ !! gate with
  | Some (mkObj n (IsGate g)), Some (mkObj gn (IsGate gg)) =>
      if decide (children_ g = ∅) then
        match AddChild ofGate self (index_ gn) gate σ with
        | Done (_, σ1) =>
            match JoinGate self gate σ1 with
            | Done (_, σ2) => Done σ2
            | AssertFails => AssertFails
            end
        | AssertFails => AssertFails
        end
      else AssertFails
  | _, _ => AssertFails
  end.

(** Modelled from the spec: [JoinNullGate], documented as "Swaps a single
    child of a NULL type child gate", with "the sign of the child" taken
    into account: the only child of the NULL gate held under [index] is
    added to this gate, complemented when [index] is negative, and the NULL
    gate leaves the children.  It returns [true] when the gate ends in the
    normal state. *)
Definition JoinNullGate (self : ptr) (index : Z) (σ : Store)
  : Outcome (bool * Store) :=
  match σ !! self with
  | Some (mkObj n (IsGate g)) =>
      match gate_children_ g !! index with
      | Some null_gate =>
          match σ !! null_gate with
          | Some (mkObj nn (IsGate ng)) =>
              match map_to_list (gate_children_ ng ∪ constant_children_ ng
                                   ∪ variable_children_ ng) with
              | [(k, cp)] =>
                  match σ !! cp with
                  | Some c =>
                      if decide (type_ ng = kNullGate) then
                        match AddChild (overload_of (kind c)) self
                                (if decide (0 < index) then k else - k) cp σ with
                        | Done (true, σ1) => Done (false, σ1)
                        | Done (false, σ1) =>
                            match EraseChild self index σ1 with
                            | Some σ2 => Done (true, σ2)
                            | None => AssertFails
                            end
                        | AssertFails => AssertFails
                        end
                      else AssertFails
                  | None => AssertFails
                  end
              | _ => AssertFails
              end
          | _ => AssertFails
          end
      | None => AssertFails
      end
  | _ => AssertFails
  end.

End operations.

(** Modelled from the spec: [InvertChild], "Replaces a child with the
    complement of it": the child is kept under the opposite signed index,
    in [children_] and in the map of its kind. *)
Definition rekey (k : Z) (m : gmap Z ptr) : gmap Z ptr :=
  match m !! k with
  | Some p => <[- k := p]> (delete k m)
  | None => m
  end.

Definition InvertChild (existing_child : Z) (g : IGate) : option IGate :=
  if decide (existing_child ∈ children_ g ∧ - existing_child ∉ children_ g) then
    Some (set_children ({[- existing_child]} ∪ children_ g ∖ {[existing_child]})
            (rekey existing_child (gate_children_ g))
            (rekey existing_child (variable_children_ g))
            (rekey existing_child (constant_children_ g)) g)
  else None.

#[global] Instance opp_inj : Inj (=) (=) Z.opp.
Proof. intros x y ?. lia. Qed.

(** Modelled from the spec: [InvertChildren], "Makes all children complement
    of themselves". *)
Definition InvertChildren (g : IGate) : option IGate :=
  Some (set_children (set_map Z.opp (children_ g))
          (kmap Z.opp (gate_children_ g)) (kmap Z.opp (variable_children_ g))
          (kmap Z.opp (constant_children_ g)) g).

End Modelled.

(** ** Well-formed graphs *)

Definition map_of (ov : Overload) (g : IGate) : gmap Z ptr :=
  match ov with
  | ofGate => gate_children_ g
  | ofVariable => variable_children_ g
  | ofConstant => constant_children_ g
  end.

(** All the children of a gate with their pointers, whatever the kind. *)
Definition kids (g : IGate) : gmap Z ptr :=
  gate_children_ g ∪ constant_children_ g ∪ variable_children_ g.

(** What holds of the members of one gate: the three maps are keyed by the
    signed children and partition [children_]; no child is 0 or present with
    both signs. *)
Record gate_wf (g : IGate) : Prop := {
  wf_gc : gate_children_ g ##ₘ constant_children_ g;
  wf_gv : gate_children_ g ##ₘ variable_children_ g;
  wf_cv : constant_children_ g ##ₘ variable_children_ g;
  wf_children : children_ g = dom (kids g);
  wf_nonzero : 0 ∉ children_ g;
  wf_no_complement : ∀ k, k ∈ children_ g → - k ∉ children_ g
}.

(** The graph invariant: indices are positive and unique; a child pointer
    kept under key [k] in the map of some kind leads to a node of that kind
    with index [|k|]; a node has the index of a gate among the keys of its
    [parents_] exactly when that gate holds a pointer to it; a parent entry
    leads back to the gate with that index; and the shared pointers of the
    parents are counted in the use count, so that the use count of a node
    is at least the number of its parents. *)
Record graph_inv (σ : Store) : Prop := {
  inv_gate : ∀ p n g, σ !! p = Some (mkObj n (IsGate g)) → gate_wf g;
  inv_index_pos : ∀ p o, σ !! p = Some o → 0 < index_ (node o);
  inv_index_inj : ∀ p q o o',
    σ !! p = Some o → σ !! q = Some o' →
    index_ (node o) = index_ (node o') → p = q;
  inv_child : ∀ p n g ov k q,
    σ !! p = Some (mkObj n (IsGate g)) → map_of ov g !! k = Some q →
    ∃ c, σ !! q = Some c ∧ index_ (node c) = Z.abs k ∧ overload_of (kind c) = ov;
  inv_parents : ∀ p n g q c,
    σ !! p = Some (mkObj n (IsGate g)) → σ !! q = Some c →
    (index_ n ∈ dom (parents_ (node c)) ↔ ∃ k, kids g !! k = Some q);
  inv_parent_ptr : ∀ q c i p,
    σ !! q = Some c → parents_ (node c) !! i = Some p →
    ∃ n g, σ !! p = Some (mkObj n (IsGate g)) ∧ index_ n = i;
  inv_count : ∀ q c,
    σ !! q = Some c → (size (parents_ (node c)) ≤ use_count_ (node c))%nat
}.

(** A gate that is not in the normal state has no children. *)
Definition constant_inv (σ : Store) : Prop :=
  ∀ p n g, σ !! p = Some (mkObj n (IsGate g)) →
    state_ g ≠ kNormalState → children_ g = ∅.

Definition well_formed (σ : Store) : Prop := graph_inv σ ∧ constant_inv σ.

(** What the specification says of the rewritings: the invariants of the
    graph hold after them as before, and the gate is rewritten, not
    collapsed, so it is there afterwards in the state it had. *)
Class RewritingSpec `{!Rewriting} : Prop := {
  rewrite_graph_inv : ∀ self index σ σ',
    rewrite_duplicate self index σ = Some σ'
    ∨ rewrite_complement self index σ = Some σ' →
    graph_inv σ → graph_inv σ';
  rewrite_constant_inv : ∀ self index σ σ',
    rewrite_duplicate self index σ = Some σ'
    ∨ rewrite_complement self index σ = Some σ' →
    constant_inv σ → constant_inv σ';
  rewrite_state : ∀ self index σ σ' n g,
    rewrite_duplicate self index σ = Some σ'
    ∨ rewrite_complement self index σ = Some σ' →
    σ !! self = Some (mkObj n (IsGate g)) →
    ∃ n' g', σ' !! self = Some (mkObj n' (IsGate g')) ∧ state_ g' = state_ g
}.

(** A rewriting that leaves the graph as it is; it stands in where a
    concrete graph library is needed, for graphs in which no rewriting is
    called for. *)
Definition leave_graph : Rewriting :=
  {| rewrite_duplicate _ _ σ := Some σ; rewrite_complement _ _ σ := Some σ |}.

(** The number of shared pointers to a node that are held outside the
    graph, by the callers: those that are not the pointer of a parent. *)
Definition outside (o : Obj) : nat :=
  use_count_ (node o) - size (parents_ (node o)).

(** The objects that are owned: a destructor is running on the others. *)
Definition alive (σ : Store) : nat :=
  size (filter (λ po : ptr * Obj, (0 < use_count_ (node po.2))%nat) σ).

(** The equivalence between children and parents, in the words of the
    specification: node [c] is a child of gate [g], with either sign, exactly
    when the index of [g] is a key of the parents of [c]. *)
Definition parent_child_equiv (σ : Store) : Prop :=
  ∀ p n g q c,
    σ !! p = Some (mkObj n (IsGate g)) → σ !! q = Some c →
    (index_ (node c) ∈ children_ g ∨ - index_ (node c) ∈ children_ g)
    ↔ index_ n ∈ dom (parents_ (node c)).

(** The signed index under which [c] is a child is a key of exactly one of
    the three maps. *)
Definition in_one_map (g : IGate) (k : Z) : Prop :=
  ∃ ov, k ∈ dom (map_of ov g) ∧ ∀ ov', k ∈ dom (map_of ov' g) → ov' = ov.

Definition signed_key_equiv (σ : Store) : Prop :=
  ∀ p n g k,
    σ !! p = Some (mkObj n (IsGate g)) →
    (k ∈ children_ g ↔ in_one_map g k).

(** The reading with the maps keyed by the unsigned index: node [c] is a
    child, with either sign, exactly when its index is a key of exactly one
    map. *)
Definition unsigned_key_equiv (σ : Store) : Prop :=
  ∀ p n g q c,
    σ !! p = Some (mkObj n (IsGate g)) → σ !! q = Some c →
    (index_ (node c) ∈ children_ g ∨ - index_ (node c) ∈ children_ g)
    ↔ in_one_map g (index_ (node c)).

(** The visit array after [j] calls of [Visit] with positive times on a node
    whose visits were clear. *)
Definition visits_after (j : nat) (v : list Z) : Prop :=
  match j with
  | O => v = [0; 0; 0]
  | S O => ∃ a, 0 < a ∧ v = [a; 0; 0]
  | _ => ∃ a b c, 0 < a ∧ 0 < b ∧ v = [a; b; c]
  end.

(** ** [class BooleanGraph] *)

Section boolean_graph.
Context {BasicEvent : Type}.   (* what a [BasicEventPtr] points to *)

Record BooleanGraph := mkBooleanGraph {
  top_event_ : ptr;
  basic_events_ : list BasicEvent;    (* std::vector<BasicEventPtr> *)
  coherent_ : bool;
  constants_ : bool;
  normal_ : bool
}.

(** [const BasicEventPtr& BooleanGraph::GetBasicEvent(int index) const];
    after [index > 0] the comparison with the unsigned size is the one on
    integers. *)
Definition GetBasicEvent (index : Z) (bg : BooleanGraph) : option BasicEvent :=
  if decide (index > 0) then
    if decide (index <= Z.of_nat (length (basic_events_ bg))) then
      basic_events_ bg !! Z.to_nat (index - 1)
    else None
  else None.

(** The indexation of basic events while the graph is built. *)
Record Indexation := mkIndexation {
  next_variable_ : Z;                    (* static int Variable::next_variable_ *)
  events_ : list BasicEvent;             (* basic_events_ under construction *)
  assigned_ : list (Z * BasicEvent)      (* index given to each basic event *)
}.

(** [Variable::ResetIndex()] sets [next_variable_ = 1]. *)
Definition Variable_ResetIndex : Indexation := mkIndexation 1 [] [].

(** Modelled from the spec: the registration of one basic event by the
    constructor of [BooleanGraph] (in [boolean_graph.cc], not at hand): the
    event is pushed to the back of [basic_events_] and its new [Variable]
    takes the next index, "assigned sequentially". *)
Definition register_basic_event (st : Indexation) (e : BasicEvent) : Indexation :=
  mkIndexation (next_variable_ st + 1) (events_ st ++ [e])
    (assigned_ st ++ [(next_variable_ st, e)]).

Definition index_basic_events (es : list BasicEvent) : Indexation :=
  foldl register_basic_event Variable_ResetIndex es.

Definition graph_of (top : ptr) (st : Indexation) (coherent constants normal : bool)
  : BooleanGraph :=
  mkBooleanGraph top (events_ st) coherent constants normal.

(** The indexation keeps the vector, the counter and the record of
    assignments in step: entry number [j] holds the event that was given
    index [j + 1]. *)
Definition in_step (st : Indexation) : Prop :=
  next_variable_ st = Z.of_nat (length (events_ st)) + 1 ∧
  assigned_ st = imap (λ j e, (Z.of_nat j + 1, e)) (events_ st).

End boolean_graph.
Arguments BooleanGraph : clear implicits.
Arguments Indexation : clear implicits.

(** The footprint shared by the body of [EraseChild] and the insertion of a
    child: the record of gate [self] becomes [g'], the parents of node [q]
    go through [f] and its use count through [h], and nothing else changes;
    in particular no node is created or destroyed and no index changes. *)
Definition updated (self : ptr) (g' : IGate) (q : ptr)
    (f : gmap Z ptr → gmap Z ptr) (h : nat → nat) (σ σ' : Store) : Prop :=
  ∀ x, match σ !! x, σ' !! x with
       | Some o, Some o' =>
           index_ (node o') = index_ (node o) ∧
           kind o' = (if decide (x = self) then IsGate g' else kind o) ∧
           parents_ (node o') =
             (if decide (x = q) then f (parents_ (node o)) else parents_ (node o)) ∧
           use_count_ (node o') =
             (if decide (x = q) then h (use_count_ (node o))
              else use_count_ (node o)) ∧
           visits_ (node o') = visits_ (node o) ∧
           opti_value_ (node o') = opti_value_ (node o)
       | None, None => True
       | _, _ => False
       end.

(** Two records of the same kind with the same links: a constant, a
    variable, or gates with the same children in the same maps. *)
Definition same_links (k k' : Kind) : Prop :=
  match k, k' with
  | IsGate g, IsGate g' =>
      children_ g' = children_ g ∧ ∀ ov, map_of ov g' = map_of ov g
  | _, _ => k' = k
  end.

(** What the destruction of shared pointers leaves of a graph.

    A node [o] that is still there, as [o']: it has its index, visits and
    optimization value and, of its parents, those that are left; [debit] of
    the shared pointers to it that were held outside the graph are gone, the
    others are as before; and it is owned as it was.  A node that is gone
    was owned, and by its parents alone, up to [debit] pointers. *)
Definition survives (debit : nat) (o o' : Obj) : Prop :=
  index_ (node o') = index_ (node o) ∧
  visits_ (node o') = visits_ (node o) ∧
  opti_value_ (node o') = opti_value_ (node o) ∧
  parents_ (node o') ⊆ parents_ (node o) ∧
  (use_count_ (node o') + size (parents_ (node o)) + debit
   = use_count_ (node o) + size (parents_ (node o')))%nat ∧
  ((0 < use_count_ (node o))%nat ↔ (0 < use_count_ (node o'))%nat).

Definition unowned (debit : nat) (o : Obj) : Prop :=
  (0 < use_count_ (node o))%nat ∧
  (use_count_ (node o) ≤ size (parents_ (node o)) + debit)%nat.

(** The destruction of one shared pointer to [q]: the nodes that are left
    are of the kind they were, a gate with its record as it was. *)
Definition released (q : ptr) (σ σ' : Store) : Prop :=
  (∀ p o', σ' !! p = Some o' →
     ∃ o, σ !! p = Some o ∧ kind o' = kind o ∧
          survives (if decide (p = q) then 1%nat else 0%nat) o o') ∧
  (∀ p o, σ !! p = Some o → σ' !! p = None →
     unowned (if decide (p = q) then 1%nat else 0%nat) o).

(** The erasure of children of the gate [self], with the destructions it
    brings: the record of no other gate that is left has changed. *)
Definition erasure (self : ptr) (σ σ' : Store) : Prop :=
  (∀ p o', σ' !! p = Some o' →
     ∃ o, σ !! p = Some o ∧ (p ≠ self → kind o' = kind o) ∧ survives 0 o o') ∧
  (∀ p o, σ !! p = Some o → σ' !! p = None → unowned 0 o).

(** What an operation leaves of the gates, in any graph: a gate that is
    there afterwards was there, with its index, state, type and module
    flag, and has no child that it had not. *)
Definition quiet (σ σ' : Store) : Prop :=
  ∀ p n' g', σ' !! p = Some (mkObj n' (IsGate g')) →
    ∃ n g, σ !! p = Some (mkObj n (IsGate g)) ∧ index_ n' = index_ n ∧
           state_ g' = state_ g ∧ type_ g' = type_ g ∧
           module_ g' = module_ g ∧ children_ g' ⊆ children_ g.

(** The record of a gate after the removal of child [k], and after the
    removal of all its children. *)
Definition erased (child : Z) (g : IGate) : IGate :=
  set_children (children_ g ∖ {[child]}) (delete child (gate_children_ g))
    (delete child (variable_children_ g)) (delete child (constant_children_ g)) g.

Definition childless (g : IGate) : IGate := set_children ∅ ∅ ∅ ∅ g.

(** What the destruction of a shared pointer is to do, in the graphs with
    at most [bound] owned objects: it runs to its end on a pointer that
    exists, one that is counted beside those of the parents, and leaves a
    graph that satisfies the invariant. *)
Definition release_ok (release : ptr → Store → option Store) (bound : nat) : Prop :=
  ∀ σ q c, graph_inv σ → σ !! q = Some c →
    (size (parents_ (node c)) < use_count_ (node c))%nat →
    (alive σ ≤ bound)%nat →
    ∃ σ', release q σ = Some σ' ∧ graph_inv σ' ∧ released q σ σ'.

(** A release that leaves the gates quiet. *)
Definition release_quiet (release : ptr → Store → option Store) : Prop :=
  ∀ q σ σ', release q σ = Some σ' → quiet σ σ'.

(** A gate that cannot be destroyed by the destruction of other objects:
    a shared pointer to it is held outside the graph, as by the caller of
    one of its member functions, or its own destructor is running. *)
Definition anchored (n : Node) : Prop :=
  use_count_ n = O ∨ (size (parents_ n) < use_count_ n)%nat.

(** Why a gate becomes constant through the addition of child [k] that
    points to [c]: the child repeats a child of an XOR gate; it is the
    complement of a child of a gate that collapses then (AND, OR, NAND, NOR
    or XOR); or it is a new child and an absorbing constant. *)
Definition collapse_cause (g : IGate) (c : Obj) (k : Z) : Prop :=
  (k ∈ children_ g ∧ type_ g = kXorGate)
  ∨ ((k ∉ children_ g) ∧ - k ∈ children_ g
     ∧ is_Some (Modelled.complement_state (type_ g)))
  ∨ ((k ∉ children_ g) ∧ (- k ∉ children_ g)
     ∧ is_Some (Modelled.absorbing_state (type_ g) (kind c) k)).

(** The ways in which [AddChild(k, cp)] on the gate [g] at [self] runs to
    its end, returning [r] and leaving [σ']. *)
Definition addition_cases `{!Rewriting} (self : ptr) (g : IGate) (c : Obj)
    (k : Z) (cp : ptr) (σ : Store) (r : bool) (σ' : Store) : Prop :=
  (k ∈ children_ g ∧
     ((r = false ∧ σ' = σ ∧
       (type_ g = kAndGate ∨ type_ g = kOrGate ∨ type_ g = kNandGate
        ∨ type_ g = kNorGate))
      ∨ (r = true ∧ type_ g = kXorGate ∧ IGateOps.Nullify self σ = Some σ')
      ∨ (r = false ∧ Modelled.complement_state (type_ g) = None ∧
         rewrite_duplicate self k σ = Some σ')))
  ∨ ((k ∉ children_ g) ∧ - k ∈ children_ g ∧
     ((r = true ∧ ∃ s, Modelled.complement_state (type_ g) = Some s ∧
                       Modelled.collapse s self σ = Some σ')
      ∨ (r = false ∧ Modelled.complement_state (type_ g) = None ∧
         rewrite_complement self k σ = Some σ')))
  ∨ ((k ∉ children_ g) ∧ (- k ∉ children_ g) ∧
     ((r = true ∧ ∃ s, Modelled.absorbing_state (type_ g) (kind c) k = Some s ∧
                       Modelled.collapse s self σ = Some σ')
      ∨ (r = false ∧ Modelled.absorbing_state (type_ g) (kind c) k = None ∧
         Modelled.insert_child self k cp σ = Some σ'))).

(** A node as the constructors leave it: a variable, a constant, or a gate
    without children. *)
Definition fresh_kind (k : Kind) : Prop :=
  match k with
  | IsGate g => ∃ t, g = Modelled.new_gate_record t
  | _ => True
  end.

(** The gate at [self] is in the normal state. *)
Definition in_normal_state (self : ptr) (σ : Store) : Prop :=
  ∃ n g, σ !! self = Some (mkObj n (IsGate g)) ∧ state_ g = kNormalState.

Section operations.
Context `{!Rewriting}.

(** The operations that change the children of a gate. *)
Inductive child_mutation : Store → Store → Prop :=
  | mut_AddChild ov self child cp σ r σ' :
      Modelled.AddChild ov self child cp σ = Done (r, σ') → child_mutation σ σ'
  | mut_EraseChild self child σ σ' :
      IGateOps.EraseChild self child σ = Some σ' → child_mutation σ σ'
  | mut_EraseAllChildren self σ σ' :
      IGateOps.EraseAllChildren self σ = Some σ' → child_mutation σ σ'
  | mut_TransferChild self child recipient σ r σ' :
      Modelled.TransferChild self child recipient σ = Done (r, σ') →
      child_mutation σ σ'
  | mut_ShareChild self child recipient σ r σ' :
      Modelled.ShareChild self child recipient σ = Done (r, σ') →
      child_mutation σ σ'
  | mut_JoinGate self child_gate σ r σ' :
      Modelled.JoinGate self child_gate σ = Done (r, σ') → child_mutation σ σ'.

(** The operations of the graph classes on a graph: the constructors, the
    copy of a shared pointer and the destruction of one that is held
    outside the graph, and the member functions of [Node] and [IGate] that
    write.  A constructor is
    given "an unique positive index", which it does not validate.

    The functions that add a child do not look at the state of the gate
    that receives it ("This function does not indicate error for future
    additions in case the state is nulled or becomes unity").  With
    [careful] the callers do: they add children to gates in the normal
    state only.  (For [JoinGate] and [JoinNullGate] this makes no
    difference, since the receiving gate has a child.)

    [ChildFailed] and [ResetChildrenFailure], of which the specification
    leaves the meaning open, are not embedded. *)
Inductive operation (careful : bool) : Store → Store → Prop :=
  | op_new p index k σ :
      σ !! p = None → 0 < index →
      (∀ q o, σ !! q = Some o → index_ (node o) ≠ index) →
      fresh_kind k → operation careful σ (Modelled.new_node p index k σ)
  | op_copy p σ σ' : IGateOps.copy p σ = Some σ' → operation careful σ σ'
  | op_reset p o σ σ' :
      σ !! p = Some o → (0 < outside o)%nat →
      IGateOps.reset p σ = Some σ' → operation careful σ σ'
  | op_Visit p time σ σ' :
      on_node (λ n, snd <$> NodeOps.Visit time n) p σ = Some σ' →
      operation careful σ σ'
  | op_ClearVisits p σ σ' :
      on_node (λ n, Some (NodeOps.ClearVisits n)) p σ = Some σ' →
      operation careful σ σ'
  | op_opti_value p val σ σ' :
      on_node (λ n, Some (NodeOps.opti_value val n)) p σ = Some σ' →
      operation careful σ σ'
  | op_type self t σ σ' :
      on_gate (IGateOps.type t) self σ = Some σ' → operation careful σ σ'
  | op_vote_number self number σ σ' :
      on_gate (IGateOps.vote_number number) self σ = Some σ' →
      operation careful σ σ'
  | op_mark self flag σ σ' :
      on_gate (IGateOps.mark flag) self σ = Some σ' → operation careful σ σ'
  | op_min_time self time σ σ' :
      on_gate (IGateOps.min_time time) self σ = Some σ' → operation careful σ σ'
  | op_max_time self time σ σ' :
      on_gate (IGateOps.max_time time) self σ = Some σ' → operation careful σ σ'
  | op_TurnModule self σ σ' :
      IGateOps.TurnModule self σ = Some σ' → operation careful σ σ'
  | op_EraseChild self child σ σ' :
      IGateOps.EraseChild self child σ = Some σ' → operation careful σ σ'
  | op_EraseAllChildren self σ σ' :
      IGateOps.EraseAllChildren self σ = Some σ' → operation careful σ σ'
  | op_Nullify self σ σ' :
      IGateOps.Nullify self σ = Some σ' → operation careful σ σ'
  | op_MakeUnity self σ σ' :
      IGateOps.MakeUnity self σ = Some σ' → operation careful σ σ'
  | op_InvertChild self child σ σ' :
      on_gate (Modelled.InvertChild child) self σ = Some σ' →
      operation careful σ σ'
  | op_InvertChildren self σ σ' :
      on_gate Modelled.InvertChildren self σ = Some σ' → operation careful σ σ'
  | op_AddChild ov self child cp σ r σ' :
      (careful = true → in_normal_state self σ) →
      Modelled.AddChild ov self child cp σ = Done (r, σ') →
      operation careful σ σ'
  | op_ShareChild self child recipient σ r σ' :
      (careful = true → in_normal_state recipient σ) →
      Modelled.ShareChild self child recipient σ = Done (r, σ') →
      operation careful σ σ'
  | op_TransferChild self child recipient σ r σ' :
      (careful = true → in_normal_state recipient σ) →
      Modelled.TransferChild self child recipient σ = Done (r, σ') →
      operation careful σ σ'
  | op_JoinGate self child_gate σ r σ' :
      Modelled.JoinGate self child_gate σ = Done (r, σ') → operation careful σ σ'
  | op_JoinNullGate self index σ r σ' :
      Modelled.JoinNullGate self index σ = Done (r, σ') → operation careful σ σ'
  | op_CopyChildren self gate σ σ' :
      (careful = true → in_normal_state self σ) →
      Modelled.CopyChildren self gate σ = Done σ' → operation careful σ σ'.

(** The graphs that the operations build, from nothing. *)
Inductive built (careful : bool) : Store → Prop :=
  | built_empty : built careful ∅
  | built_step σ σ' :
      built careful σ → operation careful σ σ' → built careful σ'.

End operations.

(** ** Small graphs used as concrete inputs *)

Module Examples.
Import IGateOps Modelled.
#[local] Existing Instance leave_graph.

Definition store_of (o : Outcome (bool * Store)) : Store :=
  match o with Done (_, σ) => σ | _ => ∅ end.

(** Variable 1 at address 1 and an empty gate of type [t] with index
    1000000 at address 2, each with the pointer of its maker. *)
Definition two_nodes (t : Operator) : Store :=
  new_gate 2 1000000 t (new_variable 1 1 ∅).

(** The AND gate after [AddChild(-1, variable)]. *)
Definition and_not_x : Store :=
  store_of (AddChild ofVariable 2 (-1) 1 (two_nodes kAndGate)).





(** Variable 1 as a child of gate 1000000, and the AND gate with the one
    child -1, the pointer to the variable kept under [key]. *)
Definition x1_obj : Obj :=
  mkObj (mkNode 1 [0; 0; 0] {[ 1000000 := 2%positive ]} 0 2) IsVariable.

Definition and_gate (key : Z) : IGate :=
  mkIGate kAndGate kNormalState 0 false 0 0 false
    {[ -1 ]} ∅ {[ key := 1%positive ]} ∅ 0.

Definition and_obj (key : Z) : Obj :=
  mkObj (mkNode 1000000 [0; 0; 0] ∅ 0 1) (IsGate (and_gate key)).

Definition layout (key : Z) : Store :=
  <[2%positive := and_obj key]> (<[1%positive := x1_obj]> ∅).

(** The graph of [and_not_x] with the variable kept under the unsigned
    key 1 instead of the signed child -1. *)
Definition and_not_x_unsigned : Store := layout 1.

(** Graphs for the cut-set generation, built with the operations: four
    variables with indices and addresses 1 to 4, gates with indices
    1000000, 1000001, ... at addresses 10, 11, ... *)
Definition add (ov : Overload) (self : ptr) (child : Z) (cp : ptr) (σ : Store)
  : Store := store_of (AddChild ov self child cp σ).

Definition turn_module (self : ptr) (σ : Store) : Store :=
  default σ (TurnModule self σ).

(** The maker of a node lets go of its pointer. *)
Definition let_go (p : ptr) (σ : Store) : Store := default σ (reset p σ).

Definition four_variables : Store :=
  new_variable 4 4 (new_variable 3 3 (new_variable 2 2 (new_variable 1 1 ∅))).

Definition build (steps : list (Store → Store)) : Store :=
  foldl (λ σ step, step σ) four_variables steps.

(** top = G1 OR M with G1 = x1 AND x2 and the module M = x3 AND x4. *)
Definition with_module : Store :=
  build [new_gate 10 1000000 kOrGate; new_gate 11 1000001 kAndGate;
         new_gate 12 1000002 kAndGate;
         add ofVariable 11 1 1; add ofVariable 11 2 2;
         add ofVariable 12 3 3; add ofVariable 12 4 4;
         add ofGate 10 1000001 11; add ofGate 10 1000002 12;
         turn_module 10; turn_module 12].

(** The same graph when only the pointer to the top gate is left outside
    it: every other node is owned by its parents alone. *)
Definition owned : Store :=
  foldl (λ σ p, let_go p σ) with_module [1; 2; 3; 4; 11; 12]%positive.

(** The graph [owned] with variable 1 also a child of the top gate, and a
    pointer to gate G1 held outside the graph. *)
Definition shared_x1 : Store :=
  foldl (λ σ p, let_go p σ)
    (add ofVariable 10 1 1 with_module) [1; 2; 3; 4; 12]%positive.

(** top = AND(G1) with G1 = G2 AND G3, G2 = x1 OR x2 and G3 = x3 OR x4. *)
Definition two_levels : Store :=
  build [new_gate 10 1000000 kAndGate; new_gate 11 1000001 kAndGate;
         new_gate 12 1000002 kOrGate; new_gate 13 1000003 kOrGate;
         add ofVariable 12 1 1; add ofVariable 12 2 2;
         add ofVariable 13 3 3; add ofVariable 13 4 4;
         add ofGate 11 1000002 12; add ofGate 11 1000003 13;
         add ofGate 10 1000001 11; turn_module 10].

Definition graph (coherent : bool) : BooleanGraph nat :=
  mkBooleanGraph 10 [1%nat; 2%nat; 3%nat; 4%nat] coherent false true.

End Examples.

(** Tactics for the example graphs: the last operation that built a
    concrete graph, each side condition by evaluation. *)
Ltac evaluated := vm_compute; reflexivity.
Ltac decided := apply (bool_decide_unpack _); vm_compute; exact I.
Ltac normal_gate := intros _; eexists _, _; split; [evaluated|reflexivity].
Ltac fresh_index :=
  lazymatch goal with
  | |- ∀ q o, ?σ !! q = Some o → index_ (node o) ≠ ?i =>
      apply (proj1 (map_Forall_lookup (λ _ o, index_ (node o) ≠ i) σ)); decided
  end.
Ltac built_last r :=
  lazymatch goal with
  | |- built _ (Modelled.new_node ?p ?i ?k ?σ) =>
      apply (built_step _ σ);
      [|apply (op_new _ p i k σ);
        [evaluated|lia|fresh_index|first [exact I|eexists; reflexivity]]]
  | |- built _ (Examples.store_of (Modelled.AddChild ?ov ?self ?child ?cp ?σ)) =>
      apply (built_step _ σ);
      [|apply (op_AddChild _ ov self child cp σ r); [normal_gate|evaluated]]
  | |- built _ (default ?σ (IGateOps.TurnModule ?self ?σ)) =>
      apply (built_step _ σ); [|apply (op_TurnModule _ self σ); evaluated]
  | |- built _ (default ?σ (IGateOps.reset ?p ?σ)) =>
      apply (built_step _ σ);
      [|eapply (op_reset _ p _ σ); [evaluated|vm_compute; lia|evaluated]]
  | |- built _ (default ∅ (IGateOps.Nullify ?self ?σ)) =>
      apply (built_step _ σ); [|apply (op_Nullify _ self σ); evaluated]
  end.

(** ** [mocus.cc]

    [mocus.cc] is written against a later revision of the graph classes than
    the header at hand: it calls [root()] for [top_event()], [gate_args()]
    for [gate_children()] and [IsConstant()] for a state other than normal.
    The classes [Zbdd] and [zbdd::CutSetContainer] are not part of the
    sources; [Mocus] is embedded over their interface. *)

(** What a function of [Mocus] yields: its result; nothing yet, for want of
    fuel; a failed assertion; or the dereference of the end iterator that an
    unchecked [find(...)->second] commits when the key is missing. *)
Inductive Res (A : Type) :=
  | Ok (a : A)
  | OutOfFuel
  | AssertFailed
  | EndDeref.
Arguments Ok {A} a.
Arguments OutOfFuel {A}.
Arguments AssertFailed {A}.
Arguments EndDeref {A}.

(** The calls made on a cut-set container, in order.  The analysis of a
    module works on a container of its own, so its calls are kept apart,
    inside [call_AnalyzeModule]. *)
#[local] Unset Elimination Schemes.
Inductive Call :=
  | call_ConvertGate (gate : Z)
  | call_Merge
  | call_GetNextGate (result : Z)
  | call_ExtractIntermediateCutSets (gate : Z)
  | call_ExpandGate
  | call_Minimize
  | call_EliminateComplements
  | call_GatherModules (result : list Z)
  | call_AnalyzeModule (module : Z) (calls : list Call)
  | call_JoinModule (module : Z)
  | call_EliminateConstantModules.
#[local] Set Elimination Schemes.

(** The calls of the expansion loop. *)
Definition expansion_call (c : Call) : Prop :=
  match c with
  | call_ConvertGate _ | call_Merge | call_GetNextGate _
  | call_ExtractIntermediateCutSets _ | call_ExpandGate => True
  | _ => False
  end.

(** The calls of the loop over the modules [ms], [subs] being the calls of
    the analyses of the modules. *)
Definition join_calls (ms : list Z) (subs : list (list Call)) : list Call :=
  concat (zip_with (λ m sub, [call_AnalyzeModule m sub; call_JoinModule m]) ms subs).

(** The member functions of [zbdd::CutSetContainer] (state [C], families of
    cut sets [F]) and of its base class [Zbdd] that [Mocus] calls. *)
Class CutSetContainerOps (C F : Type) := {
  Container_new : nat → C;                  (* CutSetContainer(settings, size) *)
  ConvertGate : Store → ptr → C → F;
  Merge : F → C → C;
  GetNextGate : C → Z;
  ExtractIntermediateCutSets : Z → C → F * C;
  ExpandGate : F → F → C → F;
  Minimize : C → C;
  EliminateComplements : C → C;
  GatherModules : C → list Z;
  JoinModule : Z → C → C → C;
  EliminateConstantModules : C → C;
  Zbdd_new : Store → ptr → C;               (* Zbdd(fault_tree, settings) *)
  Zbdd_Analyze : C → C;
  Zbdd_products : C → list (list Z)
}.

(** The container after the loop over the modules [ms]: the results [subs]
    of their analyses joined into [c], one after the other. *)
Definition joined {C F : Type} `{!CutSetContainerOps C F}
    (ms : list Z) (subs : list C) (c : C) : C :=
  foldl (λ acc (ms : Z * C), JoinModule ms.1 ms.2 acc) c (zip ms subs).

(** Modelled from the spec: [IGate::IsConstant()], "constant (Null or Unity
    state)". *)
Definition IsConstant (g : IGate) : bool :=
  bool_decide (state_ g ≠ kNormalState).

Module Mocus.
Section mocus.
Context {C F : Type} `{!CutSetContainerOps C F} {BasicEvent : Type}.

Record Mocus := mkMocus {
  constant_graph_ : bool;
  graph_ : BooleanGraph BasicEvent;
  zbdd_ : option C                        (* std::unique_ptr<Zbdd> *)
}.

(** [Mocus::Mocus(fault_tree, settings)]; [None] when the root pointer
    does not lead to a gate. *)
Definition new (σ : Store) (fault_tree : BooleanGraph BasicEvent) : option Mocus :=
  match σ !! top_event_ fault_tree with
  | Some (mkObj n (IsGate top)) =>
      if IsConstant top || bool_decide (type_ top = kNullGate) then
        Some (mkMocus true fault_tree
                (Some (Zbdd_Analyze (Zbdd_new σ (top_event_ fault_tree)))))
      else Some (mkMocus false fault_tree None)
  | _ => None
  end.

(** The expansion loop of [AnalyzeModule], entered with the value of
    [next_gate].  C++ leaves open which argument of [ExpandGate] is evaluated
    first; here [ConvertGate] comes before [ExtractIntermediateCutSets].  A
    pointer of the local map that leads to no gate counts as a bad
    dereference, like a missing key. *)
Fixpoint expand (fuel : nat) (σ : Store) (gates : gmap Z ptr) (container : C)
    (next_gate : Z) (log : list Call) : Res (gmap Z ptr * C * list Call) :=
  if decide (next_gate = 0) then Ok (gates, container, log)
  else
    match fuel with
    | O => OutOfFuel
    | S fuel' =>
        match gates !! next_gate with
        | None => EndDeref
        | Some inter_gate =>
            match σ !! inter_gate with
            | Some (mkObj n (IsGate g)) =>
                let gates' := gates ∪ gate_children_ g in
                let converted := ConvertGate σ inter_gate container in
                let '(cut_sets, c1) :=
                  ExtractIntermediateCutSets next_gate container in
                let c2 := Merge (ExpandGate converted cut_sets c1) c1 in
                let next := GetNextGate c2 in
                expand fuel' σ gates' c2 next
                  (log ++ [call_ConvertGate (index_ n);
                           call_ExtractIntermediateCutSets next_gate;
                           call_ExpandGate; call_Merge;
                           call_GetNextGate next])
            | _ => EndDeref
            end
        end
    end.

(** The loop over [GatherModules()]; [analyze] is the recursive call. *)
Fixpoint join_modules (analyze : ptr → Res (C * list Call))
    (gates : gmap Z ptr) (modules : list Z) (container : C) (log : list Call)
  : Res (C * list Call) :=
  match modules with
  | [] => Ok (container, log)
  | module :: rest =>
      match gates !! module with
      | None => EndDeref
      | Some p =>
          match analyze p with
          | Ok (sub, sublog) =>
              join_modules analyze gates rest (JoinModule module sub container)
                (log ++ [call_AnalyzeModule module sublog; call_JoinModule module])
          | OutOfFuel => OutOfFuel
          | AssertFailed => AssertFailed
          | EndDeref => EndDeref
          end
      end
  end.

(** What follows the expansion loop, up to the loop over the modules. *)
Definition after_expansion (coherent : bool) (container : C) : C * list Call :=
  let c1 := Minimize container in
  if coherent then (c1, [call_Minimize])
  else (Minimize (EliminateComplements c1),
        [call_Minimize; call_EliminateComplements; call_Minimize]).

(** [Mocus::AnalyzeModule(gate)]. *)
Fixpoint AnalyzeModule (fuel : nat) (σ : Store) (graph : BooleanGraph BasicEvent)
    (gate : ptr) : Res (C * list Call) :=
  match fuel with
  | O => OutOfFuel
  | S fuel' =>
      match σ !! gate with
      | Some (mkObj n (IsGate g)) =>
          if module_ g then
            let gates : gmap Z ptr := ∅ ∪ gate_children_ g in
            let c0 := Container_new (length (basic_events_ graph)) in
            let c1 := Merge (ConvertGate σ gate c0) c0 in
            let next_gate := GetNextGate c1 in
            match expand fuel' σ gates c1 next_gate
                    [call_ConvertGate (index_ n); call_Merge;
                     call_GetNextGate next_gate] with
            | Ok (gates', c2, log) =>
                let '(c3, log3) := after_expansion (coherent_ graph) c2 in
                let modules := GatherModules c3 in
                match join_modules (AnalyzeModule fuel' σ graph) gates' modules c3
                        (log ++ log3 ++ [call_GatherModules modules]) with
                | Ok (c4, log4) =>
                    Ok (Minimize (EliminateConstantModules c4),
                        log4 ++ [call_EliminateConstantModules; call_Minimize])
                | OutOfFuel => OutOfFuel
                | AssertFailed => AssertFailed
                | EndDeref => EndDeref
                end
            | OutOfFuel => OutOfFuel
            | AssertFailed => AssertFailed
            | EndDeref => EndDeref
            end
          else AssertFailed
      | _ => EndDeref
      end
  end.

(** [void Mocus::Analyze()], with the calls made on the container of the
    root module. *)
Definition Analyze (fuel : nat) (σ : Store) (m : Mocus) : Res (Mocus * list Call) :=
  if constant_graph_ m then Ok (m, [])
  else
    match AnalyzeModule fuel σ (graph_ m) (top_event_ (graph_ m)) with
    | Ok (c, log) =>
        Ok (mkMocus (constant_graph_ m) (graph_ m) (Some (Zbdd_Analyze c)), log)
    | OutOfFuel => OutOfFuel
    | AssertFailed => AssertFailed
    | EndDeref => EndDeref
    end.

(** [Mocus::products()], with its assertion that [zbdd_] is set. *)
Definition products (m : Mocus) : option (list (list Z)) :=
  match zbdd_ m with
  | Some z => Some (Zbdd_products z)
  | None => None
  end.

End mocus.
End Mocus.

(** ** The cut-set container, as sets of sets of literals *)

Module CutSets.

(** A literal of a cut set: the signed index of a variable, or the index
    of a gate that stands for the gate until it is expanded or joined,
    with the module flag of that gate. *)
Record Literal := mkLit { lit : Z; is_module : bool }.

#[global] Instance Literal_eq_dec : EqDecision Literal.
Proof. solve_decision. Defined.

Abbreviation Family := (list (list Literal)).

Record Container := mkContainer {
  sets : Family;
  nvars : Z            (* gates have indices above the basic events *)
}.

Definition lits (f : Family) : list Literal := mjoin f.

(** A literal that stands for a gate that is not a module. *)
Definition expandable (nv : Z) (l : Literal) : bool :=
  negb (is_module l) && bool_decide (nv < lit l).

Definition gate_literal (nv : Z) (l : Literal) : bool :=
  is_module l || bool_decide (nv < lit l).

Definition module_flag (σ : Store) (q : ptr) : bool :=
  match σ !! q with
  | Some (mkObj _ (IsGate g)) => module_ g
  | _ => false
  end.

Definition arg_literals (σ : Store) (g : IGate) : list Literal :=
  ((λ kq : Z * ptr, mkLit kq.1 (module_flag σ kq.2))
     <$> map_to_list (gate_children_ g))
  ++ ((λ kq : Z * ptr, mkLit kq.1 false) <$> map_to_list (variable_children_ g)).

(** Modelled from the spec: [ConvertGate], "a single set of literal sets
    over the signed indices of G's direct children (gates appear as
    placeholder literals with their gate index; variables as themselves)":
    one cut set with all the arguments for AND, one cut set per argument
    for OR.  The empty family for the types that the normal form
    excludes. *)
Definition convert_gate (σ : Store) (p : ptr) : Family :=
  match σ !! p with
  | Some (mkObj _ (IsGate g)) =>
      match type_ g with
      | kAndGate => [arg_literals σ g]
      | kOrGate => (λ l, [l]) <$> arg_literals σ g
      | _ => []
      end
  | _ => []
  end.

(** Modelled from the spec: [Merge], the union with the family. *)
Definition merge (f : Family) (c : Container) : Container :=
  mkContainer (sets c ++ f) (nvars c).

(** Modelled from the spec: [GetNextGate], "the next gate literal still
    present in the container", 0 when "no non-module gate literals
    remain". *)
Definition get_next_gate (c : Container) : Z :=
  match filter (λ l, expandable (nvars c) l = true) (lits (sets c)) with
  | l :: _ => lit l
  | [] => 0
  end.

Definition has (i : Z) (s : list Literal) : bool :=
  bool_decide (Exists (λ l, lit l = i) s).

Definition without (i : Z) (s : list Literal) : list Literal :=
  filter (λ l, lit l ≠ i) s.

(** Modelled from the spec: [ExtractIntermediateCutSets], which takes out
    of the container "the cut sets containing the popped gate's placeholder
    literal", the placeholder removed. *)
Definition extract (i : Z) (c : Container) : Family * Container :=
  (without i <$> filter (λ s, has i s = true) (sets c),
   mkContainer (filter (λ s, has i s ≠ true) (sets c)) (nvars c)).

(** Modelled from the spec: [ExpandGate], "each parent cut set extended by
    each child cut set". *)
Definition expand_gate (gate_sets cut_sets : Family) : Family :=
  s ← cut_sets; t ← gate_sets; [list_union s t].

Definition subset_of (t s : list Literal) : bool :=
  bool_decide (t ⊆ s).

(** Modelled from the spec: [Minimize], "remove non-minimal sets": a set
    stays when no other set of the family is strictly inside it, once per
    set of literals. *)
Fixpoint once (f : Family) : Family :=
  match f with
  | [] => []
  | s :: rest =>
      s :: filter (λ t, ¬ (subset_of s t = true ∧ subset_of t s = true)) (once rest)
  end.

Definition minimal_in (f : Family) (s : list Literal) : Prop :=
  Forall (λ t, subset_of t s = true → subset_of s t = true) f.

Definition minimize (c : Container) : Container :=
  mkContainer (once (filter (minimal_in (sets c)) (sets c))) (nvars c).

Definition contradictory (s : list Literal) : Prop :=
  Exists (λ l, Exists (λ l', lit l' = - lit l) s) s.

(** Modelled from the spec: [EliminateComplements], "any cut set containing
    both x and not x is discarded; not x literals then dropped". *)
Definition eliminate_complements (c : Container) : Container :=
  mkContainer
    (filter (λ l, 0 < lit l) <$> filter (λ s, ¬ contradictory s) (sets c))
    (nvars c).

(** Modelled from the spec: [GatherModules], the "remaining module
    placeholder literal[s]". *)
Definition gather_modules (c : Container) : list Z :=
  remove_dups (lit <$> filter (λ l, is_module l = true) (lits (sets c))).

(** Modelled from the spec: [JoinModule], "substitute the placeholder with
    the module's MCS family". *)
Definition join_module (m : Z) (sub c : Container) : Container :=
  mkContainer
    (s ← sets c;
     if has m s then (λ t, list_union (without m s) t) <$> sets sub else [s])
    (nvars c).

(** Modelled from the spec: [EliminateConstantModules]; with families of
    sets the join has already taken a constant module out (no set is left
    for an empty family, the placeholder alone goes for the family of the
    empty set). *)
Definition eliminate_constant_modules (c : Container) : Container := c.

(** Modelled from the spec: the [Zbdd] of a graph whose top gate is
    constant or a NULL gate: no cut set for the null state, the empty cut
    set for unity, the single argument otherwise. *)
Definition of_graph (σ : Store) (root : ptr) : Container :=
  match σ !! root with
  | Some (mkObj _ (IsGate g)) =>
      match state_ g with
      | kNullState => mkContainer [] 0
      | kUnityState => mkContainer [[]] 0
      | kNormalState => mkContainer [arg_literals σ g] 0
      end
  | _ => mkContainer [] 0
  end.

Definition products (c : Container) : list (list Z) :=
  (λ s : list Literal, lit <$> s) <$> sets c.

#[global] Instance ops : CutSetContainerOps Container Family := {|
  Container_new n := mkContainer [] (Z.of_nat n);
  ConvertGate σ p _ := convert_gate σ p;
  Merge := merge;
  GetNextGate := get_next_gate;
  ExtractIntermediateCutSets := extract;
  ExpandGate f1 f2 _ := expand_gate f1 f2;
  Minimize := minimize;
  EliminateComplements := eliminate_complements;
  GatherModules := gather_modules;
  JoinModule := join_module;
  EliminateConstantModules := eliminate_constant_modules;
  Zbdd_new := of_graph;
  Zbdd_Analyze := minimize;
  Zbdd_products := products
|}.

End CutSets.

Module MocusExamples.
Import CutSets.

Definition outcome {A : Type} (d : A) (r : Res A) : A :=
  match r with Ok a => a | _ => d end.

(** The analysis of the graph with a module, with fuel 10. *)
Definition run (coherent : bool) : Res (Container * list Call) :=
  Mocus.AnalyzeModule 10 Examples.with_module (Examples.graph coherent) 10.

Definition result (coherent : bool) : Container * list Call :=
  outcome (mkContainer [] 0, []) (run coherent).

(** A graph whose top gate has been nullified. *)
Definition null_top : Store :=
  default ∅ (IGateOps.Nullify 10 Examples.with_module).

End MocusExamples.

(** ** The graphs that MOCUS takes

    [mocus.cc]: "The algorithm assumes that the graph is in negation normal
    form."  After preprocessing only AND and OR gates remain, there are no
    constants, gates are not complemented, and the graph is acyclic; the
    variables have the indices 1 to [nv] and the gates have larger ones.
    [rank] bounds the depth below a gate. *)

Section mocus_ready.
Context (σ : Store) (nv : Z) (rank : ptr → nat).

Definition gate_arg_ok (p : ptr) (k : Z) (q : ptr) : Prop :=
  nv < k ∧
  match σ !! q with
  | Some (mkObj cn (IsGate cg)) => index_ cn = k ∧ (rank q < rank p)%nat
  | _ => False
  end.

Definition gate_ready (p : ptr) (o : Obj) : Prop :=
  match kind o with
  | IsGate g =>
      (type_ g = kAndGate ∨ type_ g = kOrGate) ∧
      map_Forall (gate_arg_ok p) (gate_children_ g) ∧
      map_Forall (λ k _, k ≤ nv) (variable_children_ g)
  | _ => True
  end.

Definition index_unique : Prop :=
  map_Forall (λ p o,
    map_Forall (λ q o', index_ (node o) = index_ (node o') → p = q) σ) σ.

Definition mocus_ready : Prop := map_Forall gate_ready σ ∧ index_unique.

#[global] Instance gate_arg_ok_dec p k q : Decision (gate_arg_ok p k q).
Proof.
  unfold gate_arg_ok. destruct (σ !! q) as [[cn [b| |cg]]|]; apply _.
Defined.

#[global] Instance gate_ready_dec p o : Decision (gate_ready p o).
Proof. unfold gate_ready. destruct (kind o); apply _. Defined.

#[global] Instance mocus_ready_dec : Decision mocus_ready.
Proof. unfold mocus_ready, index_unique. apply _. Defined.

(** The weight of a gate: one more than the weights of its gate arguments,
    computed down to depth [fuel]. *)
Fixpoint weight (fuel : nat) (p : ptr) : nat :=
  match fuel with
  | O => O
  | S fuel' =>
      match σ !! p with
      | Some (mkObj _ (IsGate g)) =>
          S (sum_list_with (λ kq : Z * ptr, weight fuel' kq.2)
               (map_to_list (gate_children_ g)))
      | _ => O
      end
  end.

Definition gate_weight (p : ptr) : nat := weight (S (rank p)) p.

(** The weight of the gate behind index [i], through the local map [gates]
    of [AnalyzeModule]. *)
Definition index_weight (gates : gmap Z ptr) (i : Z) : nat :=
  match gates !! i with
  | Some p => gate_weight p
  | None => O
  end.

Definition sum_over (f : Z → nat) (X : gset Z) : nat :=
  sum_list_with f (elements X).

(** The distinct placeholders of gates that are not modules. *)
Definition placeholders (c : CutSets.Container) : gset Z :=
  list_to_set (CutSets.lit <$>
    filter (λ l, CutSets.expandable (CutSets.nvars c) l = true)
      (CutSets.lits (CutSets.sets c))).

(** What decreases in the expansion loop. *)
Definition measure (gates : gmap Z ptr) (c : CutSets.Container) : nat :=
  sum_over (index_weight gates) (placeholders c).

(** What the expansion loop keeps: the container was made for [nv]
    variables; the local map leads from an index to a gate with that index,
    below the module under analysis (its rank is below [bound]); a literal
    above [nv] has its gate in the local map, with the module flag of that
    gate, and a literal up to [nv] is not flagged. *)
Definition gates_ok (bound : nat) (gates : gmap Z ptr) : Prop :=
  ∀ k q, gates !! k = Some q →
    (rank q < bound)%nat ∧
    ∃ cn cg, σ !! q = Some (mkObj cn (IsGate cg)) ∧ index_ cn = k.

Definition literal_ok (gates : gmap Z ptr) (l : CutSets.Literal) : Prop :=
  if decide (nv < CutSets.lit l) then
    ∃ q, gates !! CutSets.lit l = Some q
         ∧ CutSets.module_flag σ q = CutSets.is_module l
  else CutSets.is_module l = false.

Definition loop_inv (bound : nat) (gates : gmap Z ptr) (c : CutSets.Container)
  : Prop :=
  CutSets.nvars c = nv ∧ 0 ≤ nv ∧ gates_ok bound gates ∧
  Forall (literal_ok gates) (CutSets.lits (CutSets.sets c)).

End mocus_ready.

(** One iteration of the expansion loop on the container of sets, for the
    gate [g] found for [next_gate] at [inter_gate]. *)
Definition iteration (σ : Store) (gates : gmap Z ptr) (c : CutSets.Container)
    (next_gate : Z) (inter_gate : ptr) (g : IGate)
  : gmap Z ptr * CutSets.Container :=
  (gates ∪ gate_children_ g,
   CutSets.merge
     (CutSets.expand_gate (CutSets.convert_gate σ inter_gate)
        (CutSets.extract next_gate c).1)
     (CutSets.extract next_gate c).2).

(** The container and the local map with which [AnalyzeModule] enters the
    expansion loop. *)
Definition initial_container (σ : Store) (size : nat) (gate : ptr)
  : CutSets.Container :=
  CutSets.merge (CutSets.convert_gate σ gate) (CutSets.mkContainer [] (Z.of_nat size)).

(** The number of placeholder literals of gates that are not modules, with
    repetitions. *)
Definition placeholder_count (c : CutSets.Container) : nat :=
  length (filter (λ l, CutSets.expandable (CutSets.nvars c) l = true)
            (CutSets.lits (CutSets.sets c))).

Module LoopExamples.
Import CutSets.

(** In the example graphs a gate has a smaller address than its
    arguments. *)
Definition depth (p : ptr) : nat := 100 - Pos.to_nat p.

Definition gate_at (σ : Store) (p : ptr) : IGate :=
  match σ !! p with
  | Some (mkObj _ (IsGate g)) => g
  | _ => Modelled.new_gate_record kAndGate
  end.

Definition node_at (σ : Store) (p : ptr) : Node :=
  match σ !! p with
  | Some o => node o
  | None => mkNode 0 [] ∅ 0 0
  end.

(** The expansion loop on the graph with two levels: the state at entry
    and the state after the first iteration, which expands gate 1000001
    (at address 11). *)
Definition start_gates : gmap Z ptr :=
  ∅ ∪ gate_children_ (gate_at Examples.two_levels 10).

Definition start : Container := initial_container Examples.two_levels 4 10.

Definition after_one : gmap Z ptr * Container :=
  iteration Examples.two_levels start_gates start 1000001 11
    (gate_at Examples.two_levels 11).

(** top = G AND H with H = G OR x3 and G = x1 OR x2: G (index 1000001, at
    address 12) is an argument of the top gate and of H (index 1000002, at
    address 11). *)
Definition shared_gate : Store :=
  Examples.build
    [Modelled.new_gate 10 1000000 kAndGate; Modelled.new_gate 11 1000002 kOrGate;
     Modelled.new_gate 12 1000001 kOrGate;
     Examples.add ofVariable 12 1 1; Examples.add ofVariable 12 2 2;
     Examples.add ofGate 11 1000001 12; Examples.add ofVariable 11 3 3;
     Examples.add ofGate 10 1000001 12; Examples.add ofGate 10 1000002 11;
     Examples.turn_module 10].

(** The gates that the expansion loop took from [GetNextGate], in order. *)
Definition expanded (log : list Call) : list Z :=
  omap (λ c, match c with
             | call_ExtractIntermediateCutSets i => Some i
             | _ => None
             end) log.

End LoopExamples.

(** ** Further members of [Node] and [IGate] *)

Module NodeTimes.

(** [virtual int Node::min_time() const] and [virtual int Node::max_time()
    const] as class [Node] defines them, which is what a variable or a
    constant answers; [IGate] has members of its own with these names. *)
Definition min_time (n : Node) : Z := visits_ n !!! 0%nat.

Definition max_time (n : Node) : Z :=
  if decide (visits_ n !!! 2%nat = 0) then
    if decide (visits_ n !!! 1%nat = 0) then visits_ n !!! 0%nat
    else visits_ n !!! 1%nat
  else visits_ n !!! 2%nat.

End NodeTimes.

(** The visit array that the visits at [times], in this order, leave in a
    node whose visits were clear: the first time, the second, and the latest
    of the later ones. *)
Definition visits_of (times : list Z) : list Z :=
  match times with
  | [] => [0; 0; 0]
  | [a] => [a; 0; 0]
  | a :: b :: later => [a; b; default 0 (last later)]
  end.

(** The destructor [IGate::~IGate()] of the gate at [self]: the assertion
    that no parent is left, then [EraseAllChildren], with the destructions
    that the erasures bring. *)
Definition IGate_destructor (self : ptr) (σ : Store) : option Store :=
  IGateOps.destructor_with (IGateOps.release (size σ)) self σ.

(** Whether some gate of the store holds a pointer to [q] among its
    children. *)
Definition held_as_child (σ : Store) (q : ptr) : Prop :=
  ∃ p n g k, σ !! p = Some (mkObj n (IsGate g)) ∧ kids g !! k = Some q.

(** Whether some node of the store has the gate at [p], of index [i], among
    its parents. *)
Definition named_as_parent (σ : Store) (p : ptr) (i : Z) : Prop :=
  ∃ q c, σ !! q = Some c ∧
    (i ∈ dom (parents_ (node c)) ∨ ∃ j, parents_ (node c) !! j = Some p).

(** ** [xml.h]: read-only adaptors for libxml2 documents

    The functions of [xml.h] that work on strings and on the nodes of a
    parsed document.  A byte is an [ascii]; a C string is the list of its
    bytes up to the terminating NUL.  The nodes that libxml2 links through
    [next] into a list of siblings are a [list]; a pointer into such a list
    is the rest of the list from the node pointed to, the null pointer the
    empty list. *)

Module xml.

(** What a function yields: its result; the [ValidityError] it throws,
    with the line attached as [boost::errinfo_at_line], if any; a failed
    assertion; or undefined behaviour, for a null pointer handed to the C
    library. *)
Inductive Result (A : Type) :=
  | Returned (a : A)
  | ValidityError (msg : list ascii) (at_line : option Z)
  | AssertionFailed
  | UndefinedBehaviour.
Arguments Returned {A} a.
Arguments ValidityError {A} msg at_line.
Arguments AssertionFailed {A}.
Arguments UndefinedBehaviour {A}.

(** The bytes of a string literal. *)
Definition lit (s : string) : list ascii := String.list_ascii_of_string s.

(** [xml::string_view], a [boost::string_ref]: a pointer and a size.
    [data] holds the bytes from the pointer up to the terminating NUL of the
    C string pointed into; it is [None] for the null pointer of a
    default-constructed view. *)
Record string_view := mk_string_view {
  data : option (list ascii);
  size : nat
}.

(** The characters that the view covers. *)
Definition chars (v : string_view) : list ascii :=
  match data v with
  | Some d => take (size v) d
  | None => []
  end.

(** [string_ref(const char* str)], of size [strlen(str)]. *)
Definition of_c_string (s : list ascii) : string_view :=
  mk_string_view (Some s) (length s).

(** The default-constructed view, written [{}] in [xml.h]. *)
Definition null_view : string_view := mk_string_view None 0.

(** [find_first_not_of(c)] and [find_last_not_of(c)] of [string_ref], over
    the characters of the view; [None] stands for [npos]. *)
Fixpoint find_first_not_of (c : ascii) (s : list ascii) : option nat :=
  match s with
  | [] => None
  | x :: rest =>
      if decide (x = c) then S <$> find_first_not_of c rest else Some 0%nat
  end.

Fixpoint find_last_not_of (c : ascii) (s : list ascii) : option nat :=
  match s with
  | [] => None
  | x :: rest =>
      match find_last_not_of c rest with
      | Some i => Some (S i)
      | None => if decide (x = c) then None else Some 0%nat
      end
  end.

(** [detail::trim].  When there is a first character that is not a space
    there is a last one (lemma [find_last_not_of_is_Some]), so the inner
    [None] is never reached. *)
Definition trim (text : string_view) : string_view :=
  match find_first_not_of " " (chars text) with
  | None => null_view
  | Some pos_first =>
      match find_last_not_of " " (chars text) with
      | Some pos_last =>
          mk_string_view (drop pos_first <$> data text) (pos_last - pos_first + 1)
      | None => null_view
      end
  end.

(** [detail::CastValue<bool>] *)
Definition CastValue_bool (value : string_view) : Result bool :=
  if decide (chars value = lit "true" ∨ chars value = lit "1") then Returned true
  else if decide (chars value = lit "false" ∨ chars value = lit "0") then
    Returned false
  else
    ValidityError
      (lit "Failed to interpret '" ++ chars value ++ lit "' to 'bool'.") None.

(** [isspace] in the C locale: the space and the characters 9 to 13. *)
Definition isspace (c : ascii) : bool :=
  bool_decide (nat_of_ascii c = 32 ∨ 9 ≤ nat_of_ascii c ≤ 13)%nat.

(** The value of a decimal digit. *)
Definition digit (c : ascii) : option Z :=
  if decide (48 ≤ nat_of_ascii c ≤ 57)%nat
  then Some (Z.of_nat (nat_of_ascii c) - 48)
  else None.

Fixpoint skip_space (s : list ascii) : list ascii :=
  match s with
  | [] => []
  | c :: rest => if isspace c then skip_space rest else s
  end.

(** The number that the digits at the start of [s] continue from [acc],
    and what follows them. *)
Fixpoint digits (acc : Z) (s : list ascii) : Z * list ascii :=
  match s with
  | [] => (acc, [])
  | c :: rest =>
      match digit c with
      | Some d => digits (10 * acc + d) rest
      | None => (acc, s)
      end
  end.

Definition LLONG_MAX : Z := 2 ^ 63 - 1.
Definition LLONG_MIN : Z := - 2 ^ 63.
Definition INT_MAX : Z := 2 ^ 31 - 1.
Definition INT_MIN : Z := - 2 ^ 31.

(** [std::strtoll(nptr, &end, 10)] as the C standard has it, on the bytes
    of the C string at [nptr]: white space is skipped, a sign may follow,
    then the decimal digits are taken.  The result is the value, which is
    [LLONG_MAX] or [LLONG_MIN] when the number is out of range, and
    [end - nptr]; without a digit nothing is converted: the value is 0 and
    [end] is [nptr]. *)
Definition strtoll (nptr : list ascii) : Z * nat :=
  let s1 := skip_space nptr in
  let '(negative, s2) :=
    match s1 with
    | c :: rest =>
        if decide (c = "-"%char) then (true, rest)
        else if decide (c = "+"%char) then (false, rest)
        else (false, s1)
    | [] => (false, s1)
    end in
  let '(magnitude, rest) := digits 0 s2 in
  if decide (length rest = length s2) then (0, 0%nat)
  else
    (Z.max LLONG_MIN (Z.min LLONG_MAX (if negative then - magnitude else magnitude)),
     (length nptr - length rest)%nat).

(** The message of the [ValidityError] of [CastValue<int>]. *)
Definition not_an_int (value : list ascii) : list ascii :=
  lit "Failed to interpret '" ++ value ++ lit "' to 'int'.".

(** The conversion of a pointer difference to [int], which keeps the low
    32 bits, and the conversion of an [int] to [std::size_t], to which the
    comparison with the unsigned [size()] brings it. *)
Definition to_int (z : Z) : Z := (z + 2 ^ 31) mod 2 ^ 32 - 2 ^ 31.
Definition to_size_t (z : Z) : Z := z mod 2 ^ 64.

(** [detail::CastValue<int>].  [strtoll] reads from [value.data()] up to
    where the number ends, be it beyond the view; [int len] takes the
    difference [end_char - value.data()]. *)
Definition CastValue_int (value : string_view) : Result Z :=
  match data value with
  | None => UndefinedBehaviour
  | Some d =>
      let '(ret, end_offset) := strtoll d in
      let len := to_int (Z.of_nat end_offset) in
      if decide (to_size_t len ≠ Z.of_nat (size value)
                 ∨ ret > INT_MAX ∨ ret < INT_MIN)
      then ValidityError (not_an_int (chars value)) None
      else Returned ret
  end.

(** ** Nodes *)

(** [xmlElementType], the kinds of node met in the lists of a parsed
    document. *)
Inductive xmlElementType :=
  | XML_ELEMENT_NODE
  | XML_ATTRIBUTE_NODE
  | XML_TEXT_NODE
  | XML_CDATA_SECTION_NODE
  | XML_PI_NODE
  | XML_COMMENT_NODE.

#[global] Instance xmlElementType_eq_dec : EqDecision xmlElementType.
Proof. solve_decision. Defined.

(** [xmlNode], with [xmlAttr] as the pair of a name and the list of its
    children.  [content] may be the null pointer. *)
#[local] Unset Elimination Schemes.
Inductive xmlNode := mk_xmlNode {
  type : xmlElementType;
  name : list ascii;
  content : option (list ascii);
  children : list xmlNode;
  properties : list (list ascii * list xmlNode);
  line : Z
}.
#[local] Set Elimination Schemes.

(** [Element::Range::findElement]: the first node of type
    [XML_ELEMENT_NODE] from [node] on. *)
Fixpoint findElement (node : list xmlNode) : list xmlNode :=
  match node with
  | [] => []
  | n :: next =>
      if decide (type n = XML_ELEMENT_NODE) then node else findElement next
  end.

(** [Element::Range]: the constructor sets [begin_]; [end()] is the
    iterator of the null pointer. *)
Definition Range (head : list xmlNode) : list xmlNode := findElement head.

(** [Range::iterator::increment], with its assertion. *)
Definition increment (element_ : list xmlNode) : option (list xmlNode) :=
  match element_ with
  | [] => None
  | _ :: next => Some (findElement next)
  end.

(** [Range::empty()]: [begin() == end()]. *)
Definition empty (r : list xmlNode) : bool :=
  match r with [] => true | _ :: _ => false end.

(** The elements met from [it] to [end()], by dereferencing and
    incrementing; [fuel] bounds the number of steps. *)
Fixpoint iterate (fuel : nat) (it : list xmlNode) : list xmlNode :=
  match it with
  | [] => []
  | element :: _ =>
      match fuel with
      | O => []
      | S fuel' =>
          match increment it with
          | Some next => element :: iterate fuel' next
          | None => []
          end
      end
  end.

(** Every increment goes at least one node further, so the length of the
    list bounds the number of steps. *)
Definition elements (r : list xmlNode) : list xmlNode := iterate (length r) r.

(** [Range::size()]: [std::distance(begin(), end())]. *)
Definition Range_size (r : list xmlNode) : nat := length (elements r).

(** [Element::children()] *)
Definition Element_children (e : xmlNode) : list xmlNode := Range (children e).

(** The loop of [Element::child] over the elements of a range. *)
Fixpoint child_loop (name : string_view) (els : list xmlNode) : option xmlNode :=
  match els with
  | [] => None
  | element :: rest =>
      if decide (size name = 0%nat ∨ chars name = xml.name element)
      then Some element
      else child_loop name rest
  end.

(** [Element::child(name)] *)
Definition child (name : string_view) (e : xmlNode) : option xmlNode :=
  child_loop name (elements (Element_children e)).

(** [Element::children(name)], the range filtered by the name. *)
Definition children_named (name : string_view) (e : xmlNode) : list xmlNode :=
  filter (λ element, xml.name element = chars name) (elements (Element_children e)).

(** [xmlHasProp] of libxml2 for documents without DTD: the attribute of
    an element node with the given name, if any. *)
Definition xmlHasProp (node : xmlNode) (name : list ascii)
  : option (list ascii * list xmlNode) :=
  if decide (type node = XML_ELEMENT_NODE) then
    head (filter (λ a : list ascii * list xmlNode, a.1 = name) (properties node))
  else None.

(** [Element::has_attribute(name)] *)
Definition has_attribute (name : list ascii) (e : xmlNode) : bool :=
  match xmlHasProp e name with
  | Some _ => true
  | None => false
  end.

(** [xml::string_view Element::attribute(const char* name)] *)
Definition attribute (name : list ascii) (e : xmlNode) : Result string_view :=
  match xmlHasProp e name with
  | None => Returned null_view
  | Some property =>
      match property.2 with
      | text_node :: _ =>
          if decide (type text_node = XML_TEXT_NODE) then
            match content text_node with
            | Some c => Returned (trim (of_c_string c))
            | None => AssertionFailed
            end
          else AssertionFailed
      | [] => AssertionFailed
      end
  end.

(** The loop of [Element::text()]: the first node of type [XML_TEXT_NODE]
    from [text_node] on. *)
Fixpoint find_text (text_node : list xmlNode) : option xmlNode :=
  match text_node with
  | [] => None
  | n :: next => if decide (type n = XML_TEXT_NODE) then Some n else find_text next
  end.

(** [xml::string_view Element::text()] *)
Definition text (e : xmlNode) : Result string_view :=
  match find_text (children e) with
  | Some text_node =>
      match content text_node with
      | Some c => Returned (trim (of_c_string c))
      | None => AssertionFailed
      end
  | None => AssertionFailed
  end.

(** [template <typename T> Element::attribute<T>(name)], for the
    specialization [CastValue] of [detail::CastValue<T>]. *)
Definition attribute_as {T : Type} (CastValue : string_view → Result T)
    (name : list ascii) (e : xmlNode) : Result (option T) :=
  match attribute name e with
  | Returned value =>
      if decide (size value = 0%nat) then Returned None
      else
        match CastValue value with
        | Returned t => Returned (Some t)
        | ValidityError msg _ =>
            ValidityError (lit "Attribute '" ++ name ++ lit "': " ++ msg)
              (Some (line e))
        | AssertionFailed => AssertionFailed
        | UndefinedBehaviour => UndefinedBehaviour
        end
  | ValidityError msg l => ValidityError msg l
  | AssertionFailed => AssertionFailed
  | UndefinedBehaviour => UndefinedBehaviour
  end.

(** [template <typename T> Element::text<T>()] *)
Definition text_as {T : Type} (CastValue : string_view → Result T) (e : xmlNode)
  : Result T :=
  match text e with
  | Returned value =>
      match CastValue value with
      | Returned t => Returned t
      | ValidityError msg _ =>
          ValidityError (lit "Text element: " ++ msg) (Some (line e))
      | AssertionFailed => AssertionFailed
      | UndefinedBehaviour => UndefinedBehaviour
      end
  | ValidityError msg l => ValidityError msg l
  | AssertionFailed => AssertionFailed
  | UndefinedBehaviour => UndefinedBehaviour
  end.

(** The four texts that [CastValue<bool>] takes, by the value returned. *)
Definition bool_texts (b : bool) : list (list ascii) :=
  if b then [lit "true"; lit "1"] else [lit "false"; lit "0"].

(** The message of the [ValidityError] of [CastValue<bool>]. *)
Definition not_a_bool (value : list ascii) : list ascii :=
  lit "Failed to interpret '" ++ value ++ lit "' to 'bool'.".

(** The number that a list of decimal digits denotes. *)
Definition decimal (ds : list ascii) : Z :=
  foldl (λ acc c, 10 * acc + default 0 (digit c)) 0 ds.

(** A decimal numeral of C: white space, an optional sign, and one digit or
    more; with the number it denotes. *)
Definition numeral (w : list ascii) (n : Z) : Prop :=
  ∃ ws sign ds,
    w = ws ++ sign ++ ds ∧
    Forall (λ c, isspace c = true) ws ∧
    (sign = [] ∧ n = decimal ds ∨ sign = ["+"%char] ∧ n = decimal ds
     ∨ sign = ["-"%char] ∧ n = - decimal ds) ∧
    ds ≠ [] ∧ Forall (λ c, is_Some (digit c)) ds.

(** Nodes for examples: the element [<flag on=" 1 "> true </flag>] at
    line 7 and the element [<count> 42</count>] at line 8, each with a
    comment before its text. *)
Definition text_node (c : list ascii) : xmlNode :=
  mk_xmlNode XML_TEXT_NODE (lit "text") (Some c) [] [] 0.

Definition comment_node : xmlNode :=
  mk_xmlNode XML_COMMENT_NODE (lit "comment") (Some (lit "note")) [] [] 0.

Definition flag_element : xmlNode :=
  mk_xmlNode XML_ELEMENT_NODE (lit "flag") None
    [comment_node; text_node (lit " true ")]
    [(lit "on", [text_node (lit " 1 ")])] 7.

Definition count_element : xmlNode :=
  mk_xmlNode XML_ELEMENT_NODE (lit "count") None
    [comment_node; text_node (lit " 42")] [] 8.

End xml.

(** * Properties *)

(** ** Visit times *)

Section visit_sequences.
Import NodeOps.

Lemma visit_all_app l1 l2 n :
  visit_all (l1 ++ l2) n =
  match visit_all l1 n with
  | Some (rs1, n1) =>
      match visit_all l2 n1 with
      | Some (rs2, n2) => Some (rs1 ++ rs2, n2)
      | None => None
      end
  | None => None
  end.
Proof.
  revert n. induction l1 as [|t l1 IH]; intros n; simpl.
  - destruct (visit_all l2 n) as [[rs2 n2]|]; reflexivity.
  - destruct (Visit t n) as [[r n']|]; [|reflexivity].
    rewrite IH. destruct (visit_all l1 n') as [[rs1 n1]|]; [|reflexivity].
    destruct (visit_all l2 n1) as [[rs2 n2]|]; reflexivity.
Qed.

Lemma Visit_step j t n :
  0 < t → visits_after j (visits_ n) →
  ∃ n', Visit t n = Some (bool_decide (2 ≤ j)%nat, n')
        ∧ visits_after (S j) (visits_ n')
        ∧ match j with
          | O => EnterTime n' = t
          | S O => ExitTime n' = t ∧ EnterTime n' = EnterTime n
          | _ => LastVisit n' = t ∧ visits_ n' !!! 2%nat = t
                 ∧ EnterTime n' = EnterTime n ∧ ExitTime n' = ExitTime n
          end.
Proof.
  intros Ht Hj. unfold Visit, LastVisit, EnterTime, ExitTime.
  destruct (decide (t > 0)) as [_|]; [|lia].
  destruct j as [|[|j]]; simpl in Hj.
  - rewrite Hj. simpl. eexists; split; [reflexivity|]. simpl.
    split; [exists t; auto|reflexivity].
  - destruct Hj as (a & Ha & ->). simpl.
    destruct (decide (a = 0)); [lia|]. simpl.
    eexists; split; [reflexivity|]. simpl.
    split; [exists a, t, 0; auto|]. split; reflexivity.
  - destruct Hj as (a & b & c & Ha & Hb & ->). simpl.
    destruct (decide (a = 0)); [lia|]. destruct (decide (b = 0)); [lia|].
    eexists; split; [reflexivity|]. simpl.
    split; [exists a, b, t; auto|].
    destruct (decide (t = 0)); [lia|]. auto.
Qed.

Lemma visit_all_total l n :
  visits_ n = [0; 0; 0] → Forall (λ t, 0 < t) l →
  ∃ rs n', visit_all l n = Some (rs, n')
           ∧ length rs = length l
           ∧ visits_after (length l) (visits_ n').
Proof.
  intros Hn. induction l as [|t l IH] using rev_ind; intros Hl.
  - exists [], n. simpl. auto.
  - apply Forall_app in Hl as [Hl Ht].
    apply Forall_cons in Ht as [Ht _].
    destruct (IH Hl) as (rs & n1 & Hrun & Hlen & Hshape).
    destruct (Visit_step _ t n1 Ht Hshape) as (n2 & Hv & Hshape2 & _).
    exists (rs ++ [bool_decide (2 ≤ length l)%nat]), n2.
    rewrite visit_all_app, Hrun. simpl. rewrite Hv.
    rewrite !length_app. simpl. rewrite Hlen.
    replace (length l + 1)%nat with (S (length l)) by lia. auto.
Qed.

End visit_sequences.

(** C8.  On a node whose visit times are clear, a sequence of calls of
    [Visit] with positive times runs without failing an assertion, and call
    number [i] (from 0), made with time [t]: for [i = 0] returns false and
    makes [t] the enter time; for [i = 1] returns false and makes [t] the
    exit time; for every later [i] returns true and makes [t] the time of the
    last visit.  Enter and exit times stay as recorded. *)
Theorem C8_visit_sequence (n : Node) (times : list Z) :
  visits_ n = [0; 0; 0] →
  Forall (λ t, 0 < t) times →
  ∃ rs n_end,
    NodeOps.visit_all times n = Some (rs, n_end) ∧
    ∀ (i : nat) t, times !! i = Some t →
      ∃ rs_i n_i r n_i',
        NodeOps.visit_all (take i times) n = Some (rs_i, n_i) ∧
        NodeOps.Visit t n_i = Some (r, n_i') ∧
        rs !! i = Some r ∧
        match i with
        | O => r = false ∧ NodeOps.EnterTime n_i' = t
        | S O => r = false ∧ NodeOps.ExitTime n_i' = t
                 ∧ NodeOps.EnterTime n_i' = NodeOps.EnterTime n_i
        | _ => r = true ∧ NodeOps.LastVisit n_i' = t
               ∧ NodeOps.EnterTime n_i' = NodeOps.EnterTime n_i
               ∧ NodeOps.ExitTime n_i' = NodeOps.ExitTime n_i
        end.
Proof.
  intros Hn Hpos.
  destruct (visit_all_total times n Hn Hpos) as (rs & n_end & Hrun & Hlen & _).
  exists rs, n_end. split; [exact Hrun|].
  intros i t Hi.
  assert (Hsplit : times = take i times ++ t :: drop (S i) times).
  { symmetry. apply take_drop_middle. exact Hi. }
  assert (Hlt : (i < length times)%nat) by (eapply lookup_lt_Some; eauto).
  assert (Hpos_i : Forall (λ t, 0 < t) (take i times)) by (apply Forall_take; auto).
  destruct (visit_all_total (take i times) n Hn Hpos_i)
    as (rs_i & n_i & Hrun_i & Hlen_i & Hshape).
  rewrite length_take in Hlen_i, Hshape.
  replace (i `min` length times)%nat with i in * by lia.
  assert (Ht : 0 < t).
  { rewrite Forall_forall in Hpos. apply Hpos. eapply list_elem_of_lookup_2; eauto. }
  destruct (Visit_step i t n_i Ht Hshape) as (n_i' & Hv & _ & Hpost).
  exists rs_i, n_i, (bool_decide (2 ≤ i)%nat), n_i'.
  split; [exact Hrun_i|]. split; [exact Hv|]. split.
  - rewrite Hsplit in Hrun.
    rewrite visit_all_app, Hrun_i in Hrun. simpl in Hrun. rewrite Hv in Hrun.
    destruct (NodeOps.visit_all (drop (S i) times) n_i') as [[rs2 n2]|]; [|discriminate].
    injection Hrun as <- _.
    rewrite lookup_app_r by lia. rewrite Hlen_i, Nat.sub_diag. reflexivity.
  - destruct i as [|[|i]]; simpl; intuition.
Qed.

(** A fresh node visited at times 3, 5, 8 and 9. *)
Lemma C8_visit_sequence_witness :
  ∃ rs n_end,
    NodeOps.visit_all [3; 5; 8; 9] (mkNode 7 [0; 0; 0] ∅ 0 1) = Some (rs, n_end) ∧
    ∀ (i : nat) t, [3; 5; 8; 9] !! i = Some t →
      ∃ rs_i n_i r n_i',
        NodeOps.visit_all (take i [3; 5; 8; 9]) (mkNode 7 [0; 0; 0] ∅ 0 1)
          = Some (rs_i, n_i) ∧
        NodeOps.Visit t n_i = Some (r, n_i') ∧
        rs !! i = Some r ∧
        match i with
        | O => r = false ∧ NodeOps.EnterTime n_i' = t
        | S O => r = false ∧ NodeOps.ExitTime n_i' = t
                 ∧ NodeOps.EnterTime n_i' = NodeOps.EnterTime n_i
        | _ => r = true ∧ NodeOps.LastVisit n_i' = t
               ∧ NodeOps.EnterTime n_i' = NodeOps.EnterTime n_i
               ∧ NodeOps.ExitTime n_i' = NodeOps.ExitTime n_i
        end.
Proof.
  apply (C8_visit_sequence (mkNode 7 [0; 0; 0] ∅ 0 1) [3; 5; 8; 9]).
  - reflexivity.
  - repeat constructor.
Defined.

(** ** Basic events and their indices *)

Section basic_event_facts.
Context {BasicEvent : Type}.
Implicit Types (es : list BasicEvent) (st : Indexation BasicEvent).

Lemma register_in_step st e : in_step st → in_step (register_basic_event st e).
Proof.
  intros [Hn Ha]. split; simpl.
  - rewrite length_app. simpl. lia.
  - rewrite imap_app, <- Ha. simpl. rewrite Nat.add_0_r, Hn. reflexivity.
Qed.

Lemma foldl_register_in_step es st :
  in_step st →
  in_step (foldl register_basic_event st es)
  ∧ events_ (foldl register_basic_event st es) = events_ st ++ es.
Proof.
  revert st. induction es as [|e es IH]; intros st Hst; simpl.
  - rewrite app_nil_r. auto.
  - destruct (IH _ (register_in_step st e Hst)) as [H1 H2].
    split; [exact H1|]. rewrite H2. simpl. rewrite <- app_assoc. reflexivity.
Qed.

Lemma index_basic_events_spec es :
  in_step (index_basic_events es) ∧ events_ (index_basic_events es) = es.
Proof.
  apply (foldl_register_in_step es Variable_ResetIndex). split; reflexivity.
Qed.

End basic_event_facts.

(** C9.  When the basic events [es] were indexed at construction, starting
    from the reset counter, every index [i] with [1 <= i <= n] passes the
    assertions of [GetBasicEvent], and the call returns the element at
    position [i - 1] of [basic_events_], which is the one basic event that
    was given index [i]. *)
Theorem C9_get_basic_event {BasicEvent : Type} (es : list BasicEvent)
    (top : ptr) (coherent constants normal : bool) (i : Z) :
  1 ≤ i ≤ Z.of_nat (length es) →
  let st := index_basic_events es in
  let bg := graph_of top st coherent constants normal in
  ∃ e, GetBasicEvent i bg = Some e
       ∧ basic_events_ bg !! Z.to_nat (i - 1) = Some e
       ∧ (i, e) ∈ assigned_ st
       ∧ ∀ e', (i, e') ∈ assigned_ st → e' = e.
Proof.
  intros Hi st bg.
  destruct (index_basic_events_spec es) as [[Hnext Hassigned] Hevents].
  fold st in Hnext, Hassigned, Hevents.
  assert (Hlt : (Z.to_nat (i - 1) < length es)%nat) by lia.
  destruct (lookup_lt_is_Some_2 es _ Hlt) as [e He].
  exists e. unfold GetBasicEvent, bg, graph_of. simpl. rewrite Hevents.
  destruct (decide (i > 0)); [|lia].
  destruct (decide (i ≤ Z.of_nat (length es))); [|lia].
  split; [exact He|]. split; [exact He|].
  rewrite Hassigned, Hevents. split.
  - apply list_elem_of_lookup. exists (Z.to_nat (i - 1)).
    rewrite list_lookup_imap, He. simpl. f_equal. f_equal. lia.
  - intros e' He'. apply list_elem_of_lookup in He' as [j Hj].
    rewrite list_lookup_imap in Hj.
    destruct (es !! j) as [e''|] eqn:Hj'; simpl in Hj; [|discriminate].
    injection Hj as Hij ->.
    assert (j = Z.to_nat (i - 1)) as -> by lia. congruence.
Qed.

(** Three basic events; index 2 leads back to the second. *)
Lemma C9_get_basic_event_witness :
  1 ≤ 2 ≤ Z.of_nat (length [10%nat; 20%nat; 30%nat]) ∧
  ∃ e, GetBasicEvent 2 (graph_of 1%positive (index_basic_events [10%nat; 20%nat; 30%nat])
                          true false true) = Some e
       ∧ [10%nat; 20%nat; 30%nat] !! Z.to_nat (2 - 1) = Some e
       ∧ (2, e) ∈ assigned_ (index_basic_events [10%nat; 20%nat; 30%nat])
       ∧ ∀ e', (2, e') ∈ assigned_ (index_basic_events [10%nat; 20%nat; 30%nat]) → e' = e.
Proof.
  split; [simpl; lia|].
  apply (C9_get_basic_event [10%nat; 20%nat; 30%nat] 1%positive true false true 2).
  simpl; lia.
Defined.

(** ** The children of a gate *)

(** ** The children of a gate *)

Section children_facts.
Import IGateOps Modelled.

Lemma set_rbegin_None (X : gset Z) : set_rbegin X = None ↔ X = ∅.
Proof.
  unfold set_rbegin. split.
  - destruct (elements X) eqn:E; [|discriminate].
    intros _. by apply elements_empty_inv in E; apply leibniz_equiv in E.
  - intros ->. by rewrite elements_empty.
Qed.

Lemma foldr_max_in (x : Z) (l : list Z) : foldr Z.max x l ∈ x :: l.
Proof.
  induction l as [|y l IH]; simpl; [apply list_elem_of_here|].
  apply elem_of_cons in IH.
  destruct (Z.max_spec y (foldr Z.max x l)) as [[_ ->]|[_ ->]].
  - destruct IH as [->|IH]; [apply list_elem_of_here|].
    by do 2 apply list_elem_of_further.
  - apply list_elem_of_further, list_elem_of_here.
Qed.

Lemma foldr_max_ge (x : Z) (l : list Z) y : y ∈ x :: l → y ≤ foldr Z.max x l.
Proof.
  induction l as [|z l IH]; simpl.
  - intros ->%list_elem_of_singleton. lia.
  - rewrite !elem_of_cons. intros [->|[->|H]].
    + assert (x ≤ foldr Z.max x l) by (apply IH; set_solver). lia.
    + lia.
    + assert (y ≤ foldr Z.max x l) by (apply IH; set_solver). lia.
Qed.

Lemma set_rbegin_Some (X : gset Z) k :
  set_rbegin X = Some k → k ∈ X ∧ ∀ y, y ∈ X → y ≤ k.
Proof.
  unfold set_rbegin. destruct (elements X) as [|x l] eqn:E; [discriminate|].
  intros [= <-]. split.
  - apply elem_of_elements. rewrite E. apply foldr_max_in.
  - intros y Hy. apply foldr_max_ge. rewrite <- E. by apply elem_of_elements.
Qed.

Lemma child_pointer_kids g k : child_pointer g k = kids g !! k.
Proof.
  unfold child_pointer, kids. rewrite !lookup_union.
  destruct (gate_children_ g !! k), (constant_children_ g !! k),
    (variable_children_ g !! k); reflexivity.
Qed.

Lemma kids_Some g k q :
  kids g !! k = Some q ↔ ∃ ov, map_of ov g !! k = Some q ∧
                               child_pointer g k = Some q.
Proof.
  rewrite child_pointer_kids. split.
  - intros H. pose proof H as H'. unfold kids in H.
    apply lookup_union_Some_raw in H as [H|[_ H]].
    + apply lookup_union_Some_raw in H as [H|[_ H]].
      * exists ofGate; auto.
      * exists ofConstant; auto.
    + exists ofVariable; auto.
  - intros (_ & _ & H). exact H.
Qed.

Lemma map_of_kids g ov k q :
  gate_wf g → map_of ov g !! k = Some q → kids g !! k = Some q.
Proof.
  intros [Hgc Hgv Hcv _ _ _] H. unfold kids. rewrite !lookup_union.
  destruct ov; simpl in H.
  - rewrite H. destruct (constant_children_ g !! k), (variable_children_ g !! k); done.
  - rewrite H.
    rewrite (map_disjoint_Some_r _ _ _ _ Hgv H), (map_disjoint_Some_r _ _ _ _ Hcv H). done.
  - rewrite H, (map_disjoint_Some_r _ _ _ _ Hgc H).
    destruct (variable_children_ g !! k); done.
Qed.

Lemma map_of_unique g ov ov' k :
  gate_wf g → k ∈ dom (map_of ov g) → k ∈ dom (map_of ov' g) → ov' = ov.
Proof.
  intros [Hgc Hgv Hcv _ _ _] [q H]%elem_of_dom [q' H']%elem_of_dom.
  destruct ov, ov'; simpl in *; try reflexivity; exfalso.
  - exact (proj1 (map_disjoint_spec _ _) Hgv _ _ _ H H').
  - exact (proj1 (map_disjoint_spec _ _) Hgc _ _ _ H H').
  - exact (proj1 (map_disjoint_spec _ _) Hgv _ _ _ H' H).
  - exact (proj1 (map_disjoint_spec _ _) Hcv _ _ _ H' H).
  - exact (proj1 (map_disjoint_spec _ _) Hgc _ _ _ H' H).
  - exact (proj1 (map_disjoint_spec _ _) Hcv _ _ _ H H').
Qed.

Lemma children_kids g k :
  gate_wf g → (k ∈ children_ g ↔ is_Some (kids g !! k)).
Proof. intros Hg. rewrite (wf_children g Hg). apply elem_of_dom. Qed.

End children_facts.

(** ** The body of [EraseChild] *)

Section footprint.
Import IGateOps Modelled.

Lemma updated_fwd {self g' q f h σ σ' x o} :
  updated self g' q f h σ σ' → σ !! x = Some o →
  ∃ o', σ' !! x = Some o' ∧ index_ (node o') = index_ (node o) ∧
        kind o' = (if decide (x = self) then IsGate g' else kind o) ∧
        parents_ (node o') =
          (if decide (x = q) then f (parents_ (node o)) else parents_ (node o)) ∧
        use_count_ (node o') =
          (if decide (x = q) then h (use_count_ (node o)) else use_count_ (node o)) ∧
        visits_ (node o') = visits_ (node o) ∧
        opti_value_ (node o') = opti_value_ (node o).
Proof.
  intros Hu Hx. specialize (Hu x). rewrite Hx in Hu.
  destruct (σ' !! x) as [o'|]; [eauto|contradiction].
Qed.

Lemma updated_bwd {self g' q f h σ σ' x o'} :
  updated self g' q f h σ σ' → σ' !! x = Some o' →
  ∃ o, σ !! x = Some o ∧ index_ (node o') = index_ (node o) ∧
       kind o' = (if decide (x = self) then IsGate g' else kind o) ∧
       parents_ (node o') =
         (if decide (x = q) then f (parents_ (node o)) else parents_ (node o)) ∧
       use_count_ (node o') =
         (if decide (x = q) then h (use_count_ (node o)) else use_count_ (node o)) ∧
       visits_ (node o') = visits_ (node o) ∧
       opti_value_ (node o') = opti_value_ (node o).
Proof.
  intros Hu Hx. specialize (Hu x). rewrite Hx in Hu.
  destruct (σ !! x) as [o|]; [eauto|contradiction].
Qed.

Lemma updated_dom {self g' q f h σ σ'} :
  updated self g' q f h σ σ' → dom σ' = dom σ.
Proof.
  intros Hu. apply set_eq. intros x. rewrite !elem_of_dom.
  specialize (Hu x). destruct (σ !! x), (σ' !! x); try contradiction;
    split; intros [? ?]; eauto; discriminate.
Qed.

(** Writing the gate and then the node [q] has this footprint. *)
Lemma two_writes_updated self n g g' q f h σ c :
  σ !! self = Some (mkObj n (IsGate g)) →
  <[self := mkObj n (IsGate g')]> σ !! q = Some c →
  updated self g' q f h σ
    (<[q := mkObj (set_use_count (h (use_count_ (node c)))
                     (set_parents (f (parents_ (node c))) (node c))) (kind c)]>
       (<[self := mkObj n (IsGate g')]> σ)).
Proof.
  intros Hself Hq x.
  destruct (decide (x = q)) as [->|Hxq].
  - rewrite lookup_insert_eq.
    destruct (decide (q = self)) as [->|Hqs].
    + rewrite lookup_insert_eq in Hq. injection Hq as <-.
      rewrite Hself. simpl. auto 10.
    + rewrite lookup_insert_ne in Hq by done. rewrite Hq. simpl. auto 10.
  - rewrite lookup_insert_ne by done.
    destruct (decide (x = self)) as [->|Hxs].
    + rewrite lookup_insert_eq, Hself. simpl. auto 10.
    + rewrite lookup_insert_ne by done.
      destruct (σ !! x); auto 10.
Qed.

Lemma updated_index_pos {self g' q f h σ σ'} :
  updated self g' q f h σ σ' →
  (∀ p o, σ !! p = Some o → 0 < index_ (node o)) →
  ∀ p o, σ' !! p = Some o → 0 < index_ (node o).
Proof.
  intros Hu H p o' Hp.
  destruct (updated_bwd Hu Hp) as (o & Ho & -> & _). eauto.
Qed.

Lemma updated_index_inj {self g' q f h σ σ'} :
  updated self g' q f h σ σ' →
  (∀ p q o o', σ !! p = Some o → σ !! q = Some o' →
               index_ (node o) = index_ (node o') → p = q) →
  ∀ p q o o', σ' !! p = Some o → σ' !! q = Some o' →
              index_ (node o) = index_ (node o') → p = q.
Proof.
  intros Hu H p1 p2 o1 o2 H1 H2 Heq.
  destruct (updated_bwd Hu H1) as (o1' & Ho1 & E1 & _).
  destruct (updated_bwd Hu H2) as (o2' & Ho2 & E2 & _).
  eapply H; eauto. congruence.
Qed.

(** A gate of the new store is [g'] at [self] and the old gate elsewhere. *)
Lemma updated_gate {self n g g' q f h σ σ' p n' g2} :
  updated self g' q f h σ σ' →
  σ !! self = Some (mkObj n (IsGate g)) →
  σ' !! p = Some (mkObj n' (IsGate g2)) →
  ∃ n0 g0, σ !! p = Some (mkObj n0 (IsGate g0)) ∧ index_ n' = index_ n0 ∧
           (p = self → g2 = g' ∧ g0 = g ∧ n0 = n) ∧ (p ≠ self → g2 = g0).
Proof.
  intros Hu Hself Hp.
  destruct (updated_bwd Hu Hp) as ([n0 k0] & Ho & Ei & Ek & _).
  simpl in *. destruct (decide (p = self)) as [->|Hne].
  - rewrite Hself in Ho. injection Ho as <- <-. injection Ek as ->.
    exists n, g. repeat split; auto; congruence.
  - subst k0. exists n0, g2. repeat split; auto; congruence.
Qed.

Lemma updated_overload {self n g g' q f h σ σ' x o o'} :
  updated self g' q f h σ σ' →
  σ !! self = Some (mkObj n (IsGate g)) →
  σ !! x = Some o → σ' !! x = Some o' →
  overload_of (kind o') = overload_of (kind o).
Proof.
  intros Hu Hself Hx Hx'.
  destruct (updated_fwd Hu Hx) as (o'' & Ho'' & _ & Ek & _).
  rewrite Hx' in Ho''. injection Ho'' as <-. rewrite Ek.
  destruct (decide (x = self)) as [->|]; [|reflexivity].
  rewrite Hself in Hx. injection Hx as <-. reflexivity.
Qed.

End footprint.

Section unlink.
Import IGateOps Modelled.

(** What the body of [EraseChild] did when it ran to its closing brace. *)
Lemma unlink_inv self k q σ σ' :
  unlink self k σ = Some (q, σ') →
  ∃ n g g' ov c0,
    σ !! self = Some (mkObj n (IsGate g)) ∧ k ≠ 0 ∧ k ∈ children_ g ∧
    child_pointer g k = Some q ∧ map_of ov g !! k = Some q ∧
    children_ g' = children_ g ∖ {[k]} ∧
    state_ g' = state_ g ∧ type_ g' = type_ g ∧
    (∀ ov', map_of ov' g' =
            if decide (ov' = ov) then delete k (map_of ov' g) else map_of ov' g) ∧
    g' = set_children (children_ g') (gate_children_ g') (variable_children_ g')
           (constant_children_ g') g ∧
    σ !! q = Some c0 ∧ index_ n ∈ dom (parents_ (node c0)) ∧
    updated self g' q (delete (index_ n)) (λ c, c) σ σ'.
Proof.
  unfold unlink. intros H.
  destruct (σ !! self) as [[n [| |g]]|] eqn:Hself; try discriminate.
  destruct (decide (k ≠ 0 ∧ k ∈ children_ g)) as [[Hk0 Hk]|]; [|discriminate].
  set (ch := children_ g ∖ {[k]}) in *.
  assert (Hfound : ∃ q0 g' ov,
    child_pointer g k = Some q0 ∧ map_of ov g !! k = Some q0 ∧
    children_ g' = ch ∧ state_ g' = state_ g ∧ type_ g' = type_ g ∧
    (∀ ov', map_of ov' g' =
            if decide (ov' = ov) then delete k (map_of ov' g) else map_of ov' g) ∧
    g' = set_children (children_ g') (gate_children_ g') (variable_children_ g')
           (constant_children_ g') g ∧
    match <[self := mkObj n (IsGate g')]> σ !! q0 with
    | Some c =>
        if decide (index_ n ∈ dom (parents_ (node c))) then
          Some (q0, <[q0 := mkObj (set_parents (delete (index_ n) (parents_ (node c)))
                                (node c)) (kind c)]>
                  (<[self := mkObj n (IsGate g')]> σ))
        else None
    | None => None
    end = Some (q, σ')).
  { unfold child_pointer.
    destruct (gate_children_ g !! k) as [q0|] eqn:Hg.
    - exists q0, (set_children ch (delete k (gate_children_ g))
                   (variable_children_ g) (constant_children_ g) g), ofGate.
      repeat split; auto. intros []; reflexivity.
    - destruct (constant_children_ g !! k) as [q0|] eqn:Hc.
      + exists q0, (set_children ch (gate_children_ g) (variable_children_ g)
                     (delete k (constant_children_ g)) g), ofConstant.
        repeat split; auto. intros []; reflexivity.
      + destruct (variable_children_ g !! k) as [q0|] eqn:Hv; [|discriminate].
        exists q0, (set_children ch (gate_children_ g)
                     (delete k (variable_children_ g))
                     (constant_children_ g) g), ofVariable.
        repeat split; auto. intros []; reflexivity. }
  clear H.
  destruct Hfound as (q0 & g' & ov & Hcp & Hov & Hch & Hst & Hty & Hmaps & Hrec & H).
  destruct (<[self := mkObj n (IsGate g')]> σ !! q0) as [c|] eqn:Hq; [|discriminate].
  destruct (decide (index_ n ∈ dom (parents_ (node c)))) as [Hin|]; [|discriminate].
  injection H as -> <-.
  assert (Hc0 : ∃ c0, σ !! q = Some c0 ∧ node c0 = node c).
  { destruct (decide (q = self)) as [->|Hne].
    - rewrite lookup_insert_eq in Hq. injection Hq as <-. eauto.
    - rewrite lookup_insert_ne in Hq by done. eauto. }
  destruct Hc0 as (c0 & Hc0 & Hnode).
  exists n, g, g', ov, c0. rewrite Hnode.
  split_and!; auto.
  exact (two_writes_updated self n g g' q (delete (index_ n)) (λ c, c) σ c Hself Hq).
Qed.

(** The body of [EraseChild] runs to its closing brace on a child of a gate
    of a well-formed graph. *)
Lemma unlink_total self n g k σ :
  graph_inv σ → σ !! self = Some (mkObj n (IsGate g)) → k ∈ children_ g →
  ∃ q σ', unlink self k σ = Some (q, σ').
Proof.
  intros Hinv Hself Hk.
  pose proof (inv_gate σ Hinv _ _ _ Hself) as Hg.
  assert (Hk0 : k ≠ 0) by (intros ->; by apply (wf_nonzero g Hg)).
  destruct (proj1 (children_kids g k Hg) Hk) as [q Hq].
  pose proof Hq as Hq'. rewrite <- child_pointer_kids in Hq'.
  apply kids_Some in Hq as (ov & Hov & _).
  destruct (inv_child σ Hinv _ _ _ _ _ _ Hself Hov) as (c & Hc & _ & _).
  assert (Hpar : index_ n ∈ dom (parents_ (node c))).
  { apply (inv_parents σ Hinv _ _ _ _ _ Hself Hc). exists k.
    by rewrite <- child_pointer_kids. }
  unfold unlink. rewrite Hself.
  destruct (decide (k ≠ 0 ∧ k ∈ children_ g)) as [_|[]]; [|done].
  unfold child_pointer in Hq'.
  assert (Hlook : ∀ g', ∃ c', <[self := mkObj n (IsGate g')]> σ !! q = Some c'
                             ∧ node c' = node c).
  { intros g'. destruct (decide (q = self)) as [->|Hne].
    - rewrite lookup_insert_eq. rewrite Hself in Hc. injection Hc as <-. eauto.
    - rewrite lookup_insert_ne by done. eauto. }
  destruct (gate_children_ g !! k) as [q1|].
  { injection Hq' as ->. edestruct Hlook as (c' & -> & Hn). rewrite Hn.
    destruct (decide (index_ n ∈ dom (parents_ (node c)))); [eauto|done]. }
  destruct (constant_children_ g !! k) as [q1|].
  { injection Hq' as ->. edestruct Hlook as (c' & -> & Hn). rewrite Hn.
    destruct (decide (index_ n ∈ dom (parents_ (node c)))); [eauto|done]. }
  rewrite Hq'. edestruct Hlook as (c' & -> & Hn). rewrite Hn.
  destruct (decide (index_ n ∈ dom (parents_ (node c)))); [eauto|done].
Qed.

(** The gate record after the removal of child [k]. *)
Lemma erased_gate_wf g g' ov k q :
  gate_wf g → map_of ov g !! k = Some q →
  children_ g' = children_ g ∖ {[k]} →
  (∀ ov', map_of ov' g' =
          if decide (ov' = ov) then delete k (map_of ov' g) else map_of ov' g) →
  (∀ ov', map_of ov' g' = delete k (map_of ov' g))
  ∧ kids g' = delete k (kids g) ∧ gate_wf g'.
Proof.
  intros Hg Hov Hch Hmaps.
  assert (Hall : ∀ ov', map_of ov' g' = delete k (map_of ov' g)).
  { intros ov'. rewrite Hmaps. destruct (decide (ov' = ov)); [done|].
    symmetry. apply delete_id.
    destruct (map_of ov' g !! k) as [q'|] eqn:E; [|done].
    exfalso. apply n. eapply (map_of_unique g); eauto; apply elem_of_dom; eauto. }
  assert (Hkids : kids g' = delete k (kids g)).
  { unfold kids. rewrite !delete_union.
    pose proof (Hall ofGate) as Hg1. pose proof (Hall ofConstant) as Hc1.
    pose proof (Hall ofVariable) as Hv1. simpl in *. by rewrite Hg1, Hc1, Hv1. }
  split; [exact Hall|]. split; [exact Hkids|].
  destruct Hg as [Hgc Hgv Hcv Hchildren H0 Hcompl].
  pose proof (Hall ofGate) as Hg1. pose proof (Hall ofConstant) as Hc1.
  pose proof (Hall ofVariable) as Hv1. simpl in *.
  constructor.
  - rewrite Hg1, Hc1. by apply map_disjoint_delete_l, map_disjoint_delete_r.
  - rewrite Hg1, Hv1. by apply map_disjoint_delete_l, map_disjoint_delete_r.
  - rewrite Hc1, Hv1. by apply map_disjoint_delete_l, map_disjoint_delete_r.
  - rewrite Hkids, dom_delete_L, Hch, Hchildren. done.
  - rewrite Hch, elem_of_difference. intros [? _]. done.
  - intros k' Hk'. rewrite Hch, elem_of_difference in Hk'.
    rewrite Hch, elem_of_difference. intros [Hneg _].
    destruct Hk' as [Hk' _]. exact (Hcompl k' Hk' Hneg).
Qed.

(** Two keys of a gate that lead to the same node are the same key: both
    are the index of the node up to the sign, and a gate does not hold a
    child with both signs. *)
Lemma kids_key_unique σ p n g k k' q :
  graph_inv σ → σ !! p = Some (mkObj n (IsGate g)) →
  kids g !! k = Some q → kids g !! k' = Some q → k' = k.
Proof.
  intros Hinv Hp Hk Hk'.
  pose proof (inv_gate σ Hinv _ _ _ Hp) as Hg.
  pose proof Hk as Hk1. pose proof Hk' as Hk1'.
  apply kids_Some in Hk as (ov & Hov & _).
  apply kids_Some in Hk' as (ov' & Hov' & _).
  destruct (inv_child σ Hinv _ _ _ _ _ _ Hp Hov) as (c & Hc & Hi & _).
  destruct (inv_child σ Hinv _ _ _ _ _ _ Hp Hov') as (c' & Hc' & Hi' & _).
  rewrite Hc in Hc'. injection Hc' as <-.
  assert (k' = k ∨ k' = - k) as [->| ->] by lia; [done|].
  exfalso. apply (wf_no_complement g Hg k).
  - apply children_kids; eauto.
  - apply children_kids; eauto.
Qed.

Lemma unlink_graph_inv self k q σ σ' :
  graph_inv σ → unlink self k σ = Some (q, σ') → graph_inv σ'.
Proof.
  intros Hinv H.
  apply unlink_inv in H
    as (n & g & g' & ov & c0 & Hself & Hk0 & Hk & Hcp & Hov & Hch & _ & _
        & Hmaps & _ & Hq & Hpar & Hu).
  pose proof (inv_gate σ Hinv _ _ _ Hself) as Hg.
  destruct (erased_gate_wf g g' ov k q Hg Hov Hch Hmaps) as (Hall & Hkids & Hg').
  rewrite child_pointer_kids in Hcp.
  constructor.
  - intros p n2 g2 Hp.
    destruct (updated_gate Hu Hself Hp)
      as (n0 & g0 & Hp0 & _ & Heq & Hne).
    destruct (decide (p = self)) as [->|Hps].
    + destruct (Heq eq_refl) as (-> & _). exact Hg'.
    + rewrite (Hne Hps). eapply inv_gate; eauto.
  - eapply updated_index_pos; eauto. apply Hinv.
  - eapply updated_index_inj; eauto. apply Hinv.
  - intros p n2 g2 ov2 k2 q2 Hp Hk2.
    destruct (updated_gate Hu Hself Hp)
      as (n0 & g0 & Hp0 & _ & Heq & Hne).
    assert (Hold : map_of ov2 g0 !! k2 = Some q2).
    { destruct (decide (p = self)) as [->|Hps].
      - destruct (Heq eq_refl) as (-> & -> & _). rewrite Hall in Hk2.
        apply lookup_delete_Some in Hk2 as [_ ?]. done.
      - by rewrite <- (Hne Hps). }
    destruct (inv_child σ Hinv _ _ _ _ _ _ Hp0 Hold) as (c & Hc & Hi & Ho).
    destruct (updated_fwd Hu Hc) as (c' & Hc' & Ei & _).
    exists c'. split; [done|]. split; [congruence|].
    rewrite <- Ho. eapply updated_overload; eauto.
  - intros p n2 g2 q2 c2 Hp Hq2.
    destruct (updated_gate Hu Hself Hp)
      as (n0 & g0 & Hp0 & Hidx & Heq & Hne).
    destruct (updated_bwd Hu Hq2) as (c & Hc & _ & _ & Epar & _).
    rewrite Epar, Hidx.
    pose proof (inv_parents σ Hinv _ _ _ _ _ Hp0 Hc) as Hold.
    destruct (decide (p = self)) as [->|Hps].
    + destruct (Heq eq_refl) as (-> & -> & ->).
      rewrite Hkids. destruct (decide (q2 = q)) as [->|Hqq].
      * rewrite dom_delete_L, elem_of_difference, elem_of_singleton.
        split; [intros [_ []]; done|].
        intros (k' & Hk'). apply lookup_delete_Some in Hk' as [Hne' Hk'].
        exfalso. apply Hne'. symmetry.
        eapply (kids_key_unique σ self n g); eauto.
      * rewrite Hold. split; intros (k' & Hk'); exists k'.
        -- apply lookup_delete_Some. split; [|done]. intros ->. congruence.
        -- apply lookup_delete_Some in Hk' as [_ ?]. done.
    + rewrite (Hne Hps). destruct (decide (q2 = q)) as [->|Hqq]; [|done].
      rewrite dom_delete_L, elem_of_difference, elem_of_singleton, <- Hold.
      assert (index_ n0 ≠ index_ n).
      { intros E. apply Hps. eapply (inv_index_inj σ Hinv); eauto. }
      tauto.
  - intros q2 c2 i p Hq2 Hi.
    destruct (updated_bwd Hu Hq2) as (c & Hc & _ & _ & Epar & _).
    assert (Hold : parents_ (node c) !! i = Some p).
    { rewrite Epar in Hi. destruct (decide (q2 = q)); [|done].
      apply lookup_delete_Some in Hi as [_ ?]. done. }
    destruct (inv_parent_ptr σ Hinv _ _ _ _ Hc Hold) as (n2 & g2 & Hp & <-).
    destruct (updated_fwd Hu Hp) as ([n3 k3] & Hp3 & Ei & Ek & _).
    simpl in *. destruct (decide (p = self)); subst k3; eauto.
  - intros q2 c2 Hq2.
    destruct (updated_bwd Hu Hq2) as (c & Hc & _ & _ & Epar & Ecnt & _).
    pose proof (inv_count σ Hinv _ _ Hc) as Hle.
    rewrite Epar, Ecnt. destruct (decide (q2 = q)); [|done].
    pose proof (subseteq_size (dom (delete (index_ n) (parents_ (node c))))
                  (dom (parents_ (node c)))) as Hs.
    rewrite !size_dom in Hs. etrans; [apply Hs|done].
    rewrite dom_delete_L. apply subseteq_difference_l. done.
Qed.

End unlink.

(** ** Graphs with the same links *)

Section same_links.
Import IGateOps Modelled.

Lemma same_links_overload k k' : same_links k k' → overload_of k' = overload_of k.
Proof. destruct k, k'; simpl; try done; by intros ->. Qed.

Lemma same_links_refl k : same_links k k.
Proof. destruct k; simpl; auto. Qed.

Lemma same_links_kids g g' :
  same_links (IsGate g) (IsGate g') → kids g' = kids g.
Proof.
  intros [_ Hm]. unfold kids.
  pose proof (Hm ofGate) as H1. pose proof (Hm ofConstant) as H2.
  pose proof (Hm ofVariable) as H3. simpl in *. by rewrite H1, H2, H3.
Qed.

Lemma same_links_gate_wf g g' :
  same_links (IsGate g) (IsGate g') → gate_wf g → gate_wf g'.
Proof.
  intros Hl [Hgc Hgv Hcv Hchildren H0 Hcompl].
  pose proof (same_links_kids _ _ Hl) as Hk. destruct Hl as [Hc Hm].
  pose proof (Hm ofGate) as H1. pose proof (Hm ofConstant) as H2.
  pose proof (Hm ofVariable) as H3. simpl in *.
  constructor; rewrite ?H1, ?H2, ?H3, ?Hk, ?Hc; auto.
Qed.

(** The graph invariant speaks of the index, the links and the parents of
    the nodes, and of the use count not being below the number of parents. *)
Lemma graph_inv_same_links σ σ' :
  graph_inv σ →
  (∀ p, match σ !! p, σ' !! p with
        | Some o, Some o' =>
            index_ (node o') = index_ (node o) ∧
            same_links (kind o) (kind o') ∧
            parents_ (node o') = parents_ (node o) ∧
            (size (parents_ (node o')) ≤ use_count_ (node o'))%nat
        | None, None => True
        | _, _ => False
        end) →
  graph_inv σ'.
Proof.
  intros Hinv Hs.
  assert (Hbwd : ∀ p o', σ' !! p = Some o' →
            ∃ o, σ !! p = Some o ∧ index_ (node o') = index_ (node o) ∧
                 same_links (kind o) (kind o') ∧
                 parents_ (node o') = parents_ (node o)).
  { intros p o' Hp. specialize (Hs p). rewrite Hp in Hs.
    destruct (σ !! p) as [o|]; [|done]. exists o. tauto. }
  assert (Hfwd : ∀ p o, σ !! p = Some o →
            ∃ o', σ' !! p = Some o' ∧ index_ (node o') = index_ (node o) ∧
                  same_links (kind o) (kind o') ∧
                  parents_ (node o') = parents_ (node o)).
  { intros p o Hp. specialize (Hs p). rewrite Hp in Hs.
    destruct (σ' !! p) as [o'|]; [|done]. exists o'. tauto. }
  assert (Hgate : ∀ p n' g', σ' !! p = Some (mkObj n' (IsGate g')) →
            ∃ n g, σ !! p = Some (mkObj n (IsGate g)) ∧ index_ n' = index_ n ∧
                   same_links (IsGate g) (IsGate g')).
  { intros p n' g' Hp. destruct (Hbwd _ _ Hp) as ([n k] & Ho & Hi & Hl & _).
    simpl in *. destruct k as [| |g]; simpl in Hl; try discriminate.
    exists n, g. auto. }
  constructor.
  - intros p n' g' Hp. destruct (Hgate _ _ _ Hp) as (n & g & Ho & _ & Hl).
    eapply same_links_gate_wf; [exact Hl|]. eapply inv_gate; eauto.
  - intros p o' Hp. destruct (Hbwd _ _ Hp) as (o & Ho & -> & _).
    eapply inv_index_pos; eauto.
  - intros p q o1 o2 Hp Hq Heq.
    destruct (Hbwd _ _ Hp) as (o1' & Ho1 & E1 & _).
    destruct (Hbwd _ _ Hq) as (o2' & Ho2 & E2 & _).
    eapply (inv_index_inj σ Hinv); eauto. congruence.
  - intros p n' g' ov k q Hp Hk.
    destruct (Hgate _ _ _ Hp) as (n & g & Ho & _ & Hl).
    destruct Hl as [_ Hm]. rewrite Hm in Hk.
    destruct (inv_child σ Hinv _ _ _ _ _ _ Ho Hk) as (c & Hc & Hi & Hov).
    destruct (Hfwd _ _ Hc) as (c' & Hc' & Ei & Hl' & _).
    exists c'. split; [done|]. split; [congruence|].
    rewrite <- Hov. by apply same_links_overload.
  - intros p n' g' q c' Hp Hq.
    destruct (Hgate _ _ _ Hp) as (n & g & Ho & Hi & Hl).
    destruct (Hbwd _ _ Hq) as (c & Hc & _ & _ & Ep).
    rewrite Ep, Hi, (same_links_kids _ _ Hl). eapply inv_parents; eauto.
  - intros q c' i p Hq Hi.
    destruct (Hbwd _ _ Hq) as (c & Hc & _ & _ & Ep). rewrite Ep in Hi.
    destruct (inv_parent_ptr σ Hinv _ _ _ _ Hc Hi) as (n & g & Hp & <-).
    destruct (Hfwd _ _ Hp) as ([n' k'] & Hp' & Ei & Hl & _). simpl in *.
    destruct k' as [| |g']; simpl in Hl; try discriminate. eauto.
  - intros q c' Hq. specialize (Hs q). rewrite Hq in Hs.
    destruct (σ !! q); [tauto|done].
Qed.

(** One object of the graph is rewritten, with the same links. *)
Lemma overwrite_graph_inv σ p o o' :
  graph_inv σ → σ !! p = Some o →
  index_ (node o') = index_ (node o) → same_links (kind o) (kind o') →
  parents_ (node o') = parents_ (node o) →
  (size (parents_ (node o')) ≤ use_count_ (node o'))%nat →
  graph_inv (<[p := o']> σ).
Proof.
  intros Hinv Hp Hi Hl Hpar Hc. apply (graph_inv_same_links σ); [done|].
  intros x. destruct (decide (x = p)) as [->|Hne].
  - rewrite lookup_insert_eq, Hp. auto.
  - rewrite lookup_insert_ne by done. destruct (σ !! x) as [ox|] eqn:Hx; [|done].
    split_and!; auto using same_links_refl. eapply inv_count; eauto.
Qed.

(** The storage of a node without parents and without children is
    released. *)
Lemma delete_graph_inv σ q o :
  graph_inv σ → σ !! q = Some o → parents_ (node o) = ∅ →
  (∀ g, kind o = IsGate g → children_ g = ∅) →
  graph_inv (delete q σ).
Proof.
  intros Hinv Hq Hpar Hkids.
  assert (Hnot_held : ∀ p n g k, σ !! p = Some (mkObj n (IsGate g)) →
            kids g !! k ≠ Some q).
  { intros p n g k Hp Hk.
    assert (index_ n ∈ dom (parents_ (node o))) as Hin.
    { apply (inv_parents σ Hinv _ _ _ _ _ Hp Hq). eauto. }
    rewrite Hpar in Hin. set_solver. }
  assert (Hnot_parent : ∀ x c i, σ !! x = Some c → parents_ (node c) !! i ≠ Some q).
  { intros x c i Hx Hi.
    destruct (inv_parent_ptr σ Hinv _ _ _ _ Hx Hi) as (n & g & Hq' & <-).
    rewrite Hq in Hq'. injection Hq' as ->.
    assert (index_ n ∈ dom (parents_ (node c))) as Hin by (apply elem_of_dom; eauto).
    apply (inv_parents σ Hinv q n g x c) in Hin as [k Hk]; [|done|done].
    pose proof (inv_gate σ Hinv _ _ _ Hq) as Hg.
    assert (k ∈ children_ g) as Hkc.
    { rewrite (wf_children g Hg). apply elem_of_dom. eauto. }
    rewrite (Hkids g eq_refl) in Hkc. set_solver. }
  constructor.
  - intros p n g Hp. apply lookup_delete_Some in Hp as [_ Hp].
    eapply inv_gate; eauto.
  - intros p c Hp. apply lookup_delete_Some in Hp as [_ Hp].
    eapply inv_index_pos; eauto.
  - intros p1 p2 o1 o2 H1 H2.
    apply lookup_delete_Some in H1 as [_ H1]. apply lookup_delete_Some in H2 as [_ H2].
    eapply inv_index_inj; eauto.
  - intros p n g ov k x Hp Hk. apply lookup_delete_Some in Hp as [_ Hp].
    destruct (inv_child σ Hinv _ _ _ _ _ _ Hp Hk) as (c & Hc & Hi & Hov).
    exists c. split; [|done]. apply lookup_delete_Some. split; [|done].
    intros <-. apply (Hnot_held p n g k Hp).
    eapply map_of_kids; eauto. eapply inv_gate; eauto.
  - intros p n g x c Hp Hx. apply lookup_delete_Some in Hp as [_ Hp].
    apply lookup_delete_Some in Hx as [_ Hx]. eapply inv_parents; eauto.
  - intros x c i p Hx Hi. apply lookup_delete_Some in Hx as [_ Hx].
    destruct (inv_parent_ptr σ Hinv _ _ _ _ Hx Hi) as (n & g & Hp & <-).
    exists n, g. split; [|done]. apply lookup_delete_Some. split; [|done].
    intros <-. exact (Hnot_parent x c _ Hx Hi).
  - intros x c Hx. apply lookup_delete_Some in Hx as [_ Hx].
    eapply inv_count; eauto.
Qed.

End same_links.

(** ** The objects that are owned *)

Section alive.

Lemma alive_dom (σ : Store) p :
  p ∈ dom (filter (λ po : ptr * Obj, (0 < use_count_ (node po.2))%nat) σ)
  ↔ ∃ o, σ !! p = Some o ∧ (0 < use_count_ (node o))%nat.
Proof.
  rewrite elem_of_dom. unfold is_Some. split.
  - intros [o Ho]. apply map_lookup_filter_Some in Ho as [Ho Hc]. eauto.
  - intros (o & Ho & Hc). exists o. apply map_lookup_filter_Some. auto.
Qed.

Lemma alive_le (σ σ' : Store) :
  (∀ p o', σ' !! p = Some o' → (0 < use_count_ (node o'))%nat →
           ∃ o, σ !! p = Some o ∧ (0 < use_count_ (node o))%nat) →
  (alive σ' ≤ alive σ)%nat.
Proof.
  intros H. unfold alive. rewrite <- !size_dom. apply subseteq_size.
  intros p. rewrite !alive_dom. intros (o' & Ho' & Hc). eauto.
Qed.

Lemma alive_lt (σ σ' : Store) q o :
  (∀ p o', σ' !! p = Some o' → (0 < use_count_ (node o'))%nat →
           ∃ o, σ !! p = Some o ∧ (0 < use_count_ (node o))%nat) →
  σ !! q = Some o → (0 < use_count_ (node o))%nat →
  (∀ o', σ' !! q = Some o' → use_count_ (node o') = O) →
  (alive σ' < alive σ)%nat.
Proof.
  intros H Hq Hc Hq'. unfold alive. rewrite <- !size_dom. apply subset_size.
  split.
  - intros p. rewrite !alive_dom. intros (o' & Ho' & Hc'). eauto.
  - intros Hsub. assert (Hin : q ∈ dom (filter (λ po : ptr * Obj,
                     (0 < use_count_ (node po.2))%nat) σ)) by (apply alive_dom; eauto).
    apply Hsub, alive_dom in Hin as (o' & Ho' & Hc').
    rewrite (Hq' _ Ho') in Hc'. lia.
Qed.

Lemma alive_size (σ : Store) : (alive σ ≤ size σ)%nat.
Proof.
  unfold alive. rewrite <- !size_dom. apply subseteq_size.
  intros p. rewrite alive_dom, elem_of_dom. intros (o & -> & _). eauto.
Qed.

End alive.

(** ** The destruction of shared pointers *)

Section survivors.

Lemma survives_refl o : survives 0 o o.
Proof. unfold survives. split_and!; auto; lia. Qed.

Lemma survives_trans d1 d2 o1 o2 o3 :
  survives d1 o1 o2 → survives d2 o2 o3 → survives (d1 + d2) o1 o3.
Proof.
  intros (Hi1 & Hv1 & Ho1 & Hp1 & Hc1 & Hz1) (Hi2 & Hv2 & Ho2 & Hp2 & Hc2 & Hz2).
  unfold survives. split_and!; try congruence.
  - by trans (parents_ (node o2)).
  - lia.
  - tauto.
Qed.

Lemma survives_anchored d o o' :
  survives d o o' → anchored (node o) → d = O → anchored (node o').
Proof.
  intros (_ & _ & _ & _ & Hc & Hz) [H0|Hlt] ->; unfold anchored.
  - left. lia.
  - right. lia.
Qed.

Lemma unowned_not_anchored o : unowned 0 o → anchored (node o) → False.
Proof. intros [H1 H2] [H0|Hlt]; lia. Qed.

Lemma erasure_refl self (σ : Store) : erasure self σ σ.
Proof.
  split.
  - intros p o Hp. exists o. split_and!; auto using survives_refl.
  - intros p o Hp Hp'. congruence.
Qed.

Lemma erasure_trans self (σ1 σ2 σ3 : Store) :
  erasure self σ1 σ2 → erasure self σ2 σ3 → erasure self σ1 σ3.
Proof.
  intros [H1 G1] [H2 G2]. split.
  - intros p o3 Hp. destruct (H2 _ _ Hp) as (o2 & Ho2 & Hk2 & Hs2).
    destruct (H1 _ _ Ho2) as (o1 & Ho1 & Hk1 & Hs1).
    exists o1. split; [done|]. split.
    + intros Hne. rewrite (Hk2 Hne). auto.
    + exact (survives_trans 0 0 _ _ _ Hs1 Hs2).
  - intros p o1 Hp Hp3. destruct (σ2 !! p) as [o2|] eqn:Hp2.
    + destruct (H1 _ _ Hp2) as (o1' & Ho1 & _ & Hs1).
      rewrite Hp in Ho1. injection Ho1 as <-.
      destruct (G2 _ _ Hp2 Hp3) as [Hpos Hle].
      destruct Hs1 as (_ & _ & _ & _ & Hc & Hz). split; [tauto|lia].
    + eauto.
Qed.

Lemma erasure_alive self (σ σ' : Store) : erasure self σ σ' → (alive σ' ≤ alive σ)%nat.
Proof.
  intros [H _]. apply alive_le. intros p o' Hp Hc.
  destruct (H _ _ Hp) as (o & Ho & _ & (_ & _ & _ & _ & _ & Hz)).
  exists o. split; [done|tauto].
Qed.

Lemma released_alive q (σ σ' : Store) : released q σ σ' → (alive σ' ≤ alive σ)%nat.
Proof.
  intros [H _]. apply alive_le. intros p o' Hp Hc.
  destruct (H _ _ Hp) as (o & Ho & _ & (_ & _ & _ & _ & _ & Hz)).
  exists o. split; [done|tauto].
Qed.

Lemma quiet_refl (σ : Store) : quiet σ σ.
Proof. intros p n g Hp. exists n, g. split_and!; auto. Qed.

Lemma quiet_trans (σ1 σ2 σ3 : Store) : quiet σ1 σ2 → quiet σ2 σ3 → quiet σ1 σ3.
Proof.
  intros H1 H2 p n3 g3 Hp.
  destruct (H2 _ _ _ Hp) as (n2 & g2 & Hp2 & Hi2 & Hs2 & Ht2 & Hm2 & Hc2).
  destruct (H1 _ _ _ Hp2) as (n1 & g1 & Hp1 & Hi1 & Hs1 & Ht1 & Hm1 & Hc1).
  exists n1, g1. split_and!; try congruence. by trans (children_ g2).
Qed.

Lemma quiet_delete (σ : Store) q : quiet σ (delete q σ).
Proof.
  intros p n g Hp. apply lookup_delete_Some in Hp as [_ Hp].
  exists n, g. split_and!; auto.
Qed.

Lemma quiet_node (σ : Store) q n n' k :
  σ !! q = Some (mkObj n k) → index_ n' = index_ n →
  quiet σ (<[q := mkObj n' k]> σ).
Proof.
  intros Hq Hi p n2 g2 Hp. destruct (decide (p = q)) as [->|Hne].
  - rewrite lookup_insert_eq in Hp. injection Hp as <- ->.
    exists n, g2. split_and!; auto.
  - rewrite lookup_insert_ne in Hp by done. exists n2, g2. split_and!; auto.
Qed.

Lemma quiet_constant_inv (σ σ' : Store) :
  quiet σ σ' → constant_inv σ → constant_inv σ'.
Proof.
  intros Hq Hci p n' g' Hp Hs.
  destruct (Hq _ _ _ Hp) as (n & g & Hp0 & _ & Hst & _ & _ & Hch).
  rewrite Hst in Hs. pose proof (Hci _ _ _ Hp0 Hs) as He.
  rewrite He in Hch. set_solver.
Qed.

End survivors.

Section cascade.
Import IGateOps Modelled.

Lemma erased_children k g : children_ (erased k g) = children_ g ∖ {[k]}.
Proof. reflexivity. Qed.

Lemma childless_erased k g : childless (erased k g) = childless g.
Proof. reflexivity. Qed.

(** The record that the body of [EraseChild] writes. *)
Lemma unlink_erased g g' ov k q :
  gate_wf g → map_of ov g !! k = Some q →
  children_ g' = children_ g ∖ {[k]} →
  (∀ ov', map_of ov' g' =
          if decide (ov' = ov) then delete k (map_of ov' g) else map_of ov' g) →
  g' = set_children (children_ g') (gate_children_ g') (variable_children_ g')
         (constant_children_ g') g →
  g' = erased k g.
Proof.
  intros Hg Hov Hch Hmaps Hrec.
  destruct (erased_gate_wf g g' ov k q Hg Hov Hch Hmaps) as (Hall & _ & _).
  pose proof (Hall ofGate) as H1. pose proof (Hall ofConstant) as H2.
  pose proof (Hall ofVariable) as H3. simpl in *.
  rewrite Hrec. unfold erased. by rewrite Hch, H1, H2, H3.
Qed.

Lemma no_children_childless g : gate_wf g → children_ g = ∅ → childless g = g.
Proof.
  intros Hg He. pose proof (wf_children g Hg) as Hd. rewrite He in Hd.
  symmetry in Hd. apply dom_empty_inv_L in Hd.
  unfold kids in Hd.
  pose proof (map_positive_l _ _ Hd) as Hgc_c.
  rewrite Hgc_c, (left_id_L ∅ (∪)) in Hd.
  pose proof (map_positive_l _ _ Hgc_c) as Hgc.
  rewrite Hgc, (left_id_L ∅ (∪)) in Hgc_c.
  destruct g; simpl in *; subst. reflexivity.
Qed.

Lemma unlink_quiet self k q σ σ' : unlink self k σ = Some (q, σ') → quiet σ σ'.
Proof.
  intros H.
  apply unlink_inv in H
    as (n & g & g' & ov & c0 & Hself & Hk0 & Hk & Hcp & Hov & Hch & Hst & Hty
        & Hmaps & Hrec & Hq & Hpar & Hu).
  intros p n2 g2 Hp.
  destruct (updated_gate Hu Hself Hp) as (n0 & g0 & Hp0 & Hidx & Heq & Hne).
  exists n0, g0. split; [done|]. split; [done|].
  destruct (decide (p = self)) as [->|Hps].
  - destruct (Heq eq_refl) as (-> & -> & _). rewrite Hst, Hty, Hch.
    split_and!; auto.
    + rewrite Hrec. reflexivity.
    + apply subseteq_difference_l. done.
  - rewrite (Hne Hps). split_and!; auto.
Qed.

Section with_release.
Context (rel : ptr → Store → option Store).

Lemma EraseChild_with_quiet self k σ σ' :
  release_quiet rel → EraseChild_with rel self k σ = Some σ' → quiet σ σ'.
Proof.
  intros Hrel H. unfold EraseChild_with in H.
  destruct (unlink self k σ) as [[q σ1]|] eqn:Hu; [|discriminate].
  eapply quiet_trans; [eapply unlink_quiet; eauto|]. eapply Hrel; eauto.
Qed.

Lemma erase_loop_quiet fuel : ∀ self σ σ',
  release_quiet rel → erase_loop rel fuel self σ = Some σ' → quiet σ σ'.
Proof.
  induction fuel as [|fuel IH]; intros self σ σ' Hrel H; simpl in H.
  - destruct (σ !! self) as [[n [| |g]]|]; try discriminate.
    destruct (set_rbegin (children_ g)); [discriminate|].
    injection H as <-. apply quiet_refl.
  - destruct (σ !! self) as [[n [| |g]]|]; try discriminate.
    destruct (set_rbegin (children_ g)) as [k|]; [|injection H as <-; apply quiet_refl].
    destruct (EraseChild_with rel self k σ) as [σ1|] eqn:H1; [|discriminate].
    eapply quiet_trans; [eapply EraseChild_with_quiet; eauto|]. eauto.
Qed.

(** When the loop has run to its end the gate is there, without children. *)
Lemma erase_loop_end fuel : ∀ self σ σ',
  erase_loop rel fuel self σ = Some σ' →
  ∃ n' g', σ' !! self = Some (mkObj n' (IsGate g')) ∧ children_ g' = ∅.
Proof.
  induction fuel as [|fuel IH]; intros self σ σ' H; simpl in H.
  - destruct (σ !! self) as [[n [| |g]]|] eqn:Hs; try discriminate.
    destruct (set_rbegin (children_ g)) eqn:Hr; [discriminate|].
    injection H as <-. apply set_rbegin_None in Hr. eauto.
  - destruct (σ !! self) as [[n [| |g]]|] eqn:Hs; try discriminate.
    destruct (set_rbegin (children_ g)) as [k|] eqn:Hr.
    + destruct (EraseChild_with rel self k σ) as [σ1|]; [|discriminate]. eauto.
    + injection H as <-. apply set_rbegin_None in Hr. eauto.
Qed.

Lemma destructor_with_quiet q σ σ' :
  release_quiet rel → destructor_with rel q σ = Some σ' → quiet σ σ'.
Proof.
  intros Hrel H. unfold destructor_with in H.
  destruct (σ !! q) as [[n [| |g]]|]; try discriminate;
    try (injection H as <-; apply quiet_refl).
  destruct (decide (parents_ n = ∅)); [|discriminate].
  eapply erase_loop_quiet; eauto.
Qed.

Context (bound : nat) (Hrel : release_ok rel bound).

(** [EraseChild] on a child of a gate of a well-formed graph. *)
Lemma EraseChild_with_spec self n g k σ :
  graph_inv σ → σ !! self = Some (mkObj n (IsGate g)) → k ∈ children_ g →
  (alive σ ≤ bound)%nat →
  ∃ σ', EraseChild_with rel self k σ = Some σ' ∧ graph_inv σ' ∧
        erasure self σ σ' ∧
        (∀ o', σ' !! self = Some o' → kind o' = IsGate (erased k g)).
Proof.
  intros Hinv Hself Hk Hb.
  destruct (unlink_total self n g k σ Hinv Hself Hk) as (q & σ1 & Hu).
  pose proof (unlink_graph_inv _ _ _ _ _ Hinv Hu) as Hinv1.
  unfold EraseChild_with. rewrite Hu.
  apply unlink_inv in Hu
    as (n0 & g0 & g' & ov & c0 & Hself0 & Hk0 & _ & Hcp & Hov & Hch & Hst & Hty
        & Hmaps & Hrec & Hq & Hpar & Hu).
  rewrite Hself in Hself0. injection Hself0 as <- <-.
  pose proof (inv_gate σ Hinv _ _ _ Hself) as Hg.
  pose proof (unlink_erased g g' ov k q Hg Hov Hch Hmaps Hrec) as ->.
  destruct (updated_fwd Hu Hq) as (c1 & Hq1 & Hi1 & Hk1 & Hp1 & Hc1 & Hv1 & Ho1).
  destruct (decide (q = q)) as [_|]; [|done].
  assert (Hsize : size (parents_ (node c0))
                  = S (size (delete (index_ n) (parents_ (node c0))))).
  { apply elem_of_dom in Hpar as [x Hx]. rewrite map_size_delete, Hx. simpl.
    pose proof (map_size_ne_0_lookup_2 (parents_ (node c0)) (index_ n)
                  (mk_is_Some _ _ Hx)). lia. }
  pose proof (inv_count σ Hinv _ _ Hq) as Hcount.
  assert (Hslack : (size (parents_ (node c1)) < use_count_ (node c1))%nat).
  { rewrite Hp1, Hc1. lia. }
  assert (Hb1 : (alive σ1 ≤ bound)%nat).
  { etrans; [|exact Hb]. apply alive_le. intros p o1 Hp Hpos.
    destruct (updated_bwd Hu Hp) as (o & Ho & _ & _ & _ & Ec & _).
    exists o. split; [done|]. destruct (decide (p = q)); by rewrite <- Ec. }
  destruct (Hrel σ1 q c1 Hinv1 Hq1 Hslack Hb1) as (σ' & Hr & Hinv' & [Hr1 Hr2]).
  exists σ'. split; [done|]. split; [done|]. split; [split|].
  - intros p o' Hp.
    destruct (Hr1 _ _ Hp) as (o1 & Hp1' & Hkind & (Hi & Hv & Ho & Hsub & Hc & Hz)).
    destruct (updated_bwd Hu Hp1') as (o & Hpo & Ei & Ek & Ep & Ec & Ev & Eo).
    exists o. split; [done|]. split.
    + intros Hne. rewrite Hkind, Ek. by destruct (decide (p = self)).
    + unfold survives. split_and!; try congruence.
      * etrans; [exact Hsub|]. rewrite Ep. destruct (decide (p = q)); [|done].
        apply delete_subseteq.
      * rewrite Ep, Ec in Hc. destruct (decide (p = q)) as [->|].
        -- rewrite Hq in Hpo. injection Hpo as <-. lia.
        -- lia.
      * rewrite <- Hz, Ec. by destruct (decide (p = q)).
  - intros p o Hp Hp'.
    destruct (updated_fwd Hu Hp) as (o1 & Hpo1 & Ei & Ek & Ep & Ec & _).
    destruct (Hr2 _ _ Hpo1 Hp') as [Hpos Hle]. rewrite Ep, Ec in Hle.
    unfold unowned. destruct (decide (p = q)) as [->|].
    + rewrite Hq in Hp. injection Hp as <-. rewrite Ec in Hpos. lia.
    + rewrite Ec in Hpos. lia.
  - intros o' Hs'. destruct (Hr1 _ _ Hs') as (o1 & Hs1 & Hkind & _).
    destruct (updated_bwd Hu Hs1) as (o & Hso & _ & Ek & _).
    rewrite Hkind, Ek. by destruct (decide (self = self)).
Qed.

(** The loop of [EraseAllChildren] on a gate that is anchored. *)
Lemma erase_loop_spec fuel : ∀ self σ n g,
  graph_inv σ → σ !! self = Some (mkObj n (IsGate g)) → anchored n →
  (size (children_ g) ≤ fuel)%nat → (alive σ ≤ bound)%nat →
  ∃ σ' n', erase_loop rel fuel self σ = Some σ' ∧ graph_inv σ' ∧
           erasure self σ σ' ∧
           σ' !! self = Some (mkObj n' (IsGate (childless g))).
Proof.
  induction fuel as [|fuel IH]; intros self σ n g Hinv Hself Hanch Hsize Hb.
  - assert (children_ g = ∅) as Hempty.
    { apply leibniz_equiv, size_empty_iff. lia. }
    exists σ, n. simpl. rewrite Hself.
    rewrite (proj2 (set_rbegin_None _) Hempty).
    rewrite (no_children_childless g (inv_gate σ Hinv _ _ _ Hself) Hempty).
    split_and!; auto using erasure_refl.
  - simpl. rewrite Hself.
    destruct (set_rbegin (children_ g)) as [k|] eqn:Hk.
    + apply set_rbegin_Some in Hk as [Hk _].
      destruct (EraseChild_with_spec self n g k σ Hinv Hself Hk Hb)
        as (σ1 & H1 & Hinv1 & He1 & Hrec1).
      rewrite H1.
      destruct (σ1 !! self) as [[n1 k1]|] eqn:Hself1.
      2:{ exfalso. destruct He1 as [_ He1].
          exact (unowned_not_anchored _ (He1 _ _ Hself Hself1) Hanch). }
      pose proof (Hrec1 _ eq_refl) as Hk1. simpl in Hk1. subst k1.
      assert (Hs1 : survives 0 (mkObj n (IsGate g)) (mkObj n1 (IsGate (erased k g)))).
      { destruct He1 as [He1 _]. destruct (He1 _ _ Hself1) as (o & Ho & _ & Hs).
        rewrite Hself in Ho. by injection Ho as <-. }
      pose proof (survives_anchored _ _ _ Hs1 Hanch eq_refl) as Hanch1.
      assert (Hsize1 : (size (children_ (erased k g)) ≤ fuel)%nat).
      { rewrite erased_children, size_difference by (apply singleton_subseteq_l; done).
        rewrite size_singleton. lia. }
      assert (Hb1 : (alive σ1 ≤ bound)%nat).
      { etrans; [eapply erasure_alive; eauto|done]. }
      destruct (IH self σ1 n1 _ Hinv1 Hself1 Hanch1 Hsize1 Hb1)
        as (σ' & n' & Hrun & Hinv' & He' & Hself').
      exists σ', n'. split_and!; auto. eapply erasure_trans; eauto.
    + apply set_rbegin_None in Hk.
      rewrite (no_children_childless g (inv_gate σ Hinv _ _ _ Hself) Hk).
      exists σ, n. split_and!; auto using erasure_refl.
Qed.

(** The loop when it is known to have run to its end, on any gate. *)
Lemma erase_loop_done fuel : ∀ self σ n g σ',
  graph_inv σ → σ !! self = Some (mkObj n (IsGate g)) →
  (alive σ ≤ bound)%nat → erase_loop rel fuel self σ = Some σ' →
  graph_inv σ' ∧ erasure self σ σ' ∧
  ∃ n', σ' !! self = Some (mkObj n' (IsGate (childless g))).
Proof.
  induction fuel as [|fuel IH]; intros self σ n g σ' Hinv Hself Hb H;
    simpl in H; rewrite Hself in H.
  - destruct (set_rbegin (children_ g)) eqn:Hk; [discriminate|].
    injection H as <-. apply set_rbegin_None in Hk.
    rewrite (no_children_childless g (inv_gate σ Hinv _ _ _ Hself) Hk).
    split_and!; eauto using erasure_refl.
  - destruct (set_rbegin (children_ g)) as [k|] eqn:Hk.
    + apply set_rbegin_Some in Hk as [Hk _].
      destruct (EraseChild_with_spec self n g k σ Hinv Hself Hk Hb)
        as (σ1 & H1 & Hinv1 & He1 & Hrec1).
      rewrite H1 in H.
      destruct (σ1 !! self) as [[n1 k1]|] eqn:Hself1.
      2:{ destruct fuel; simpl in H; rewrite Hself1 in H; discriminate. }
      pose proof (Hrec1 _ eq_refl) as Hk1. simpl in Hk1. subst k1.
      assert (Hb1 : (alive σ1 ≤ bound)%nat).
      { etrans; [eapply erasure_alive; eauto|done]. }
      destruct (IH self σ1 n1 _ σ' Hinv1 Hself1 Hb1 H) as (Hinv' & He' & n' & Hself').
      split_and!; eauto. eapply erasure_trans; eauto.
    + injection H as <-. apply set_rbegin_None in Hk.
      rewrite (no_children_childless g (inv_gate σ Hinv _ _ _ Hself) Hk).
      split_and!; eauto using erasure_refl.
Qed.

End with_release.

Lemma alive_pos (σ : Store) q c :
  σ !! q = Some c → (0 < use_count_ (node c))%nat → (0 < alive σ)%nat.
Proof.
  intros Hq Hc. unfold alive.
  assert (Hin : filter (λ po : ptr * Obj, (0 < use_count_ (node po.2))%nat) σ !! q
                = Some c) by (apply map_lookup_filter_Some; auto).
  pose proof (map_size_ne_0_lookup_2 _ q (mk_is_Some _ _ Hin)). lia.
Qed.

(** The destruction of a shared pointer runs to its end in a well-formed
    graph, when the nesting bound is at least the number of owned objects. *)
Lemma release_spec depth : release_ok (release depth) depth.
Proof.
  induction depth as [|d IH]; intros σ q c Hinv Hq Hslack Hb.
  - pose proof (alive_pos σ q c Hq). lia.
  - destruct c as [n k]. simpl in Hslack. simpl. rewrite Hq.
    destruct (use_count_ n) as [|[|c'']] eqn:Hc; [lia| |].
    + assert (Hpar : parents_ n = ∅).
      { apply map_size_empty_inv. lia. }
      set (σ0 := <[q := mkObj (set_use_count 0 n) k]> σ).
      assert (Hinv0 : graph_inv σ0).
      { apply (overwrite_graph_inv σ q (mkObj n k)); simpl; auto using same_links_refl.
        rewrite Hpar, map_size_empty. lia. }
      assert (Hq0 : σ0 !! q = Some (mkObj (set_use_count 0 n) k)).
      { unfold σ0. by rewrite lookup_insert_eq. }
      assert (Hb0 : (alive σ0 ≤ d)%nat).
      { assert (alive σ0 < alive σ)%nat; [|lia].
        apply (alive_lt σ σ0 q (mkObj n k)); simpl; auto; [|lia|].
        - intros p o' Hp Hpos. unfold σ0 in Hp.
          destruct (decide (p = q)) as [->|Hne].
          + rewrite lookup_insert_eq in Hp. injection Hp as <-. simpl in Hpos. lia.
          + rewrite lookup_insert_ne in Hp by done. eauto.
        - intros o' Ho'. rewrite Hq0 in Ho'. by injection Ho' as <-. }
      assert (Hother : ∀ p, p ≠ q → σ0 !! p = σ !! p).
      { intros p Hne. unfold σ0. by rewrite lookup_insert_ne. }
      unfold destructor_with. rewrite Hq0.
      destruct k as [b| |g].
      * exists (delete q σ0). split; [done|]. split.
        { eapply delete_graph_inv; eauto. simpl. discriminate. }
        split.
        -- intros p o' Hp. apply lookup_delete_Some in Hp as [Hne Hp].
           rewrite Hother in Hp by done. exists o'.
           destruct (decide (p = q)); [done|]. auto using survives_refl.
        -- intros p o Hp Hp'. destruct (decide (p = q)) as [->|Hne].
           ++ rewrite Hq in Hp. injection Hp as <-. unfold unowned. simpl. lia.
           ++ rewrite lookup_delete_ne, Hother in Hp' by done. congruence.
      * exists (delete q σ0). split; [done|]. split.
        { eapply delete_graph_inv; eauto. simpl. discriminate. }
        split.
        -- intros p o' Hp. apply lookup_delete_Some in Hp as [Hne Hp].
           rewrite Hother in Hp by done. exists o'.
           destruct (decide (p = q)); [done|]. auto using survives_refl.
        -- intros p o Hp Hp'. destruct (decide (p = q)) as [->|Hne].
           ++ rewrite Hq in Hp. injection Hp as <-. unfold unowned. simpl. lia.
           ++ rewrite lookup_delete_ne, Hother in Hp' by done. congruence.
      * simpl. destruct (decide (parents_ n = ∅)) as [_|]; [|done].
        assert (Hanch : anchored (set_use_count 0 n)) by (left; reflexivity).
        destruct (erase_loop_spec (release d) d IH (size (children_ g)) q σ0 _ g
                    Hinv0 Hq0 Hanch (le_n _) Hb0)
          as (σ2 & n2 & Hrun & Hinv2 & [He1 He2] & Hq2).
        rewrite Hrun. exists (delete q σ2). split; [done|]. split.
        { eapply delete_graph_inv; eauto.
          - destruct (He1 _ _ Hq2) as (o & Ho & _ & (_ & _ & _ & Hsub & _)).
            rewrite Hq0 in Ho. injection Ho as <-. simpl in Hsub.
            rewrite Hpar in Hsub. apply map_eq. intros i. rewrite lookup_empty.
            destruct (parents_ n2 !! i) as [x|] eqn:Hx; [|done].
            eapply lookup_weaken in Hx; [|exact Hsub].
            by rewrite lookup_empty in Hx.
          - simpl. by intros g0 [= <-]. }
        split.
        -- intros p o' Hp. apply lookup_delete_Some in Hp as [Hne Hp].
           destruct (He1 _ _ Hp) as (o & Ho & Hk & Hs).
           rewrite Hother in Ho by done. exists o.
           destruct (decide (p = q)); [done|]. auto.
        -- intros p o Hp Hp'. destruct (decide (p = q)) as [->|Hne].
           ++ rewrite Hq in Hp. injection Hp as <-. unfold unowned. simpl. lia.
           ++ rewrite lookup_delete_ne in Hp' by done.
              apply (He2 p o); [|done]. by rewrite Hother.
    + exists (<[q := mkObj (set_use_count (S c'') n) k]> σ).
      split; [done|]. split.
      { apply (overwrite_graph_inv σ q (mkObj n k)); simpl; auto using same_links_refl.
        lia. }
      split.
      * intros p o' Hp. destruct (decide (p = q)) as [->|Hne].
        -- rewrite lookup_insert_eq in Hp. injection Hp as <-.
           exists (mkObj n k). split; [done|]. split; [done|].
           unfold survives. simpl. split_and!; auto; lia.
        -- rewrite lookup_insert_ne in Hp by done. exists o'.
           auto using survives_refl.
      * intros p o Hp Hp'. destruct (decide (p = q)) as [->|Hne].
        -- by rewrite lookup_insert_eq in Hp'.
        -- rewrite lookup_insert_ne in Hp' by done. congruence.
Qed.

End cascade.

(** ** [EraseChild], [EraseAllChildren], [Nullify] and [MakeUnity] *)

Section erase.
Import IGateOps Modelled.

Lemma release_is_quiet depth : release_quiet (release depth).
Proof.
  induction depth as [|d IH]; intros q σ σ' H; simpl in H.
  - destruct (σ !! q) as [[n k]|] eqn:Hq; [|discriminate].
    destruct (use_count_ n) as [|[|c]]; try discriminate.
    injection H as <-. eapply quiet_node; eauto.
  - destruct (σ !! q) as [[n k]|] eqn:Hq; [|discriminate].
    destruct (use_count_ n) as [|[|c]]; try discriminate.
    + destruct (destructor_with (release d) q _) as [σ2|] eqn:Hd; [|discriminate].
      injection H as <-.
      eapply quiet_trans; [eapply (quiet_node σ q n (set_use_count 0 n)); eauto|].
      eapply quiet_trans; [eapply destructor_with_quiet; eauto|].
      apply quiet_delete.
    + injection H as <-. eapply quiet_node; eauto.
Qed.

Lemma EraseChild_quiet self k σ σ' : EraseChild self k σ = Some σ' → quiet σ σ'.
Proof. apply EraseChild_with_quiet, release_is_quiet. Qed.

Lemma EraseAllChildren_quiet self σ σ' :
  EraseAllChildren self σ = Some σ' → quiet σ σ'.
Proof.
  unfold EraseAllChildren. destruct (σ !! self) as [[n [| |g]]|]; try discriminate.
  apply erase_loop_quiet, release_is_quiet.
Qed.

Lemma EraseAllChildren_end self σ σ' :
  EraseAllChildren self σ = Some σ' →
  ∃ n' g', σ' !! self = Some (mkObj n' (IsGate g')) ∧ children_ g' = ∅.
Proof.
  unfold EraseAllChildren. destruct (σ !! self) as [[n [| |g]]|]; try discriminate.
  apply erase_loop_end.
Qed.

Lemma reset_quiet q σ σ' : reset q σ = Some σ' → quiet σ σ'.
Proof. apply release_is_quiet. Qed.

(** What a call of [EraseChild] that ran to its end was made on. *)
Lemma EraseChild_inv self k σ σ' :
  EraseChild self k σ = Some σ' →
  ∃ n g, σ !! self = Some (mkObj n (IsGate g)) ∧ k ≠ 0 ∧ k ∈ children_ g.
Proof.
  unfold EraseChild, EraseChild_with. intros H.
  destruct (unlink self k σ) as [[q σ1]|] eqn:Hu; [|discriminate].
  apply unlink_inv in Hu as (n & g & _ & _ & _ & Hself & Hk0 & Hk & _).
  eauto.
Qed.

(** [EraseChild] on a child of a gate of a well-formed graph. *)
Lemma EraseChild_spec self n g k σ :
  graph_inv σ → σ !! self = Some (mkObj n (IsGate g)) → k ∈ children_ g →
  ∃ σ', EraseChild self k σ = Some σ' ∧ graph_inv σ' ∧ erasure self σ σ' ∧
        (∀ o', σ' !! self = Some o' → kind o' = IsGate (erased k g)).
Proof.
  intros Hinv Hself Hk. unfold EraseChild.
  apply (EraseChild_with_spec _ (size σ) (release_spec (size σ)) self n g k σ);
    auto using alive_size.
Qed.

Lemma EraseChild_graph_inv self k σ σ' :
  graph_inv σ → EraseChild self k σ = Some σ' → graph_inv σ'.
Proof.
  intros Hinv H. destruct (EraseChild_inv _ _ _ _ H) as (n & g & Hself & _ & Hk).
  destruct (EraseChild_spec self n g k σ Hinv Hself Hk) as (σ2 & H2 & Hinv2 & _).
  congruence.
Qed.

(** [EraseAllChildren] on an anchored gate of a well-formed graph. *)
Lemma EraseAllChildren_spec self n g σ :
  graph_inv σ → σ !! self = Some (mkObj n (IsGate g)) → anchored n →
  ∃ σ' n', EraseAllChildren self σ = Some σ' ∧ graph_inv σ' ∧
           erasure self σ σ' ∧
           σ' !! self = Some (mkObj n' (IsGate (childless g))).
Proof.
  intros Hinv Hself Hanch. unfold EraseAllChildren. rewrite Hself.
  apply (erase_loop_spec _ (size σ) (release_spec (size σ)) _ self σ n g);
    auto using alive_size.
Qed.

Lemma EraseAllChildren_done self n g σ σ' :
  graph_inv σ → σ !! self = Some (mkObj n (IsGate g)) →
  EraseAllChildren self σ = Some σ' →
  graph_inv σ' ∧ erasure self σ σ' ∧
  ∃ n', σ' !! self = Some (mkObj n' (IsGate (childless g))).
Proof.
  intros Hinv Hself H. unfold EraseAllChildren in H. rewrite Hself in H.
  eapply (erase_loop_done _ (size σ) (release_spec (size σ))); eauto.
  apply alive_size.
Qed.

Lemma EraseAllChildren_graph_inv self σ σ' :
  graph_inv σ → EraseAllChildren self σ = Some σ' → graph_inv σ'.
Proof.
  intros Hinv H. pose proof H as H'. unfold EraseAllChildren in H'.
  destruct (σ !! self) as [[n [| |g]]|] eqn:Hself; try discriminate.
  by destruct (EraseAllChildren_done self n g σ σ' Hinv Hself H) as (? & _).
Qed.

(** The destruction of a shared pointer that is held outside the graph. *)
Lemma reset_spec q c σ :
  graph_inv σ → σ !! q = Some c →
  (size (parents_ (node c)) < use_count_ (node c))%nat →
  ∃ σ', reset q σ = Some σ' ∧ graph_inv σ' ∧ released q σ σ'.
Proof.
  intros Hinv Hq Hslack. unfold reset.
  apply (release_spec (size σ) σ q c); auto. apply alive_size.
Qed.

(** The state of a gate is written. *)
Lemma write_state_inv s self σ σ' :
  write_state s self σ = Some σ' →
  ∃ n g, σ !! self = Some (mkObj n (IsGate g)) ∧ state_ g = kNormalState ∧
         σ' = <[self := mkObj n (IsGate (set_state s g))]> σ.
Proof.
  unfold write_state. intros H.
  destruct (σ !! self) as [[n [| |g]]|]; try discriminate.
  destruct (decide (state_ g = kNormalState)); [|discriminate].
  injection H as <-. eauto.
Qed.

Lemma write_state_graph_inv s self σ σ' :
  graph_inv σ → write_state s self σ = Some σ' → graph_inv σ'.
Proof.
  intros Hinv H. apply write_state_inv in H as (n & g & Hself & _ & ->).
  apply (overwrite_graph_inv σ self (mkObj n (IsGate g))); simpl; auto.
  eapply inv_count in Hself; eauto.
Qed.

(** [Nullify] and [MakeUnity], through their common shape, when they have
    run to their end in any graph: the gate is there in its new state and
    without children, and the other gates are quiet. *)
Lemma collapse_done s self σ σ' :
  s ≠ kNormalState → collapse s self σ = Some σ' →
  ∃ n g n' g',
    σ !! self = Some (mkObj n (IsGate g)) ∧ state_ g = kNormalState ∧
    σ' !! self = Some (mkObj n' (IsGate g')) ∧ index_ n' = index_ n ∧
    state_ g' = s ∧ type_ g' = type_ g ∧ children_ g' = ∅ ∧
    (∀ p n2 g2, p ≠ self → σ' !! p = Some (mkObj n2 (IsGate g2)) →
       ∃ n0 g0, σ !! p = Some (mkObj n0 (IsGate g0)) ∧ index_ n2 = index_ n0 ∧
                state_ g2 = state_ g0 ∧ type_ g2 = type_ g0 ∧
                module_ g2 = module_ g0 ∧ children_ g2 ⊆ children_ g0).
Proof.
  intros Hs H.
  assert (Hrun : ∃ σ1, write_state s self σ = Some σ1 ∧
                       EraseAllChildren self σ1 = Some σ').
  { destruct s; [done| |]; simpl in H; unfold Nullify, MakeUnity in H.
    - destruct (write_state kNullState self σ) as [σ1|]; [eauto|discriminate].
    - destruct (write_state kUnityState self σ) as [σ1|]; [eauto|discriminate]. }
  destruct Hrun as (σ1 & Hw & He).
  apply write_state_inv in Hw as (n & g & Hself & Hnormal & ->).
  destruct (EraseAllChildren_end _ _ _ He) as (n' & g' & Hself' & Hc').
  pose proof (EraseAllChildren_quiet _ _ _ He) as Hq.
  destruct (Hq _ _ _ Hself') as (n1 & g1 & Hself1 & Hi1 & Hs1 & Ht1 & _).
  rewrite lookup_insert_eq in Hself1. injection Hself1 as <- <-.
  exists n, g, n', g'. split_and!; auto.
  intros p n2 g2 Hne Hp. destruct (Hq _ _ _ Hp) as (n0 & g0 & Hp0 & R).
  rewrite lookup_insert_ne in Hp0 by done. eauto.
Qed.

Lemma collapse_quiet_others s self σ σ' :
  collapse s self σ = Some σ' → constant_inv σ → constant_inv σ'.
Proof.
  intros H Hci. destruct (decide (s = kNormalState)) as [->|Hs].
  - simpl in H. by injection H as <-.
  - destruct (collapse_done s self σ σ' Hs H)
      as (n & g & n' & g' & Hself & _ & Hself' & _ & _ & _ & Hc' & Hoth).
    intros p n2 g2 Hp Hst. destruct (decide (p = self)) as [->|Hne].
    + rewrite Hself' in Hp. by injection Hp as <- <-.
    + destruct (Hoth p n2 g2 Hne Hp) as (n0 & g0 & Hp0 & _ & Hs0 & _ & _ & Hsub).
      rewrite Hs0 in Hst. pose proof (Hci _ _ _ Hp0 Hst) as He.
      rewrite He in Hsub. set_solver.
Qed.

Lemma collapse_graph_inv s self σ σ' :
  graph_inv σ → collapse s self σ = Some σ' → graph_inv σ'.
Proof.
  intros Hinv H. destruct s; simpl in H; unfold Nullify, MakeUnity in H.
  - by injection H as <-.
  - destruct (write_state kNullState self σ) as [σ1|] eqn:Hw; [|discriminate].
    eapply EraseAllChildren_graph_inv; [|exact H].
    eapply write_state_graph_inv; eauto.
  - destruct (write_state kUnityState self σ) as [σ1|] eqn:Hw; [|discriminate].
    eapply EraseAllChildren_graph_inv; [|exact H].
    eapply write_state_graph_inv; eauto.
Qed.


End erase.

(** ** The insertion of a new child *)

Section insert_child.
Import IGateOps Modelled.

Lemma insert_child_inv self k cp σ σ' :
  insert_child self k cp σ = Some σ' →
  ∃ n g c0 g',
    σ !! self = Some (mkObj n (IsGate g)) ∧ σ !! cp = Some c0 ∧
    children_ g' = {[k]} ∪ children_ g ∧
    state_ g' = state_ g ∧ type_ g' = type_ g ∧ module_ g' = module_ g ∧
    (∀ ov', map_of ov' g' =
            if decide (ov' = overload_of (kind c0))
            then <[k := cp]> (map_of ov' g) else map_of ov' g) ∧
    updated self g' cp (<[index_ n := self]>) S σ σ'.
Proof.
  unfold insert_child. intros H.
  destruct (σ !! self) as [[n [| |g]]|] eqn:Hself; try discriminate.
  destruct (σ !! cp) as [c0|] eqn:Hcp; [|discriminate].
  set (g' := match overload_of (kind c0) with
             | ofGate => _ | ofVariable => _ | ofConstant => _ end) in H.
  destruct (<[self := mkObj n (IsGate g')]> σ !! cp) as [c|] eqn:Hc; [|discriminate].
  injection H as <-.
  exists n, g, c0, g'. split; [done|]. split; [done|].
  split; [unfold g'; by destruct (overload_of (kind c0))|].
  split; [unfold g'; by destruct (overload_of (kind c0))|].
  split; [unfold g'; by destruct (overload_of (kind c0))|].
  split; [unfold g'; by destruct (overload_of (kind c0))|].
  split.
  - intros ov'. unfold g'. destruct (overload_of (kind c0)), ov'; reflexivity.
  - exact (two_writes_updated self n g g' cp (<[index_ n := self]>) S σ c Hself Hc).
Qed.

Lemma insert_child_total self n g k cp c σ :
  σ !! self = Some (mkObj n (IsGate g)) → σ !! cp = Some c →
  ∃ σ', insert_child self k cp σ = Some σ'.
Proof.
  intros Hself Hcp. unfold insert_child. rewrite Hself, Hcp.
  match goal with |- context [<[self := ?o]> σ !! cp] =>
    destruct (<[self := o]> σ !! cp) as [c'|] eqn:E end; [eauto|].
  exfalso. destruct (decide (cp = self)) as [->|Hne].
  - by rewrite lookup_insert_eq in E.
  - rewrite lookup_insert_ne in E by done. congruence.
Qed.

(** The gate record after the insertion of the new child [k]. *)
Lemma inserted_gate_wf g g' ov k cp :
  gate_wf g → k ≠ 0 → k ∉ children_ g → - k ∉ children_ g →
  children_ g' = {[k]} ∪ children_ g →
  (∀ ov', map_of ov' g' =
          if decide (ov' = ov) then <[k := cp]> (map_of ov' g) else map_of ov' g) →
  kids g' = <[k := cp]> (kids g) ∧ gate_wf g'.
Proof.
  intros Hg Hk0 Hk Hnk Hch Hmaps.
  assert (Hnone : ∀ ov', map_of ov' g !! k = None).
  { intros ov'. destruct (map_of ov' g !! k) as [q|] eqn:E; [|done].
    exfalso. apply Hk. apply children_kids; [done|].
    eexists. eapply map_of_kids; eauto. }
  pose proof (Hmaps ofGate) as H1. pose proof (Hmaps ofConstant) as H2.
  pose proof (Hmaps ofVariable) as H3.
  pose proof (Hnone ofGate) as N1. pose proof (Hnone ofConstant) as N2.
  pose proof (Hnone ofVariable) as N3. simpl in *.
  destruct Hg as [Hgc Hgv Hcv Hchildren H0 Hcompl].
  assert (Hkids : kids g' = <[k := cp]> (kids g)).
  { unfold kids. rewrite H1, H2, H3. destruct ov; simpl.
    - by rewrite <- !insert_union_l.
    - rewrite <- insert_union_r; [done|]. by apply lookup_union_None.
    - rewrite <- insert_union_r, <- insert_union_l by done. done. }
  split; [exact Hkids|].
  constructor.
  - rewrite H1, H2. destruct ov; simpl; try done.
    + by apply map_disjoint_insert_l_2.
    + by apply map_disjoint_insert_r_2.
  - rewrite H1, H3. destruct ov; simpl; try done.
    + by apply map_disjoint_insert_l_2.
    + by apply map_disjoint_insert_r_2.
  - rewrite H2, H3. destruct ov; simpl; try done.
    + by apply map_disjoint_insert_r_2.
    + by apply map_disjoint_insert_l_2.
  - rewrite Hkids, dom_insert_L, Hch, Hchildren. done.
  - rewrite Hch, elem_of_union, elem_of_singleton. intros [?|?]; [congruence|done].
  - intros k'. rewrite Hch, !elem_of_union, !elem_of_singleton.
    intros [->|Hk'] [E|Hin].
    + lia.
    + done.
    + apply Hnk. by replace (- k) with k' by lia.
    + exact (Hcompl k' Hk' Hin).
Qed.

Lemma insert_child_graph_inv self n g k cp c0 σ σ' :
  graph_inv σ → σ !! self = Some (mkObj n (IsGate g)) → σ !! cp = Some c0 →
  k ≠ 0 → Z.abs k = index_ (node c0) →
  k ∉ children_ g → - k ∉ children_ g →
  insert_child self k cp σ = Some σ' → graph_inv σ'.
Proof.
  intros Hinv Hself Hcp Hk0 Habs Hk Hnk H.
  apply insert_child_inv in H
    as (n1 & g1 & c1 & g' & Hself1 & Hcp1 & Hch & _ & _ & _ & Hmaps & Hu).
  rewrite Hself in Hself1. injection Hself1 as <- <-.
  rewrite Hcp in Hcp1. injection Hcp1 as <-.
  pose proof (inv_gate σ Hinv _ _ _ Hself) as Hg.
  destruct (inserted_gate_wf g g' _ k cp Hg Hk0 Hk Hnk Hch Hmaps) as (Hkids & Hg').
  assert (Hfresh : kids g !! k = None).
  { destruct (kids g !! k) eqn:E; [|done]. exfalso. apply Hk.
    apply children_kids; eauto. }
  constructor.
  - intros p n2 g2 Hp.
    destruct (updated_gate Hu Hself Hp) as (n0 & g0 & Hp0 & _ & Heq & Hne).
    destruct (decide (p = self)) as [->|Hps].
    + destruct (Heq eq_refl) as (-> & _). exact Hg'.
    + rewrite (Hne Hps). eapply inv_gate; eauto.
  - eapply updated_index_pos; eauto. apply Hinv.
  - eapply updated_index_inj; eauto. apply Hinv.
  - intros p n2 g2 ov2 k2 q2 Hp Hk2.
    destruct (updated_gate Hu Hself Hp) as (n0 & g0 & Hp0 & _ & Heq & Hne).
    assert (Hcases : (p = self ∧ ov2 = overload_of (kind c0) ∧ k2 = k ∧ q2 = cp)
                     ∨ map_of ov2 g0 !! k2 = Some q2).
    { destruct (decide (p = self)) as [->|Hps].
      - destruct (Heq eq_refl) as (-> & -> & _). rewrite Hmaps in Hk2.
        destruct (decide (ov2 = overload_of (kind c0))) as [->|]; [|auto].
        apply lookup_insert_Some in Hk2 as [[-> ->]|[_ ?]]; auto.
      - right. by rewrite <- (Hne Hps). }
    destruct Hcases as [(-> & -> & -> & ->)|Hold].
    + destruct (updated_fwd Hu Hcp) as (c' & Hc' & Ei & _).
      exists c'. split; [done|]. split; [congruence|].
      eapply updated_overload; eauto.
    + destruct (inv_child σ Hinv _ _ _ _ _ _ Hp0 Hold) as (c & Hc & Hi & Ho).
      destruct (updated_fwd Hu Hc) as (c' & Hc' & Ei & _).
      exists c'. split; [done|]. split; [congruence|].
      rewrite <- Ho. eapply updated_overload; eauto.
  - intros p n2 g2 q2 c2 Hp Hq2.
    destruct (updated_gate Hu Hself Hp) as (n0 & g0 & Hp0 & Hidx & Heq & Hne).
    destruct (updated_bwd Hu Hq2) as (c & Hc & _ & _ & Epar & _).
    rewrite Epar, Hidx.
    pose proof (inv_parents σ Hinv _ _ _ _ _ Hp0 Hc) as Hold.
    destruct (decide (p = self)) as [->|Hps].
    + destruct (Heq eq_refl) as (-> & -> & ->).
      rewrite Hkids. destruct (decide (q2 = cp)) as [->|Hqq].
      * rewrite dom_insert_L, elem_of_union, elem_of_singleton.
        split; [|auto]. intros _. exists k. by rewrite lookup_insert_eq.
      * rewrite Hold. split; intros (k' & Hk'); exists k'.
        -- rewrite lookup_insert_ne; [done|]. intros ->. congruence.
        -- apply lookup_insert_Some in Hk' as [[_ ?]|[_ ?]]; [congruence|done].
    + rewrite (Hne Hps). destruct (decide (q2 = cp)) as [->|Hqq]; [|done].
      rewrite dom_insert_L, elem_of_union, elem_of_singleton, <- Hold.
      assert (index_ n0 ≠ index_ n).
      { intros E. apply Hps. eapply (inv_index_inj σ Hinv); eauto. }
      tauto.
  - intros q2 c2 i p Hq2 Hi.
    destruct (updated_bwd Hu Hq2) as (c & Hc & _ & _ & Epar & _).
    rewrite Epar in Hi.
    assert (Hcases : (i = index_ n ∧ p = self) ∨ parents_ (node c) !! i = Some p).
    { destruct (decide (q2 = cp)); [|auto].
      apply lookup_insert_Some in Hi as [[<- <-]|[_ ?]]; auto. }
    destruct Hcases as [[-> ->]|Hold].
    + destruct (updated_fwd Hu Hself) as ([n3 k3] & Hp3 & Ei & Ek & _).
      simpl in *. destruct (decide (self = self)); [|done]. subst k3. eauto.
    + destruct (inv_parent_ptr σ Hinv _ _ _ _ Hc Hold) as (n2 & g2 & Hp & <-).
      destruct (updated_fwd Hu Hp) as ([n3 k3] & Hp3 & Ei & Ek & _).
      simpl in *. destruct (decide (p = self)); subst k3; eauto.
  - intros q2 c2 Hq2.
    destruct (updated_bwd Hu Hq2) as (c & Hc & _ & _ & Epar & Ecnt & _).
    pose proof (inv_count σ Hinv _ _ Hc) as Hle.
    rewrite Epar, Ecnt. destruct (decide (q2 = cp)); [|done].
    rewrite map_size_insert. destruct (parents_ (node c) !! index_ n); simpl; lia.
Qed.

(** The gates after an insertion: the same states and types. *)
Lemma insert_child_gates self k cp σ σ' :
  insert_child self k cp σ = Some σ' →
  ∀ p n2 g2, σ' !! p = Some (mkObj n2 (IsGate g2)) →
    ∃ n0 g0, σ !! p = Some (mkObj n0 (IsGate g0)) ∧ index_ n2 = index_ n0 ∧
             state_ g2 = state_ g0 ∧ type_ g2 = type_ g0 ∧
             (p = self → children_ g2 = {[k]} ∪ children_ g0) ∧
             (p ≠ self → g2 = g0).
Proof.
  intros H.
  apply insert_child_inv in H
    as (n & g & c0 & g' & Hself & Hcp & Hch & Hst & Hty & _ & Hmaps & Hu).
  intros p n2 g2 Hp.
  destruct (updated_gate Hu Hself Hp) as (n0 & g0 & Hp0 & Hidx & Heq & Hne).
  exists n0, g0. split; [done|]. split; [done|].
  destruct (decide (p = self)) as [->|Hps].
  - destruct (Heq eq_refl) as (-> & -> & _). rewrite Hst, Hty, Hch.
    split_and!; auto; done.
  - rewrite (Hne Hps). split_and!; auto; done.
Qed.

Lemma insert_child_gate_at self k cp σ σ' p n0 g0 :
  insert_child self k cp σ = Some σ' →
  σ !! p = Some (mkObj n0 (IsGate g0)) →
  ∃ n2 g2, σ' !! p = Some (mkObj n2 (IsGate g2)) ∧ index_ n2 = index_ n0 ∧
           state_ g2 = state_ g0 ∧ type_ g2 = type_ g0 ∧
           (p = self → children_ g2 = {[k]} ∪ children_ g0) ∧
           (p ≠ self → g2 = g0).
Proof.
  intros H Hp. pose proof (insert_child_gates _ _ _ _ _ H) as Hgates.
  apply insert_child_inv in H
    as (n & g & c0 & g' & Hself & Hcp & Hch & Hst & Hty & _ & Hmaps & Hu).
  destruct (updated_fwd Hu Hp) as ([n2 k2] & Hp2 & Ei & Ek & _).
  simpl in *.
  assert (∃ g2, k2 = IsGate g2) as [g2 ->].
  { destruct (decide (p = self)); subst k2; eauto. }
  destruct (Hgates _ _ _ Hp2) as (n0' & g0' & Hp0' & R).
  rewrite Hp in Hp0'. injection Hp0' as <- <-. eauto.
Qed.

End insert_child.

(** ** [AddChild] *)

Section add_child.
Import IGateOps Modelled.
Context {rw : Rewriting}.

Lemma complement_state_constant t s :
  complement_state t = Some s → s ≠ kNormalState.
Proof. destruct t; simpl; intros [= <-]; done. Qed.

Lemma absorbing_state_constant t k child s :
  absorbing_state t k child = Some s → s ≠ kNormalState.
Proof.
  unfold absorbing_state. destruct k as [b| |]; try discriminate.
  destruct (if decide (0 < child) then b else negb b), t;
    intros [= <-]; done.
Qed.

(** How a call of [AddChild] that ran to its end went. *)
Lemma AddChild_inv ov self k cp σ r σ' :
  AddChild ov self k cp σ = Done (r, σ') →
  ∃ n g c,
    σ !! self = Some (mkObj n (IsGate g)) ∧ σ !! cp = Some c ∧
    k ≠ 0 ∧ Z.abs k = index_ (node c) ∧ overload_of (kind c) = ov ∧
    addition_cases self g c k cp σ r σ'.
Proof.
  intros H. unfold AddChild in H.
  destruct (σ !! self) as [[n [| |g]]|] eqn:Hself; try discriminate.
  destruct (σ !! cp) as [c|] eqn:Hcp; [|discriminate].
  destruct (decide _) as [(Hk0 & Habs & Hov)|]; [|discriminate].
  exists n, g, c. split_and!; auto. unfold addition_cases.
  destruct (decide (k ∈ children_ g)) as [Hdup|Hndup].
  - left. split; [done|].
    unfold ProcessDuplicateChild in H. rewrite Hself in H.
    destruct (type_ g) eqn:Hty; simpl in H.
    all: try (injection H as <- <-; left; split_and!; auto 10; fail).
    all: try (destruct (rewrite_duplicate self k σ) as [σ2|] eqn:Hr; [|discriminate];
              injection H as <- <-; right; right; split_and!; auto; fail).
    destruct (Nullify self σ) as [σ2|] eqn:Hrun; [|discriminate].
    injection H as <- <-. right. left. auto.
  - right. destruct (decide (- k ∈ children_ g)) as [Hcompl|Hncompl].
    + left. split; [done|]. split; [done|].
      unfold ProcessComplementChild in H. rewrite Hself in H.
      destruct (complement_state (type_ g)) as [s|] eqn:Hs.
      * destruct (collapse s self σ) as [σ2|] eqn:Hrun; [|discriminate].
        injection H as <- <-. left. eauto.
      * destruct (rewrite_complement self k σ) as [σ2|] eqn:Hr; [|discriminate].
        injection H as <- <-. right. auto.
    + right. split; [done|]. split; [done|].
      destruct (absorbing_state (type_ g) (kind c) k) as [s|] eqn:Hs.
      * destruct (collapse s self σ) as [σ2|] eqn:Hrun; [|discriminate].
        injection H as <- <-. left. eauto.
      * destruct (insert_child self k cp σ) as [σ2|] eqn:Hrun; [|discriminate].
        injection H as <- <-. right. auto.
Qed.

Context {rws : RewritingSpec}.

Lemma AddChild_graph_inv ov self k cp σ r σ' :
  graph_inv σ → AddChild ov self k cp σ = Done (r, σ') → graph_inv σ'.
Proof.
  intros Hinv H.
  apply AddChild_inv in H as (n & g & c & Hself & Hcp & Hk0 & Habs & Hov & Hcases).
  destruct Hcases as [(Hk & [(_ & -> & _)|[(_ & _ & Hrun)|(_ & _ & Hrun)]])
                     |[(Hk & Hnk & [(_ & s & _ & Hrun)|(_ & _ & Hrun)])
                      |(Hk & Hnk & [(_ & s & _ & Hrun)|(_ & _ & Hrun)])]].
  - done.
  - by apply (collapse_graph_inv kNullState self σ).
  - eapply rewrite_graph_inv; eauto.
  - eapply collapse_graph_inv; eauto.
  - eapply rewrite_graph_inv; eauto.
  - eapply collapse_graph_inv; eauto.
  - eapply insert_child_graph_inv; eauto.
Qed.

Lemma AddChild_constant_inv ov self k cp σ r σ' :
  constant_inv σ → in_normal_state self σ →
  AddChild ov self k cp σ = Done (r, σ') → constant_inv σ'.
Proof.
  intros Hci (n0 & g0 & Hself0 & Hnormal) H.
  apply AddChild_inv in H as (n & g & c & Hself & Hcp & Hk0 & Habs & Hov & Hcases).
  rewrite Hself in Hself0. injection Hself0 as <- <-.
  destruct Hcases as [(Hk & [(_ & -> & _)|[(_ & _ & Hrun)|(_ & _ & Hrun)]])
                     |[(Hk & Hnk & [(_ & s & _ & Hrun)|(_ & _ & Hrun)])
                      |(Hk & Hnk & [(_ & s & _ & Hrun)|(_ & _ & Hrun)])]].
  - done.
  - by apply (collapse_quiet_others kNullState self σ).
  - eapply rewrite_constant_inv; eauto.
  - eapply collapse_quiet_others; eauto.
  - eapply rewrite_constant_inv; eauto.
  - eapply collapse_quiet_others; eauto.
  - pose proof (insert_child_gates _ _ _ _ _ Hrun) as Hgates.
    intros p n2 g2 Hp Hst.
    destruct (Hgates _ _ _ Hp) as (n1 & g1 & Hp1 & _ & Hst1 & _ & Heq & Hne).
    destruct (decide (p = self)) as [->|Hps].
    + rewrite Hself in Hp1. injection Hp1 as <- <-. congruence.
    + rewrite (Hne Hps) in *. eapply Hci; eauto.
Qed.

(** The value that [AddChild] returns, the state of the gate and the
    cause. *)
Lemma AddChild_return ov self k cp σ r σ' :
  AddChild ov self k cp σ = Done (r, σ') →
  ∃ n g c n' g',
    σ !! self = Some (mkObj n (IsGate g)) ∧ σ !! cp = Some c ∧
    σ' !! self = Some (mkObj n' (IsGate g')) ∧
    (r = true → state_ g = kNormalState ∧ state_ g' ≠ kNormalState) ∧
    (r = false → state_ g' = state_ g) ∧
    (r = true ↔ collapse_cause g c k).
Proof.
  intros H.
  apply AddChild_inv in H as (n & g & c & Hself & Hcp & Hk0 & Habs & Hov & Hcases).
  assert (Hcollapse : ∀ s, s ≠ kNormalState → collapse s self σ = Some σ' →
            ∃ n' g', σ' !! self = Some (mkObj n' (IsGate g')) ∧
                     state_ g = kNormalState ∧ state_ g' ≠ kNormalState).
  { intros s Hs Hrun.
    destruct (collapse_done s self σ σ' Hs Hrun)
      as (n1 & g1 & n' & g' & Hself1 & Hn & Hself' & _ & Hs' & _).
    rewrite Hself in Hself1. injection Hself1 as <- <-.
    exists n', g'. split_and!; auto. congruence. }
  assert (Hrewrite : rewrite_duplicate self k σ = Some σ'
                     ∨ rewrite_complement self k σ = Some σ' →
            ∃ n' g', σ' !! self = Some (mkObj n' (IsGate g')) ∧ state_ g' = state_ g).
  { intros Hr. eapply rewrite_state; eauto. }
  destruct Hcases as [(Hk & [(-> & -> & Hty)|[(-> & Hty & Hrun)|(-> & Hty & Hrun)]])
                     |[(Hk & Hnk & [(-> & s & Hs & Hrun)|(-> & Hs & Hrun)])
                      |(Hk & Hnk & [(-> & s & Hs & Hrun)|(-> & Hs & Hrun)])]].
  - exists n, g, c, n, g. split_and!; auto; try done.
    split; [done|]. intros [[_ E]|[(E & _)|(E & _)]]; [|done|done].
    destruct Hty as [?|[?|[?|?]]]; congruence.
  - destruct (Hcollapse kNullState) as (n' & g' & Hself' & Hn & Hs'); [done|done|].
    exists n, g, c, n', g'. split_and!; auto; try done.
    split; [|done]. intros _. left. auto.
  - destruct Hrewrite as (n' & g' & Hself' & Hs'); [auto|].
    exists n, g, c, n', g'. split_and!; auto; try done.
    split; [done|]. intros [[_ E]|[(E & _)|(E & _)]]; [|done|done].
    rewrite E in Hty. discriminate.
  - destruct (Hcollapse s) as (n' & g' & Hself' & Hn & Hs');
      [eapply complement_state_constant; eauto|done|].
    exists n, g, c, n', g'. split_and!; auto; try done.
    split; [|done]. intros _. right. left. rewrite Hs. eauto.
  - destruct Hrewrite as (n' & g' & Hself' & Hs'); [auto|].
    exists n, g, c, n', g'. split_and!; auto; try done.
    split; [done|]. intros [[E _]|[(_ & _ & E)|(_ & E & _)]]; [done| |done].
    rewrite Hs in E. by destruct E.
  - destruct (Hcollapse s) as (n' & g' & Hself' & Hn & Hs');
      [eapply absorbing_state_constant; eauto|done|].
    exists n, g, c, n', g'. split_and!; auto; try done.
    split; [|done]. intros _. right. right. rewrite Hs. eauto.
  - destruct (insert_child_gate_at _ _ _ _ _ _ _ _ Hrun Hself)
      as (n' & g' & Hself' & _ & Hs' & _).
    exists n, g, c, n', g'. split_and!; auto; try done.
    split; [done|]. intros [[E _]|[(_ & E & _)|(_ & _ & E)]]; [done|done|].
    rewrite Hs in E. by destruct E.
Qed.

End add_child.

(** ** The constructors, the setters and the visits *)

Section writes.
Import IGateOps Modelled.

Lemma new_gate_record_wf t : gate_wf (new_gate_record t).
Proof.
  constructor; simpl.
  - apply map_disjoint_empty_l.
  - apply map_disjoint_empty_l.
  - apply map_disjoint_empty_l.
  - unfold kids. simpl. by rewrite !(left_id_L ∅ (∪)), dom_empty_L.
  - apply not_elem_of_empty.
  - intros k Hk. by apply not_elem_of_empty in Hk.
Qed.

Lemma new_node_well_formed p index k σ :
  σ !! p = None → 0 < index →
  (∀ q o, σ !! q = Some o → index_ (node o) ≠ index) →
  fresh_kind k →
  (graph_inv σ → graph_inv (new_node p index k σ)) ∧
  (constant_inv σ → constant_inv (new_node p index k σ)).
Proof.
  intros Hp Hpos Hfresh Hk. unfold new_node.
  set (o := mkObj (mkNode index [0; 0; 0] ∅ 0 1) k).
  assert (Hnew : ∀ g, IsGate g = k → gate_wf g ∧ kids g = ∅ ∧
                            children_ g = ∅ ∧ state_ g = kNormalState).
  { intros g <-. destruct Hk as [t ->]. split; [apply new_gate_record_wf|].
    unfold kids. simpl. by rewrite !(left_id_L ∅ (∪)). }
  assert (Hlook : ∀ x o', <[p := o]> σ !! x = Some o' →
                  (x = p ∧ o' = o) ∨ (x ≠ p ∧ σ !! x = Some o')).
  { intros x o' Hx. apply lookup_insert_Some in Hx as [[-> <-]|[? ?]]; auto. }
  assert (Hkeep : ∀ x o', σ !! x = Some o' → <[p := o]> σ !! x = Some o').
  { intros x o' Hx. rewrite lookup_insert_ne; [done|]. intros ->. congruence. }
  split; [intros Hinv; constructor|intros Hci].
  - intros x n g Hx. destruct (Hlook _ _ Hx) as [[-> E]|[_ Hold]].
    + injection E as -> E. by apply (Hnew g).
    + eapply inv_gate; eauto.
  - intros x o' Hx. destruct (Hlook _ _ Hx) as [[-> ->]|[_ Hold]]; [done|].
    eapply inv_index_pos; eauto.
  - intros x y ox oy Hx Hy E.
    destruct (Hlook _ _ Hx) as [[-> ->]|[? Hx0]], (Hlook _ _ Hy) as [[-> ->]|[? Hy0]].
    + done.
    + exfalso. by apply (Hfresh _ _ Hy0).
    + exfalso. by apply (Hfresh _ _ Hx0).
    + eapply inv_index_inj; eauto.
  - intros x n g ov kk q Hx Hkk. destruct (Hlook _ _ Hx) as [[-> E]|[_ Hold]].
    + injection E as -> E. destruct (Hnew g E) as (Hg & Hkids & _).
      apply (map_of_kids g ov kk q Hg) in Hkk. by rewrite Hkids in Hkk.
    + destruct (inv_child σ Hinv _ _ _ _ _ _ Hold Hkk) as (c & Hc & R).
      exists c. split; [by apply Hkeep|done].
  - intros x n g q c Hx Hq.
    destruct (Hlook _ _ Hx) as [[-> E]|[_ Hx0]].
    + injection E as -> E. destruct (Hnew g E) as (_ & Hkids & _).
      rewrite Hkids. simpl. split; [|by intros (? & ?)].
      intros Hin. exfalso.
      destruct (Hlook _ _ Hq) as [[-> ->]|[_ Hq0]].
      * simpl in Hin. by rewrite dom_empty_L in Hin.
      * apply elem_of_dom in Hin as [pp Hpp].
        destruct (inv_parent_ptr σ Hinv _ _ _ _ Hq0 Hpp) as (n2 & g2 & Hg2 & Hi2).
        by apply (Hfresh _ _ Hg2).
    + destruct (Hlook _ _ Hq) as [[-> ->]|[_ Hq0]].
      * simpl. rewrite dom_empty_L. split; [by intros ?%not_elem_of_empty|].
        intros (kk & Hkk). exfalso.
        apply kids_Some in Hkk as (ov & Hov & _).
        destruct (inv_child σ Hinv _ _ _ _ _ _ Hx0 Hov) as (c & Hc & _). congruence.
      * eapply inv_parents; eauto.
  - intros q c i pp Hq Hi.
    destruct (Hlook _ _ Hq) as [[-> ->]|[_ Hq0]]; [done|].
    destruct (inv_parent_ptr σ Hinv _ _ _ _ Hq0 Hi) as (n2 & g2 & Hg2 & Hi2).
    exists n2, g2. split; [by apply Hkeep|done].
  - intros q c Hq. destruct (Hlook _ _ Hq) as [[-> ->]|[_ Hq0]].
    + simpl. rewrite map_size_empty. lia.
    + eapply inv_count; eauto.
  - intros x n g Hx Hst. destruct (Hlook _ _ Hx) as [[-> E]|[_ Hold]].
    + injection E as -> E. destruct (Hnew g E) as (_ & _ & ? & ?). congruence.
    + eapply Hci; eauto.
Qed.

Lemma empty_graph_inv : graph_inv ∅.
Proof. constructor; intros *; by rewrite ?lookup_empty. Qed.

Lemma empty_constant_inv : constant_inv ∅.
Proof. intros p n g. by rewrite lookup_empty. Qed.

(** A member function of [Node] that leaves the index, the parents and the
    use count. *)
Lemma on_node_well_formed f p σ σ' :
  (∀ n n', f n = Some n' →
     index_ n' = index_ n ∧ parents_ n' = parents_ n ∧
     (use_count_ n ≤ use_count_ n')%nat) →
  on_node f p σ = Some σ' →
  (graph_inv σ → graph_inv σ') ∧ (constant_inv σ → constant_inv σ').
Proof.
  intros Hf H. unfold on_node in H.
  destruct (σ !! p) as [[n k]|] eqn:Hp; [|discriminate].
  destruct (f n) as [n'|] eqn:Hn; [|discriminate]. injection H as <-.
  destruct (Hf _ _ Hn) as (Hi & Hpar & Hcnt). split.
  - intros Hinv. apply (overwrite_graph_inv σ p (mkObj n k)); simpl;
      auto using same_links_refl.
    rewrite Hpar. pose proof (inv_count σ Hinv _ _ Hp). simpl in *. lia.
  - intros Hci x n2 g2 Hx. apply lookup_insert_Some in Hx as [[-> E]|[_ Hx]].
    + injection E as _ ->. eapply Hci; eauto.
    + eapply Hci; eauto.
Qed.

Lemma Visit_node time n r n' :
  NodeOps.Visit time n = Some (r, n') →
  index_ n' = index_ n ∧ parents_ n' = parents_ n ∧
  (use_count_ n ≤ use_count_ n')%nat.
Proof.
  unfold NodeOps.Visit. intros H. repeat case_decide; simplify_eq; done.
Qed.

(** A member function of [IGate] that leaves the children and the state. *)
Lemma on_gate_well_formed f self σ σ' :
  (∀ g g', f g = Some g' →
     same_links (IsGate g) (IsGate g') ∧ state_ g' = state_ g) →
  on_gate f self σ = Some σ' →
  (graph_inv σ → graph_inv σ') ∧ (constant_inv σ → constant_inv σ').
Proof.
  intros Hf H. unfold on_gate in H.
  destruct (σ !! self) as [[n [| |g]]|] eqn:Hself; try discriminate.
  destruct (f g) as [g'|] eqn:Hg; [|discriminate]. injection H as <-.
  destruct (Hf _ _ Hg) as (Hl & Hst). split.
  - intros Hinv. apply (overwrite_graph_inv σ self (mkObj n (IsGate g))); simpl; auto.
    exact (inv_count σ Hinv _ _ Hself).
  - intros Hci x n2 g2 Hx. apply lookup_insert_Some in Hx as [[-> E]|[_ Hx]].
    + injection E as -> ->. intros Hs. destruct Hl as [-> _].
      eapply Hci; eauto. congruence.
    + eapply Hci; eauto.
Qed.

Lemma TurnModule_on_gate self σ :
  TurnModule self σ =
  on_gate (λ g, if module_ g then None else Some (set_module true g)) self σ.
Proof.
  unfold TurnModule, on_gate. destruct (σ !! self) as [[n [| |g]]|]; try done.
  by destruct (module_ g).
Qed.

End writes.

(** ** The inversion of children *)

Section inversion.
Import IGateOps Modelled.

(** The record of a gate is replaced by one that holds the same pointers,
    each under a key of the same absolute value. *)
Lemma relink_graph_inv σ self n g g' :
  graph_inv σ → σ !! self = Some (mkObj n (IsGate g)) → gate_wf g' →
  (∀ ov k q, map_of ov g' !! k = Some q →
     ∃ k0, map_of ov g !! k0 = Some q ∧ Z.abs k0 = Z.abs k) →
  (∀ k0 q, kids g !! k0 = Some q → ∃ k, kids g' !! k = Some q) →
  graph_inv (<[self := mkObj n (IsGate g')]> σ).
Proof.
  intros Hinv Hself Hg' Hback Hforth.
  set (o' := mkObj n (IsGate g')).
  assert (Hlook : ∀ x o, <[self := o']> σ !! x = Some o →
            ∃ o0, σ !! x = Some o0 ∧ node o = node o0 ∧
                  (x = self → o = o' ∧ o0 = mkObj n (IsGate g)) ∧ (x ≠ self → o = o0)).
  { intros x o Hx. apply lookup_insert_Some in Hx as [[-> <-]|[? Hx]].
    - exists (mkObj n (IsGate g)). split_and!; auto; done.
    - exists o. split_and!; auto; done. }
  assert (Hkeep : ∀ x o0, σ !! x = Some o0 →
            ∃ o, <[self := o']> σ !! x = Some o ∧ node o = node o0 ∧
                 overload_of (kind o) = overload_of (kind o0) ∧
                 (x = self → o = o') ∧ (x ≠ self → o = o0)).
  { intros x o0 Hx. destruct (decide (x = self)) as [->|Hne].
    - exists o'. rewrite lookup_insert_eq. rewrite Hself in Hx. injection Hx as <-.
      split_and!; auto; done.
    - exists o0. rewrite lookup_insert_ne by done. split_and!; auto; done. }
  constructor.
  - intros x n2 g2 Hx. destruct (Hlook _ _ Hx) as (o0 & Hx0 & _ & Heq & Hne).
    destruct (decide (x = self)) as [->|Hxs].
    + destruct (Heq eq_refl) as [E _]. injection E as _ ->. done.
    + rewrite <- (Hne Hxs) in Hx0. eapply inv_gate; eauto.
  - intros x o Hx. destruct (Hlook _ _ Hx) as (o0 & Hx0 & -> & _).
    eapply inv_index_pos; eauto.
  - intros x y ox oy Hx Hy E.
    destruct (Hlook _ _ Hx) as (ox0 & Hx0 & Ex & _).
    destruct (Hlook _ _ Hy) as (oy0 & Hy0 & Ey & _).
    rewrite Ex, Ey in E. eapply inv_index_inj; eauto.
  - intros x n2 g2 ov k q Hx Hk.
    destruct (Hlook _ _ Hx) as (o0 & Hx0 & _ & Heq & Hne).
    assert (∃ k0, map_of ov
              (match kind o0 with IsGate g0 => g0 | _ => g end) !! k0 = Some q
              ∧ Z.abs k0 = Z.abs k ∧ ∃ n0 g0, o0 = mkObj n0 (IsGate g0))
      as (k0 & Hk0 & Habs & n0 & g0 & ->).
    { destruct (decide (x = self)) as [->|Hxs].
      - destruct (Heq eq_refl) as [E ->]. injection E as _ ->.
        destruct (Hback _ _ _ Hk) as (k0 & ? & ?). exists k0. simpl.
        split_and!; eauto.
      - rewrite <- (Hne Hxs). simpl. exists k. split_and!; eauto. }
    simpl in Hk0.
    destruct (inv_child σ Hinv _ _ _ _ _ _ Hx0 Hk0) as (c & Hc & Hi & Ho).
    destruct (Hkeep _ _ Hc) as (c' & Hc' & En & Eo & _).
    exists c'. split; [done|]. rewrite En, Eo. split; [lia|done].
  - intros x n2 g2 q c Hx Hq.
    destruct (Hlook _ _ Hx) as (o0 & Hx0 & En & Heq & Hne).
    destruct (Hlook _ _ Hq) as (c0 & Hq0 & Ec & _). rewrite Ec.
    destruct (decide (x = self)) as [->|Hxs].
    + destruct (Heq eq_refl) as [E ->]. injection E as -> ->.
      rewrite (inv_parents σ Hinv _ _ _ _ _ Hself Hq0). split.
      * intros (k0 & Hk0). eauto.
      * intros (k & Hk). apply kids_Some in Hk as (ov & Hov & _).
        destruct (Hback _ _ _ Hov) as (k0 & Hk0 & _). exists k0.
        eapply map_of_kids; eauto. eapply inv_gate; eauto.
    + rewrite <- (Hne Hxs) in Hx0. exact (inv_parents σ Hinv _ _ _ _ _ Hx0 Hq0).
  - intros q c i pp Hq Hi.
    destruct (Hlook _ _ Hq) as (c0 & Hq0 & Ec & _). rewrite Ec in Hi.
    destruct (inv_parent_ptr σ Hinv _ _ _ _ Hq0 Hi) as (n2 & g2 & Hp2 & Hi2).
    destruct (Hkeep _ _ Hp2) as (o2 & Ho2 & En & _ & Heq & Hne).
    destruct (decide (pp = self)) as [->|Hps].
    + rewrite (Heq eq_refl) in Ho2. rewrite Hself in Hp2. injection Hp2 as <- <-.
      eauto.
    + rewrite (Hne Hps) in Ho2. eauto.
  - intros q c Hq. destruct (Hlook _ _ Hq) as (c0 & Hq0 & -> & _).
    eapply inv_count; eauto.
Qed.

Lemma rekey_lookup k (m : gmap Z ptr) j q :
  k ≠ 0 → m !! (- k) = None →
  (rekey k m !! j = Some q ↔
   (j = - k ∧ m !! k = Some q) ∨ (j ≠ k ∧ j ≠ - k ∧ m !! j = Some q)).
Proof.
  intros Hk Hnk. unfold rekey. destruct (m !! k) as [p|] eqn:E.
  - rewrite lookup_insert_Some, lookup_delete_Some. split.
    + intros [[<- <-]|(? & ? & ?)]; [auto|]. right. split_and!; auto.
    + intros [[-> [= ->]]|(? & ? & ?)]; [auto|]. right. split_and!; auto.
  - split.
    + intros Hj. right. split_and!; auto; intros ->; congruence.
    + intros [[_ ?]|(_ & _ & ?)]; [done|done].
Qed.

Lemma InvertChild_inv k g g' :
  gate_wf g → InvertChild k g = Some g' →
  k ∈ children_ g ∧ k ≠ 0 ∧
  children_ g' = {[- k]} ∪ children_ g ∖ {[k]} ∧ state_ g' = state_ g ∧
  (∀ ov j q, map_of ov g' !! j = Some q ↔
     (j = - k ∧ map_of ov g !! k = Some q)
     ∨ (j ≠ k ∧ j ≠ - k ∧ map_of ov g !! j = Some q)).
Proof.
  intros Hg H. unfold InvertChild in H.
  destruct (decide _) as [[Hk Hnk]|]; [|discriminate]. injection H as <-.
  assert (Hk0 : k ≠ 0) by (intros ->; by apply (wf_nonzero g Hg)).
  split_and!; auto.
  intros ov j q.
  assert (map_of ov g !! (- k) = None) as Hnone.
  { destruct (map_of ov g !! (- k)) eqn:E; [|done]. exfalso. apply Hnk.
    apply children_kids; [done|]. eexists. eapply map_of_kids; eauto. }
  destruct ov; simpl in *; by apply rekey_lookup.
Qed.

Lemma kids_lookup g k q :
  gate_wf g → (kids g !! k = Some q ↔ ∃ ov, map_of ov g !! k = Some q).
Proof.
  intros Hg. split.
  - intros (ov & ? & _)%kids_Some. eauto.
  - intros (ov & ?). eapply map_of_kids; eauto.
Qed.

(** The three maps are pairwise disjoint and [children_] is the set of
    their keys: the part of [gate_wf] that speaks of the maps, from their
    lookups. *)
Lemma gate_wf_intro g :
  (∀ ov ov' k, is_Some (map_of ov g !! k) → is_Some (map_of ov' g !! k) → ov = ov') →
  (∀ k, k ∈ children_ g ↔ ∃ ov, is_Some (map_of ov g !! k)) →
  0 ∉ children_ g → (∀ k, k ∈ children_ g → - k ∉ children_ g) →
  gate_wf g.
Proof.
  intros Hdisj Hch H0 Hcompl.
  assert (Hd : ∀ ov ov', ov ≠ ov' → map_of ov g ##ₘ map_of ov' g).
  { intros ov ov' Hne. apply map_disjoint_spec. intros k x y Hx Hy.
    apply Hne. eapply Hdisj; eauto. }
  constructor; auto.
  - by apply (Hd ofGate ofConstant).
  - by apply (Hd ofGate ofVariable).
  - by apply (Hd ofConstant ofVariable).
  - apply set_eq. intros k. rewrite Hch, elem_of_dom. unfold kids. split.
    + intros (ov & q & Hq). exists q. destruct ov; simpl in Hq.
      * apply lookup_union_Some_l, lookup_union_Some_l. done.
      * apply lookup_union_Some_raw. right. split; [|done].
        apply lookup_union_None. split.
        -- destruct (gate_children_ g !! k) eqn:E; [|done].
           by specialize (Hdisj ofGate ofVariable k (mk_is_Some _ _ E) (mk_is_Some _ _ Hq)).
        -- destruct (constant_children_ g !! k) eqn:E; [|done].
           by specialize (Hdisj ofConstant ofVariable k (mk_is_Some _ _ E) (mk_is_Some _ _ Hq)).
      * apply lookup_union_Some_l, lookup_union_Some_raw. right. split; [|done].
        destruct (gate_children_ g !! k) eqn:E; [|done].
        by specialize (Hdisj ofGate ofConstant k (mk_is_Some _ _ E) (mk_is_Some _ _ Hq)).
    + intros (q & Hq). apply lookup_union_Some_raw in Hq as [Hq|[_ Hq]].
      * apply lookup_union_Some_raw in Hq as [Hq|[_ Hq]].
        -- exists ofGate. simpl. eauto.
        -- exists ofConstant. simpl. eauto.
      * exists ofVariable. simpl. eauto.
Qed.

Lemma gate_wf_disjoint g ov ov' k :
  gate_wf g → is_Some (map_of ov g !! k) → is_Some (map_of ov' g !! k) → ov = ov'.
Proof.
  intros Hg H1 H2. symmetry. eapply map_of_unique; eauto; by apply elem_of_dom.
Qed.

Lemma gate_wf_children g k :
  gate_wf g → (k ∈ children_ g ↔ ∃ ov, is_Some (map_of ov g !! k)).
Proof.
  intros Hg. rewrite (children_kids g k Hg). split.
  - intros [q Hq]. apply kids_lookup in Hq as (ov & ?); eauto.
  - intros (ov & q & Hq). exists q. eapply map_of_kids; eauto.
Qed.

Lemma InvertChild_graph_inv self k σ σ' :
  graph_inv σ → on_gate (InvertChild k) self σ = Some σ' → graph_inv σ'.
Proof.
  intros Hinv H. unfold on_gate in H.
  destruct (σ !! self) as [[n [| |g]]|] eqn:Hself; try discriminate.
  destruct (InvertChild k g) as [g'|] eqn:Hrun; [|discriminate]. injection H as <-.
  pose proof (inv_gate σ Hinv _ _ _ Hself) as Hg.
  destruct (InvertChild_inv k g g' Hg Hrun) as (Hk & Hk0 & Hch & _ & Hmaps).
  assert (Hnk : - k ∉ children_ g) by exact (wf_no_complement g Hg k Hk).
  assert (Hg' : gate_wf g').
  { apply gate_wf_intro.
    + intros ov ov' j [q Hq] [q' Hq'].
      apply Hmaps in Hq as [[-> Hq]|(? & ? & Hq)], Hq' as [[E Hq']|(? & ? & Hq')];
        try done; try (eapply (gate_wf_disjoint g); eauto; fail).
    + intros j. rewrite Hch, elem_of_union, elem_of_singleton, elem_of_difference,
        elem_of_singleton, (gate_wf_children g j Hg). split.
      * intros [->|[(ov & q & Hq) Hjk]].
        -- apply (gate_wf_children g k Hg) in Hk as (ov & q & Hq).
           exists ov, q. apply Hmaps. auto.
        -- exists ov, q. apply Hmaps. right. split_and!; auto.
           intros ->. apply Hnk. apply gate_wf_children; eauto.
      * intros (ov & q & Hq). apply Hmaps in Hq as [[-> Hq]|(? & ? & Hq)]; eauto.
    + rewrite Hch, elem_of_union, elem_of_singleton, elem_of_difference.
      intros [?|[? _]]; [lia|]. by apply (wf_nonzero g Hg).
    + intros j. rewrite Hch, !elem_of_union, !elem_of_singleton, !elem_of_difference,
        !elem_of_singleton.
      intros [->|[Hj Hjk]] [E|[Hnj Hnjk]].
      * lia.
      * apply Hnjk. lia.
      * apply Hjk. lia.
      * exact (wf_no_complement g Hg j Hj Hnj). }
  apply (relink_graph_inv σ self n g g'); auto.
  - intros ov j q Hq. apply Hmaps in Hq as [[-> Hq]|(_ & _ & Hq)].
    + exists k. split; [done|lia].
    + eauto.
  - intros k0 q Hq. apply (kids_lookup g k0 q Hg) in Hq as (ov & Hq).
    destruct (decide (k0 = k)) as [->|Hne].
    + exists (- k). apply (kids_lookup g' _ _ Hg'). exists ov. apply Hmaps. auto.
    + exists k0. apply (kids_lookup g' _ _ Hg'). exists ov. apply Hmaps.
      right. split_and!; auto. intros ->. apply Hnk.
      apply gate_wf_children; eauto.
Qed.

Lemma InvertChildren_inv g g' :
  InvertChildren g = Some g' →
  children_ g' = set_map Z.opp (children_ g) ∧ state_ g' = state_ g ∧
  (∀ ov j q, map_of ov g' !! j = Some q ↔ map_of ov g !! (- j) = Some q).
Proof.
  intros [= <-]. split_and!; auto.
  intros ov j q. replace j with (Z.opp (- j)) at 1 by lia.
  destruct ov; simpl; by rewrite (lookup_kmap Z.opp).
Qed.

Lemma InvertChildren_graph_inv self σ σ' :
  graph_inv σ → on_gate InvertChildren self σ = Some σ' → graph_inv σ'.
Proof.
  intros Hinv H. unfold on_gate in H.
  destruct (σ !! self) as [[n [| |g]]|] eqn:Hself; try discriminate.
  destruct (InvertChildren g) as [g'|] eqn:Hrun; [|discriminate]. injection H as <-.
  pose proof (inv_gate σ Hinv _ _ _ Hself) as Hg.
  destruct (InvertChildren_inv g g' Hrun) as (Hch & _ & Hmaps).
  assert (Hin : ∀ j, j ∈ children_ g' ↔ - j ∈ children_ g).
  { intros j. rewrite Hch, elem_of_map. split.
    - intros (x & -> & Hx). by rewrite Z.opp_involutive.
    - intros Hj. exists (- j). split; [lia|done]. }
  assert (Hg' : gate_wf g').
  { apply gate_wf_intro.
    - intros ov ov' j [q Hq] [q' Hq']. apply Hmaps in Hq, Hq'.
      eapply (gate_wf_disjoint g); eauto.
    - intros j. rewrite Hin, (gate_wf_children g _ Hg). split.
      + intros (ov & q & Hq). exists ov, q. by apply Hmaps.
      + intros (ov & q & Hq). exists ov, q. by apply Hmaps.
    - rewrite Hin. exact (wf_nonzero g Hg).
    - intros j. rewrite !Hin. intros Hj Hnj.
      exact (wf_no_complement g Hg _ Hj Hnj). }
  apply (relink_graph_inv σ self n g g'); auto.
  - intros ov j q Hq. apply Hmaps in Hq. exists (- j). split; [done|lia].
  - intros k0 q Hq. apply (kids_lookup g k0 q Hg) in Hq as (ov & Hq).
    exists (- k0). apply (kids_lookup g' _ _ Hg'). exists ov. apply Hmaps.
    by rewrite Z.opp_involutive.
Qed.

Lemma InvertChild_constant_inv self k σ σ' :
  graph_inv σ → constant_inv σ →
  on_gate (InvertChild k) self σ = Some σ' → constant_inv σ'.
Proof.
  intros Hinv Hci H. unfold on_gate in H.
  destruct (σ !! self) as [[n [| |g]]|] eqn:Hself; try discriminate.
  destruct (InvertChild k g) as [g'|] eqn:Hrun; [|discriminate]. injection H as <-.
  pose proof (inv_gate σ Hinv _ _ _ Hself) as Hg.
  destruct (InvertChild_inv k g g' Hg Hrun) as (Hk & _ & _ & Hst & _).
  intros x n2 g2 Hx Hs. apply lookup_insert_Some in Hx as [[-> E]|[_ Hx]].
  - injection E as -> ->. exfalso. rewrite Hst in Hs.
    rewrite (Hci _ _ _ Hself Hs) in Hk. by apply not_elem_of_empty in Hk.
  - eapply Hci; eauto.
Qed.

Lemma InvertChildren_constant_inv self σ σ' :
  constant_inv σ → on_gate InvertChildren self σ = Some σ' → constant_inv σ'.
Proof.
  intros Hci H. unfold on_gate in H.
  destruct (σ !! self) as [[n [| |g]]|] eqn:Hself; try discriminate.
  destruct (InvertChildren g) as [g'|] eqn:Hrun; [|discriminate]. injection H as <-.
  destruct (InvertChildren_inv g g' Hrun) as (Hch & Hst & _).
  intros x n2 g2 Hx Hs. apply lookup_insert_Some in Hx as [[-> E]|[_ Hx]].
  - injection E as -> ->. rewrite Hst in Hs.
    rewrite Hch, (Hci _ _ _ Hself Hs). apply set_map_empty.
  - eapply Hci; eauto.
Qed.

End inversion.

(** ** The operations composed of additions and erasures *)

Section composed.
Import IGateOps Modelled.
Context {rw : Rewriting} {rws : RewritingSpec}.

Lemma ShareChild_inv self k recipient σ r σ' :
  ShareChild self k recipient σ = Done (r, σ') →
  ∃ n g cp c,
    σ !! self = Some (mkObj n (IsGate g)) ∧ child_pointer g k = Some cp ∧
    σ !! cp = Some c ∧
    AddChild (overload_of (kind c)) recipient k cp σ = Done (r, σ').
Proof.
  unfold ShareChild. intros H.
  destruct (σ !! self) as [[n [| |g]]|] eqn:Hself; try discriminate.
  destruct (child_pointer g k) as [cp|] eqn:Hcp; [|discriminate].
  destruct (σ !! cp) as [c|] eqn:Hc; [|discriminate].
  exists n, g, cp, c. auto.
Qed.

Lemma TransferChild_inv self k recipient σ r σ' :
  TransferChild self k recipient σ = Done (r, σ') →
  ∃ σ1, ShareChild self k recipient σ = Done (r, σ1) ∧
        EraseChild self k σ1 = Some σ'.
Proof.
  unfold TransferChild. intros H.
  destruct (ShareChild self k recipient σ) as [[r1 σ1]|] eqn:Hshare; [|discriminate].
  destruct (EraseChild self k σ1) as [σ2|] eqn:Herase; [|discriminate].
  injection H as <- <-. eauto.
Qed.

Lemma ShareChild_graph_inv self k recipient σ r σ' :
  graph_inv σ → ShareChild self k recipient σ = Done (r, σ') → graph_inv σ'.
Proof.
  intros Hinv (n & g & cp & c & _ & _ & _ & Hadd)%ShareChild_inv.
  eapply AddChild_graph_inv; eauto.
Qed.

Lemma ShareChild_constant_inv self k recipient σ r σ' :
  constant_inv σ → in_normal_state recipient σ →
  ShareChild self k recipient σ = Done (r, σ') → constant_inv σ'.
Proof.
  intros Hci Hn (n & g & cp & c & _ & _ & _ & Hadd)%ShareChild_inv.
  eapply AddChild_constant_inv; eauto.
Qed.

Lemma TransferChild_graph_inv self k recipient σ r σ' :
  graph_inv σ → TransferChild self k recipient σ = Done (r, σ') → graph_inv σ'.
Proof.
  intros Hinv (σ1 & Hshare & Herase)%TransferChild_inv.
  eapply EraseChild_graph_inv; [|done]. eapply ShareChild_graph_inv; eauto.
Qed.

Lemma TransferChild_constant_inv self k recipient σ r σ' :
  constant_inv σ → in_normal_state recipient σ →
  TransferChild self k recipient σ = Done (r, σ') → constant_inv σ'.
Proof.
  intros Hci Hn (σ1 & Hshare & Herase)%TransferChild_inv.
  eapply quiet_constant_inv; [eapply EraseChild_quiet; eauto|].
  eapply ShareChild_constant_inv; eauto.
Qed.

Lemma join_loop_graph_inv self todo : ∀ σ r σ',
  graph_inv σ → join_loop self todo σ = Done (r, σ') → graph_inv σ'.
Proof.
  induction todo as [|[k cp] rest IH]; intros σ r σ' Hinv H; simpl in H.
  - by injection H as _ <-.
  - destruct (σ !! cp) as [c|]; [|discriminate].
    destruct (AddChild _ self k cp σ) as [[[] σ1]|] eqn:Hadd; try discriminate.
    + injection H as _ <-. eapply AddChild_graph_inv; eauto.
    + eapply IH; [|done]. eapply AddChild_graph_inv; eauto.
Qed.

Lemma join_loop_constant_inv self todo : ∀ σ r σ',
  constant_inv σ →
  (∀ n g, σ !! self = Some (mkObj n (IsGate g)) → state_ g = kNormalState) →
  join_loop self todo σ = Done (r, σ') → constant_inv σ'.
Proof.
  induction todo as [|[k cp] rest IH]; intros σ r σ' Hci Hnormal H; simpl in H.
  - by injection H as _ <-.
  - destruct (σ !! cp) as [c|]; [|discriminate].
    destruct (AddChild _ self k cp σ) as [[b σ1]|] eqn:Hadd; [|discriminate].
    pose proof (AddChild_return _ _ _ _ _ _ _ Hadd)
      as (n & g & c1 & n' & g' & Hself & _ & Hself' & _ & Hfalse & _).
    assert (Hci1 : constant_inv σ1).
    { eapply AddChild_constant_inv; [done| |done]. exists n, g. eauto. }
    destruct b.
    + by injection H as _ <-.
    + eapply IH; [done| |done]. intros n2 g2 Hself2.
      rewrite Hself' in Hself2. injection Hself2 as <- <-.
      rewrite (Hfalse eq_refl). eauto.
Qed.

Lemma JoinGate_inv self child_gate σ r σ' :
  JoinGate self child_gate σ = Done (r, σ') →
  ∃ n g cn cg σ1,
    σ !! self = Some (mkObj n (IsGate g)) ∧
    σ !! child_gate = Some (mkObj cn (IsGate cg)) ∧
    EraseChild self (index_ cn) σ = Some σ1 ∧
    join_loop self (map_to_list (gate_children_ cg)
                      ++ map_to_list (variable_children_ cg)
                      ++ map_to_list (constant_children_ cg)) σ1 = Done (r, σ').
Proof.
  unfold JoinGate. intros H.
  destruct (σ !! self) as [[n [| |g]]|] eqn:Hself; try discriminate.
  destruct (σ !! child_gate) as [[cn [| |cg]]|] eqn:Hcg; try discriminate.
  destruct (EraseChild self (index_ cn) σ) as [σ1|] eqn:Herase; [|discriminate].
  exists n, g, cn, cg, σ1. auto.
Qed.

Lemma JoinGate_graph_inv self child_gate σ r σ' :
  graph_inv σ → JoinGate self child_gate σ = Done (r, σ') → graph_inv σ'.
Proof.
  intros Hinv (n & g & cn & cg & σ1 & _ & _ & Herase & Hloop)%JoinGate_inv.
  eapply join_loop_graph_inv; [|done]. eapply EraseChild_graph_inv; eauto.
Qed.

(** A gate with a child is in the normal state, in a graph in which the
    constant gates have no children. *)
Lemma parent_in_normal_state σ self n g k :
  constant_inv σ → σ !! self = Some (mkObj n (IsGate g)) → k ∈ children_ g →
  state_ g = kNormalState.
Proof.
  intros Hci Hself Hk. destruct (decide (state_ g = kNormalState)) as [|Hs]; [done|].
  rewrite (Hci _ _ _ Hself Hs) in Hk. by apply not_elem_of_empty in Hk.
Qed.

Lemma JoinGate_constant_inv self child_gate σ r σ' :
  constant_inv σ → JoinGate self child_gate σ = Done (r, σ') → constant_inv σ'.
Proof.
  intros Hci (n & g & cn & cg & σ1 & Hself & _ & Herase & Hloop)%JoinGate_inv.
  pose proof (EraseChild_quiet _ _ _ _ Herase) as Hq.
  eapply join_loop_constant_inv; [| |exact Hloop].
  - eapply quiet_constant_inv; eauto.
  - intros n1 g1 Hself1.
    destruct (Hq _ _ _ Hself1) as (n0 & g0 & Hself0 & _ & -> & _).
    rewrite Hself in Hself0. injection Hself0 as <- <-.
    apply EraseChild_inv in Herase as (n2 & g2 & Hself2 & _ & Hk).
    rewrite Hself in Hself2. injection Hself2 as <- <-.
    eapply parent_in_normal_state; eauto.
Qed.

Lemma CopyChildren_inv self gate σ σ' :
  CopyChildren self gate σ = Done σ' →
  ∃ n g gn gg r1 σ1 r2,
    σ !! self = Some (mkObj n (IsGate g)) ∧
    σ !! gate = Some (mkObj gn (IsGate gg)) ∧ children_ g = ∅ ∧
    AddChild ofGate self (index_ gn) gate σ = Done (r1, σ1) ∧
    JoinGate self gate σ1 = Done (r2, σ').
Proof.
  unfold CopyChildren. intros H.
  destruct (σ !! self) as [[n [| |g]]|] eqn:Hself; try discriminate.
  destruct (σ !! gate) as [[gn [| |gg]]|] eqn:Hgate; try discriminate.
  destruct (decide (children_ g = ∅)) as [Hempty|]; [|discriminate].
  destruct (AddChild ofGate self (index_ gn) gate σ) as [[r1 σ1]|] eqn:Hadd;
    [|discriminate].
  destruct (JoinGate self gate σ1) as [[r2 σ2]|] eqn:Hjoin; [|discriminate].
  injection H as <-. exists n, g, gn, gg, r1, σ1, r2. auto.
Qed.

Lemma CopyChildren_graph_inv self gate σ σ' :
  graph_inv σ → CopyChildren self gate σ = Done σ' → graph_inv σ'.
Proof.
  intros Hinv (n & g & gn & gg & r1 & σ1 & r2 & _ & _ & _ & Hadd & Hjoin)%CopyChildren_inv.
  eapply JoinGate_graph_inv; [|done]. eapply AddChild_graph_inv; eauto.
Qed.

Lemma CopyChildren_constant_inv self gate σ σ' :
  constant_inv σ → in_normal_state self σ →
  CopyChildren self gate σ = Done σ' → constant_inv σ'.
Proof.
  intros Hci Hn
    (n & g & gn & gg & r1 & σ1 & r2 & _ & _ & _ & Hadd & Hjoin)%CopyChildren_inv.
  eapply JoinGate_constant_inv; [|done]. eapply AddChild_constant_inv; eauto.
Qed.

Lemma JoinNullGate_inv self index σ r σ' :
  JoinNullGate self index σ = Done (r, σ') →
  ∃ n g null_gate k cp c r1 σ1,
    σ !! self = Some (mkObj n (IsGate g)) ∧
    gate_children_ g !! index = Some null_gate ∧ σ !! cp = Some c ∧
    AddChild (overload_of (kind c)) self k cp σ = Done (r1, σ1) ∧
    (σ' = σ1 ∨ EraseChild self index σ1 = Some σ').
Proof.
  unfold JoinNullGate. intros H.
  destruct (σ !! self) as [[n [| |g]]|] eqn:Hself; try discriminate.
  destruct (gate_children_ g !! index) as [null_gate|] eqn:Hng; [|discriminate].
  destruct (σ !! null_gate) as [[nn [| |ng]]|] eqn:Hnull; try discriminate.
  destruct (map_to_list _) as [|[k cp] [|]]; try discriminate.
  destruct (σ !! cp) as [c|] eqn:Hcp; [|discriminate].
  destruct (decide (type_ ng = kNullGate)); [|discriminate].
  destruct (AddChild _ self _ cp σ) as [[[] σ1]|] eqn:Hadd; try discriminate.
  - injection H as _ <-. repeat eexists; eauto.
  - destruct (EraseChild self index σ1) as [σ2|] eqn:Herase; [|discriminate].
    injection H as _ <-. repeat eexists; eauto.
Qed.

Lemma JoinNullGate_graph_inv self index σ r σ' :
  graph_inv σ → JoinNullGate self index σ = Done (r, σ') → graph_inv σ'.
Proof.
  intros Hinv (n & g & null_gate & k & cp & c & r1 & σ1 & _ & _ & _ & Hadd & Hend)
    %JoinNullGate_inv.
  assert (graph_inv σ1) by (eapply AddChild_graph_inv; eauto).
  destruct Hend as [->|Herase]; [done|]. eapply EraseChild_graph_inv; eauto.
Qed.

Lemma JoinNullGate_constant_inv self index σ r σ' :
  graph_inv σ → constant_inv σ →
  JoinNullGate self index σ = Done (r, σ') → constant_inv σ'.
Proof.
  intros Hinv Hci
    (n & g & null_gate & k & cp & c & r1 & σ1 & Hself & Hng & _ & Hadd & Hend)
    %JoinNullGate_inv.
  assert (constant_inv σ1).
  { eapply AddChild_constant_inv; [done| |done]. exists n, g. split; [done|].
    eapply (parent_in_normal_state σ self n g index); eauto.
    apply children_kids; [eapply inv_gate; eauto|].
    exists null_gate. eapply (map_of_kids g ofGate); eauto. eapply inv_gate; eauto. }
  destruct Hend as [->|Herase]; [done|].
  eapply quiet_constant_inv; [eapply EraseChild_quiet; eauto|done].
Qed.

(** *** Every operation keeps the invariants *)

Lemma child_mutation_operation σ σ' :
  child_mutation σ σ' → operation false σ σ'.
Proof.
  intros [ov self child cp σ0 r σ1 H|self child σ0 σ1 H|self σ0 σ1 H
         |self child rc σ0 r σ1 H|self child rc σ0 r σ1 H|self cg σ0 r σ1 H].
  - eapply op_AddChild; eauto. done.
  - eapply op_EraseChild; eauto.
  - eapply op_EraseAllChildren; eauto.
  - eapply op_TransferChild; eauto. done.
  - eapply op_ShareChild; eauto. done.
  - eapply op_JoinGate; eauto.
Qed.

Lemma operation_careless careful σ σ' :
  operation careful σ σ' → operation false σ σ'.
Proof.
  intros H. destruct H.
  - by apply op_new.
  - eapply op_copy; eauto.
  - eapply op_reset; eauto.
  - eapply op_Visit; eauto.
  - eapply op_ClearVisits; eauto.
  - eapply op_opti_value; eauto.
  - eapply op_type; eauto.
  - eapply op_vote_number; eauto.
  - eapply op_mark; eauto.
  - eapply op_min_time; eauto.
  - eapply op_max_time; eauto.
  - eapply op_TurnModule; eauto.
  - eapply op_EraseChild; eauto.
  - eapply op_EraseAllChildren; eauto.
  - eapply op_Nullify; eauto.
  - eapply op_MakeUnity; eauto.
  - eapply op_InvertChild; eauto.
  - eapply op_InvertChildren; eauto.
  - eapply op_AddChild; eauto. done.
  - eapply op_ShareChild; eauto. done.
  - eapply op_TransferChild; eauto. done.
  - eapply op_JoinGate; eauto.
  - eapply op_JoinNullGate; eauto.
  - eapply op_CopyChildren; eauto. done.
Qed.

Lemma operation_graph_inv careful σ σ' :
  graph_inv σ → operation careful σ σ' → graph_inv σ'.
Proof.
  intros Hinv Hop. destruct Hop.
  - by apply new_node_well_formed.
  - eapply on_node_well_formed; [|done|done].
    intros n n' [= <-]. simpl. split_and!; auto.
  - unfold outside in *.
    destruct (reset_spec p o σ Hinv) as (σ2 & Hr & ? & _); [done|lia|].
    congruence.
  - eapply on_node_well_formed; [|done|done].
    intros n n' Hn. simpl in Hn. destruct (NodeOps.Visit time n) as [[b n1]|] eqn:E;
      simplify_eq/=. eapply Visit_node; eauto.
  - eapply on_node_well_formed; [|done|done]. by intros n n' [= <-].
  - eapply on_node_well_formed; [|done|done]. by intros n n' [= <-].
  - eapply on_gate_well_formed; [|done|done].
    intros g g'. unfold type. case_decide; [|done]. by intros [= <-].
  - eapply on_gate_well_formed; [|done|done]. by intros g g' [= <-].
  - eapply on_gate_well_formed; [|done|done]. by intros g g' [= <-].
  - eapply on_gate_well_formed; [|done|done].
    intros g g'. unfold min_time. case_decide; [|done]. by intros [= <-].
  - eapply on_gate_well_formed; [|done|done].
    intros g g'. unfold max_time. case_decide; [|done]. by intros [= <-].
  - rewrite TurnModule_on_gate in H.
    eapply on_gate_well_formed; [|done|done].
    intros g g'. simpl. destruct (module_ g); [done|]. by intros [= <-].
  - eapply EraseChild_graph_inv; eauto.
  - eapply EraseAllChildren_graph_inv; eauto.
  - by apply (collapse_graph_inv kNullState self σ).
  - by apply (collapse_graph_inv kUnityState self σ).
  - eapply InvertChild_graph_inv; eauto.
  - eapply InvertChildren_graph_inv; eauto.
  - eapply AddChild_graph_inv; eauto.
  - eapply ShareChild_graph_inv; eauto.
  - eapply TransferChild_graph_inv; eauto.
  - eapply JoinGate_graph_inv; eauto.
  - eapply JoinNullGate_graph_inv; eauto.
  - eapply CopyChildren_graph_inv; eauto.
Qed.

Lemma operation_constant_inv σ σ' :
  graph_inv σ → constant_inv σ → operation true σ σ' → constant_inv σ'.
Proof.
  intros Hinv Hci Hop. destruct Hop.
  - by apply new_node_well_formed.
  - eapply on_node_well_formed; [|done|done].
    intros n n' [= <-]. simpl. split_and!; auto.
  - eapply quiet_constant_inv; [eapply reset_quiet; eauto|done].
  - eapply on_node_well_formed; [|done|done].
    intros n n' Hn. simpl in Hn. destruct (NodeOps.Visit time n) as [[b n1]|] eqn:E;
      simplify_eq/=. eapply Visit_node; eauto.
  - eapply on_node_well_formed; [|done|done]. by intros n n' [= <-].
  - eapply on_node_well_formed; [|done|done]. by intros n n' [= <-].
  - eapply on_gate_well_formed; [|done|done].
    intros g g'. unfold type. case_decide; [|done]. by intros [= <-].
  - eapply on_gate_well_formed; [|done|done]. by intros g g' [= <-].
  - eapply on_gate_well_formed; [|done|done]. by intros g g' [= <-].
  - eapply on_gate_well_formed; [|done|done].
    intros g g'. unfold min_time. case_decide; [|done]. by intros [= <-].
  - eapply on_gate_well_formed; [|done|done].
    intros g g'. unfold max_time. case_decide; [|done]. by intros [= <-].
  - rewrite TurnModule_on_gate in H.
    eapply on_gate_well_formed; [|done|done].
    intros g g'. simpl. destruct (module_ g); [done|]. by intros [= <-].
  - eapply quiet_constant_inv; [eapply EraseChild_quiet; eauto|done].
  - eapply quiet_constant_inv; [eapply EraseAllChildren_quiet; eauto|done].
  - by apply (collapse_quiet_others kNullState self σ).
  - by apply (collapse_quiet_others kUnityState self σ).
  - eapply InvertChild_constant_inv; eauto.
  - eapply InvertChildren_constant_inv; eauto.
  - eapply AddChild_constant_inv; eauto.
  - eapply ShareChild_constant_inv; eauto.
  - eapply TransferChild_constant_inv; eauto.
  - eapply JoinGate_constant_inv; eauto.
  - eapply JoinNullGate_constant_inv; eauto.
  - eapply CopyChildren_constant_inv; eauto.
Qed.

Lemma built_careless careful σ : built careful σ → built false σ.
Proof.
  induction 1 as [|σ σ' _ IH Hop]; [constructor|].
  eapply built_step; [exact IH|]. eapply operation_careless; eauto.
Qed.

Lemma built_graph_inv careful σ : built careful σ → graph_inv σ.
Proof.
  induction 1 as [|σ σ' _ IH Hop]; [apply empty_graph_inv|].
  eapply operation_graph_inv; eauto.
Qed.

Lemma built_well_formed σ : built true σ → well_formed σ.
Proof.
  induction 1 as [|σ σ' Hb [Hinv Hci] Hop]; [split|split].
  - apply empty_graph_inv.
  - apply empty_constant_inv.
  - eapply operation_graph_inv; eauto.
  - eapply operation_constant_inv; eauto.
Qed.

End composed.

(** ** The two equivalences, from the invariant *)

Section equivalences.
Import IGateOps Modelled.

Lemma graph_inv_parent_child σ : graph_inv σ → parent_child_equiv σ.
Proof.
  intros Hinv p n g q c Hp Hq.
  pose proof (inv_gate σ Hinv _ _ _ Hp) as Hg.
  pose proof (inv_index_pos σ Hinv _ _ Hq) as Hpos.
  rewrite (inv_parents σ Hinv _ _ _ _ _ Hp Hq). split.
  - intros Hin.
    assert (∃ k, k ∈ children_ g ∧ Z.abs k = index_ (node c)) as (k & Hk & Habs).
    { destruct Hin; eexists; split; eauto; lia. }
    apply (children_kids g k Hg) in Hk as [q' Hq'].
    exists k. rewrite Hq'. f_equal.
    apply kids_Some in Hq' as (ov & Hov & _).
    destruct (inv_child σ Hinv _ _ _ _ _ _ Hp Hov) as (c' & Hc' & Hi' & _).
    eapply (inv_index_inj σ Hinv); eauto. congruence.
  - intros (k & Hk).
    assert (k ∈ children_ g) by (apply children_kids; eauto).
    apply kids_Some in Hk as (ov & Hov & _).
    destruct (inv_child σ Hinv _ _ _ _ _ _ Hp Hov) as (c' & Hc' & Hi' & _).
    rewrite Hq in Hc'. injection Hc' as <-.
    assert (k = index_ (node c) ∨ k = - index_ (node c)) as [<-|E] by lia; [auto|].
    right. by rewrite <- E.
Qed.

Lemma graph_inv_signed_key σ : graph_inv σ → signed_key_equiv σ.
Proof.
  intros Hinv p n g k Hp.
  pose proof (inv_gate σ Hinv _ _ _ Hp) as Hg. split.
  - intros [q Hq]%(children_kids g k Hg).
    apply kids_Some in Hq as (ov & Hov & _).
    exists ov. split; [apply elem_of_dom; eauto|].
    intros ov' Hov'. eapply map_of_unique; eauto. apply elem_of_dom; eauto.
  - intros (ov & [q Hq]%elem_of_dom & _).
    apply children_kids; [done|]. exists q. eapply map_of_kids; eauto.
Qed.

End equivalences.

(** ** The example graphs *)

Section example_graphs.
Import IGateOps Modelled Examples.

Lemma leave_graph_spec : @RewritingSpec leave_graph.
Proof.
  constructor.
  - intros self index σ σ' [[= <-]|[= <-]]; done.
  - intros self index σ σ' [[= <-]|[= <-]]; done.
  - intros self index σ σ' n g [[= <-]|[= <-]] Hself; eauto.
Qed.

End example_graphs.

Section example_graphs_built.
Import IGateOps Modelled Examples.

Lemma two_nodes_built t : @built leave_graph true (two_nodes t).
Proof.
  unfold two_nodes, new_gate, new_variable.
  eapply built_step;
    [|apply op_new; [evaluated|lia| |by exists t]].
  - eapply built_step; [apply built_empty|].
    apply op_new; [apply lookup_empty|lia| |exact I].
    intros q o H. by rewrite lookup_empty in H.
  - unfold new_node.
    intros q o [[<- <-]|[_ H]]%lookup_insert_Some; [simpl; lia|].
    by rewrite lookup_empty in H.
Qed.

Lemma and_not_x_built : @built leave_graph true and_not_x.
Proof.
  unfold and_not_x. built_last false. apply two_nodes_built.
Qed.





End example_graphs_built.

(** ** Children and parents *)

(** C1, as the code has it.  In every graph that the operations of [Node]
    and [IGate] build, from nothing, with nodes constructed under unique
    positive indices, and whatever the callers do otherwise: for every gate
    [g] and node [c], the index of [c], with one of the two signs, is in the
    children of [g] exactly when the index of [g] is a key of the parents of
    [c]; and a signed child is in the children exactly when it is itself,
    with its sign, a key of exactly one of the three maps of [g] (the maps
    are keyed by the signed child, not by the unsigned index).  [AddChild],
    [EraseChild] and [EraseAllChildren], with the destructions they bring,
    [TransferChild], [ShareChild] and [JoinGate] lead from such a graph to
    such a graph, so both equivalences hold again after them.  The
    rewritings of a gate on a repeated or complemented child, which are not
    in the source, enter as a parameter, of which it is assumed that they
    keep the invariant of the graph. *)
Theorem C1_parents_mirror_children {rw : Rewriting} {rws : RewritingSpec}
    (σ : Store) :
  built false σ →
  (parent_child_equiv σ ∧ signed_key_equiv σ) ∧
  ∀ σ', child_mutation σ σ' →
        built false σ' ∧ parent_child_equiv σ' ∧ signed_key_equiv σ'.
Proof.
  intros Hb.
  assert (Heq : ∀ σ0, built false σ0 → parent_child_equiv σ0 ∧ signed_key_equiv σ0).
  { intros σ0 Hinv%built_graph_inv.
    split; [by apply graph_inv_parent_child|by apply graph_inv_signed_key]. }
  split; [by apply Heq|].
  intros σ' Hstep.
  assert (Hb' : built false σ').
  { eapply built_step; [exact Hb|]. by apply child_mutation_operation. }
  split; [exact Hb'|by apply Heq].
Qed.

(** The AND gate that holds the complement of variable 1. *)
Lemma C1_parents_mirror_children_witness :
  (parent_child_equiv Examples.and_not_x ∧ signed_key_equiv Examples.and_not_x) ∧
  ∀ σ', @child_mutation leave_graph Examples.and_not_x σ' →
        @built leave_graph false σ' ∧ parent_child_equiv σ' ∧ signed_key_equiv σ'.
Proof.
  apply (@C1_parents_mirror_children leave_graph leave_graph_spec Examples.and_not_x).
  apply (built_careless true), and_not_x_built.
Defined.

Section unsigned_keys.
Import IGateOps Modelled Examples.

Lemma and_not_x_layout :
  and_not_x = layout (-1).
Proof. vm_compute. reflexivity. Qed.

Lemma and_not_x_unsigned_layout :
  and_not_x_unsigned = layout 1.
Proof. reflexivity. Qed.

Lemma layout_lookup key p o :
  layout key !! p = Some o →
  (p = 2%positive ∧ o = and_obj key) ∨ (p = 1%positive ∧ o = x1_obj).
Proof.
  unfold layout. intros [[<- <-]|[_ H]]%lookup_insert_Some; [auto|].
  apply lookup_insert_Some in H as [[<- <-]|[_ H]]; [auto|].
  by rewrite lookup_empty in H.
Qed.

Lemma in_one_map_and_gate key i : in_one_map (and_gate key) i ↔ i = key.
Proof.
  unfold in_one_map. split.
  - intros (ov & Hin & _). destruct ov; simpl in Hin.
    + by rewrite dom_empty_L in Hin.
    + rewrite dom_singleton_L in Hin. by apply elem_of_singleton in Hin.
    + by rewrite dom_empty_L in Hin.
  - intros ->. exists ofVariable. split.
    + simpl. rewrite dom_singleton_L. by apply elem_of_singleton.
    + intros ov' Hin. destruct ov'; simpl in Hin; [|done|];
        by rewrite dom_empty_L in Hin.
Qed.

Lemma unsigned_layout_equivs :
  unsigned_key_equiv and_not_x_unsigned ∧ parent_child_equiv and_not_x_unsigned.
Proof.
  rewrite and_not_x_unsigned_layout.
  split; intros p n g q c Hp Hq;
    apply layout_lookup in Hp as [[-> Hp]|[-> Hp]]; try discriminate;
    injection Hp as -> ->;
    apply layout_lookup in Hq as [[-> ->]|[-> ->]]; simpl;
    rewrite ?in_one_map_and_gate, ?elem_of_singleton, ?dom_empty_L,
      ?dom_singleton_L, ?elem_of_singleton.
  - split; [intros [?|?]; lia|lia].
  - split; [auto|]. intros _. right. lia.
  - split; [intros [?|?]; lia|]. by intros ?%not_elem_of_empty.
  - split; [auto|]. intros _. right. lia.
Qed.

Lemma signed_layout_not_unsigned : ¬ unsigned_key_equiv and_not_x.
Proof.
  rewrite and_not_x_layout. intros H.
  specialize (H 2%positive _ _ 1%positive x1_obj eq_refl eq_refl).
  simpl in H. rewrite in_one_map_and_gate, !elem_of_singleton in H.
  assert (1 = -1) by (apply H; right; lia). lia.
Qed.

End unsigned_keys.

(** C1, as stated, fails for the unsigned key.  After [AddChild(-1, x)] on an
    AND gate the graph is one the operations build and children and parents
    mirror each other, but index 1 of the child is a key of none of the three
    maps: the variable is kept under -1.  [EraseChild(-1)] succeeds on this
    graph; on the same graph with the variable kept under 1, which does
    satisfy the unsigned reading, [EraseChild(-1)] looks the child up in
    [variable_children_] under -1 and finds nothing. *)
Lemma C1_unsigned_key_counterexample :
  @built leave_graph true Examples.and_not_x ∧
  parent_child_equiv Examples.and_not_x ∧
  ¬ unsigned_key_equiv Examples.and_not_x ∧
  is_Some (IGateOps.EraseChild 2 (-1) Examples.and_not_x) ∧
  unsigned_key_equiv Examples.and_not_x_unsigned ∧
  parent_child_equiv Examples.and_not_x_unsigned ∧
  IGateOps.EraseChild 2 (-1) Examples.and_not_x_unsigned = None.
Proof.
  pose proof and_not_x_built as Hb.
  split; [exact Hb|].
  split; [eapply graph_inv_parent_child, (@built_graph_inv leave_graph), Hb;
          apply leave_graph_spec|].
  split; [exact signed_layout_not_unsigned|].
  split.
  { destruct (IGateOps.EraseChild 2 (-1) Examples.and_not_x) eqn:E; [eauto|].
    vm_compute in E. discriminate. }
  split; [apply unsigned_layout_equivs|].
  split; [apply unsigned_layout_equivs|].
  vm_compute. reflexivity.
Qed.

(** ** Constant gates *)




(** ** The value returned by [AddChild] *)




(** ** The MOCUS driver over any cut-set container *)

Section mocus_calls.
Context {C F : Type} `{!CutSetContainerOps C F} {BasicEvent : Type}.
Import Mocus.

Lemma expand_calls fuel : ∀ σ gates (c : C) next log0 gates' c' log,
  expand fuel σ gates c next log0 = Ok (gates', c', log) →
  next = GetNextGate c →
  last log0 = Some (call_GetNextGate next) →
  Forall expansion_call log0 →
  last log = Some (call_GetNextGate 0) ∧ Forall expansion_call log
  ∧ GetNextGate c' = 0.
Proof.
  induction fuel as [|fuel IH]; intros σ gates c next log0 gates' c' log H Hn Hl Hf;
    simpl in H.
  - destruct (decide (next = 0)) as [->|]; [|discriminate].
    injection H as <- <- <-. auto.
  - destruct (decide (next = 0)) as [->|Hne].
    { injection H as <- <- <-. auto. }
    destruct (gates !! next) as [p|]; [|discriminate].
    destruct (σ !! p) as [[n [| |g]]|]; try discriminate.
    destruct (ExtractIntermediateCutSets next c) as [cut_sets c1].
    refine (IH _ _ _ _ _ _ _ _ H eq_refl _ _).
    + by rewrite last_app.
    + apply Forall_app. split; [done|]. repeat constructor.
Qed.

Lemma join_modules_inv analyze gates : ∀ ms (c : C) log0 c' log,
  join_modules analyze gates ms c log0 = Ok (c', log) →
  ∃ subs : list (C * list Call),
    Forall2 (λ m sub, ∃ p, gates !! m = Some p ∧ analyze p = Ok sub) ms subs ∧
    c' = joined ms subs.*1 c ∧ log = log0 ++ join_calls ms subs.*2.
Proof.
  induction ms as [|m ms IH]; intros c log0 c' log H; simpl in H.
  - injection H as <- <-. exists []. split; [constructor|].
    by rewrite app_nil_r.
  - destruct (gates !! m) as [p|] eqn:Hm; [|discriminate].
    destruct (analyze p) as [[sub sublog]| | |] eqn:Hp; try discriminate.
    apply IH in H as (subs & Hall & -> & ->).
    exists ((sub, sublog) :: subs). split; [constructor; eauto|].
    split; [done|]. unfold join_calls. simpl. by rewrite <- app_assoc.
Qed.

Lemma join_calls_no_complements ms subs :
  call_EliminateComplements ∉ join_calls ms subs.
Proof.
  unfold join_calls. revert subs.
  induction ms as [|m ms IH]; intros [|sub subs]; simpl;
    try apply not_elem_of_nil.
  rewrite !not_elem_of_cons. split_and!; done.
Qed.

End mocus_calls.

(** C4.  When [AnalyzeModule] returns, the expansion loop has ended on a
    container [c_loop] for which [GetNextGate] returns 0, and the container
    that is returned is made from it as follows: [Minimize] is applied;
    then, exactly when the graph is not coherent, [EliminateComplements]
    and a second [Minimize]; the modules that [GatherModules] finds in the
    result are analysed, each on the gate that the local map has for it,
    and joined in order; and [EliminateConstantModules] and a final
    [Minimize] are applied.  The calls made on the container are those of
    the expansion loop, the last of which is the [GetNextGate] that
    returned 0, followed by these, in this order. *)
Theorem C4_calls_after_expansion {C F : Type} `{!CutSetContainerOps C F}
    {BasicEvent : Type} (fuel : nat) (σ : Store) (graph : BooleanGraph BasicEvent)
    (gate : ptr) (c : C) (log : list Call) :
  Mocus.AnalyzeModule fuel σ graph gate = Ok (c, log) →
  ∃ fuel' n g gates c_loop expansion (subs : list (C * list Call)),
    let c0 := Container_new (length (basic_events_ graph)) in
    let c1 := Merge (ConvertGate σ gate c0) c0 in
    let c_min :=
      if coherent_ graph then Minimize c_loop
      else Minimize (EliminateComplements (Minimize c_loop)) in
    let modules := GatherModules c_min in
    fuel = S fuel' ∧ σ !! gate = Some (mkObj n (IsGate g)) ∧
    Mocus.expand fuel' σ (∅ ∪ gate_children_ g) c1 (GetNextGate c1)
      [call_ConvertGate (index_ n); call_Merge; call_GetNextGate (GetNextGate c1)]
    = Ok (gates, c_loop, expansion) ∧
    GetNextGate c_loop = 0 ∧
    last expansion = Some (call_GetNextGate 0) ∧
    Forall expansion_call expansion ∧
    Forall2 (λ m sub, ∃ p, gates !! m = Some p ∧
                           Mocus.AnalyzeModule fuel' σ graph p = Ok sub)
      modules subs ∧
    c = Minimize (EliminateConstantModules (joined modules subs.*1 c_min)) ∧
    log = expansion ++ [call_Minimize]
          ++ (if coherent_ graph then []
              else [call_EliminateComplements; call_Minimize])
          ++ [call_GatherModules modules] ++ join_calls modules subs.*2
          ++ [call_EliminateConstantModules; call_Minimize] ∧
    (call_EliminateComplements ∈ log ↔ coherent_ graph = false).
Proof.
  intros H. destruct fuel as [|fuel]; [discriminate|]. simpl in H.
  destruct (σ !! gate) as [[n [| |g]]|] eqn:Hgate; try discriminate.
  destruct (module_ g); [|discriminate].
  set (c0 := Container_new (length (basic_events_ graph))) in *.
  set (c1 := Merge (ConvertGate σ gate c0) c0) in *.
  destruct (Mocus.expand fuel σ _ c1 _ _) as [[[gates' c2] expansion]| | |] eqn:Hexp;
    try discriminate.
  pose proof Hexp as Hexp0.
  apply expand_calls in Hexp as (Hlast & Hall & Hzero);
    [|done|done|repeat constructor].
  unfold Mocus.after_expansion in H.
  set (c_min := if coherent_ graph then Minimize c2
                else Minimize (EliminateComplements (Minimize c2))).
  set (tail := if coherent_ graph then []
               else [call_EliminateComplements; call_Minimize]).
  assert (Hjoin :
            match Mocus.join_modules (Mocus.AnalyzeModule fuel σ graph) gates'
                    (GatherModules c_min) c_min
                    (expansion ++ ([call_Minimize] ++ tail)
                       ++ [call_GatherModules (GatherModules c_min)]) with
            | Ok (c4, log4) =>
                Ok (Minimize (EliminateConstantModules c4),
                    log4 ++ [call_EliminateConstantModules; call_Minimize])
            | OutOfFuel => OutOfFuel
            | AssertFailed => AssertFailed
            | EndDeref => EndDeref
            end = Ok (c, log)).
  { unfold tail, c_min. destruct (coherent_ graph); exact H. }
  clear H. rename Hjoin into H.
  destruct (Mocus.join_modules _ _ _ _ _) as [[c4 log4]| | |] eqn:Hj; try discriminate.
  injection H as <- <-.
  apply join_modules_inv in Hj as (subs & Hsubs & -> & ->).
  exists fuel, n, g, gates', c2, expansion, subs. cbv zeta.
  fold c0 c1 c_min.
  split; [done|]. split; [done|]. split; [exact Hexp0|].
  split; [exact Hzero|]. split; [exact Hlast|]. split; [exact Hall|].
  split; [exact Hsubs|]. split; [reflexivity|].
  split; [by rewrite <- !app_assoc|].
  assert (Hexp_no : call_EliminateComplements ∉ expansion).
  { intros Hin. rewrite Forall_forall in Hall. by destruct (Hall _ Hin). }
  pose proof (join_calls_no_complements (GatherModules c_min) subs.*2) as Hj_no.
  rewrite !elem_of_app, !elem_of_cons. unfold tail.
  destruct (coherent_ graph) eqn:Hc; split; intros Hx; try done.
  - exfalso. rewrite elem_of_nil in Hx.
    repeat match goal with
           | H : _ ∨ _ |- _ => destruct H
           end; try done.
  - left. left. right. left. right. apply list_elem_of_here.
Qed.

(** The graph with one module, not coherent: the container that is
    returned and the calls are those of C4, with [EliminateComplements]
    applied. *)
Lemma C4_calls_after_expansion_witness :
  ∃ fuel' n g gates c_loop expansion
      (subs : list (CutSets.Container * list Call)),
    let c0 := Container_new (length (basic_events_ (Examples.graph false))) in
    let c1 := Merge (ConvertGate Examples.with_module 10%positive c0) c0 in
    let c_min :=
      if coherent_ (Examples.graph false) then Minimize c_loop
      else Minimize (EliminateComplements (Minimize c_loop)) in
    let modules := GatherModules c_min in
    10%nat = S fuel' ∧
    Examples.with_module !! 10%positive = Some (mkObj n (IsGate g)) ∧
    Mocus.expand fuel' Examples.with_module (∅ ∪ gate_children_ g) c1
      (GetNextGate c1)
      [call_ConvertGate (index_ n); call_Merge; call_GetNextGate (GetNextGate c1)]
    = Ok (gates, c_loop, expansion) ∧
    GetNextGate c_loop = 0 ∧
    last expansion = Some (call_GetNextGate 0) ∧
    Forall expansion_call expansion ∧
    Forall2 (λ m sub, ∃ p, gates !! m = Some p ∧
               Mocus.AnalyzeModule fuel' Examples.with_module
                 (Examples.graph false) p = Ok sub)
      modules subs ∧
    (MocusExamples.result false).1
    = Minimize (EliminateConstantModules (joined modules subs.*1 c_min)) ∧
    (MocusExamples.result false).2
    = expansion ++ [call_Minimize]
      ++ (if coherent_ (Examples.graph false) then []
          else [call_EliminateComplements; call_Minimize])
      ++ [call_GatherModules modules] ++ join_calls modules subs.*2
      ++ [call_EliminateConstantModules; call_Minimize] ∧
    (call_EliminateComplements ∈ (MocusExamples.result false).2
     ↔ coherent_ (Examples.graph false) = false).
Proof.
  apply (C4_calls_after_expansion 10 Examples.with_module (Examples.graph false)
           10%positive (MocusExamples.result false).1 (MocusExamples.result false).2).
  vm_compute. reflexivity.
Defined.

(** ** A constant graph *)

(** C6.  When the top gate is constant (its state is null or unity) or of
    NULL type, the constructor sets [constant_graph_] and holds the analysed
    [Zbdd] built from the graph; [Analyze] then returns at once, whatever the
    fuel, with the object unchanged and no call made on a container; and
    [products] passes its assertion and returns the products of that
    [Zbdd]. *)
Theorem C6_constant_graph {C F : Type} `{!CutSetContainerOps C F}
    {BasicEvent : Type} (σ : Store) (fault_tree : BooleanGraph BasicEvent)
    (n : Node) (top : IGate) :
  σ !! top_event_ fault_tree = Some (mkObj n (IsGate top)) →
  state_ top = kNullState ∨ state_ top = kUnityState ∨ type_ top = kNullGate →
  ∃ m : Mocus.Mocus (C := C),
    Mocus.new σ fault_tree = Some m ∧
    Mocus.constant_graph_ m = true ∧
    Mocus.zbdd_ m = Some (Zbdd_Analyze (Zbdd_new σ (top_event_ fault_tree))) ∧
    (∀ fuel, Mocus.Analyze fuel σ m = Ok (m, [])) ∧
    Mocus.products m
    = Some (Zbdd_products (Zbdd_Analyze (Zbdd_new σ (top_event_ fault_tree)))).
Proof.
  intros Htop Hconst. unfold Mocus.new. rewrite Htop.
  assert (IsConstant top || bool_decide (type_ top = kNullGate) = true) as ->.
  { unfold IsConstant. destruct Hconst as [E|[E|E]].
    - rewrite E. reflexivity.
    - rewrite E. reflexivity.
    - rewrite (bool_decide_eq_true_2 _ E). apply orb_true_r. }
  eexists. split; [reflexivity|]. simpl. split_and!; auto.
Qed.

(** The graph whose top gate has been nullified. *)
Lemma C6_constant_graph_witness :
  ∃ m : Mocus.Mocus (C := CutSets.Container),
    Mocus.new MocusExamples.null_top (Examples.graph true) = Some m ∧
    Mocus.constant_graph_ m = true ∧
    Mocus.zbdd_ m
    = Some (Zbdd_Analyze (Zbdd_new MocusExamples.null_top
                            (top_event_ (Examples.graph true)))) ∧
    (∀ fuel, Mocus.Analyze fuel MocusExamples.null_top m = Ok (m, [])) ∧
    Mocus.products m
    = Some (Zbdd_products
              (Zbdd_Analyze (Zbdd_new MocusExamples.null_top
                               (top_event_ (Examples.graph true))))).
Proof.
  destruct (MocusExamples.null_top !! 10%positive) as [[n [| |top]]|] eqn:E;
    try (vm_compute in E; discriminate).
  apply (C6_constant_graph MocusExamples.null_top (Examples.graph true) n top E).
  left. vm_compute in E. by injection E as <- <-.
Defined.

(** ** Sums over finite sets of indices *)

Section sums.
Implicit Types (f : Z → nat) (X Y : gset Z).

Lemma sum_list_with_submseteq {A} (f : A → nat) (l k : list A) :
  l ⊆+ k → (sum_list_with f l ≤ sum_list_with f k)%nat.
Proof.
  induction 1 as [|x l k _ IH|x y l|x l k _ IH|l k m _ IH1 _ IH2]; simpl; lia.
Qed.

Lemma sum_list_with_ext {A} (f g : A → nat) (l : list A) :
  (∀ x, x ∈ l → f x = g x) → sum_list_with f l = sum_list_with g l.
Proof.
  induction l as [|x l IH]; intros H; simpl; [done|].
  rewrite (H x), IH; [done| |apply list_elem_of_here].
  intros y Hy. apply H. by apply list_elem_of_further.
Qed.

Lemma sum_list_with_fst {B} (f : Z → nat) (l : list (Z * B)) :
  sum_list_with f l.*1 = sum_list_with (λ kq, f kq.1) l.
Proof. induction l as [|[k q] l IH]; simpl; [done|]. f_equal. exact IH. Qed.

Lemma sum_over_subseteq f X Y : X ⊆ Y → (sum_over f X ≤ sum_over f Y)%nat.
Proof. intros H. apply sum_list_with_submseteq, elements_submseteq, H. Qed.

Lemma sum_over_disj_union f X Y :
  X ## Y → sum_over f (X ∪ Y) = (sum_over f X + sum_over f Y)%nat.
Proof.
  intros H. unfold sum_over.
  by rewrite (elements_disj_union X Y H), sum_list_with_app.
Qed.

Lemma sum_over_union_le f X Y :
  (sum_over f (X ∪ Y) ≤ sum_over f X + sum_over f Y)%nat.
Proof.
  assert (X ∪ Y = X ∪ (Y ∖ X)) as ->.
  { apply set_eq. intros x. rewrite !elem_of_union, elem_of_difference.
    destruct (decide (x ∈ X)); tauto. }
  rewrite sum_over_disj_union.
  - assert (sum_over f (Y ∖ X) ≤ sum_over f Y)%nat; [|lia].
    apply sum_over_subseteq. intros x [? _]%elem_of_difference. done.
  - intros x Hx [_ Hn]%elem_of_difference. done.
Qed.

Lemma sum_over_remove f X i :
  i ∈ X → sum_over f X = (f i + sum_over f (X ∖ {[i]}))%nat.
Proof.
  intros Hi.
  assert (X = {[i]} ∪ (X ∖ {[i]})) as E.
  { apply set_eq. intros x. rewrite elem_of_union, elem_of_difference, elem_of_singleton.
    destruct (decide (x = i)) as [->|]; tauto. }
  rewrite E at 1. rewrite sum_over_disj_union.
  - unfold sum_over at 1. rewrite elements_singleton. simpl. lia.
  - intros x ->%elem_of_singleton [_ Hn]%elem_of_difference.
    apply Hn. by apply elem_of_singleton.
Qed.

Lemma sum_over_ext f g X :
  (∀ i, i ∈ X → f i = g i) → sum_over f X = sum_over g X.
Proof.
  intros H. apply sum_list_with_ext. intros x Hx. apply H.
  by apply elem_of_elements.
Qed.

Lemma sum_over_dom_le f (m : gmap Z ptr) X :
  X ⊆ dom m →
  (sum_over f X ≤ sum_list_with (λ kq, f kq.1) (map_to_list m))%nat.
Proof.
  intros H. rewrite <- sum_list_with_fst. apply sum_list_with_submseteq.
  apply NoDup_submseteq; [apply NoDup_elements|].
  intros k Hk%elem_of_elements. apply H, elem_of_dom in Hk as [q Hq].
  apply list_elem_of_fmap. exists (k, q). split; [done|].
  by apply elem_of_map_to_list.
Qed.

End sums.

(** ** The container of sets of literals *)

Section cut_sets_facts.
Import CutSets.

Lemma elem_of_lits (l : Literal) (f : Family) :
  l ∈ lits f ↔ ∃ s, l ∈ s ∧ s ∈ f.
Proof. apply list_elem_of_join. Qed.

Lemma lits_app (f1 f2 : Family) : lits (f1 ++ f2) = lits f1 ++ lits f2.
Proof. unfold lits. induction f1 as [|s f1 IH]; simpl; [done|]. by rewrite IH, app_assoc. Qed.

Lemma get_next_gate_nonzero c i :
  get_next_gate c = i → i ≠ 0 →
  ∃ l, l ∈ lits (sets c) ∧ lit l = i ∧ expandable (nvars c) l = true.
Proof.
  unfold get_next_gate. intros H Hi.
  destruct (filter _ _) as [|l rest] eqn:E; [congruence|].
  assert (Hl : l ∈ filter (λ l, expandable (nvars c) l = true) (lits (sets c))).
  { rewrite E. apply list_elem_of_here. }
  apply list_elem_of_filter in Hl as [Hexp Hl]. eauto.
Qed.

Lemma expandable_spec nv l :
  expandable nv l = true ↔ is_module l = false ∧ nv < lit l.
Proof.
  unfold expandable. rewrite andb_true_iff, negb_true_iff, bool_decide_eq_true.
  done.
Qed.

Lemma elem_of_placeholders c i :
  i ∈ placeholders c ↔
  ∃ l, l ∈ lits (sets c) ∧ lit l = i ∧ is_module l = false ∧ nvars c < i.
Proof.
  unfold placeholders. rewrite elem_of_list_to_set, list_elem_of_fmap. split.
  - intros (l & -> & [Hexp Hl]%list_elem_of_filter).
    apply expandable_spec in Hexp as [? ?]. eauto.
  - intros (l & Hl & <- & Hm & Hlt). exists l. split; [done|].
    apply list_elem_of_filter. split; [|done]. by apply expandable_spec.
Qed.

Lemma get_next_gate_placeholder c i :
  get_next_gate c = i → i ≠ 0 → i ∈ placeholders c.
Proof.
  intros H Hi. destruct (get_next_gate_nonzero c i H Hi) as (l & Hl & <- & Hexp).
  apply expandable_spec in Hexp as [? ?]. apply elem_of_placeholders. eauto.
Qed.

Lemma get_next_gate_zero c :
  0 ≤ nvars c → get_next_gate c = 0 → placeholders c = ∅.
Proof.
  unfold get_next_gate. intros Hnv H.
  destruct (filter _ _) as [|l rest] eqn:E.
  - unfold placeholders. by rewrite E.
  - assert (Hl : l ∈ filter (λ l, expandable (nvars c) l = true) (lits (sets c))).
    { rewrite E. apply list_elem_of_here. }
    apply list_elem_of_filter in Hl as [[_ ?]%expandable_spec _]. lia.
Qed.

Lemma has_spec i s : has i s = true ↔ ∃ l, l ∈ s ∧ lit l = i.
Proof. unfold has. by rewrite bool_decide_eq_true, Exists_exists. Qed.

Lemma elem_of_without i s l : l ∈ without i s ↔ lit l ≠ i ∧ l ∈ s.
Proof. unfold without. by rewrite list_elem_of_filter. Qed.

(** The literals after one iteration: those that were there, except the
    expanded gate, and those of the conversion of the gate. *)
Lemma iteration_lits σ gates c i p g l :
  l ∈ lits (sets (iteration σ gates c i p g).2) →
  (l ∈ lits (sets c) ∧ lit l ≠ i) ∨ l ∈ lits (convert_gate σ p).
Proof.
  unfold iteration, merge, extract, expand_gate. simpl.
  rewrite lits_app, elem_of_app, !elem_of_lits.
  intros [(s & Hl & Hs)|(u & Hl & Hu)].
  - left. apply list_elem_of_filter in Hs as [Hno Hs]. split; [eauto|].
    intros E. apply Hno, has_spec. eauto.
  - apply list_elem_of_bind in Hu as (s & Hu & Hs).
    apply list_elem_of_bind in Hu as (t & Hu & Ht).
    apply list_elem_of_ret in Hu as ->.
    apply list_elem_of_fmap in Hs as (s0 & -> & Hs0).
    apply list_elem_of_filter in Hs0 as [_ Hs0].
    apply list_elem_of_union in Hl as [Hl|Hl].
    + apply elem_of_without in Hl as [Hne Hl]. left. split; [|done].
      exists s0. split; done.
    + right. exists t. split; done.
Qed.

Lemma iteration_nvars σ gates c i p g :
  nvars (iteration σ gates c i p g).2 = nvars c.
Proof. reflexivity. Qed.

Lemma elem_of_arg_literals σ g l :
  l ∈ arg_literals σ g ↔
  (∃ k q, gate_children_ g !! k = Some q ∧ l = mkLit k (module_flag σ q))
  ∨ (∃ k q, variable_children_ g !! k = Some q ∧ l = mkLit k false).
Proof.
  unfold arg_literals. rewrite elem_of_app, !list_elem_of_fmap. split.
  - intros [([k q] & -> & H%elem_of_map_to_list)|([k q] & -> & H%elem_of_map_to_list)];
      simpl; eauto.
  - intros [(k & q & H & ->)|(k & q & H & ->)]; [left|right];
      exists (k, q); split; try done; by apply elem_of_map_to_list.
Qed.

Lemma convert_gate_lits σ p n g l :
  σ !! p = Some (mkObj n (IsGate g)) →
  l ∈ lits (convert_gate σ p) → l ∈ arg_literals σ g.
Proof.
  intros Hp. unfold convert_gate. rewrite Hp, elem_of_lits.
  intros (s & Hl & Hs). destruct (type_ g);
    try (by apply not_elem_of_nil in Hs).
  - by apply list_elem_of_singleton in Hs as ->.
  - apply list_elem_of_fmap in Hs as (l' & -> & Hl').
    by apply list_elem_of_singleton in Hl as ->.
Qed.

Lemma once_subseteq (f : Family) s : s ∈ once f → s ∈ f.
Proof.
  revert s. induction f as [|t f IH]; intros s; simpl; [done|].
  rewrite !elem_of_cons. intros [->|Hs]; [auto|].
  apply list_elem_of_filter in Hs as [_ Hs]. auto.
Qed.

Lemma minimize_lits c l : l ∈ lits (sets (minimize c)) → l ∈ lits (sets c).
Proof.
  unfold minimize. simpl. rewrite !elem_of_lits. intros (s & Hl & Hs).
  apply once_subseteq, list_elem_of_filter in Hs as [_ Hs]. eauto.
Qed.

Lemma eliminate_complements_lits c l :
  l ∈ lits (sets (eliminate_complements c)) → l ∈ lits (sets c).
Proof.
  unfold eliminate_complements. simpl. rewrite !elem_of_lits.
  intros (s & Hl & Hs). apply list_elem_of_fmap in Hs as (s0 & -> & Hs0).
  apply list_elem_of_filter in Hs0 as [_ Hs0].
  apply list_elem_of_filter in Hl as [_ Hl]. eauto.
Qed.

Lemma elem_of_gather_modules c m :
  m ∈ gather_modules c → ∃ l, l ∈ lits (sets c) ∧ lit l = m ∧ is_module l = true.
Proof.
  unfold gather_modules. rewrite elem_of_remove_dups, list_elem_of_fmap.
  intros (l & -> & [Hm Hl]%list_elem_of_filter). eauto.
Qed.

End cut_sets_facts.

(** ** The expansion loop on a graph in normal form *)

Section expansion.
Import CutSets.
Context (σ : Store) (nv : Z) (rank : ptr → nat).
Hypothesis Hready : mocus_ready σ nv rank.

Lemma ready_gate_arg p n g k q :
  σ !! p = Some (mkObj n (IsGate g)) → gate_children_ g !! k = Some q →
  nv < k ∧ (rank q < rank p)%nat ∧
  ∃ cn cg, σ !! q = Some (mkObj cn (IsGate cg)) ∧ index_ cn = k.
Proof.
  intros Hp Hk. destruct Hready as [Hgates _].
  pose proof (Hgates p _ Hp) as (_ & Hargs & _). simpl in Hargs.
  specialize (Hargs k q Hk). destruct Hargs as [Hlt Hq].
  destruct (σ !! q) as [[cn [b| |cg]]|]; try done.
  destruct Hq as [? ?]. eauto 10.
Qed.

Lemma ready_variable_arg p n g k q :
  σ !! p = Some (mkObj n (IsGate g)) → variable_children_ g !! k = Some q →
  k ≤ nv.
Proof.
  intros Hp Hk. destruct Hready as [Hgates _].
  pose proof (Hgates p _ Hp) as (_ & _ & Hvars). exact (Hvars k q Hk).
Qed.

Lemma ready_index_unique p q o o' :
  σ !! p = Some o → σ !! q = Some o' →
  index_ (node o) = index_ (node o') → p = q.
Proof.
  intros Hp Hq. destruct Hready as [_ Hu]. exact (Hu p o Hp q o' Hq).
Qed.

Lemma weight_stable f1 : ∀ f2 p,
  (rank p < f1)%nat → (rank p < f2)%nat → weight σ f1 p = weight σ f2 p.
Proof.
  induction f1 as [|f1 IH]; intros f2 p H1 H2; [lia|].
  destruct f2 as [|f2]; [lia|]. simpl.
  destruct (σ !! p) as [[n [b| |g]]|] eqn:Hp; try done.
  f_equal. apply sum_list_with_ext. intros [k q] Hkq%elem_of_map_to_list. simpl.
  destruct (ready_gate_arg p n g k q Hp Hkq) as (_ & Hr & _).
  apply IH; lia.
Qed.

Lemma gate_weight_unfold p n g :
  σ !! p = Some (mkObj n (IsGate g)) →
  gate_weight σ rank p
  = S (sum_list_with (λ kq : Z * ptr, gate_weight σ rank kq.2)
         (map_to_list (gate_children_ g))).
Proof.
  intros Hp. unfold gate_weight at 1. simpl. rewrite Hp. f_equal.
  apply sum_list_with_ext. intros [k q] Hkq%elem_of_map_to_list. simpl.
  destruct (ready_gate_arg p n g k q Hp Hkq) as (_ & Hr & _).
  unfold gate_weight. apply weight_stable; lia.
Qed.

(** A literal of the conversion of a gate. *)
Lemma arg_literal_ok p n g gates l :
  σ !! p = Some (mkObj n (IsGate g)) →
  (∀ k q, gate_children_ g !! k = Some q →
     ∃ q', gates !! k = Some q' ∧ module_flag σ q' = module_flag σ q) →
  l ∈ arg_literals σ g → literal_ok σ nv gates l.
Proof.
  intros Hp Hgates [(k & q & Hk & ->)|(k & q & Hk & ->)]%elem_of_arg_literals;
    unfold literal_ok; simpl.
  - destruct (ready_gate_arg p n g k q Hp Hk) as (Hlt & _).
    destruct (decide (nv < k)); [|lia]. apply Hgates, Hk.
  - pose proof (ready_variable_arg p n g k q Hp Hk).
    destruct (decide (nv < k)); [lia|done].
Qed.

Lemma initial_loop_inv size gate n g :
  nv = Z.of_nat size →
  σ !! gate = Some (mkObj n (IsGate g)) →
  loop_inv σ nv rank (rank gate) (∅ ∪ gate_children_ g)
    (initial_container σ size gate).
Proof.
  intros Hnv Hgate. rewrite (left_id_L ∅ (∪)).
  split; [by rewrite Hnv|]. split; [lia|]. split.
  - intros k q Hk. destruct (ready_gate_arg gate n g k q Hgate Hk) as (_ & ? & ?). auto.
  - apply Forall_forall. intros l Hl.
    unfold initial_container, merge in Hl. simpl in Hl.
    eapply arg_literal_ok; eauto using convert_gate_lits.
Qed.

Lemma literal_ok_mono (gates gates' : gmap Z ptr) l :
  (∀ k q, gates !! k = Some q → gates' !! k = Some q) →
  literal_ok σ nv gates l → literal_ok σ nv gates' l.
Proof.
  unfold literal_ok. intros Hkeep. destruct (decide (nv < lit l)); [|done].
  intros (q & Hq & Hm). eauto.
Qed.

(** One iteration keeps the invariant and makes the measure smaller. *)
Lemma iteration_step bound gates c i :
  loop_inv σ nv rank bound gates c → get_next_gate c = i → i ≠ 0 →
  ∃ p n g,
    gates !! i = Some p ∧ σ !! p = Some (mkObj n (IsGate g)) ∧ index_ n = i ∧
    loop_inv σ nv rank bound (iteration σ gates c i p g).1
      (iteration σ gates c i p g).2 ∧
    (measure σ rank (iteration σ gates c i p g).1 (iteration σ gates c i p g).2
     < measure σ rank gates c)%nat.
Proof.
  intros (Hnvc & Hnv0 & Hgok & Hlits) Hi Hne.
  rewrite Forall_forall in Hlits.
  destruct (get_next_gate_nonzero c i Hi Hne) as (l & Hl & Hli & Hexp).
  apply expandable_spec in Hexp as [Hm Hlt]. rewrite Hnvc, Hli in Hlt.
  assert (Hp : ∃ p, gates !! i = Some p).
  { pose proof (Hlits l Hl) as Hok. unfold literal_ok in Hok. rewrite Hli in Hok.
    destruct (decide (nv < i)); [|lia]. destruct Hok as (p & ? & _). eauto. }
  destruct Hp as (p & Hp).
  destruct (Hgok i p Hp) as (Hrank & n & g & Hσ & Hidx).
  exists p, n, g. split; [done|]. split; [done|]. split; [done|].
  set (gates' := gates ∪ gate_children_ g).
  assert (Hkeep : ∀ k q, gates !! k = Some q → gates' !! k = Some q).
  { intros k q Hk. by apply lookup_union_Some_l. }
  assert (Hnew : ∀ k q, gate_children_ g !! k = Some q → gates' !! k = Some q).
  { intros k q Hk. destruct (gates !! k) as [q'|] eqn:Hq'.
    - destruct (Hgok k q' Hq') as (_ & cn' & cg' & Hσ' & Hi').
      destruct (ready_gate_arg p n g k q Hσ Hk) as (_ & _ & cn & cg & Hσq & Hiq).
      assert (q' = q) as <-; [|by apply Hkeep].
      eapply ready_index_unique; eauto. simpl. congruence.
    - unfold gates'. rewrite lookup_union_r; done. }
  assert (Hstep_lits : ∀ l0, l0 ∈ lits (sets (iteration σ gates c i p g).2) →
            (l0 ∈ lits (sets c) ∧ lit l0 ≠ i) ∨ l0 ∈ arg_literals σ g).
  { intros l0 Hl0. apply iteration_lits in Hl0 as [?|Hc]; [auto|].
    right. eapply convert_gate_lits; eauto. }
  split.
  - split; [done|]. split; [done|]. split.
    + intros k q Hk. apply lookup_union_Some_raw in Hk as [Hk|[_ Hk]]; [auto|].
      destruct (ready_gate_arg p n g k q Hσ Hk) as (_ & Hr & Hq). split; [lia|done].
    + apply Forall_forall. intros l0 Hl0.
      destruct (Hstep_lits l0 Hl0) as [[Hold _]|Hargs].
      * apply (literal_ok_mono gates); [exact Hkeep|]. apply Hlits, Hold.
      * apply (arg_literal_ok p n g); [exact Hσ| |exact Hargs].
        intros k q Hk. exists q. split; [by apply Hnew|done].
  - unfold measure. simpl.
    set (c' := (iteration σ gates c i p g).2).
    set (f := index_weight σ rank gates). set (f' := index_weight σ rank gates').
    set (P := placeholders c). set (P' := placeholders c').
    assert (HiP : i ∈ P) by (by apply get_next_gate_placeholder).
    assert (Hsub : P' ⊆ (P ∖ {[i]}) ∪ dom (gate_children_ g)).
    { intros j Hj. apply elem_of_placeholders in Hj as (l0 & Hl0 & <- & Hm0 & Hlt0).
      change (nvars c') with (nvars c) in Hlt0. rewrite Hnvc in Hlt0.
      apply elem_of_union.
      destruct (Hstep_lits l0 Hl0)
        as [[Hold Hne0]|[(k & q & Hk & ->)|(k & q & Hk & ->)]%elem_of_arg_literals].
      - left. apply elem_of_difference. split.
        + apply elem_of_placeholders. exists l0. rewrite Hnvc. auto.
        + by intros ?%elem_of_singleton.
      - right. apply elem_of_dom. eauto.
      - simpl in Hlt0. pose proof (ready_variable_arg p n g k q Hσ Hk). lia. }
    assert (A1 : (sum_over f' P'
                  ≤ sum_over f' (P ∖ {[i]}) + sum_over f' (dom (gate_children_ g)))%nat).
    { etrans; [apply sum_over_subseteq, Hsub|apply sum_over_union_le]. }
    assert (A2 : sum_over f' (P ∖ {[i]}) = sum_over f (P ∖ {[i]})).
    { apply sum_over_ext. intros j [Hj _]%elem_of_difference.
      apply elem_of_placeholders in Hj as (l0 & Hl0 & <- & _ & Hlt0).
      rewrite Hnvc in Hlt0. pose proof (Hlits l0 Hl0) as Hok.
      unfold literal_ok in Hok. destruct (decide (nv < lit l0)); [|lia].
      destruct Hok as (q & Hq & _). unfold f, f', index_weight.
      by rewrite Hq, (Hkeep _ _ Hq). }
    assert (A3 : (sum_over f' (dom (gate_children_ g))
                  ≤ sum_list_with (λ kq : Z * ptr, gate_weight σ rank kq.2)
                      (map_to_list (gate_children_ g)))%nat).
    { etrans; [apply (sum_over_dom_le f' (gate_children_ g)); done|].
      apply Nat.eq_le_incl, sum_list_with_ext.
      intros [k q] Hkq%elem_of_map_to_list. simpl.
      unfold f', index_weight. by rewrite (Hnew k q Hkq). }
    pose proof (gate_weight_unfold p n g Hσ) as A4.
    assert (A5 : sum_over f P = (gate_weight σ rank p + sum_over f (P ∖ {[i]}))%nat).
    { rewrite (sum_over_remove f P i HiP). unfold f at 1, index_weight.
      by rewrite Hp. }
    change (sum_over f' P' < sum_over f P)%nat. lia.
Qed.

Lemma expand_unfold fuel gates c i p n g log :
  i ≠ 0 → gates !! i = Some p → σ !! p = Some (mkObj n (IsGate g)) →
  Mocus.expand (S fuel) σ gates c i log
  = Mocus.expand fuel σ (iteration σ gates c i p g).1 (iteration σ gates c i p g).2
      (get_next_gate (iteration σ gates c i p g).2)
      (log ++ [call_ConvertGate (index_ n); call_ExtractIntermediateCutSets i;
               call_ExpandGate; call_Merge;
               call_GetNextGate (get_next_gate (iteration σ gates c i p g).2)]).
Proof.
  intros Hi Hp Hσ. simpl. destruct (decide (i = 0)); [done|].
  rewrite Hp, Hσ. reflexivity.
Qed.

(** Whatever the fuel, the loop does not look up a gate that its local map
    lacks; when it ends, no placeholder of a gate that is not a module is
    left. *)
Lemma expand_safe bound fuel : ∀ gates c log,
  loop_inv σ nv rank bound gates c →
  match Mocus.expand fuel σ gates c (get_next_gate c) log with
  | Ok (gates', c', _) =>
      loop_inv σ nv rank bound gates' c' ∧ get_next_gate c' = 0
  | OutOfFuel => True
  | AssertFailed | EndDeref => False
  end.
Proof.
  induction fuel as [|fuel IH]; intros gates c log Hinv.
  - simpl. destruct (decide (get_next_gate c = 0)); done.
  - destruct (decide (get_next_gate c = 0)) as [E|Hne].
    + simpl. rewrite E. simpl. destruct (decide (0 = 0)); done.
    + destruct (iteration_step bound gates c _ Hinv eq_refl Hne)
        as (p & n & g & Hp & Hσ & _ & Hinv' & _).
      rewrite (expand_unfold fuel gates c _ p n g log Hne Hp Hσ).
      apply IH, Hinv'.
Qed.

(** With fuel up to the measure the loop ends, and with the same result for
    any larger fuel. *)
Lemma expand_total bound n : ∀ gates c log,
  loop_inv σ nv rank bound gates c → (measure σ rank gates c ≤ n)%nat →
  ∃ r, ∀ fuel, (n ≤ fuel)%nat →
    Mocus.expand fuel σ gates c (get_next_gate c) log = Ok r.
Proof.
  induction n as [|n IH]; intros gates c log Hinv Hm.
  - destruct (decide (get_next_gate c = 0)) as [E|Hne].
    + exists (gates, c, log). intros fuel _. rewrite E.
      destruct fuel; simpl; destruct (decide (0 = 0)); done.
    + destruct (iteration_step bound gates c _ Hinv eq_refl Hne)
        as (p & n & g & _ & _ & _ & _ & Hlt). lia.
  - destruct (decide (get_next_gate c = 0)) as [E|Hne].
    + exists (gates, c, log). intros fuel _. rewrite E.
      destruct fuel; simpl; destruct (decide (0 = 0)); done.
    + destruct (iteration_step bound gates c _ Hinv eq_refl Hne)
        as (p & n' & g & Hp & Hσ & _ & Hinv' & Hlt).
      edestruct (IH _ _ (log ++ [call_ConvertGate (index_ n');
                   call_ExtractIntermediateCutSets (get_next_gate c);
                   call_ExpandGate; call_Merge;
                   call_GetNextGate (get_next_gate (iteration σ gates c
                                       (get_next_gate c) p g).2)]) Hinv')
        as (r & Hr); [lia|].
      exists r. intros [|fuel] Hfuel; [lia|].
      rewrite (expand_unfold fuel gates c _ p n' g log Hne Hp Hσ).
      apply Hr. lia.
Qed.

(** The modules gathered after the expansion are module gates that the
    local map holds. *)
Lemma modules_in_gates bound gates c coherent :
  loop_inv σ nv rank bound gates c →
  Forall (λ m, ∃ q n g, gates !! m = Some q ∧
                        σ !! q = Some (mkObj n (IsGate g)) ∧
                        module_ g = true ∧ (rank q < bound)%nat)
    (GatherModules (Mocus.after_expansion coherent c).1).
Proof.
  intros (Hnvc & Hnv0 & Hgok & Hlits). rewrite Forall_forall in Hlits.
  apply Forall_forall. intros m Hm.
  apply elem_of_gather_modules in Hm as (l & Hl & <- & Hmod).
  assert (Hl0 : l ∈ lits (sets c)).
  { destruct coherent.
    - exact (minimize_lits c l Hl).
    - apply (minimize_lits c), (eliminate_complements_lits (minimize c)).
      exact (minimize_lits (eliminate_complements (minimize c)) l Hl). }
  pose proof (Hlits l Hl0) as Hok. unfold literal_ok in Hok.
  destruct (decide (nv < lit l)); [|congruence].
  destruct Hok as (q & Hq & Hflag).
  destruct (Hgok _ q Hq) as (Hr & n & g & Hσ & _).
  exists q, n, g. split_and!; auto.
  unfold module_flag in Hflag. rewrite Hσ in Hflag. congruence.
Qed.

Lemma join_modules_safe (analyze : ptr → Res (Container * list Call)) gates ms :
  Forall (λ m, ∃ q, gates !! m = Some q ∧
                    match analyze q with
                    | Ok _ | OutOfFuel => True
                    | AssertFailed | EndDeref => False
                    end) ms →
  ∀ c log,
    match Mocus.join_modules analyze gates ms c log with
    | Ok _ | OutOfFuel => True
    | AssertFailed | EndDeref => False
    end.
Proof.
  induction 1 as [|m ms (q & Hq & Hm) _ IH]; intros c log; simpl; [done|].
  rewrite Hq. destruct (analyze q) as [[sub sublog]| | |]; try done. apply IH.
Qed.

Lemma join_modules_total (analyze : nat → ptr → Res (Container * list Call))
    gates ms :
  Forall (λ m, ∃ q, gates !! m = Some q ∧
                    ∃ f0 r, ∀ fuel, (f0 ≤ fuel)%nat → analyze fuel q = Ok r) ms →
  ∀ c log, ∃ f0 r, ∀ fuel, (f0 ≤ fuel)%nat →
    Mocus.join_modules (analyze fuel) gates ms c log = Ok r.
Proof.
  induction 1 as [|m ms (q & Hq & f1 & [sub sublog] & Hm) _ IH]; intros c log.
  - exists O, (c, log). done.
  - destruct (IH (JoinModule m sub c)
                (log ++ [call_AnalyzeModule m sublog; call_JoinModule m]))
      as (f2 & r & Hr).
    exists (f1 `max` f2)%nat, r. intros fuel Hfuel. simpl.
    rewrite Hq, Hm by lia. apply Hr. lia.
Qed.

Section analysis.
Context {BasicEvent : Type} (graph : BooleanGraph BasicEvent).
Hypothesis Hsize : nv = Z.of_nat (length (basic_events_ graph)).

(** Whatever the fuel, the analysis of a module neither fails an assertion
    nor dereferences an end iterator. *)
Lemma AnalyzeModule_safe fuel : ∀ p n g,
  σ !! p = Some (mkObj n (IsGate g)) → module_ g = true →
  match Mocus.AnalyzeModule fuel σ graph p with
  | Ok _ | OutOfFuel => True
  | AssertFailed | EndDeref => False
  end.
Proof.
  induction fuel as [|fuel IH]; intros p n g Hp Hmod; [done|].
  simpl. rewrite Hp, Hmod.
  pose proof (initial_loop_inv _ p n g Hsize Hp) as Hinv.
  set (c1 := initial_container σ (length (basic_events_ graph)) p) in *.
  set (log0 := [call_ConvertGate (index_ n); call_Merge;
                call_GetNextGate (get_next_gate c1)]).
  change (Mocus.expand fuel σ (∅ ∪ gate_children_ g) _ _ _)
    with (Mocus.expand fuel σ (∅ ∪ gate_children_ g) c1 (get_next_gate c1) log0).
  pose proof (expand_safe (rank p) fuel _ c1 log0 Hinv) as Hsafe.
  destruct (Mocus.expand fuel σ _ _ _ _) as [[[gates' c2] log]| | |]; try done.
  destruct Hsafe as [Hinv' _].
  pose proof (modules_in_gates _ _ _ (coherent_ graph) Hinv') as Hmods.
  destruct (Mocus.after_expansion (coherent_ graph) c2) as [c3 log3]. simpl in Hmods.
  match goal with
  | |- context [Mocus.join_modules ?a ?gs ?ms ?c ?l] =>
      pose proof (join_modules_safe a gs ms) as Hjoin
  end.
  match type of Hjoin with
  | ?P → _ => assert (HP : P)
  end.
  { eapply Forall_impl; [exact Hmods|]. intros m (q & n' & g' & Hq & Hσ & Hm & _).
    exists q. split; [done|]. by apply (IH q n' g'). }
  specialize (Hjoin HP c3 (log ++ log3 ++ [call_GatherModules (GatherModules c3)])).
  destruct (Mocus.join_modules _ _ _ _ _) as [[c4 log4]| | |]; done.
Qed.

(** With enough fuel the analysis of a module returns, and more fuel does
    not change what it returns. *)
Lemma AnalyzeModule_total : ∀ p n g,
  σ !! p = Some (mkObj n (IsGate g)) → module_ g = true →
  ∃ f0 r, ∀ fuel, (f0 ≤ fuel)%nat → Mocus.AnalyzeModule fuel σ graph p = Ok r.
Proof.
  intros p. remember (rank p) as k eqn:Hk. revert p Hk.
  induction k as [k IH] using lt_wf_ind. intros p -> n g Hp Hmod.
  pose proof (initial_loop_inv _ p n g Hsize Hp) as Hinv.
  set (c1 := initial_container σ (length (basic_events_ graph)) p) in *.
  set (log0 := [call_ConvertGate (index_ n); call_Merge;
                call_GetNextGate (get_next_gate c1)]).
  destruct (expand_total (rank p) _ _ c1 log0 Hinv (Nat.le_refl _))
    as ([[gates' c2] log] & Hexp).
  pose proof (expand_safe (rank p) (measure σ rank (∅ ∪ gate_children_ g) c1)
                _ c1 log0 Hinv) as Hsafe.
  rewrite (Hexp _ (Nat.le_refl _)) in Hsafe. destruct Hsafe as [Hinv' _].
  pose proof (modules_in_gates _ _ _ (coherent_ graph) Hinv') as Hmods.
  destruct (Mocus.after_expansion (coherent_ graph) c2) as [c3 log3] eqn:Hafter.
  simpl in Hmods.
  destruct (join_modules_total (λ fuel, Mocus.AnalyzeModule fuel σ graph) gates'
              (GatherModules c3)) with (c := c3)
              (log := log ++ log3 ++ [call_GatherModules (GatherModules c3)])
    as (f1 & [c4 log4] & Hjoin).
  { eapply Forall_impl; [exact Hmods|]. intros m (q & n' & g' & Hq & Hσ & Hm & Hr).
    exists q. split; [done|]. by apply (IH (rank q) Hr q eq_refl n' g'). }
  exists (S (measure σ rank (∅ ∪ gate_children_ g) c1 `max` f1)).
  exists (Minimize (EliminateConstantModules c4),
          log4 ++ [call_EliminateConstantModules; call_Minimize]).
  intros [|fuel] Hfuel; [lia|].
  simpl. rewrite Hp, Hmod.
  change (Mocus.expand fuel σ (∅ ∪ gate_children_ g) _ _ _)
    with (Mocus.expand fuel σ (∅ ∪ gate_children_ g) c1 (get_next_gate c1) log0).
  rewrite Hexp by lia. rewrite Hafter. rewrite Hjoin by lia. reflexivity.
Qed.

End analysis.

End expansion.

(** ** Termination of the expansion loop *)

(** C5, as the model has it.  On an acyclic graph in normal form the
    expansion loop of [AnalyzeModule] ends: the state with which the loop is
    entered satisfies the loop invariant; from a state that satisfies it
    and still has a placeholder of a gate that is not a module, the
    iteration finds the gate in the local map, keeps the invariant and makes
    the measure strictly smaller, the measure being the sum, over the
    distinct placeholders, of the weights of their gates; and with fuel up
    to the measure of the first state the loop returns, with [GetNextGate]
    at 0. *)
Theorem C5_expansion_loop_terminates {BasicEvent : Type} (σ : Store)
    (graph : BooleanGraph BasicEvent) (rank : ptr → nat) (gate : ptr)
    (n : Node) (g : IGate) :
  let nv := Z.of_nat (length (basic_events_ graph)) in
  let gates := (∅ ∪ gate_children_ g : gmap Z ptr) in
  let c1 := initial_container σ (length (basic_events_ graph)) gate in
  mocus_ready σ nv rank →
  σ !! gate = Some (mkObj n (IsGate g)) →
  loop_inv σ nv rank (rank gate) gates c1 ∧
  (∀ gates c,
     loop_inv σ nv rank (rank gate) gates c → GetNextGate c ≠ 0 →
     ∃ p n' g',
       gates !! GetNextGate c = Some p ∧
       σ !! p = Some (mkObj n' (IsGate g')) ∧
       (∀ fuel log,
          Mocus.expand (S fuel) σ gates c (GetNextGate c) log
          = Mocus.expand fuel σ (iteration σ gates c (GetNextGate c) p g').1
              (iteration σ gates c (GetNextGate c) p g').2
              (GetNextGate (iteration σ gates c (GetNextGate c) p g').2)
              (log ++ [call_ConvertGate (index_ n');
                       call_ExtractIntermediateCutSets (GetNextGate c);
                       call_ExpandGate; call_Merge;
                       call_GetNextGate
                         (GetNextGate (iteration σ gates c (GetNextGate c) p g').2)])) ∧
       loop_inv σ nv rank (rank gate)
         (iteration σ gates c (GetNextGate c) p g').1
         (iteration σ gates c (GetNextGate c) p g').2 ∧
       (measure σ rank (iteration σ gates c (GetNextGate c) p g').1
          (iteration σ gates c (GetNextGate c) p g').2
        < measure σ rank gates c)%nat) ∧
  (∀ log, ∃ gates' c' log',
     GetNextGate c' = 0 ∧
     ∀ fuel, (measure σ rank gates c1 ≤ fuel)%nat →
       Mocus.expand fuel σ gates c1 (GetNextGate c1) log = Ok (gates', c', log')).
Proof.
  intros nv gates c1 Hready Hgate.
  pose proof (initial_loop_inv σ nv rank Hready _ gate n g eq_refl Hgate) as Hinv.
  split; [exact Hinv|]. split.
  - intros gates0 c Hinv0 Hne.
    destruct (iteration_step σ nv rank Hready _ gates0 c _ Hinv0 eq_refl Hne)
      as (p & n' & g' & Hp & Hσ & _ & Hinv' & Hlt).
    exists p, n', g'. split_and!; auto.
    intros fuel log. by apply expand_unfold.
  - intros log.
    destruct (expand_total σ nv rank Hready (rank gate) _ gates c1 log Hinv
                (Nat.le_refl _)) as ([[gates' c'] log'] & Hexp).
    exists gates', c', log'. split; [|exact Hexp].
    pose proof (expand_safe σ nv rank Hready (rank gate)
                  (measure σ rank gates c1) gates c1 log Hinv) as Hsafe.
    rewrite (Hexp _ (Nat.le_refl _)) in Hsafe. apply Hsafe.
Qed.

Section mocus_examples.
Import LoopExamples.

Lemma two_levels_ready : mocus_ready Examples.two_levels 4 depth.
Proof. apply (bool_decide_unpack _). vm_compute. exact I. Qed.

Lemma with_module_ready : mocus_ready Examples.with_module 4 depth.
Proof. apply (bool_decide_unpack _). vm_compute. exact I. Qed.

End mocus_examples.

(** The graph with two levels. *)
Lemma C5_expansion_loop_terminates_witness :
  let σ := Examples.two_levels in
  let graph := Examples.graph true in
  let rank := LoopExamples.depth in
  let g := LoopExamples.gate_at Examples.two_levels 10 in
  let nv := Z.of_nat (length (basic_events_ graph)) in
  let gates := (∅ ∪ gate_children_ g : gmap Z ptr) in
  let c1 := initial_container σ (length (basic_events_ graph)) 10 in
  loop_inv σ nv rank (rank 10%positive) gates c1 ∧
  (∀ gates c,
     loop_inv σ nv rank (rank 10%positive) gates c → GetNextGate c ≠ 0 →
     ∃ p n' g',
       gates !! GetNextGate c = Some p ∧
       σ !! p = Some (mkObj n' (IsGate g')) ∧
       (∀ fuel log,
          Mocus.expand (S fuel) σ gates c (GetNextGate c) log
          = Mocus.expand fuel σ (iteration σ gates c (GetNextGate c) p g').1
              (iteration σ gates c (GetNextGate c) p g').2
              (GetNextGate (iteration σ gates c (GetNextGate c) p g').2)
              (log ++ [call_ConvertGate (index_ n');
                       call_ExtractIntermediateCutSets (GetNextGate c);
                       call_ExpandGate; call_Merge;
                       call_GetNextGate
                         (GetNextGate (iteration σ gates c (GetNextGate c) p g').2)])) ∧
       loop_inv σ nv rank (rank 10%positive)
         (iteration σ gates c (GetNextGate c) p g').1
         (iteration σ gates c (GetNextGate c) p g').2 ∧
       (measure σ rank (iteration σ gates c (GetNextGate c) p g').1
          (iteration σ gates c (GetNextGate c) p g').2
        < measure σ rank gates c)%nat) ∧
  (∀ log, ∃ gates' c' log',
     GetNextGate c' = 0 ∧
     ∀ fuel, (measure σ rank gates c1 ≤ fuel)%nat →
       Mocus.expand fuel σ gates c1 (GetNextGate c1) log = Ok (gates', c', log')).
Proof.
  apply (C5_expansion_loop_terminates Examples.two_levels (Examples.graph true)
           LoopExamples.depth 10%positive
           (LoopExamples.node_at Examples.two_levels 10)
           (LoopExamples.gate_at Examples.two_levels 10)).
  - exact two_levels_ready.
  - vm_compute. reflexivity.
Defined.

(** C5, as stated, fails for the count of placeholders.  On the graph with
    two levels the loop is entered with the one placeholder 1000001; the
    first iteration expands it and leaves the two placeholders 1000002 and
    1000003 of its arguments: the count has grown, with and without
    repetitions. *)
Lemma C5_placeholder_count_counterexample :
  mocus_ready Examples.two_levels 4 LoopExamples.depth ∧
  Examples.two_levels !! 10%positive
  = Some (mkObj (LoopExamples.node_at Examples.two_levels 10)
            (IsGate (LoopExamples.gate_at Examples.two_levels 10))) ∧
  Examples.two_levels !! 11%positive
  = Some (mkObj (LoopExamples.node_at Examples.two_levels 11)
            (IsGate (LoopExamples.gate_at Examples.two_levels 11))) ∧
  GetNextGate LoopExamples.start = 1000001 ∧
  LoopExamples.start_gates !! 1000001 = Some 11%positive ∧
  (∀ fuel log,
     Mocus.expand (S fuel) Examples.two_levels LoopExamples.start_gates
       LoopExamples.start (GetNextGate LoopExamples.start) log
     = Mocus.expand fuel Examples.two_levels LoopExamples.after_one.1
         LoopExamples.after_one.2 (GetNextGate LoopExamples.after_one.2)
         (log ++ [call_ConvertGate 1000001;
                  call_ExtractIntermediateCutSets 1000001;
                  call_ExpandGate; call_Merge;
                  call_GetNextGate (GetNextGate LoopExamples.after_one.2)])) ∧
  placeholder_count LoopExamples.start = 1%nat ∧
  placeholder_count LoopExamples.after_one.2 = 2%nat ∧
  size (placeholders LoopExamples.start) = 1%nat ∧
  size (placeholders LoopExamples.after_one.2) = 2%nat.
Proof.
  split; [exact two_levels_ready|].
  split; [vm_compute; reflexivity|].
  split; [vm_compute; reflexivity|].
  split; [vm_compute; reflexivity|].
  split; [vm_compute; reflexivity|].
  split.
  - intros fuel log.
    assert (E : GetNextGate LoopExamples.start = 1000001) by (vm_compute; reflexivity).
    rewrite E.
    apply (expand_unfold Examples.two_levels fuel LoopExamples.start_gates
             LoopExamples.start 1000001 11
             (LoopExamples.node_at Examples.two_levels 11)
             (LoopExamples.gate_at Examples.two_levels 11) log).
    + done.
    + vm_compute. reflexivity.
    + vm_compute. reflexivity.
  - split_and!; vm_compute; reflexivity.
Qed.

(** With the order in which this container hands out placeholders, a gate
    that is shared can be expanded more than once: on [shared_gate] the loop
    expands 1000001, then 1000002, which brings 1000001 back, then 1000001
    again. *)
Lemma shared_gate_expanded_twice :
  mocus_ready LoopExamples.shared_gate 4 LoopExamples.depth ∧
  ∃ c log,
    Mocus.AnalyzeModule 10 LoopExamples.shared_gate (Examples.graph true) 10
    = Ok (c, log) ∧
    LoopExamples.expanded log = [1000001; 1000002; 1000001] ∧
    Zbdd_products c = [[2]; [1]].
Proof.
  split; [apply (bool_decide_unpack _); vm_compute; exact I|].
  do 2 eexists. split; [vm_compute; reflexivity|].
  split; vm_compute; reflexivity.
Qed.

(** ** The lookups in the local map of gates *)

(** C10.  On an acyclic graph in normal form, for a module gate:
    whatever the fuel, [AnalyzeModule] neither dereferences an end iterator
    nor fails the assertion of a recursive call; in every state of the
    expansion loop (every state that satisfies the loop invariant, which the
    state at entry does and which iterations keep) a gate returned by
    [GetNextGate] is a key of the local map, and so is every module returned
    by [GatherModules] after the loop; and with enough fuel the analysis
    returns. *)
Theorem C10_gate_lookups_succeed {BasicEvent : Type} (σ : Store)
    (graph : BooleanGraph BasicEvent) (rank : ptr → nat) (gate : ptr)
    (n : Node) (g : IGate) :
  let nv := Z.of_nat (length (basic_events_ graph)) in
  mocus_ready σ nv rank →
  σ !! gate = Some (mkObj n (IsGate g)) →
  module_ g = true →
  (∀ fuel, Mocus.AnalyzeModule (C := CutSets.Container) fuel σ graph gate ≠ EndDeref
           ∧ Mocus.AnalyzeModule (C := CutSets.Container) fuel σ graph gate
             ≠ AssertFailed) ∧
  loop_inv σ nv rank (rank gate) (∅ ∪ gate_children_ g)
    (initial_container σ (length (basic_events_ graph)) gate) ∧
  (∀ gates c,
     loop_inv σ nv rank (rank gate) gates c →
     (GetNextGate c ≠ 0 → GetNextGate c ∈ dom gates) ∧
     (∀ m, m ∈ GatherModules (Mocus.after_expansion (coherent_ graph) c).1 →
           m ∈ dom gates)) ∧
  (∃ f0 r, ∀ fuel, (f0 ≤ fuel)%nat →
     Mocus.AnalyzeModule (C := CutSets.Container) fuel σ graph gate = Ok r).
Proof.
  intros nv Hready Hgate Hmod. split_and!.
  - intros fuel.
    pose proof (AnalyzeModule_safe σ nv rank Hready graph eq_refl fuel gate n g
                  Hgate Hmod) as Hsafe.
    destruct (Mocus.AnalyzeModule fuel σ graph gate); done.
  - by apply (initial_loop_inv σ nv rank Hready _ gate n g).
  - intros gates c Hinv. split.
    + intros Hne.
      destruct (iteration_step σ nv rank Hready _ gates c _ Hinv eq_refl Hne)
        as (p & _ & _ & Hp & _). apply elem_of_dom. eauto.
    + intros m Hm.
      pose proof (modules_in_gates σ nv rank _ gates c (coherent_ graph) Hinv)
        as Hmods.
      rewrite Forall_forall in Hmods.
      destruct (Hmods m Hm) as (q & _ & _ & Hq & _). apply elem_of_dom. eauto.
  - by apply (AnalyzeModule_total σ nv rank Hready graph eq_refl gate n g).
Qed.

(** The graph with one module. *)
Lemma C10_gate_lookups_succeed_witness :
  let σ := Examples.with_module in
  let graph := Examples.graph false in
  let rank := LoopExamples.depth in
  let g := LoopExamples.gate_at Examples.with_module 10 in
  let nv := Z.of_nat (length (basic_events_ graph)) in
  (∀ fuel, Mocus.AnalyzeModule (C := CutSets.Container) fuel σ graph 10 ≠ EndDeref
           ∧ Mocus.AnalyzeModule (C := CutSets.Container) fuel σ graph 10
             ≠ AssertFailed) ∧
  loop_inv σ nv rank (rank 10%positive) (∅ ∪ gate_children_ g)
    (initial_container σ (length (basic_events_ graph)) 10) ∧
  (∀ gates c,
     loop_inv σ nv rank (rank 10%positive) gates c →
     (GetNextGate c ≠ 0 → GetNextGate c ∈ dom gates) ∧
     (∀ m, m ∈ GatherModules (Mocus.after_expansion (coherent_ graph) c).1 →
           m ∈ dom gates)) ∧
  (∃ f0 r, ∀ fuel, (f0 ≤ fuel)%nat →
     Mocus.AnalyzeModule (C := CutSets.Container) fuel σ graph 10 = Ok r).
Proof.
  apply (C10_gate_lookups_succeed Examples.with_module (Examples.graph false)
           LoopExamples.depth 10%positive
           (LoopExamples.node_at Examples.with_module 10)
           (LoopExamples.gate_at Examples.with_module 10)).
  - exact with_module_ready.
  - vm_compute. reflexivity.
  - vm_compute. reflexivity.
Defined.

(** ** Visit times, continued *)

Section visit_times.
Import NodeOps.

Lemma visits_of_snoc (l : list Z) (t : Z) :
  visits_of (l ++ [t]) =
  match l with
  | [] => [t; 0; 0]
  | [a] => [a; t; 0]
  | a :: b :: _ => [a; b; t]
  end.
Proof.
  destruct l as [|a [|b r]]; simpl; try reflexivity.
  by rewrite last_snoc.
Qed.

(** The visits at positive [times] on a node with clear visits: what each
    call returns and the array at the end; nothing else changes. *)
Lemma visit_all_visits (times : list Z) (n : Node) :
  visits_ n = [0; 0; 0] → Forall (λ t, 0 < t) times →
  ∃ n', visit_all times n
        = Some (imap (λ (i : nat) (_ : Z), bool_decide (2 ≤ i)%nat) times, n')
        ∧ visits_ n' = visits_of times
        ∧ index_ n' = index_ n ∧ parents_ n' = parents_ n
        ∧ opti_value_ n' = opti_value_ n.
Proof.
  intros Hn. induction times as [|t l IH] using rev_ind; intros Hl.
  - exists n. simpl. auto.
  - apply Forall_app in Hl as [Hl Ht]. apply Forall_cons in Ht as [Ht _].
    destruct (IH Hl) as (n1 & Hrun & Hv & Hi & Hp & Ho).
    rewrite visit_all_app, Hrun. simpl.
    rewrite imap_app. simpl. rewrite Nat.add_0_r.
    rewrite visits_of_snoc. unfold Visit.
    destruct (decide (t > 0)) as [_|]; [|lia]. rewrite Hv.
    destruct l as [|a [|b r]]; simpl.
    + eexists. split; [reflexivity|]. simpl. auto.
    + apply Forall_cons in Hl as [Ha _].
      destruct (decide (a = 0)); [lia|]. simpl.
      eexists. split; [reflexivity|]. simpl. auto.
    + apply Forall_cons in Hl as [Ha Hl]. apply Forall_cons in Hl as [Hb _].
      destruct (decide (a = 0)); [lia|]. destruct (decide (b = 0)); [lia|].
      eexists. split; [reflexivity|]. simpl. auto.
Qed.

Lemma last_positive (l : list Z) :
  Forall (λ t, 0 < t) l → l ≠ [] → 0 < default 0 (last l).
Proof.
  intros Hl Hne. destruct l as [|t l] using rev_ind; [done|].
  rewrite last_snoc. simpl.
  apply Forall_app in Hl as [_ Ht]. by apply Forall_cons in Ht as [Ht _].
Qed.

End visit_times.

(** X1.  After one or more visits at positive times of a node whose visits
    were clear, [min_time] is the time of the first visit and [max_time] the
    time of the latest one, whatever the order of the times; the node counts
    as visited, and as revisited from the third visit on; [LastVisit] is the
    time of the latest visit once there were two, and 0 after a single
    visit. *)
Theorem visit_times_span (n : Node) (first : Z) (later : list Z) :
  visits_ n = [0; 0; 0] → Forall (λ t, 0 < t) (first :: later) →
  ∃ rs n',
    NodeOps.visit_all (first :: later) n = Some (rs, n') ∧
    NodeTimes.min_time n' = first ∧
    NodeTimes.max_time n' = default first (last later) ∧
    NodeOps.EnterTime n' = first ∧
    NodeOps.LastVisit n' = default 0 (last later) ∧
    NodeOps.Visited n' = true ∧
    NodeOps.Revisited n' = bool_decide (2 ≤ length later)%nat.
Proof.
  intros Hn Hpos.
  destruct (visit_all_visits (first :: later) n Hn Hpos) as (n' & Hrun & Hv & _).
  eexists _, n'. split; [exact Hrun|].
  apply Forall_cons in Hpos as [Hfirst Hlater].
  unfold NodeTimes.min_time, NodeTimes.max_time, NodeOps.EnterTime,
    NodeOps.LastVisit, NodeOps.Visited, NodeOps.Revisited.
  rewrite Hv. destruct later as [|b r]; simpl.
  - destruct (decide (first = 0)); [lia|]. split_and!; reflexivity.
  - apply Forall_cons in Hlater as [Hb Hr].
    destruct (decide (first = 0)); [lia|].
    destruct r as [|c r]; simpl.
    + destruct (decide (b = 0)); [lia|]. split_and!; reflexivity.
    + pose proof (last_positive (c :: r) Hr ltac:(done)) as Hlast.
      change (last (b :: c :: r)) with (last (c :: r)).
      destruct (last (c :: r)) as [z|] eqn:Hz; simpl in *; [|lia].
      destruct (decide (z = 0)); [lia|]. split_and!; reflexivity.
Qed.

(** A variable visited at times 4, 9 and 2. *)
Lemma visit_times_span_witness :
  ∃ rs n',
    NodeOps.visit_all [4; 9; 2] (mkNode 1 [0; 0; 0] ∅ 0 1) = Some (rs, n') ∧
    NodeTimes.min_time n' = 4 ∧
    NodeTimes.max_time n' = 2 ∧
    NodeOps.EnterTime n' = 4 ∧
    NodeOps.LastVisit n' = 2 ∧
    NodeOps.Visited n' = true ∧
    NodeOps.Revisited n' = true.
Proof.
  apply (visit_times_span (mkNode 1 [0; 0; 0] ∅ 0 1) 4 [9; 2]).
  - reflexivity.
  - repeat constructor.
Defined.

(** X2.  [ClearVisits] makes a node forget its visits, whatever they were:
    it counts as neither visited nor revisited, all its times are 0, and the
    next visits are taken as the first ones (call number [i], from 0,
    returns true exactly when [i >= 2]); index, parents and optimization
    value stay. *)
Theorem ClearVisits_forgets (n : Node) (times : list Z) :
  Forall (λ t, 0 < t) times →
  NodeOps.Visited (NodeOps.ClearVisits n) = false ∧
  NodeOps.Revisited (NodeOps.ClearVisits n) = false ∧
  NodeOps.EnterTime (NodeOps.ClearVisits n) = 0 ∧
  NodeOps.ExitTime (NodeOps.ClearVisits n) = 0 ∧
  NodeOps.LastVisit (NodeOps.ClearVisits n) = 0 ∧
  NodeTimes.min_time (NodeOps.ClearVisits n) = 0 ∧
  NodeTimes.max_time (NodeOps.ClearVisits n) = 0 ∧
  ∃ n',
    NodeOps.visit_all times (NodeOps.ClearVisits n)
    = Some (imap (λ (i : nat) (_ : Z), bool_decide (2 ≤ i)%nat) times, n') ∧
    visits_ n' = visits_of times ∧
    index_ n' = index_ n ∧ parents_ n' = parents_ n ∧
    opti_value_ n' = opti_value_ n.
Proof.
  intros Hpos. split_and!; try reflexivity.
  apply (visit_all_visits times (NodeOps.ClearVisits n) eq_refl Hpos).
Qed.

(** A node visited three times before is cleared and visited at 5 and 6. *)
Lemma ClearVisits_forgets_witness :
  NodeOps.Visited (NodeOps.ClearVisits (mkNode 3 [1; 2; 7] ∅ 0 1)) = false ∧
  NodeOps.Revisited (NodeOps.ClearVisits (mkNode 3 [1; 2; 7] ∅ 0 1)) = false ∧
  NodeOps.EnterTime (NodeOps.ClearVisits (mkNode 3 [1; 2; 7] ∅ 0 1)) = 0 ∧
  NodeOps.ExitTime (NodeOps.ClearVisits (mkNode 3 [1; 2; 7] ∅ 0 1)) = 0 ∧
  NodeOps.LastVisit (NodeOps.ClearVisits (mkNode 3 [1; 2; 7] ∅ 0 1)) = 0 ∧
  NodeTimes.min_time (NodeOps.ClearVisits (mkNode 3 [1; 2; 7] ∅ 0 1)) = 0 ∧
  NodeTimes.max_time (NodeOps.ClearVisits (mkNode 3 [1; 2; 7] ∅ 0 1)) = 0 ∧
  ∃ n',
    NodeOps.visit_all [5; 6] (NodeOps.ClearVisits (mkNode 3 [1; 2; 7] ∅ 0 1))
    = Some (imap (λ (i : nat) (_ : Z), bool_decide (2 ≤ i)%nat) [5; 6], n') ∧
    visits_ n' = visits_of [5; 6] ∧
    index_ n' = index_ (mkNode 3 [1; 2; 7] ∅ 0 1) ∧
    parents_ n' = parents_ (mkNode 3 [1; 2; 7] ∅ 0 1) ∧
    opti_value_ n' = opti_value_ (mkNode 3 [1; 2; 7] ∅ 0 1).
Proof.
  apply (ClearVisits_forgets (mkNode 3 [1; 2; 7] ∅ 0 1) [5; 6]).
  repeat constructor.
Defined.

(** ** Basic events, continued *)

(** X3.  [GetBasicEvent(index)] passes its two assertions exactly for
    [1 <= index <= basic_events().size()], and an index and a position of
    the vector correspond: the call with [j + 1] returns what the vector
    holds at position [j], for every [j]. *)
Theorem GetBasicEvent_bounds {BasicEvent : Type} (bg : BooleanGraph BasicEvent)
    (index : Z) :
  (is_Some (GetBasicEvent index bg)
   ↔ 1 ≤ index ≤ Z.of_nat (length (basic_events_ bg))) ∧
  (∀ j : nat, GetBasicEvent (Z.of_nat j + 1) bg = basic_events_ bg !! j).
Proof.
  unfold GetBasicEvent. split.
  - destruct (decide (index > 0)).
    + destruct (decide (index ≤ Z.of_nat (length (basic_events_ bg)))).
      * split; [lia|]. intros _. apply lookup_lt_is_Some_2. lia.
      * split; [by intros [? ?]|lia].
    + split; [by intros [? ?]|lia].
  - intros j. destruct (decide (Z.of_nat j + 1 > 0)); [|lia].
    replace (Z.to_nat (Z.of_nat j + 1 - 1)) with j by lia.
    destruct (decide (Z.of_nat j + 1 ≤ Z.of_nat (length (basic_events_ bg))));
      [done|].
    symmetry. apply lookup_ge_None. lia.
Qed.

(** ** Erasing children, continued *)

(** ** Erasures and destructions, step by step *)

Section erase_steps.
Import IGateOps Modelled.

Lemma EraseChild_steps self k σ σ' :
  EraseChild self k σ = Some σ' →
  ∃ q σ1, unlink self k σ = Some (q, σ1) ∧ release (size σ) q σ1 = Some σ'.
Proof.
  unfold EraseChild, EraseChild_with. intros H.
  destruct (unlink self k σ) as [[q σ1]|]; [|discriminate]. eauto.
Qed.

(** The destruction of a shared pointer: the last one destroys the object,
    any other only counts down. *)
Lemma release_cases depth q σ1 σ' n1 k1 :
  release depth q σ1 = Some σ' → σ1 !! q = Some (mkObj n1 k1) →
  (use_count_ n1 = 1%nat → σ' !! q = None) ∧
  ((1 < use_count_ n1)%nat →
   σ' = <[q := mkObj (set_use_count (pred (use_count_ n1)) n1) k1]> σ1).
Proof.
  intros H Hq. destruct depth as [|depth]; simpl in H; rewrite Hq in H;
    destruct (use_count_ n1) as [|[|c]] eqn:Hc; try discriminate.
  - split; [done|]. intros _. by injection H as <-.
  - split; [|lia]. intros _.
    destruct (destructor_with _ q _) as [σ2|]; [|discriminate].
    injection H as <-. apply lookup_delete_eq.
  - split; [done|]. intros _. by injection H as <-.
Qed.

Lemma erase_loop_more rel fuel : ∀ extra self σ σ',
  erase_loop rel fuel self σ = Some σ' →
  erase_loop rel (fuel + extra) self σ = Some σ'.
Proof.
  induction fuel as [|fuel IH]; intros extra self σ σ' H.
  - simpl in H. destruct extra as [|extra]; [done|]. simpl.
    destruct (σ !! self) as [[n [| |g]]|]; try done.
    by destruct (set_rbegin (children_ g)).
  - simpl in *. destruct (σ !! self) as [[n [| |g]]|]; try done.
    destruct (set_rbegin (children_ g)); [|done].
    destruct (EraseChild_with rel self z σ) as [σ1|]; [|done]. by apply IH.
Qed.

(** The footprint of [EraseChild] on a child to which another shared
    pointer exists. *)
Lemma EraseChild_shared self n g k q c σ σ' :
  graph_inv σ → σ !! self = Some (mkObj n (IsGate g)) →
  kids g !! k = Some q → σ !! q = Some c → (1 < use_count_ (node c))%nat →
  EraseChild self k σ = Some σ' →
  updated self (erased k g) q (delete (index_ n)) pred σ σ'.
Proof.
  intros Hinv Hself Hk Hq Hcount (q1 & σ1 & Hunlink & Hrel)%EraseChild_steps.
  pose proof (inv_gate σ Hinv _ _ _ Hself) as Hg.
  apply unlink_inv in Hunlink
    as (n0 & g0 & g' & ov & c0 & Hself0 & _ & _ & Hcp & Hov & Hch & _ & _ & Hmaps
        & Hsame & Hq0 & _ & Hu).
  rewrite Hself in Hself0. injection Hself0 as <- <-.
  rewrite child_pointer_kids, Hk in Hcp. injection Hcp as <-.
  rewrite Hq in Hq0. injection Hq0 as <-.
  rewrite (unlink_erased g g' ov k q Hg Hov Hch Hmaps Hsame) in Hu.
  destruct (updated_fwd Hu Hq) as ([n1 k1] & Hq1 & _ & _ & _ & Ecnt & _).
  simpl in Ecnt. destruct (decide (q = q)); [|done].
  destruct (release_cases _ _ _ _ _ _ Hrel Hq1) as [_ Hmore].
  rewrite Hmore by (simpl; lia). clear Hmore Hrel.
  intros x. specialize (Hu x).
  destruct (decide (x = q)) as [->|Hne].
  - rewrite lookup_insert_eq. rewrite Hq1 in Hu. rewrite Hq in *.
    destruct Hu as (? & ? & ? & ? & ? & ?). simpl in *.
    destruct (decide (q = q)); [|done]. split_and!; auto; congruence.
  - rewrite lookup_insert_ne by done.
    destruct (σ !! x), (σ1 !! x); done.
Qed.

Lemma EraseChild_sole_owner self n g k q c σ σ' :
  graph_inv σ → σ !! self = Some (mkObj n (IsGate g)) →
  kids g !! k = Some q → σ !! q = Some c → use_count_ (node c) = 1%nat →
  EraseChild self k σ = Some σ' → σ' !! q = None.
Proof.
  intros Hinv Hself Hk Hq Hcount (q1 & σ1 & Hunlink & Hrel)%EraseChild_steps.
  apply unlink_inv in Hunlink
    as (n0 & g0 & g' & ov & c0 & Hself0 & _ & _ & Hcp & _ & _ & _ & _ & _
        & _ & Hq0 & _ & Hu).
  rewrite Hself in Hself0. injection Hself0 as <- <-.
  rewrite child_pointer_kids, Hk in Hcp. injection Hcp as <-.
  destruct (updated_fwd Hu Hq) as ([n1 k1] & Hq1 & _ & _ & _ & Ecnt & _).
  simpl in Ecnt. destruct (decide (q = q)); [|done].
  destruct (release_cases _ _ _ _ _ _ Hrel Hq1) as [Hlast _].
  apply Hlast. congruence.
Qed.

(** What is left of the gate itself, when it cannot be destroyed. *)
Lemma erasure_anchored self n g σ σ' g' :
  σ !! self = Some (mkObj n (IsGate g)) → anchored n → erasure self σ σ' →
  (∀ o', σ' !! self = Some o' → kind o' = IsGate g') →
  ∃ n', σ' !! self = Some (mkObj n' (IsGate g')) ∧
        survives 0 (mkObj n (IsGate g)) (mkObj n' (IsGate g)).
Proof.
  intros Hself Hanch [Hkept Hgone] Hkind.
  destruct (σ' !! self) as [[n' k']|] eqn:Hself'.
  - specialize (Hkind _ eq_refl). simpl in Hkind. subst k'.
    destruct (Hkept _ _ Hself') as (o & Ho & _ & Hs).
    rewrite Hself in Ho. injection Ho as <-. exists n'. split; [done|]. exact Hs.
  - exfalso. eapply (unowned_not_anchored (mkObj n (IsGate g))); eauto.
Qed.

(** In a well-formed graph the parents of a gate are empty exactly when no
    gate holds it as a child. *)
Lemma parents_empty_iff σ q c :
  graph_inv σ → σ !! q = Some c →
  parents_ (node c) = ∅ ↔ ¬ held_as_child σ q.
Proof.
  intros Hinv Hq. split.
  - intros He (p & n & g & k & Hp & Hk).
    assert (index_ n ∈ dom (parents_ (node c))) as Hin.
    { apply (inv_parents σ Hinv _ _ _ _ _ Hp Hq). eauto. }
    rewrite He, dom_empty_L in Hin. by apply not_elem_of_empty in Hin.
  - intros Hno. apply map_empty. intros i.
    destruct (parents_ (node c) !! i) as [p|] eqn:Hi; [|done].
    exfalso. apply Hno.
    destruct (inv_parent_ptr σ Hinv _ _ _ _ Hq Hi) as (n & g & Hp & <-).
    assert (index_ n ∈ dom (parents_ (node c))) as Hin.
    { apply elem_of_dom. eauto. }
    apply (inv_parents σ Hinv _ _ _ _ _ Hp Hq) in Hin as [k Hk].
    by exists p, n, g, k.
Qed.

(** A gate without children is named as a parent by no node. *)
Lemma childless_not_named σ p n g :
  graph_inv σ → σ !! p = Some (mkObj n (IsGate g)) → kids g = ∅ →
  ¬ named_as_parent σ p (index_ n).
Proof.
  intros Hinv Hp Hkids (q & c & Hq & Hnamed).
  assert (index_ n ∈ dom (parents_ (node c))) as Hin.
  { destruct Hnamed as [Hin|[j Hj]]; [done|].
    destruct (inv_parent_ptr σ Hinv _ _ _ _ Hq Hj) as (n2 & g2 & Hp2 & <-).
    rewrite Hp in Hp2. injection Hp2 as <- <-. apply elem_of_dom. eauto. }
  apply (inv_parents σ Hinv _ _ _ _ _ Hp Hq) in Hin as [k Hk].
  by rewrite Hkids, lookup_empty in Hk.
Qed.

Lemma kids_childless g : kids (childless g) = ∅.
Proof. unfold kids, childless. simpl. by rewrite !(left_id_L ∅ (∪)). Qed.

End erase_steps.

Section built_graphs.
Import IGateOps Modelled Examples.

Lemma four_variables_built : @built leave_graph true four_variables.
Proof.
  unfold four_variables, new_variable.
  do 4 built_last false. apply built_empty.
Qed.

Lemma with_module_built : @built leave_graph true with_module.
Proof.
  unfold with_module, build. cbn [foldl].
  unfold new_gate, add, turn_module.
  do 11 built_last false. apply four_variables_built.
Qed.

Lemma owned_built : @built leave_graph true owned.
Proof.
  unfold owned. cbn [foldl]. unfold let_go.
  do 6 built_last false. apply with_module_built.
Qed.

Lemma with_module_graph_inv : graph_inv with_module.
Proof. eapply (@built_graph_inv leave_graph), with_module_built. apply leave_graph_spec. Qed.

Lemma with_module_well_formed : well_formed with_module.
Proof. eapply (@built_well_formed leave_graph), with_module_built. apply leave_graph_spec. Qed.

Lemma owned_graph_inv : graph_inv owned.
Proof. eapply (@built_graph_inv leave_graph), owned_built. apply leave_graph_spec. Qed.

Lemma layout_graph_inv : graph_inv (layout (-1)).
Proof.
  rewrite <- and_not_x_layout.
  eapply (@built_graph_inv leave_graph), and_not_x_built. apply leave_graph_spec.
Qed.

End built_graphs.

(** ** [EraseChild] and [EraseAllChildren] *)

(** X4.  In a well-formed graph [EraseChild(child)] on a gate that has the
    child runs to its end, and the graph is well formed again.  The child
    leaves the children set and the maps of the gate, whose record is
    otherwise as before, and the gate is still there when a shared pointer
    to it is held outside the graph.  When another shared pointer to the
    node of the child exists, the node loses the index of the gate from its
    parents and one from its use count, and nothing else changes.  When the
    gate held the only shared pointer, the node is destroyed, and if it is a
    gate its own children are erased in turn: of the nodes that are left,
    each has its index, its visits and its kind, a gate other than this one
    its record, parents that it had before, and as many shared pointers from
    outside the graph as before; and a node that is gone had none. *)
Theorem EraseChild_removes_one_child (σ : Store) (self : ptr) (n : Node)
    (g : IGate) (child : Z) :
  graph_inv σ → σ !! self = Some (mkObj n (IsGate g)) → child ∈ children_ g →
  ∃ σ' q c,
    IGateOps.EraseChild self child σ = Some σ' ∧ graph_inv σ' ∧
    kids g !! child = Some q ∧ σ !! q = Some c ∧
    erasure self σ σ' ∧
    (∀ o', σ' !! self = Some o' → kind o' = IsGate (erased child g)) ∧
    (anchored n → ∃ n', σ' !! self = Some (mkObj n' (IsGate (erased child g)))) ∧
    ((1 < use_count_ (node c))%nat →
     updated self (erased child g) q (delete (index_ n)) pred σ σ') ∧
    (use_count_ (node c) = 1%nat → σ' !! q = None).
Proof.
  intros Hinv Hself Hk.
  destruct (EraseChild_spec self n g child σ Hinv Hself Hk)
    as (σ' & Hrun & Hinv' & Herasure & Hkind).
  pose proof (inv_gate σ Hinv _ _ _ Hself) as Hg.
  destruct (proj1 (children_kids g child Hg) Hk) as [q Hq].
  pose proof Hq as Hq'. apply kids_Some in Hq' as (ov & Hov & _).
  destruct (inv_child σ Hinv _ _ _ _ _ _ Hself Hov) as (c & Hc & _).
  exists σ', q, c.
  split; [exact Hrun|]. split; [exact Hinv'|]. split; [exact Hq|].
  split; [exact Hc|]. split; [exact Herasure|]. split; [exact Hkind|].
  split; [|split].
  - intros Hanch.
    destruct (erasure_anchored self n g σ σ' _ Hself Hanch Herasure Hkind)
      as (n' & ? & _). eauto.
  - intros Hcount.
    exact (EraseChild_shared self n g child q c σ σ' Hinv Hself Hq Hc Hcount Hrun).
  - intros Hcount.
    exact (EraseChild_sole_owner self n g child q c σ σ' Hinv Hself Hq Hc Hcount Hrun).
Qed.

(** The top gate of the graph with a module, the only node to which a
    pointer is held outside the graph, loses the gate G1, which is
    destroyed. *)
Lemma EraseChild_removes_one_child_witness :
  ∃ σ' q c,
    IGateOps.EraseChild 10 1000001 Examples.owned = Some σ' ∧ graph_inv σ' ∧
    kids (LoopExamples.gate_at Examples.owned 10) !! 1000001 = Some q ∧
    Examples.owned !! q = Some c ∧
    erasure 10 Examples.owned σ' ∧
    (∀ o', σ' !! 10%positive = Some o' →
           kind o' = IsGate (erased 1000001 (LoopExamples.gate_at Examples.owned 10))) ∧
    (anchored (LoopExamples.node_at Examples.owned 10) →
     ∃ n', σ' !! 10%positive
           = Some (mkObj n' (IsGate (erased 1000001
                                       (LoopExamples.gate_at Examples.owned 10))))) ∧
    ((1 < use_count_ (node c))%nat →
     updated 10 (erased 1000001 (LoopExamples.gate_at Examples.owned 10)) q
       (delete (index_ (LoopExamples.node_at Examples.owned 10))) pred
       Examples.owned σ') ∧
    (use_count_ (node c) = 1%nat → σ' !! q = None).
Proof.
  apply (EraseChild_removes_one_child Examples.owned 10
           (LoopExamples.node_at Examples.owned 10)
           (LoopExamples.gate_at Examples.owned 10) 1000001).
  - exact owned_graph_inv.
  - vm_compute. reflexivity.
  - apply (bool_decide_unpack _). vm_compute. exact I.
Defined.

(** X5.  In a well-formed graph [EraseChild(child)] passes its assertions
    exactly when [child], with its sign, is in the children set of the gate.
    So it fails for 0, for the complement of a child, and when it is called a
    second time for the child it has just erased. *)
Theorem EraseChild_needs_child (σ : Store) (self : ptr) (n : Node) (g : IGate)
    (child : Z) :
  graph_inv σ → σ !! self = Some (mkObj n (IsGate g)) →
  (is_Some (IGateOps.EraseChild self child σ) ↔ child ∈ children_ g) ∧
  IGateOps.EraseChild self 0 σ = None ∧
  (child ∈ children_ g → IGateOps.EraseChild self (- child) σ = None) ∧
  (∀ σ', IGateOps.EraseChild self child σ = Some σ' →
         IGateOps.EraseChild self child σ' = None).
Proof.
  intros Hinv Hself.
  pose proof (inv_gate σ Hinv _ _ _ Hself) as Hg.
  assert (Hnot : ∀ σ0 k,
            (∀ n0 g0, σ0 !! self = Some (mkObj n0 (IsGate g0)) → k ∉ children_ g0) →
            IGateOps.EraseChild self k σ0 = None).
  { intros σ0 k H0.
    destruct (IGateOps.EraseChild self k σ0) as [σ2|] eqn:E; [|done].
    apply EraseChild_inv in E as (n0 & g0 & Hself0 & _ & Hk).
    by destruct (H0 _ _ Hself0). }
  split_and!.
  - split.
    + intros [σ' H]. apply EraseChild_inv in H as (n0 & g0 & Hself0 & _ & Hk).
      rewrite Hself in Hself0. by injection Hself0 as <- <-.
    + intros Hk. destruct (EraseChild_spec self n g child σ Hinv Hself Hk)
        as (σ' & ? & _). eauto.
  - apply Hnot. intros n0 g0 Hself0.
    rewrite Hself in Hself0. injection Hself0 as <- <-. exact (wf_nonzero g Hg).
  - intros Hk. apply Hnot. intros n0 g0 Hself0.
    rewrite Hself in Hself0. injection Hself0 as <- <-.
    exact (wf_no_complement g Hg _ Hk).
  - intros σ' H. apply Hnot. intros n' g' Hself'.
    pose proof H as H0. apply EraseChild_inv in H0 as (n0 & g0 & Hself0 & _ & Hk).
    rewrite Hself in Hself0. injection Hself0 as <- <-.
    destruct (EraseChild_spec self n g child σ Hinv Hself Hk)
      as (σ2 & Hrun & _ & _ & Hkind).
    rewrite H in Hrun. injection Hrun as <-.
    specialize (Hkind _ Hself'). simpl in Hkind. injection Hkind as ->.
    rewrite erased_children, elem_of_difference, elem_of_singleton. tauto.
Qed.

Lemma EraseChild_needs_child_witness :
  (is_Some (IGateOps.EraseChild 2 (-1) (Examples.layout (-1)))
   ↔ -1 ∈ children_ (Examples.and_gate (-1))) ∧
  IGateOps.EraseChild 2 0 (Examples.layout (-1)) = None ∧
  (-1 ∈ children_ (Examples.and_gate (-1)) →
   IGateOps.EraseChild 2 (- -1) (Examples.layout (-1)) = None) ∧
  (∀ σ', IGateOps.EraseChild 2 (-1) (Examples.layout (-1)) = Some σ' →
         IGateOps.EraseChild 2 (-1) σ' = None).
Proof.
  apply (EraseChild_needs_child (Examples.layout (-1)) 2
           (mkNode 1000000 [0; 0; 0] ∅ 0 1) (Examples.and_gate (-1)) (-1)).
  - exact layout_graph_inv.
  - reflexivity.
Defined.

(** X6.  In a well-formed graph [EraseAllChildren] runs to its end on a
    gate to which a shared pointer is held outside the graph (or whose
    destructor is running): its loop ends within as many iterations as the
    gate has children, and a larger bound gives the same graph.  Afterwards
    the gate is there without children, in its set and in its maps, the
    rest of its record as before, and no node names it as a parent; the
    nodes that the gate alone owned are destroyed, and what they alone
    owned in turn: of the nodes that are left, each has its index, its
    visits and its kind, a gate other than this one its record, parents
    that it had before, and as many shared pointers from outside the graph
    as before; and a node that is gone had none.  The graph is well formed
    again. *)
Theorem EraseAllChildren_unlinks (σ : Store) (self : ptr) (n : Node) (g : IGate) :
  graph_inv σ → σ !! self = Some (mkObj n (IsGate g)) → anchored n →
  ∃ σ' n',
    IGateOps.EraseAllChildren self σ = Some σ' ∧
    (∀ fuel, (size (children_ g) ≤ fuel)%nat →
             IGateOps.erase_loop (IGateOps.release (size σ)) fuel self σ = Some σ') ∧
    graph_inv σ' ∧ erasure self σ σ' ∧
    σ' !! self = Some (mkObj n' (IsGate (childless g))) ∧ index_ n' = index_ n ∧
    ¬ named_as_parent σ' self (index_ n).
Proof.
  intros Hinv Hself Hanch.
  destruct (EraseAllChildren_spec self n g σ Hinv Hself Hanch)
    as (σ' & n' & Hrun & Hinv' & Herasure & Hself').
  assert (Hi : index_ n' = index_ n).
  { destruct Herasure as [Hkept _].
    destruct (Hkept _ _ Hself') as (o & Ho & _ & Hs & _).
    rewrite Hself in Ho. by injection Ho as <-. }
  exists σ', n'. split_and!; auto.
  - intros fuel Hfuel. unfold IGateOps.EraseAllChildren in Hrun.
    rewrite Hself in Hrun.
    replace fuel with (size (children_ g) + (fuel - size (children_ g)))%nat by lia.
    by apply erase_loop_more.
  - rewrite <- Hi. apply (childless_not_named σ' self n' (childless g));
      auto using kids_childless.
Qed.

(** The top gate of the graph with a module, the only node to which a
    pointer is held outside the graph: the six other nodes are destroyed. *)
Lemma EraseAllChildren_unlinks_witness :
  ∃ σ' n',
    (IGateOps.EraseAllChildren 10 Examples.owned = Some σ' ∧
     (∀ fuel,
        (size (children_ (LoopExamples.gate_at Examples.owned 10)) ≤ fuel)%nat →
        IGateOps.erase_loop (IGateOps.release (size Examples.owned)) fuel 10
          Examples.owned = Some σ') ∧
     graph_inv σ' ∧ erasure 10 Examples.owned σ' ∧
     σ' !! 10%positive
     = Some (mkObj n' (IsGate (childless (LoopExamples.gate_at Examples.owned 10)))) ∧
     index_ n' = index_ (LoopExamples.node_at Examples.owned 10) ∧
     ¬ named_as_parent σ' 10 (index_ (LoopExamples.node_at Examples.owned 10))) ∧
    size Examples.owned = 7%nat ∧ dom σ' = {[10%positive]}.
Proof.
  destruct (EraseAllChildren_unlinks Examples.owned 10
              (LoopExamples.node_at Examples.owned 10)
              (LoopExamples.gate_at Examples.owned 10))
    as (σ' & n' & Hrun & R).
  - exact owned_graph_inv.
  - vm_compute. reflexivity.
  - right. vm_compute. lia.
  - exists σ', n'. split; [exact (conj Hrun R)|]. split; [vm_compute; reflexivity|].
    destruct (IGateOps.EraseAllChildren 10 Examples.owned) as [σ2|] eqn:E;
      [|discriminate].
    injection Hrun as <-. vm_compute in E. injection E as <-.
    vm_compute. reflexivity.
Defined.

(** X7.  [EraseAllChildren] on a gate that has no children changes nothing,
    in any graph; hence calling it a second time, after a call that ran to
    its end, changes nothing either. *)
Theorem EraseAllChildren_idempotent (σ : Store) (self : ptr) :
  (∀ n g, σ !! self = Some (mkObj n (IsGate g)) → children_ g = ∅ →
          IGateOps.EraseAllChildren self σ = Some σ) ∧
  (∀ σ', IGateOps.EraseAllChildren self σ = Some σ' →
         IGateOps.EraseAllChildren self σ' = Some σ').
Proof.
  assert (Hnone : ∀ σ0 n g, σ0 !! self = Some (mkObj n (IsGate g)) →
            children_ g = ∅ → IGateOps.EraseAllChildren self σ0 = Some σ0).
  { intros σ0 n g Hself Hc. unfold IGateOps.EraseAllChildren. rewrite Hself, Hc.
    destruct (size (∅ : gset Z)); simpl; rewrite Hself, Hc;
      by rewrite (proj2 (set_rbegin_None ∅) eq_refl). }
  split; [apply Hnone|].
  intros σ' H. destruct (EraseAllChildren_end _ _ _ H) as (n' & g' & Hself' & Hc').
  by apply (Hnone σ' n' g').
Qed.

(** X8.  The destructor of a gate of a well-formed graph to which no other
    shared pointer than one outside the graph is left passes its assertion
    exactly when no gate holds the gate as a child.  When its body has run,
    the graph is well formed; the gate has no children and no parents, no
    gate holds it as a child and no node names it as a parent, by its index
    or by a pointer, so that the graph without the gate is well formed too:
    nothing refers to the gate when its storage is released.  The nodes
    that the gate alone owned are destroyed with it, and what they alone
    owned in turn; a node that is left has its index, visits and kind, a
    gate its record, and as many shared pointers from outside the graph as
    before. *)
Theorem IGate_destructor_unlinks (σ : Store) (self : ptr) (n : Node) (g : IGate) :
  graph_inv σ → σ !! self = Some (mkObj n (IsGate g)) → anchored n →
  (is_Some (IGate_destructor self σ) ↔ ¬ held_as_child σ self) ∧
  ∀ σ', IGate_destructor self σ = Some σ' →
    graph_inv σ' ∧ erasure self σ σ' ∧
    ¬ held_as_child σ' self ∧ ¬ named_as_parent σ' self (index_ n) ∧
    (∃ n', σ' !! self = Some (mkObj n' (IsGate (childless g))) ∧
           index_ n' = index_ n ∧ parents_ n' = ∅) ∧
    graph_inv (delete self σ').
Proof.
  intros Hinv Hself Hanch.
  pose proof (parents_empty_iff σ self _ Hinv Hself) as Hiff. simpl in Hiff.
  destruct (EraseAllChildren_spec self n g σ Hinv Hself Hanch)
    as (σ1 & n' & Hrun & Hinv' & Herasure & Hself').
  unfold IGateOps.EraseAllChildren in Hrun. rewrite Hself in Hrun.
  unfold IGate_destructor, IGateOps.destructor_with. rewrite Hself.
  destruct (decide (parents_ n = ∅)) as [He|Hne].
  - split; [split; [intros _; by apply Hiff|intros _; eauto]|].
    intros σ' H. rewrite Hrun in H. injection H as <-.
    assert (Hs : index_ n' = index_ n ∧ parents_ n' = ∅).
    { destruct Herasure as [Hkept _].
      destruct (Hkept _ _ Hself') as (o & Ho & _ & Hi & _ & _ & Hsub & _).
      rewrite Hself in Ho. injection Ho as <-. simpl in *. split; [done|].
      rewrite He in Hsub. apply map_empty. intros i.
      destruct (parents_ n' !! i) eqn:E; [|done].
      eapply lookup_weaken in E; [|exact Hsub]. by rewrite lookup_empty in E. }
    destruct Hs as [Hi Hp].
    split_and!; auto.
    + apply (parents_empty_iff σ1 self _ Hinv' Hself'). exact Hp.
    + rewrite <- Hi. apply (childless_not_named σ1 self n' (childless g));
        auto using kids_childless.
    + eauto.
    + apply (delete_graph_inv σ1 self _ Hinv' Hself'); [exact Hp|].
      by intros g0 [= <-].
  - split; [|discriminate].
    split; [by intros [? ?]|]. intros Hno. by apply Hiff in Hno.
Qed.

(** The top gate of the graph with a module, which no gate holds. *)
Lemma IGate_destructor_unlinks_witness :
  (is_Some (IGate_destructor 10 Examples.owned)
   ↔ ¬ held_as_child Examples.owned 10) ∧
  ∀ σ', IGate_destructor 10 Examples.owned = Some σ' →
    graph_inv σ' ∧ erasure 10 Examples.owned σ' ∧
    ¬ held_as_child σ' 10 ∧
    ¬ named_as_parent σ' 10 (index_ (LoopExamples.node_at Examples.owned 10)) ∧
    (∃ n', σ' !! 10%positive
           = Some (mkObj n' (IsGate (childless
                                       (LoopExamples.gate_at Examples.owned 10)))) ∧
           index_ n' = index_ (LoopExamples.node_at Examples.owned 10) ∧
           parents_ n' = ∅) ∧
    graph_inv (delete 10%positive σ').
Proof.
  apply (IGate_destructor_unlinks Examples.owned 10
           (LoopExamples.node_at Examples.owned 10)
           (LoopExamples.gate_at Examples.owned 10)).
  - exact owned_graph_inv.
  - vm_compute. reflexivity.
  - right. vm_compute. lia.
Defined.

(** X9.  A constant state is final.  When [Nullify] or [MakeUnity] has run
    to its end on a gate, in any graph, the gate is in the null state,
    respectively the unity state, without children, and a further call of
    [Nullify] or of [MakeUnity] on it fails the assertion that the state is
    normal. *)
Theorem constant_state_is_final (σ σ' : Store) (self : ptr) :
  IGateOps.Nullify self σ = Some σ' ∨ IGateOps.MakeUnity self σ = Some σ' →
  IGateOps.Nullify self σ' = None ∧ IGateOps.MakeUnity self σ' = None ∧
  ∃ n' g', σ' !! self = Some (mkObj n' (IsGate g')) ∧
           state_ g' ≠ kNormalState ∧ children_ g' = ∅ ∧
           (IGateOps.Nullify self σ = Some σ' → state_ g' = kNullState) ∧
           (IGateOps.MakeUnity self σ = Some σ' → state_ g' = kUnityState).
Proof.
  intros H.
  assert (Hrun : ∀ s, s ≠ kNormalState → Modelled.collapse s self σ = Some σ' →
            ∃ n' g', σ' !! self = Some (mkObj n' (IsGate g')) ∧
                     state_ g' = s ∧ children_ g' = ∅).
  { intros s Hs Hc.
    destruct (collapse_done s self σ σ' Hs Hc)
      as (n & g & n' & g' & _ & _ & Hself' & _ & Hst & _ & Hch & _).
    eauto. }
  assert (Hshape : ∃ n' g', σ' !! self = Some (mkObj n' (IsGate g')) ∧
            state_ g' ≠ kNormalState ∧ children_ g' = ∅ ∧
            (IGateOps.Nullify self σ = Some σ' → state_ g' = kNullState) ∧
            (IGateOps.MakeUnity self σ = Some σ' → state_ g' = kUnityState)).
  { destruct H as [H|H].
    - destruct (Hrun kNullState ltac:(done) H) as (n' & g' & Hself' & Hst & Hc).
      exists n', g'. split_and!; auto; [by rewrite Hst|].
      intros H'. destruct (Hrun kUnityState ltac:(done) H')
        as (n2 & g2 & Hself2 & Hst2 & _).
      rewrite Hself' in Hself2. injection Hself2 as <- <-. congruence.
    - destruct (Hrun kUnityState ltac:(done) H) as (n' & g' & Hself' & Hst & Hc).
      exists n', g'. split_and!; auto; [by rewrite Hst|].
      intros H'. destruct (Hrun kNullState ltac:(done) H')
        as (n2 & g2 & Hself2 & Hst2 & _).
      rewrite Hself' in Hself2. injection Hself2 as <- <-. congruence. }
  destruct Hshape as (n' & g' & Hself' & Hst & Hrest).
  assert (Hw : ∀ s, IGateOps.write_state s self σ' = None).
  { intros s. unfold IGateOps.write_state. rewrite Hself'.
    by destruct (decide (state_ g' = kNormalState)). }
  split; [unfold IGateOps.Nullify; by rewrite Hw|].
  split; [unfold IGateOps.MakeUnity; by rewrite Hw|].
  exists n', g'. auto.
Qed.

(** The top gate of the graph with a module is nullified. *)
Lemma constant_state_is_final_witness :
  IGateOps.Nullify 10 MocusExamples.null_top = None ∧
  IGateOps.MakeUnity 10 MocusExamples.null_top = None ∧
  ∃ n' g', MocusExamples.null_top !! 10%positive = Some (mkObj n' (IsGate g')) ∧
           state_ g' ≠ kNormalState ∧ children_ g' = ∅ ∧
           (IGateOps.Nullify 10 Examples.with_module = Some MocusExamples.null_top
            → state_ g' = kNullState) ∧
           (IGateOps.MakeUnity 10 Examples.with_module = Some MocusExamples.null_top
            → state_ g' = kUnityState).
Proof.
  apply (constant_state_is_final Examples.with_module MocusExamples.null_top 10).
  left. vm_compute. reflexivity.
Defined.

(** X10.  [TurnModule] sets the module flag of a gate and nothing else:
    children, maps, state and type of the gate and every other node are as
    before, so a well-formed graph stays well formed; and it is a one-time
    operation: a second call on the gate fails its assertion. *)
Theorem TurnModule_once (σ σ' : Store) (self : ptr) :
  well_formed σ → IGateOps.TurnModule self σ = Some σ' →
  well_formed σ' ∧ IGateOps.TurnModule self σ' = None ∧
  (∀ p, p ≠ self → σ' !! p = σ !! p) ∧
  ∃ n g g', σ !! self = Some (mkObj n (IsGate g)) ∧
            σ' !! self = Some (mkObj n (IsGate g')) ∧
            module_ g = false ∧ module_ g' = true ∧
            children_ g' = children_ g ∧ kids g' = kids g ∧
            state_ g' = state_ g ∧ type_ g' = type_ g.
Proof.
  intros [Hinv Hci] H. split.
  { pose proof H as H0. rewrite TurnModule_on_gate in H0.
    assert (Hf : ∀ g g', (if module_ g then None else Some (set_module true g))
                         = Some g' →
                   same_links (IsGate g) (IsGate g') ∧ state_ g' = state_ g).
    { intros g g'. destruct (module_ g); [done|]. by intros [= <-]. }
    destruct (on_gate_well_formed _ self σ σ' Hf H0) as [H1 H2].
    split; auto. }
  unfold IGateOps.TurnModule in *.
  destruct (σ !! self) as [[n [| |g]]|] eqn:Hself; try discriminate.
  destruct (module_ g) eqn:Hm; [discriminate|]. injection H as <-.
  rewrite lookup_insert_eq. simpl. split; [done|].
  split; [intros p Hp; by rewrite lookup_insert_ne|].
  exists n, g, (set_module true g). auto 10.
Qed.

(** The gate of index 1000001 of the graph with a module is not a module
    yet. *)
Lemma TurnModule_once_witness :
  ∃ σ', IGateOps.TurnModule 11 Examples.with_module = Some σ' ∧
    well_formed σ' ∧ IGateOps.TurnModule 11 σ' = None ∧
    (∀ p, p ≠ 11%positive → σ' !! p = Examples.with_module !! p) ∧
    ∃ n g g', Examples.with_module !! 11%positive = Some (mkObj n (IsGate g)) ∧
              σ' !! 11%positive = Some (mkObj n (IsGate g')) ∧
              module_ g = false ∧ module_ g' = true ∧
              children_ g' = children_ g ∧ kids g' = kids g ∧
              state_ g' = state_ g ∧ type_ g' = type_ g.
Proof.
  destruct (IGateOps.TurnModule 11 Examples.with_module) as [σ'|] eqn:E;
    [|vm_compute in E; discriminate].
  exists σ'. split; [reflexivity|].
  apply (TurnModule_once Examples.with_module σ' 11).
  - apply with_module_well_formed.
  - exact E.
Defined.

(** X14.  On a graph whose top gate is in the normal state and not of NULL
    type the constructor of [Mocus] builds no [Zbdd], so [products] called
    before [Analyze] fails its assertion that the analysis is done.
    [Analyze] returns only when the top gate is a module; then it made the
    calls of the analysis of the top gate, and [products] returns the
    products of the container that analysis returned, analysed by
    [Zbdd::Analyze]. *)
Theorem products_needs_Analyze {C F : Type} `{!CutSetContainerOps C F}
    {BasicEvent : Type} (σ : Store) (fault_tree : BooleanGraph BasicEvent)
    (n : Node) (top : IGate) :
  σ !! top_event_ fault_tree = Some (mkObj n (IsGate top)) →
  state_ top = kNormalState → type_ top ≠ kNullGate →
  ∃ m : Mocus.Mocus (C := C),
    Mocus.new σ fault_tree = Some m ∧
    Mocus.constant_graph_ m = false ∧
    Mocus.products m = None ∧
    ∀ fuel m' log, Mocus.Analyze fuel σ m = Ok (m', log) →
      module_ top = true ∧
      ∃ c, Mocus.AnalyzeModule fuel σ fault_tree (top_event_ fault_tree)
           = Ok (c, log) ∧
           Mocus.zbdd_ m' = Some (Zbdd_Analyze c) ∧
           Mocus.products m' = Some (Zbdd_products (Zbdd_Analyze c)).
Proof.
  intros Htop Hst Hty. unfold Mocus.new. rewrite Htop.
  assert (IsConstant top || bool_decide (type_ top = kNullGate) = false) as ->.
  { unfold IsConstant. rewrite Hst. simpl.
    by apply bool_decide_eq_false_2. }
  eexists. split; [reflexivity|]. simpl. split; [done|]. split; [done|].
  intros fuel m' log H. unfold Mocus.Analyze in H. simpl in H.
  destruct (Mocus.AnalyzeModule fuel σ fault_tree (top_event_ fault_tree))
    as [[c log']| | |] eqn:E; try discriminate.
  injection H as <- <-. split.
  - destruct fuel as [|fuel]; [discriminate|]. simpl in E. rewrite Htop in E.
    by destruct (module_ top).
  - exists c. auto.
Qed.

(** The graph with one module. *)
Lemma products_needs_Analyze_witness :
  ∃ m : Mocus.Mocus (C := CutSets.Container),
    Mocus.new Examples.with_module (Examples.graph true) = Some m ∧
    Mocus.constant_graph_ m = false ∧
    Mocus.products m = None ∧
    ∀ fuel m' log, Mocus.Analyze fuel Examples.with_module m = Ok (m', log) →
      module_ (LoopExamples.gate_at Examples.with_module 10) = true ∧
      ∃ c, Mocus.AnalyzeModule fuel Examples.with_module (Examples.graph true)
             (top_event_ (Examples.graph true)) = Ok (c, log) ∧
           Mocus.zbdd_ m' = Some (Zbdd_Analyze c) ∧
           Mocus.products m' = Some (Zbdd_products (Zbdd_Analyze c)).
Proof.
  apply (products_needs_Analyze Examples.with_module (Examples.graph true)
           (LoopExamples.node_at Examples.with_module 10)
           (LoopExamples.gate_at Examples.with_module 10)).
  - vm_compute. reflexivity.
  - vm_compute. reflexivity.
  - vm_compute. discriminate.
Defined.

(** ** The destruction of a shared pointer *)

(** X23.  In a well-formed graph the destruction of a shared pointer that
    is held outside the graph runs to its end and leaves a well-formed
    graph.  When other shared pointers to the object exist, its use count
    goes down by one and nothing else changes.  When it was the last one,
    the object is destroyed; the destructor of a gate erases its children,
    which destroys those that the gate alone owned, and so on: of the
    objects that are left, each has its index, visits and kind, a gate its
    record, parents that it had before, and as many shared pointers from
    outside the graph as before; and an object that is gone had none,
    apart from the pointer that was destroyed. *)
Theorem shared_pointer_release (σ : Store) (q : ptr) (c : Obj) :
  graph_inv σ → σ !! q = Some c → (0 < outside c)%nat →
  ∃ σ', IGateOps.reset q σ = Some σ' ∧ graph_inv σ' ∧ released q σ σ' ∧
    ((1 < use_count_ (node c))%nat →
     σ' = <[q := mkObj (set_use_count (pred (use_count_ (node c))) (node c))
                   (kind c)]> σ) ∧
    (use_count_ (node c) = 1%nat → σ' !! q = None).
Proof.
  intros Hinv Hq Hout. unfold outside in Hout.
  destruct (reset_spec q c σ Hinv Hq) as (σ' & Hrun & Hinv' & Hrel); [lia|].
  exists σ'. split; [exact Hrun|]. split; [exact Hinv'|]. split; [exact Hrel|].
  destruct c as [n k]. unfold IGateOps.reset in Hrun.
  destruct (release_cases _ _ _ _ _ _ Hrun Hq) as [Hlast Hmore].
  split; [exact Hmore|exact Hlast].
Qed.

(** The pointer to the top gate of the graph with a module is the only one
    held outside the graph: with it the whole graph is destroyed. *)
Lemma shared_pointer_release_witness :
  ∃ σ',
    (IGateOps.reset 10 Examples.owned = Some σ' ∧ graph_inv σ' ∧
     released 10 Examples.owned σ' ∧
     ((1 < use_count_ (LoopExamples.node_at Examples.owned 10))%nat →
      σ' = <[10%positive :=
               mkObj (set_use_count
                        (pred (use_count_ (LoopExamples.node_at Examples.owned 10)))
                        (LoopExamples.node_at Examples.owned 10))
                     (IsGate (LoopExamples.gate_at Examples.owned 10))]>
             Examples.owned) ∧
     (use_count_ (LoopExamples.node_at Examples.owned 10) = 1%nat →
      σ' !! 10%positive = None)) ∧
    σ' = ∅.
Proof.
  destruct (shared_pointer_release Examples.owned 10
              (mkObj (LoopExamples.node_at Examples.owned 10)
                     (IsGate (LoopExamples.gate_at Examples.owned 10))))
    as (σ' & Hrun & R).
  - exact owned_graph_inv.
  - vm_compute. reflexivity.
  - vm_compute. lia.
  - exists σ'. split; [exact (conj Hrun R)|].
    destruct (IGateOps.reset 10 Examples.owned) as [σ2|] eqn:E; [|discriminate].
    injection Hrun as <-. vm_compute in E. injection E as <-. reflexivity.
Defined.

(** ** [xml.h]: trimming *)

Section trimming.
Import xml.
Implicit Types (s w : list ascii) (c : ascii).

Lemma find_first_not_of_None c s :
  find_first_not_of c s = None ↔ Forall (λ x, x = c) s.
Proof.
  induction s as [|x s IH]; simpl.
  - split; [constructor|done].
  - destruct (decide (x = c)) as [->|Hx].
    + destruct (find_first_not_of c s); simpl.
      * split; [done|]. intros [_ H]%Forall_cons. by apply IH in H.
      * split; [|done]. intros _. constructor; [done|]. by apply IH.
    + split; [done|]. by intros [? _]%Forall_cons.
Qed.

Lemma find_first_not_of_Some c s i :
  find_first_not_of c s = Some i →
  take i s = replicate i c ∧ ∃ x, s !! i = Some x ∧ x ≠ c.
Proof.
  revert i. induction s as [|x s IH]; intros i; simpl; [done|].
  destruct (decide (x = c)) as [->|Hx].
  - destruct (find_first_not_of c s) as [j|]; simpl; [|done].
    intros [= <-]. destruct (IH j eq_refl) as [Ht Hx]. simpl. split; [|done].
    by rewrite Ht.
  - intros [= <-]. simpl. eauto.
Qed.

Lemma find_last_not_of_None c s :
  find_last_not_of c s = None ↔ Forall (λ x, x = c) s.
Proof.
  induction s as [|x s IH]; simpl.
  - split; [constructor|done].
  - destruct (find_last_not_of c s) as [j|].
    + split; [done|]. intros [_ H]%Forall_cons. by apply IH in H.
    + destruct (decide (x = c)) as [->|Hx].
      * split; [|done]. intros _. constructor; [done|]. by apply IH.
      * split; [done|]. by intros [? _]%Forall_cons.
Qed.

Lemma find_last_not_of_Some c s j :
  find_last_not_of c s = Some j →
  (∃ x, s !! j = Some x ∧ x ≠ c) ∧
  drop (S j) s = replicate (length s - S j) c.
Proof.
  revert j. induction s as [|x s IH]; intros j; simpl; [done|].
  destruct (find_last_not_of c s) as [i|] eqn:E.
  - intros [= <-]. destruct (IH i eq_refl) as [Hx Hd]. simpl. done.
  - destruct (decide (x = c)) as [->|Hx]; [done|].
    intros [= <-]. split; [simpl; eauto|]. simpl.
    apply find_last_not_of_None in E. rewrite Nat.sub_0_r.
    clear -E. induction E as [|y s -> _ IH]; simpl; [done|]. by rewrite <- IH.
Qed.

Lemma find_last_not_of_is_Some c s i :
  find_first_not_of c s = Some i → ∃ j, find_last_not_of c s = Some j ∧ (i ≤ j)%nat.
Proof.
  intros Hi. destruct (find_last_not_of c s) as [j|] eqn:Hj.
  - exists j. split; [done|].
    destruct (find_first_not_of_Some _ _ _ Hi) as [Ht _].
    destruct (find_last_not_of_Some _ _ _ Hj) as [(x & Hx & Hne) _].
    destruct (decide (i ≤ j)%nat); [done|]. exfalso.
    assert (take i s !! j = Some x) as H by (rewrite lookup_take_lt by lia; done).
    rewrite Ht in H. apply lookup_replicate in H as [-> _]. done.
  - apply find_last_not_of_None, find_first_not_of_None in Hj. congruence.
Qed.

(** The characters of the trimmed view, when the text is not all spaces. *)
Lemma chars_trim text i j :
  find_first_not_of " " (chars text) = Some i →
  find_last_not_of " " (chars text) = Some j →
  chars (trim text) = take (j - i + 1) (drop i (chars text)) ∧
  ∃ d, data text = Some d ∧ data (trim text) = Some (drop i d) ∧
       size (trim text) = (j - i + 1)%nat ∧ (j < size text)%nat ∧ (j < length d)%nat.
Proof.
  intros Hi Hj.
  assert (Hij : (i ≤ j)%nat).
  { destruct (find_last_not_of_is_Some _ _ _ Hi) as (j' & Hj' & Hij). congruence. }
  unfold trim. rewrite Hi, Hj.
  destruct (find_last_not_of_Some _ _ _ Hj) as [(x & Hx & _) _].
  apply lookup_lt_Some in Hx.
  unfold chars in *. destruct (data text) as [d|]; simpl in *; [|lia].
  rewrite length_take in Hx.
  split; [|exists d; split_and!; auto; lia].
  rewrite !take_drop_commute, take_take. do 2 f_equal. lia.
Qed.

Lemma replicate_all c s : Forall (λ x, x = c) s → s = replicate (length s) c.
Proof. induction 1 as [|x s -> _ IH]; simpl; [done|]. by rewrite <- IH. Qed.

(** A text splits into spaces, its trimmed part, and spaces. *)
Lemma trim_split text :
  ∃ n m, chars text = replicate n " "%char ++ chars (trim text) ++ replicate m " "%char
         ∧ head (chars (trim text)) ≠ Some " "%char
         ∧ last (chars (trim text)) ≠ Some " "%char.
Proof.
  destruct (find_first_not_of " " (chars text)) as [i|] eqn:Hi.
  - destruct (find_last_not_of_is_Some _ _ _ Hi) as (j & Hj & Hij).
    destruct (chars_trim text i j Hi Hj) as [-> _].
    destruct (find_first_not_of_Some _ _ _ Hi) as [Ht (x & Hx & Hxne)].
    destruct (find_last_not_of_Some _ _ _ Hj) as [(y & Hy & Hyne) Hd].
    set (s := chars text) in *.
    exists i, (length s - S j)%nat. split_and!.
    + rewrite <- Ht, <- Hd.
      rewrite <- (take_drop i s) at 1. f_equal.
      rewrite <- (take_drop (j - i + 1) (drop i s)) at 1. f_equal.
      rewrite drop_drop. f_equal. lia.
    + rewrite head_lookup, lookup_take_lt, lookup_drop by lia.
      replace (i + 0)%nat with i by lia. rewrite Hx. congruence.
    + rewrite last_lookup, length_take, length_drop.
      pose proof (lookup_lt_Some _ _ _ Hy) as Hlt.
      replace (Init.Nat.pred ((j - i + 1) `min` (length s - i)))%nat
        with (j - i)%nat by lia.
      rewrite lookup_take_lt, lookup_drop by lia.
      replace (i + (j - i))%nat with j by lia. rewrite Hy. congruence.
  - unfold trim. rewrite Hi. simpl.
    apply find_first_not_of_None in Hi.
    exists (length (chars text)), 0%nat. split_and!; [|done|done].
    simpl. rewrite app_nil_r. by apply replicate_all.
Qed.

Lemma find_first_not_of_replicate c n x r :
  x ≠ c → find_first_not_of c (replicate n c ++ x :: r) = Some n.
Proof.
  intros Hx. induction n as [|n IH]; simpl.
  - by destruct (decide (x = c)).
  - destruct (decide (c = c)); [|done]. by rewrite IH.
Qed.

Lemma find_last_not_of_snoc c u y m :
  y ≠ c → find_last_not_of c (u ++ y :: replicate m c) = Some (length u).
Proof.
  intros Hy. induction u as [|x u IH]; simpl.
  - assert (find_last_not_of c (replicate m c) = None) as ->.
    { apply find_last_not_of_None. by apply Forall_replicate. }
    by destruct (decide (y = c)).
  - by rewrite IH.
Qed.

(** The trimmed part is the only way to split a text like this. *)
Lemma trim_unique text n m w :
  chars text = replicate n " "%char ++ w ++ replicate m " "%char →
  head w ≠ Some " "%char → last w ≠ Some " "%char →
  chars (trim text) = w.
Proof.
  intros Hs Hh Hl.
  destruct w as [|x w0] using rev_ind.
  - assert (find_first_not_of " " (chars text) = None) as Hnone.
    { apply find_first_not_of_None. rewrite Hs. simpl.
      apply Forall_app. split; by apply Forall_replicate. }
    unfold trim. by rewrite Hnone.
  - clear IHw0. rewrite last_snoc in Hl.
    assert (Hx : x ≠ " "%char) by congruence.
    assert (Hi : find_first_not_of " " (chars text) = Some n).
    { rewrite Hs. destruct w0 as [|z w0]; simpl.
      - by apply find_first_not_of_replicate.
      - apply find_first_not_of_replicate. simpl in Hh. congruence. }
    assert (Hj : find_last_not_of " " (chars text) = Some (n + length w0)%nat).
    { rewrite Hs. rewrite <- (app_assoc w0), (app_assoc (replicate n _)). simpl.
      rewrite find_last_not_of_snoc by done.
      by rewrite length_app, length_replicate. }
    destruct (chars_trim text _ _ Hi Hj) as [-> _]. rewrite Hs.
    rewrite drop_app_length' by (by rewrite length_replicate).
    apply take_app_length'. rewrite length_app. simpl. lia.
Qed.

(** The size of the trimmed view is the number of its characters. *)
Lemma trim_size text : size (trim text) = length (chars (trim text)).
Proof.
  destruct (find_first_not_of " " (chars text)) as [i|] eqn:Hi.
  - destruct (find_last_not_of_is_Some _ _ _ Hi) as (j & Hj & Hij).
    destruct (chars_trim text i j Hi Hj) as [-> (d & Hd & Hd' & -> & Hjs & Hjd)].
    unfold chars. rewrite Hd, length_take, length_drop, length_take. lia.
  - unfold trim. by rewrite Hi.
Qed.

End trimming.

(** X15.  [detail::trim] returns the part of the text between its leading
    and its trailing spaces, and nothing else characterizes it: the
    characters of the result are [w] exactly when [w] neither begins nor ends
    with a space and the text is [w] with spaces, and only spaces, before and
    after it.  Other white space, and the spaces inside, stay. *)
Theorem trim_characterization (text : xml.string_view) (w : list ascii) :
  xml.chars (xml.trim text) = w ↔
  head w ≠ Some " "%char ∧ last w ≠ Some " "%char ∧
  ∃ n m, xml.chars text = replicate n " "%char ++ w ++ replicate m " "%char.
Proof.
  split.
  - intros <-. destruct (trim_split text) as (n & m & Hs & Hh & Hl). eauto.
  - intros (Hh & Hl & n & m & Hs). by apply (trim_unique text n m).
Qed.

(** X16.  Trimming a second time changes nothing; the result is empty
    exactly when the text consists of spaces only, and it is then the
    default view of the null pointer; otherwise it is a view into the text
    given, of a size that its characters fill. *)
Theorem trim_idempotent (text : xml.string_view) :
  xml.chars (xml.trim (xml.trim text)) = xml.chars (xml.trim text) ∧
  (xml.chars (xml.trim text) = [] ↔ Forall (λ x, x = " "%char) (xml.chars text)) ∧
  (xml.chars (xml.trim text) = [] → xml.trim text = xml.null_view) ∧
  xml.size (xml.trim text) = length (xml.chars (xml.trim text)) ∧
  (xml.size (xml.trim text) ≤ length (xml.chars text))%nat.
Proof.
  destruct (trim_split text) as (n & m & Hs & Hh & Hl).
  destruct (trim_split (xml.trim text)) as (n' & m' & Hs' & Hh' & Hl').
  assert (Hblank : xml.chars (xml.trim text) = []
                   ↔ Forall (λ x, x = " "%char) (xml.chars text)).
  { split.
    - intros He. rewrite Hs, He. simpl.
      apply Forall_app. split; by apply Forall_replicate.
    - intros Hall. apply find_first_not_of_None in Hall.
      unfold xml.trim. by rewrite Hall. }
  pose proof (trim_size text) as Hsize.
  split_and!; auto.
  - apply (trim_unique (xml.trim text) 0 0); simpl; auto.
    by rewrite app_nil_r.
  - intros He. apply Hblank, find_first_not_of_None in He.
    unfold xml.trim. by rewrite He.
  - rewrite Hsize, Hs, !length_app. lia.
Qed.

(** ** [xml.h]: ranges of elements *)

Section ranges.
Import xml.

Lemma iterate_nil fuel : iterate fuel [] = [].
Proof. by destruct fuel. Qed.

Lemma findElement_length l : (length (findElement l) ≤ length l)%nat.
Proof.
  induction l as [|n l IH]; simpl; [done|].
  destruct (decide (type n = XML_ELEMENT_NODE)); simpl; lia.
Qed.

Lemma findElement_filter l :
  match findElement l with
  | [] => []
  | e :: next => e :: filter (λ n, type n = XML_ELEMENT_NODE) next
  end = filter (λ n, type n = XML_ELEMENT_NODE) l.
Proof.
  induction l as [|n l IH]; simpl; [done|].
  destruct (decide (type n = XML_ELEMENT_NODE)) as [Hn|Hn].
  - by rewrite filter_cons_True.
  - by rewrite filter_cons_False.
Qed.

Lemma iterate_spec fuel : ∀ it, (length it ≤ fuel)%nat →
  iterate fuel it
  = match it with
    | [] => []
    | e :: next => e :: filter (λ n, type n = XML_ELEMENT_NODE) next
    end.
Proof.
  induction fuel as [|fuel IH]; intros [|e next] Hlen; simpl in *; try done; [lia|].
  f_equal. rewrite IH.
  - apply findElement_filter.
  - pose proof (findElement_length next). lia.
Qed.

Lemma elements_Range head :
  elements (Range head) = filter (λ n, type n = XML_ELEMENT_NODE) head.
Proof.
  unfold elements, Range. rewrite iterate_spec by done. apply findElement_filter.
Qed.

Lemma child_loop_head name els :
  child_loop name els
  = head (filter (λ c, size name = 0%nat ∨ chars name = xml.name c) els).
Proof.
  induction els as [|c els IH]; simpl; [done|].
  destruct (decide (size name = 0%nat ∨ chars name = xml.name c)).
  - by rewrite filter_cons_True.
  - by rewrite filter_cons_False.
Qed.

End ranges.

(** X17.  An [Element::Range] built from the head of a list of siblings
    holds exactly the nodes of type [XML_ELEMENT_NODE] of the list, in the
    order of the list: text, comments and the like in between are skipped.
    [size()] is their number, and [empty()] holds exactly when the list has
    no element node. *)
Theorem Range_holds_the_elements (head : list xml.xmlNode) :
  xml.elements (xml.Range head)
  = filter (λ n, xml.type n = xml.XML_ELEMENT_NODE) head ∧
  xml.Range_size (xml.Range head)
  = length (filter (λ n, xml.type n = xml.XML_ELEMENT_NODE) head) ∧
  (xml.empty (xml.Range head) = true
   ↔ Forall (λ n, xml.type n ≠ xml.XML_ELEMENT_NODE) head).
Proof.
  split; [apply elements_Range|]. split.
  - unfold xml.Range_size. by rewrite elements_Range.
  - unfold xml.Range.
    induction head as [|n l IH]; simpl; [split; [constructor|done]|].
    destruct (decide (xml.type n = xml.XML_ELEMENT_NODE)) as [Hn|Hn]; simpl.
    + split; [done|]. by intros [? _]%Forall_cons.
    + rewrite IH. split; [by constructor|]. by intros [_ ?]%Forall_cons.
Qed.

(** X18.  [Element::child(name)] returns the first child of the element
    that is an element node and, unless [name] is empty, has that name;
    nothing when there is none.  For a name that is not empty this is the
    first element of the range [children(name)], for the empty name the
    first element of [children()]. *)
Theorem child_is_first_match (name : xml.string_view) (e : xml.xmlNode) :
  xml.child name e
  = head (filter (λ c, (xml.size name = 0%nat ∨ xml.chars name = xml.name c)
                       ∧ xml.type c = xml.XML_ELEMENT_NODE)
            (xml.children e)) ∧
  (xml.size name ≠ 0%nat → xml.child name e = head (xml.children_named name e)) ∧
  (xml.size name = 0%nat →
   xml.child name e = head (xml.elements (xml.Element_children e))).
Proof.
  unfold xml.child, xml.children_named, xml.Element_children.
  rewrite child_loop_head, elements_Range. split_and!.
  - by rewrite list_filter_filter.
  - intros Hne. f_equal. apply list_filter_iff. intros c. split.
    + by intros [?|?].
    + by right.
  - intros He. f_equal.
    induction (filter _ (xml.children e)) as [|c l IH]; [done|].
    rewrite filter_cons_True by auto. by rewrite IH.
Qed.

(** ** [xml.h]: Boolean values *)

Section boolean_values.
Import xml.

Lemma chars_of_c_string c : chars (of_c_string c) = c.
Proof. unfold chars, of_c_string. simpl. by apply take_ge. Qed.

Lemma CastValue_bool_cases value :
  (∃ b, CastValue_bool value = Returned b ∧ chars value ∈ bool_texts b) ∨
  (CastValue_bool value = ValidityError (not_a_bool (chars value)) None ∧
   ∀ b, chars value ∉ bool_texts b).
Proof.
  unfold CastValue_bool.
  destruct (decide (chars value = lit "true" ∨ chars value = lit "1")) as [H|H1].
  { left. exists true. split; [done|]. simpl.
    destruct H as [-> | ->]; [apply list_elem_of_here|].
    apply list_elem_of_further, list_elem_of_here. }
  destruct (decide (chars value = lit "false" ∨ chars value = lit "0")) as [H|H2].
  { left. exists false. split; [done|]. simpl.
    destruct H as [-> | ->]; [apply list_elem_of_here|].
    apply list_elem_of_further, list_elem_of_here. }
  right. split; [done|]. intros [] Hin; simpl in Hin;
    rewrite !elem_of_cons, elem_of_nil in Hin; tauto.
Qed.

Lemma bool_texts_disjoint w b b' : w ∈ bool_texts b → w ∈ bool_texts b' → b = b'.
Proof.
  destruct b, b'; simpl; rewrite !elem_of_cons, !elem_of_nil; try done;
    intros [->|[->|[]]] [?|[?|[]]]; discriminate.
Qed.

Lemma bool_texts_no_space w b :
  w ∈ bool_texts b → head w ≠ Some " "%char ∧ last w ≠ Some " "%char.
Proof.
  destruct b; simpl; rewrite !elem_of_cons, !elem_of_nil;
    intros [->|[->|[]]]; split; discriminate.
Qed.

(** [CastValue<bool>] after [trim] on the content of a text node. *)
Lemma CastValue_bool_trim c :
  (∀ b, CastValue_bool (trim (of_c_string c)) = Returned b
        ↔ ∃ n m w, c = replicate n " "%char ++ w ++ replicate m " "%char
                   ∧ w ∈ bool_texts b) ∧
  ((∀ b, CastValue_bool (trim (of_c_string c)) ≠ Returned b) →
   CastValue_bool (trim (of_c_string c))
   = ValidityError (not_a_bool (chars (trim (of_c_string c)))) None).
Proof.
  split.
  - intros b. split.
    + intros Hb.
      destruct (CastValue_bool_cases (trim (of_c_string c)))
        as [(b' & Hb' & Hin)|[He _]]; [|congruence].
      rewrite Hb in Hb'. injection Hb' as <-.
      destruct (trim_split (of_c_string c)) as (n & m & Hs & _).
      rewrite chars_of_c_string in Hs. eauto.
    + intros (n & m & w & Hc & Hw).
      destruct (bool_texts_no_space w b Hw) as [Hh Hl].
      assert (Hchars : chars (trim (of_c_string c)) = w).
      { apply (trim_unique _ n m); auto. by rewrite chars_of_c_string. }
      destruct (CastValue_bool_cases (trim (of_c_string c)))
        as [(b' & Hb' & Hin)|[_ Hno]].
      * rewrite Hchars in Hin. by rewrite (bool_texts_disjoint w b b').
      * rewrite Hchars in Hno. by destruct (Hno b).
  - intros Hno.
    destruct (CastValue_bool_cases (trim (of_c_string c)))
      as [(b' & Hb' & _)|[He _]]; [|done].
    by destruct (Hno b').
Qed.

Lemma trim_size_zero c :
  size (trim (of_c_string c)) = 0%nat ↔ Forall (λ x, x = " "%char) c.
Proof.
  destruct (find_first_not_of " " (chars (of_c_string c))) as [i|] eqn:Hi.
  - destruct (find_last_not_of_is_Some _ _ _ Hi) as (j & Hj & Hij).
    destruct (chars_trim _ i j Hi Hj) as [_ (d & _ & _ & -> & _)].
    split; [lia|]. intros Hall.
    rewrite chars_of_c_string in Hi.
    apply find_first_not_of_None in Hall. congruence.
  - unfold trim. rewrite Hi. simpl. split; [|done]. intros _.
    rewrite chars_of_c_string in Hi. by apply find_first_not_of_None.
Qed.

End boolean_values.

(** X19.  [text<bool>()] of an element whose first text node has the
    content [c] returns [b] exactly when [c] is one of the texts for [b]
    ("true" or "1", "false" or "0"; lower case only) with nothing but spaces
    before and after it.  Otherwise it throws a [ValidityError] whose
    message starts with "Text element: ", quotes the trimmed text and
    carries the line of the element; this is also what a blank text
    gives. *)
Theorem text_as_bool (e t : xml.xmlNode) (c : list ascii) :
  xml.find_text (xml.children e) = Some t → xml.content t = Some c →
  (∀ b, xml.text_as xml.CastValue_bool e = xml.Returned b
        ↔ ∃ n m w, c = replicate n " "%char ++ w ++ replicate m " "%char
                   ∧ w ∈ xml.bool_texts b) ∧
  ((∀ b, xml.text_as xml.CastValue_bool e ≠ xml.Returned b) →
   xml.text_as xml.CastValue_bool e
   = xml.ValidityError
       (xml.lit "Text element: "
        ++ xml.not_a_bool (xml.chars (xml.trim (xml.of_c_string c))))
       (Some (xml.line e))).
Proof.
  intros Ht Hc. unfold xml.text_as, xml.text. rewrite Ht, Hc.
  destruct (CastValue_bool_trim c) as [Hiff Herr].
  destruct (CastValue_bool_cases (xml.trim (xml.of_c_string c)))
    as [(b' & Hb' & Hin)|[He Hno]].
  - rewrite Hb'. split.
    + intros b. rewrite <- Hiff, Hb'. split; congruence.
    + intros H. by destruct (H b').
  - rewrite He. split; [|done].
    intros b. rewrite <- Hiff, He. split; discriminate.
Qed.

(** The element [<flag on=" 1 "> true </flag>]. *)
Lemma text_as_bool_witness :
  (∀ b, xml.text_as xml.CastValue_bool xml.flag_element = xml.Returned b
        ↔ ∃ n m w, xml.lit " true "
                   = replicate n " "%char ++ w ++ replicate m " "%char
                   ∧ w ∈ xml.bool_texts b) ∧
  ((∀ b, xml.text_as xml.CastValue_bool xml.flag_element ≠ xml.Returned b) →
   xml.text_as xml.CastValue_bool xml.flag_element
   = xml.ValidityError
       (xml.lit "Text element: "
        ++ xml.not_a_bool
             (xml.chars (xml.trim (xml.of_c_string (xml.lit " true ")))))
       (Some (xml.line xml.flag_element))).
Proof.
  apply (text_as_bool xml.flag_element (xml.text_node (xml.lit " true "))
           (xml.lit " true ")).
  - reflexivity.
  - reflexivity.
Defined.

(** X20.  [attribute<bool>(name)] of an element node returns nothing, and
    throws nothing, when the element has no attribute [name], and also when
    the value of the attribute is blank, though [has_attribute(name)] is
    true then.  For a value [c] that is not blank it returns [b] exactly when
    [c] is one of the texts for [b] between spaces, and otherwise throws a
    [ValidityError] whose message names the attribute and quotes the
    trimmed value, with the line of the element. *)
Theorem attribute_as_bool (e : xml.xmlNode) (name : list ascii) :
  xml.type e = xml.XML_ELEMENT_NODE →
  (xml.has_attribute name e = false →
   xml.attribute_as xml.CastValue_bool name e = xml.Returned None) ∧
  (∀ a t rest c,
     head (filter (λ a : list ascii * list xml.xmlNode, a.1 = name)
             (xml.properties e)) = Some a →
     a.2 = t :: rest → xml.type t = xml.XML_TEXT_NODE → xml.content t = Some c →
     xml.has_attribute name e = true ∧
     (xml.attribute_as xml.CastValue_bool name e = xml.Returned None
      ↔ Forall (λ x, x = " "%char) c) ∧
     (∀ b, xml.attribute_as xml.CastValue_bool name e = xml.Returned (Some b)
           ↔ ∃ n m w, c = replicate n " "%char ++ w ++ replicate m " "%char
                      ∧ w ∈ xml.bool_texts b) ∧
     ((∀ r, xml.attribute_as xml.CastValue_bool name e ≠ xml.Returned r) →
      xml.attribute_as xml.CastValue_bool name e
      = xml.ValidityError
          (xml.lit "Attribute '" ++ name ++ xml.lit "': "
           ++ xml.not_a_bool (xml.chars (xml.trim (xml.of_c_string c))))
          (Some (xml.line e)))).
Proof.
  intros He. unfold xml.has_attribute, xml.attribute_as, xml.attribute, xml.xmlHasProp.
  destruct (decide (xml.type e = xml.XML_ELEMENT_NODE)); [|done]. split.
  - by destruct (head _).
  - intros a t rest c Ha Ha2 Ht Hc. rewrite Ha, Ha2.
    destruct (decide (xml.type t = xml.XML_TEXT_NODE)); [|done]. rewrite Hc.
    split; [done|].
    destruct (CastValue_bool_trim c) as [Hiff _].
    pose proof (trim_size_zero c) as Hz.
    destruct (decide (xml.size (xml.trim (xml.of_c_string c)) = 0%nat)) as [Hs|Hs].
    + split_and!.
      * split; [intros _; by apply Hz|done].
      * intros b. split; [discriminate|].
        intros (n & m & w & Hcw & Hw). exfalso.
        apply Hz in Hs.
        destruct (bool_texts_no_space w b Hw) as [Hh _].
        rewrite Hcw in Hs. apply Forall_app in Hs as [_ Hs].
        apply Forall_app in Hs as [Hs _].
        destruct w as [|x w]; [|apply Forall_cons in Hs as [-> _]; by apply Hh].
        destruct b; simpl in Hw; rewrite !elem_of_cons, elem_of_nil in Hw;
          destruct Hw as [?|[?|[]]]; discriminate.
      * intros H. by destruct (H None).
    + destruct (CastValue_bool_cases (xml.trim (xml.of_c_string c)))
        as [(b' & Hb' & Hin)|[Herr Hno]].
      * rewrite Hb'. split_and!.
        -- split; [discriminate|]. intros Hall. by apply Hz in Hall.
        -- intros b. rewrite <- Hiff, Hb'. split; congruence.
        -- intros H. by destruct (H (Some b')).
      * rewrite Herr. split_and!.
        -- split; [discriminate|]. intros Hall. by apply Hz in Hall.
        -- intros b. rewrite <- Hiff, Herr. split; discriminate.
        -- done.
Qed.

(** The element [<flag on=" 1 "> true </flag>] and its attribute. *)
Lemma attribute_as_bool_witness :
  (xml.has_attribute (xml.lit "on") xml.flag_element = false →
   xml.attribute_as xml.CastValue_bool (xml.lit "on") xml.flag_element
   = xml.Returned None) ∧
  (∀ a t rest c,
     head (filter (λ a : list ascii * list xml.xmlNode, a.1 = xml.lit "on")
             (xml.properties xml.flag_element)) = Some a →
     a.2 = t :: rest → xml.type t = xml.XML_TEXT_NODE → xml.content t = Some c →
     xml.has_attribute (xml.lit "on") xml.flag_element = true ∧
     (xml.attribute_as xml.CastValue_bool (xml.lit "on") xml.flag_element
      = xml.Returned None
      ↔ Forall (λ x, x = " "%char) c) ∧
     (∀ b, xml.attribute_as xml.CastValue_bool (xml.lit "on") xml.flag_element
           = xml.Returned (Some b)
           ↔ ∃ n m w, c = replicate n " "%char ++ w ++ replicate m " "%char
                      ∧ w ∈ xml.bool_texts b) ∧
     ((∀ r, xml.attribute_as xml.CastValue_bool (xml.lit "on") xml.flag_element
            ≠ xml.Returned r) →
      xml.attribute_as xml.CastValue_bool (xml.lit "on") xml.flag_element
      = xml.ValidityError
          (xml.lit "Attribute '" ++ xml.lit "on" ++ xml.lit "': "
           ++ xml.not_a_bool (xml.chars (xml.trim (xml.of_c_string c))))
          (Some (xml.line xml.flag_element)))).
Proof.
  apply (attribute_as_bool xml.flag_element (xml.lit "on")).
  reflexivity.
Defined.

(** ** [xml.h]: integers *)

Section integers.
Import xml.

Lemma skip_space_split s :
  ∃ ws, s = ws ++ skip_space s ∧ Forall (λ c, isspace c = true) ws.
Proof.
  induction s as [|c s (ws & Hs & Hws)]; simpl.
  - by exists [].
  - destruct (isspace c) eqn:Hc.
    + exists (c :: ws). simpl. split; [by rewrite <- Hs|by constructor].
    + by exists [].
Qed.

Lemma skip_space_stop ws x r :
  Forall (λ c, isspace c = true) ws → isspace x = false →
  skip_space (ws ++ x :: r) = x :: r.
Proof.
  intros Hws Hx. induction Hws as [|c ws Hc _ IH]; simpl.
  - by rewrite Hx.
  - by rewrite Hc.
Qed.

Lemma digits_split acc s :
  ∃ ds, s = ds ++ (digits acc s).2 ∧ Forall (λ c, is_Some (digit c)) ds ∧
        (digits acc s).1 = foldl (λ a c, 10 * a + default 0 (digit c)) acc ds.
Proof.
  revert acc. induction s as [|c s IH]; intros acc; simpl.
  - by exists [].
  - destruct (digit c) as [d|] eqn:Hc.
    + destruct (IH (10 * acc + d)) as (ds & Hs & Hds & Hv).
      exists (c :: ds). simpl. rewrite Hc. simpl. split_and!.
      * by rewrite <- Hs.
      * constructor; [by rewrite Hc|done].
      * done.
    + by exists [].
Qed.

Lemma digits_stop acc ds rest :
  Forall (λ c, is_Some (digit c)) ds → head rest ≫= digit = None →
  digits acc (ds ++ rest)
  = (foldl (λ a c, 10 * a + default 0 (digit c)) acc ds, rest).
Proof.
  intros Hds Hrest. revert acc.
  induction Hds as [|c ds [d Hd] _ IH]; intros acc; simpl.
  - destruct rest as [|x rest]; simpl in *; [done|]. by rewrite Hrest.
  - rewrite Hd. simpl. apply IH.
Qed.

Lemma digit_not_space c : is_Some (digit c) → isspace c = false.
Proof.
  unfold digit, isspace. intros [d Hd].
  destruct (decide (48 ≤ nat_of_ascii c ≤ 57)%nat); [|done].
  apply bool_decide_eq_false. lia.
Qed.

Lemma digit_not_sign c : is_Some (digit c) → c ≠ "-"%char ∧ c ≠ "+"%char.
Proof.
  intros [d Hd]. split; intros ->; vm_compute in Hd; discriminate.
Qed.

Lemma decimal_nonneg ds : 0 ≤ decimal ds.
Proof.
  unfold decimal.
  assert (H : ∀ acc, 0 ≤ acc →
            0 ≤ foldl (λ a c, 10 * a + default 0 (digit c)) acc ds).
  { induction ds as [|c ds IH]; intros acc Hacc; simpl; [done|].
    apply IH. unfold digit.
    destruct (decide (48 ≤ nat_of_ascii c ≤ 57)%nat); simpl; lia. }
  by apply H.
Qed.

(** What [strtoll] returns: nothing converted, or the numeral at the start
    of the string, with its length. *)
Lemma strtoll_cases d :
  strtoll d = (0, 0%nat) ∨
  ∃ w n rest,
    d = w ++ rest ∧ numeral w n ∧ w ≠ [] ∧
    strtoll d = (Z.max LLONG_MIN (Z.min LLONG_MAX n), length w).
Proof.
  unfold strtoll.
  destruct (skip_space_split d) as (ws & Hd & Hws).
  set (s1 := skip_space d) in *.
  assert (Hsign : ∃ sign s2 negative,
    s1 = sign ++ s2 ∧
    (sign = [] ∧ negative = false ∨ sign = ["+"%char] ∧ negative = false
     ∨ sign = ["-"%char] ∧ negative = true) ∧
    match s1 with
    | c :: rest =>
        if decide (c = "-"%char) then (true, rest)
        else if decide (c = "+"%char) then (false, rest)
        else (false, s1)
    | [] => (false, s1)
    end = (negative, s2)).
  { destruct s1 as [|c rest].
    - exists [], [], false. naive_solver.
    - destruct (decide (c = "-"%char)) as [->|].
      + exists ["-"%char], rest, true. naive_solver.
      + destruct (decide (c = "+"%char)) as [->|].
        * exists ["+"%char], rest, false. naive_solver.
        * exists [], (c :: rest), false. naive_solver. }
  destruct Hsign as (sign & s2 & negative & Hs1 & Hsg & ->).
  destruct (digits_split 0 s2) as (ds & Hs2 & Hds & Hv).
  destruct (digits 0 s2) as [magnitude rest]. simpl in *.
  destruct (decide (length rest = length s2)) as [|Hlen]; [by left|]. right.
  assert (Hne : ds ≠ []).
  { intros ->. simpl in Hs2. by rewrite Hs2 in Hlen. }
  exists (ws ++ sign ++ ds), (if negative then - magnitude else magnitude), rest.
  split_and!.
  - by rewrite Hd, Hs1, Hs2, <- !app_assoc.
  - exists ws, sign, ds. split_and!; auto. unfold decimal. rewrite <- Hv.
    destruct Hsg as [[-> ->]|[[-> ->]|[-> ->]]]; auto.
  - destruct ws, sign, ds; done.
  - f_equal. rewrite Hd, Hs1, Hs2, !length_app. lia.
Qed.

(** Conversely, a numeral followed by something that is not a digit is
    what [strtoll] converts. *)
Lemma strtoll_numeral w n rest :
  numeral w n → head rest ≫= digit = None →
  strtoll (w ++ rest) = (Z.max LLONG_MIN (Z.min LLONG_MAX n), length w).
Proof.
  intros (ws & sign & ds & -> & Hws & Hsg & Hne & Hds) Hrest.
  destruct ds as [|c0 ds0] eqn:Eds; [done|]. rewrite <- Eds in *.
  assert (Hc0 : is_Some (digit c0)).
  { rewrite Eds in Hds. by apply Forall_cons in Hds as [? _]. }
  assert (Hskip : skip_space (ws ++ sign ++ ds ++ rest) = sign ++ ds ++ rest).
  { destruct Hsg as [[-> _]|[[-> _]|[-> _]]]; simpl.
    - rewrite Eds. simpl. apply skip_space_stop; [done|].
      by apply digit_not_space.
    - by apply skip_space_stop.
    - by apply skip_space_stop. }
  unfold strtoll. rewrite <- !app_assoc, Hskip.
  assert (Hlen : length rest ≠ length (ds ++ rest)).
  { rewrite length_app, Eds. simpl. lia. }
  assert (Htotal : (length (ws ++ sign ++ ds ++ rest) - length rest)%nat
                   = length (ws ++ sign ++ ds)).
  { rewrite !length_app. lia. }
  destruct (digit_not_sign c0 Hc0) as [Hm Hp].
  destruct Hsg as [[-> ->]|[[-> ->]|[-> ->]]]; simpl.
  - rewrite Eds at 1. simpl.
    destruct (decide (c0 = "-"%char)); [done|].
    destruct (decide (c0 = "+"%char)); [done|].
    rewrite digits_stop by done.
    destruct (decide (length rest = length (ds ++ rest))); [done|].
    unfold decimal. f_equal. rewrite !length_app. simpl. lia.
  - rewrite digits_stop by done.
    destruct (decide (length rest = length (ds ++ rest))); [done|].
    unfold decimal. f_equal. rewrite !length_app. simpl. rewrite !length_app. lia.
  - rewrite digits_stop by done.
    destruct (decide (length rest = length (ds ++ rest))); [done|].
    unfold decimal. f_equal. rewrite !length_app. simpl. rewrite !length_app. lia.
Qed.

Lemma clamp_in_int v n :
  Z.max LLONG_MIN (Z.min LLONG_MAX v) = n → INT_MIN ≤ n ≤ INT_MAX → v = n.
Proof. unfold LLONG_MIN, LLONG_MAX, INT_MIN, INT_MAX. lia. Qed.

Lemma numeral_last w n : numeral w n → ∃ c, last w = Some c ∧ is_Some (digit c).
Proof.
  intros (ws & sign & ds & -> & _ & _ & Hne & Hds).
  destruct ds as [|c ds] using rev_ind; [done|].
  exists c. rewrite !app_assoc, last_snoc. split; [done|].
  apply Forall_app in Hds as [_ Hc]. by apply Forall_cons in Hc as [? _].
Qed.

Lemma strtoll_length d : ((strtoll d).2 ≤ length d)%nat.
Proof.
  unfold strtoll.
  destruct (match skip_space d with
            | c :: rest =>
                if decide (c = "-"%char) then (true, rest)
                else if decide (c = "+"%char) then (false, rest)
                else (false, skip_space d)
            | [] => (false, skip_space d)
            end) as [negative s2].
  destruct (digits 0 s2) as [magnitude rest].
  destruct (decide (length rest = length s2)); simpl; lia.
Qed.

(** On a C string of fewer than 2^31 characters [int len] is the
    difference itself, and so is what it is compared as. *)
Lemma narrow_exact (len : nat) (d : list ascii) :
  (len ≤ length d)%nat → Z.of_nat (length d) < 2 ^ 31 →
  to_size_t (to_int (Z.of_nat len)) = Z.of_nat len.
Proof.
  intros Hle Hd. unfold to_size_t, to_int.
  rewrite (Z.mod_small (Z.of_nat len + 2 ^ 31)) by lia.
  rewrite Z.mod_small by lia. lia.
Qed.

Lemma CastValue_int_short value d :
  data value = Some d → Z.of_nat (length d) < 2 ^ 31 →
  CastValue_int value
  = (let '(ret, len) := strtoll d in
     if decide (len ≠ size value ∨ ret > INT_MAX ∨ ret < INT_MIN)
     then ValidityError (not_an_int (chars value)) None
     else Returned ret).
Proof.
  intros Hd Hshort. unfold CastValue_int. rewrite Hd.
  pose proof (strtoll_length d) as Hlen.
  destruct (strtoll d) as [ret len]. simpl in Hlen.
  rewrite (narrow_exact len d Hlen Hshort).
  repeat case_decide; try done; exfalso; intuition lia.
Qed.

(** What is returned lies in the range of [int], whatever the length. *)
Lemma CastValue_int_range value n :
  CastValue_int value = Returned n → INT_MIN ≤ n ≤ INT_MAX.
Proof.
  unfold CastValue_int. intros H.
  destruct (data value) as [d|]; [|discriminate].
  destruct (strtoll d) as [ret len].
  destruct (decide _) as [|Hok]; [discriminate|].
  injection H as <-. lia.
Qed.

(** What a returned value tells about the view. *)
Lemma CastValue_int_inv value d n :
  data value = Some d → Z.of_nat (length d) < 2 ^ 31 →
  CastValue_int value = Returned n →
  INT_MIN ≤ n ≤ INT_MAX ∧ (numeral (chars value) n ∨ size value = 0%nat ∧ n = 0).
Proof.
  intros Hd Hshort. rewrite (CastValue_int_short value d Hd Hshort).
  intros H.
  destruct (strtoll d) as [ret len] eqn:Hs.
  destruct (decide (len ≠ size value ∨ ret > INT_MAX ∨ ret < INT_MIN))
    as [|Hok]; [discriminate|].
  injection H as <-.
  assert (Hrange : INT_MIN ≤ ret ≤ INT_MAX) by lia.
  assert (Hlen : len = size value) by (destruct (decide (len = size value)); tauto).
  split; [done|].
  destruct (strtoll_cases d) as [H0|(w & v & rest & Hw & Hnum & Hne & Hv)].
  - rewrite Hs in H0. injection H0 as -> ->. right. auto.
  - rewrite Hs in Hv. injection Hv as Hret Hl. left.
    rewrite (clamp_in_int v ret) in Hnum by done.
    unfold chars. rewrite Hd, <- Hlen, Hl, Hw.
    by rewrite take_app_length.
Qed.

(** A view that covers a numeral with no digit after it. *)
Lemma CastValue_int_numeral value w rest n :
  data value = Some (w ++ rest) → Z.of_nat (length (w ++ rest)) < 2 ^ 31 →
  size value = length w → numeral w n →
  head rest ≫= digit = None →
  CastValue_int value
  = if decide (INT_MIN ≤ n ≤ INT_MAX) then Returned n
    else ValidityError (not_an_int w) None.
Proof.
  intros Hd Hshort Hsize Hnum Hrest.
  rewrite (CastValue_int_short value _ Hd Hshort). unfold chars.
  rewrite Hd, Hsize, take_app_length, (strtoll_numeral _ n) by done.
  unfold LLONG_MIN, LLONG_MAX, INT_MIN, INT_MAX.
  repeat case_decide; try done; try lia. f_equal. lia.
Qed.

End integers.

(** X21.  What [CastValue<int>] returns is exact.  A returned [n] is
    within the range of [int].  When the C string that the view points into
    has fewer than 2^31 characters, so that [int len] holds the length that
    [strtoll] has read as it is: when the call returns [n], the characters
    of the view are a decimal numeral that denotes [n]: white space, an
    optional sign and at least one digit, with nothing after the last
    digit; the one exception is a view of size 0 that does not point at a
    numeral, for which the call returns 0.  A view that covers a numeral
    that no digit follows in memory is converted exactly when the number is
    in the range of [int], so a number that [strtoll] had to saturate is
    never taken for a value.  A view of the null pointer is undefined
    behaviour. *)
Theorem CastValue_int_exact (value : xml.string_view) :
  (xml.data value = None → xml.CastValue_int value = xml.UndefinedBehaviour) ∧
  (∀ n, xml.CastValue_int value = xml.Returned n →
        xml.INT_MIN ≤ n ≤ xml.INT_MAX) ∧
  (∀ d, xml.data value = Some d → Z.of_nat (length d) < 2 ^ 31 →
     (∀ n, xml.CastValue_int value = xml.Returned n →
        xml.numeral (xml.chars value) n ∨ xml.size value = 0%nat ∧ n = 0) ∧
     (∀ n w rest,
        d = w ++ rest → xml.size value = length w →
        xml.numeral w n → head rest ≫= xml.digit = None →
        (xml.CastValue_int value = xml.Returned n
         ↔ xml.INT_MIN ≤ n ≤ xml.INT_MAX))).
Proof.
  split_and!.
  - unfold xml.CastValue_int. by intros ->.
  - apply CastValue_int_range.
  - intros d Hd Hshort. split.
    + intros n Hn. by destruct (CastValue_int_inv value d n Hd Hshort Hn).
    + intros n w rest -> Hsize Hnum Hrest.
      rewrite (CastValue_int_numeral value w rest n) by done.
      destruct (decide (xml.INT_MIN ≤ n ≤ xml.INT_MAX)) as [Hr|Hr].
      * split; auto.
      * split; [discriminate|]. intros Hr'. by destruct Hr.
Qed.

(** The view of the two characters of "42" in the C string "42 ". *)
Lemma CastValue_int_exact_witness :
  xml.CastValue_int (xml.mk_string_view (Some (xml.lit "42 ")) 2) = xml.Returned 42
  ∧ xml.numeral (xml.lit "42") 42.
Proof.
  pose proof (CastValue_int_exact (xml.mk_string_view (Some (xml.lit "42 ")) 2))
    as (_ & _ & H).
  destruct (H (xml.lit "42 ") eq_refl ltac:(vm_compute; reflexivity)) as [Hn _].
  assert (Hrun : xml.CastValue_int (xml.mk_string_view (Some (xml.lit "42 ")) 2)
                 = xml.Returned 42) by (vm_compute; reflexivity).
  split; [exact Hrun|].
  destruct (Hn 42 Hrun) as [Hnum|[Hz _]]; [exact Hnum|discriminate].
Defined.

(** X22.  [text<int>()] of an element whose first text node has the
    content [c], of fewer than 2^31 characters: when [c] is blank, [trim]
    yields the view of the null pointer, which [strtoll] is handed, so the
    behaviour is undefined.  Otherwise the call returns [n] exactly when
    [c] is, between spaces, a decimal numeral that denotes [n], with [n] in
    the range of [int]; in all other cases it throws a [ValidityError] that
    starts with "Text element: " and carries the line of the element. *)
Theorem text_as_int (e t : xml.xmlNode) (c : list ascii) :
  xml.find_text (xml.children e) = Some t → xml.content t = Some c →
  Z.of_nat (length c) < 2 ^ 31 →
  (Forall (λ x, x = " "%char) c →
   xml.text_as xml.CastValue_int e = xml.UndefinedBehaviour) ∧
  (¬ Forall (λ x, x = " "%char) c →
   (∀ n, xml.text_as xml.CastValue_int e = xml.Returned n
         ↔ xml.INT_MIN ≤ n ≤ xml.INT_MAX ∧
           ∃ k m w, c = replicate k " "%char ++ w ++ replicate m " "%char
                    ∧ head w ≠ Some " "%char ∧ xml.numeral w n) ∧
   ((∀ n, xml.text_as xml.CastValue_int e ≠ xml.Returned n) →
    xml.text_as xml.CastValue_int e
    = xml.ValidityError
        (xml.lit "Text element: "
         ++ xml.not_an_int (xml.chars (xml.trim (xml.of_c_string c))))
        (Some (xml.line e)))).
Proof.
  intros Ht Hc Hshort. unfold xml.text_as, xml.text. rewrite Ht, Hc. split.
  - intros Hall. apply find_first_not_of_None in Hall.
    unfold xml.trim. by rewrite chars_of_c_string, Hall.
  - intros Hnb.
    destruct (xml.find_first_not_of " " (xml.chars (xml.of_c_string c)))
      as [i|] eqn:Hi;
      [|rewrite chars_of_c_string in Hi; by apply find_first_not_of_None in Hi].
    destruct (find_last_not_of_is_Some _ _ _ Hi) as (j & Hj & Hij).
    destruct (chars_trim _ i j Hi Hj)
      as [Hchars (d & Hd & Hd' & Hsize & Hjs & Hjd)].
    simpl in Hd. injection Hd as <-.
    destruct (trim_split (xml.of_c_string c)) as (k & m & Hsplit & Hh & Hl).
    rewrite chars_of_c_string in Hsplit, Hchars.
    set (v := xml.trim (xml.of_c_string c)) in *.
    assert (Hrest : drop i c = xml.chars v ++ replicate m " "%char).
    { destruct (find_first_not_of_Some _ _ _ Hi) as [Htake _].
      rewrite chars_of_c_string in Htake.
      assert (Hk : k = i).
      { rewrite chars_of_c_string in Hi.
        destruct (xml.chars v) as [|x w] eqn:Ev.
        - exfalso. apply Hnb. rewrite Hsplit. simpl.
          apply Forall_app. split; by apply Forall_replicate.
        - rewrite Hsplit in Hi. simpl in Hi.
          rewrite find_first_not_of_replicate in Hi
            by (simpl in Hh; congruence).
          congruence. }
      subst k. rewrite Hsplit at 1.
      by rewrite drop_app_length' by (by rewrite length_replicate). }
    pose proof (trim_size (xml.of_c_string c)) as Hvsize. fold v in Hvsize.
    assert (Hnodigit : head (replicate m " "%char) ≫= xml.digit = None).
    { by destruct m. }
    assert (Hdshort : Z.of_nat (length (drop i c)) < 2 ^ 31).
    { rewrite length_drop. lia. }
    assert (Hfwd : ∀ n, xml.CastValue_int v = xml.Returned n →
              xml.INT_MIN ≤ n ≤ xml.INT_MAX ∧ xml.numeral (xml.chars v) n).
    { intros n Hn.
      destruct (CastValue_int_inv v _ n Hd' Hdshort Hn) as [Hr [Hnum|[Hz _]]]; [done|].
      exfalso. rewrite Hvsize in Hz.
      apply Hnb. rewrite Hsplit.
      destruct (xml.chars v); [|done]. simpl.
      apply Forall_app. split; by apply Forall_replicate. }
    assert (Hbwd : ∀ n, xml.INT_MIN ≤ n ≤ xml.INT_MAX → xml.numeral (xml.chars v) n →
              xml.CastValue_int v = xml.Returned n).
    { intros n Hr Hnum.
      rewrite (CastValue_int_numeral v (xml.chars v) (replicate m " "%char) n)
        by (rewrite <- ?Hrest; done).
      by destruct (decide (xml.INT_MIN ≤ n ≤ xml.INT_MAX)). }
    split.
    + intros n. destruct (xml.CastValue_int v) as [r|msg l| |] eqn:Hv.
      * split.
        -- intros [= ->]. destruct (Hfwd n eq_refl) as [Hr Hnum].
           split; [done|]. exists k, m, (xml.chars v). auto.
        -- intros (Hr & k' & m' & w & Hcw & Hhw & Hnum).
           assert (xml.chars v = w) as Hw.
           { apply (trim_unique _ k' m'); [by rewrite chars_of_c_string|done|].
             destruct (numeral_last w n Hnum) as (x & -> & Hx).
             intros [= ->]. by destruct Hx. }
           rewrite <- Hw in Hnum. exact (Hbwd n Hr Hnum).
      * split; [discriminate|].
        intros (Hr & k' & m' & w & Hcw & Hhw & Hnum).
        assert (xml.chars v = w) as Hw.
        { apply (trim_unique _ k' m'); [by rewrite chars_of_c_string|done|].
          destruct (numeral_last w n Hnum) as (x & -> & Hx).
          intros [= ->]. by destruct Hx. }
        rewrite <- Hw in Hnum. pose proof (Hbwd n Hr Hnum). discriminate.
      * exfalso. unfold xml.CastValue_int in Hv. rewrite Hd' in Hv.
        destruct (xml.strtoll _), (decide _); discriminate.
      * exfalso. unfold xml.CastValue_int in Hv. rewrite Hd' in Hv.
        destruct (xml.strtoll _), (decide _); discriminate.
    + intros Hno. pose proof (eq_refl (xml.CastValue_int v)) as Hv.
      unfold xml.CastValue_int in Hv at 2. rewrite Hd' in Hv.
      destruct (xml.strtoll _) as [ret len].
      destruct (decide _).
      * by rewrite Hv.
      * rewrite Hv in Hno. by destruct (Hno ret).
Qed.

(** The element [<count> 42</count>]. *)
Lemma text_as_int_witness :
  (Forall (λ x, x = " "%char) (xml.lit " 42") →
   xml.text_as xml.CastValue_int xml.count_element = xml.UndefinedBehaviour) ∧
  (¬ Forall (λ x, x = " "%char) (xml.lit " 42") →
   (∀ n, xml.text_as xml.CastValue_int xml.count_element = xml.Returned n
         ↔ xml.INT_MIN ≤ n ≤ xml.INT_MAX ∧
           ∃ k m w, xml.lit " 42"
                    = replicate k " "%char ++ w ++ replicate m " "%char
                    ∧ head w ≠ Some " "%char ∧ xml.numeral w n) ∧
   ((∀ n, xml.text_as xml.CastValue_int xml.count_element ≠ xml.Returned n) →
    xml.text_as xml.CastValue_int xml.count_element
    = xml.ValidityError
        (xml.lit "Text element: "
         ++ xml.not_an_int
              (xml.chars (xml.trim (xml.of_c_string (xml.lit " 42")))))
        (Some (xml.line xml.count_element)))).
Proof.
  apply (text_as_int xml.count_element (xml.text_node (xml.lit " 42"))
           (xml.lit " 42")).
  - reflexivity.
  - reflexivity.
  - vm_compute. reflexivity.
Defined.
